(** * Tamer: events, rendezvous, closure activation and the driver turn

    A shallow embedding of the core of the Tamer runtime:

    - [Fd]        the validity observers of the file-descriptor wrapper
                  (tamer/fd.hh);
    - [XBase]     [simple_event], [abstract_rendezvous],
                  [explicit_rendezvous] and [tamer_closure] over an explicit
                  heap, with the intrusive waiting, ready and unblocked lists
                  kept as the pointer structures of tamer/xbase.hh;
    - [TameEvent] the typed event facade with its output slots
                  (tame_event.hh);
    - [TameDriver] the driver: fd table, asap array, timer heap, signal
                  table and one turn of the loop (tame_driver.cc).

    Pointers are addresses ([nat]) into finite maps; a null pointer is
    [None].  Dereferencing a pointer that is not in the heap is undefined in
    C++; the embedding leaves the state unchanged there, except where a
    function has to produce a value, in which case it returns [None]. *)

From Stdlib Require Import ZArith Lia Bool List Sorted.
From stdpp Require Import base option list gmap fin_maps.

Local Open Scope Z_scope.

Abbreviation addr := nat.

(** ** The file-descriptor wrapper (tamer/fd.hh) *)

Module Fd.

(** [struct fdimp]: the descriptor and its two reference counts.  The
    locks and the close notifier do not take part in the observers. *)
Record fdimp := mk_fdimp {
  fd_ : Z;
  _refcount : Z;
  _weak_refcount : Z
}.

(** [class fd]: a possibly null pointer to the shared [fdimp]. *)
Record fd := mk_fd { _p : option fdimp }.

Section WithErrno.

(** [EBADF] comes from <errno.h>. *)
Variable EBADF : Z.

(** [fd::fd()] *)
Definition fd_default : fd := mk_fd None.

(** [fd::fd(int value)] *)
Definition fd_of_int (value : Z) : fd :=
  mk_fd (if Z.eqb value (- EBADF) then None else Some (mk_fdimp value 1 0)).

(** [fd::operator unspecified_bool_type()] : non-null member pointer iff
    [_p && _p->fd >= 0]. *)
Definition to_bool (f : fd) : bool :=
  match _p f with
  | Some p => Z.leb 0 (fd_ p)
  | None => false
  end.

(** [fd::valid()] *)
Definition valid (f : fd) : bool :=
  match _p f with
  | Some p => Z.leb 0 (fd_ p)
  | None => false
  end.

(** [fd::operator!()] *)
Definition not_ (f : fd) : bool :=
  match _p f with
  | None => true
  | Some p => Z.ltb (fd_ p) 0
  end.

(** [fd::error()] *)
Definition error (f : fd) : Z :=
  match _p f with
  | Some p => if Z.leb 0 (fd_ p) then 0 else fd_ p
  | None => - EBADF
  end.

(** [fd::value()] *)
Definition value (f : fd) : Z :=
  match _p f with
  | Some p => fd_ p
  | None => - EBADF
  end.

End WithErrno.

End Fd.

(** ** The runtime heap (tamer/xbase.hh) *)

Inductive rendezvous_flags := rnormal | rvolatile.

Inductive rendezvous_type := rgather | rexplicit | rfunctional | rdistribute.

(** The address of a [simple_event *] cell: [&r->waiting_], [&r->ready_]
    or [&e->_r_next].  [_r_pprev] and [ready_ptail_] hold such addresses. *)
Inductive event_loc :=
| loc_waiting (r : addr)
| loc_ready (r : addr)
| loc_r_next (e : addr).

(** A value of type [abstract_rendezvous *]: null, the not-in-queue
    sentinel [unblocked_sentinel()] (the address 1), or a rendezvous. *)
Inductive rdv_ptr :=
| rnull
| rsentinel
| rptr (r : addr).

(** The address of an [abstract_rendezvous *] cell: [&unblocked] or
    [&r->unblocked_next_].  [unblocked_ptail] holds such an address. *)
Inductive rdv_loc :=
| loc_unblocked
| loc_unblocked_next (r : addr).

#[global] Instance rendezvous_type_eq_dec : EqDecision rendezvous_type.
Proof. solve_decision. Defined.
#[global] Instance event_loc_eq_dec : EqDecision event_loc.
Proof. solve_decision. Defined.
#[global] Instance rdv_ptr_eq_dec : EqDecision rdv_ptr.
Proof. solve_decision. Defined.
#[global] Instance rdv_loc_eq_dec : EqDecision rdv_loc.
Proof. solve_decision. Defined.

(** [class simple_event].  [at_trigger_] is the hook word: null when no
    hook is attached; with [at_trigger_f_] null it is another event to
    trigger, otherwise the first argument of the function [at_trigger_f_]. *)
Record simple_event := mk_simple_event {
  _r : option addr;
  _rid : Z;
  _r_next : option addr;
  _r_pprev : option event_loc;
  at_trigger_ : option addr;
  at_trigger_f_ : option nat;
  at_trigger_arg2_ : Z;
  _refcount : Z
}.

(** [class abstract_rendezvous], with the members of its subclasses
    [explicit_rendezvous] ([ready_], [ready_ptail_]) and
    [functional_rendezvous] ([f_]). *)
Record abstract_rendezvous := mk_abstract_rendezvous {
  waiting_ : option addr;
  _blocked_closure : option addr;
  rtype_ : rendezvous_type;
  is_volatile_ : bool;
  unblocked_next_ : rdv_ptr;
  ready_ : option addr;
  ready_ptail_ : event_loc;
  f_ : nat
}.

(** [struct tamer_closure] and the two members [tamer_debug_closure] adds. *)
Record tamer_closure := mk_tamer_closure {
  tamer_activator_ : nat;
  tamer_block_position_ : Z;
  tamer_blocked_file_ : Z;
  tamer_blocked_line_ : Z
}.

(** What a trigger makes observable outside the heap: the completion of an
    event, the call of a functional rendezvous' hook [f_(fr, e, values)], and
    the call of an at-trigger function [f(arg1, arg2)]. *)
Inductive observation :=
| completed (e : addr) (values : bool)
| hook_called (f : nat) (fr e : addr) (values : bool)
| at_trigger_called (f : nat) (arg1 : addr) (arg2 : Z).

#[global] Instance observation_eq_dec : EqDecision observation.
Proof. solve_decision. Defined.

(** ** The driver's own state (tame_driver.cc) *)

Record timeval := mk_timeval { tv_sec : Z; tv_usec : Z }.

(** [union { int schedpos; ttimer *next; } u] *)
Inductive ttimer_u :=
| u_schedpos (pos : Z)
| u_next (next : option addr).

Record ttimer := mk_ttimer {
  u : ttimer_u;
  expiry : timeval;
  trigger : addr
}.

(** An [fd_set] is a bit vector; bit [fd] is tested with [Z.testbit]. *)
Abbreviation fd_set := Z.

Record driver := mk_driver {
  _t : list addr;
  _nt : Z;
  _tcap : Z;
  _tfree : option addr;
  timers : gmap addr ttimer;
  _fd : list addr;
  _fdcap : Z;
  _nfds : Z;
  _readfds : fd_set;
  _writefds : fd_set;
  _asap : list addr;
  _nasap : Z;
  _asapcap : Z;
  now : timeval
}.

(** The file-scope signal state of tame_driver.cc. *)
Record signals := mk_signals {
  sig_pipe : Z * Z;
  sig_any_active : bool;
  sig_active : list bool;
  sig_handlers : list addr;
  sig_blocked : list Z
}.

(** The whole process state.  [mem] is the storage event slots point into;
    [observed] accumulates the observations in program order. *)
Record world := mk_world {
  events : gmap addr simple_event;
  rdvs : gmap addr abstract_rendezvous;
  closures : gmap addr tamer_closure;
  unblocked : rdv_ptr;
  unblocked_ptail : rdv_loc;
  observed : list observation;
  mem : gmap addr Z;
  drv : driver;
  sigs : signals
}.

(** ** Field updates

    [set_f v x] is [x] with its member [f] replaced by [v]. *)

Definition set_r v (x : simple_event) : simple_event :=
  mk_simple_event v (_rid x) (_r_next x) (_r_pprev x) (at_trigger_ x) (at_trigger_f_ x) (at_trigger_arg2_ x) (_refcount x).

Definition set_r_next v (x : simple_event) : simple_event :=
  mk_simple_event (_r x) (_rid x) v (_r_pprev x) (at_trigger_ x) (at_trigger_f_ x) (at_trigger_arg2_ x) (_refcount x).

Definition set_r_pprev v (x : simple_event) : simple_event :=
  mk_simple_event (_r x) (_rid x) (_r_next x) v (at_trigger_ x) (at_trigger_f_ x) (at_trigger_arg2_ x) (_refcount x).

Definition set_at_trigger v (x : simple_event) : simple_event :=
  mk_simple_event (_r x) (_rid x) (_r_next x) (_r_pprev x) v (at_trigger_f_ x) (at_trigger_arg2_ x) (_refcount x).

Definition set_at_trigger_f v (x : simple_event) : simple_event :=
  mk_simple_event (_r x) (_rid x) (_r_next x) (_r_pprev x) (at_trigger_ x) v (at_trigger_arg2_ x) (_refcount x).

Definition set_refcount v (x : simple_event) : simple_event :=
  mk_simple_event (_r x) (_rid x) (_r_next x) (_r_pprev x) (at_trigger_ x) (at_trigger_f_ x) (at_trigger_arg2_ x) v.

Definition set_waiting v (x : abstract_rendezvous) : abstract_rendezvous :=
  mk_abstract_rendezvous v (_blocked_closure x) (rtype_ x) (is_volatile_ x) (unblocked_next_ x) (ready_ x) (ready_ptail_ x) (f_ x).

Definition set_blocked_closure v (x : abstract_rendezvous) : abstract_rendezvous :=
  mk_abstract_rendezvous (waiting_ x) v (rtype_ x) (is_volatile_ x) (unblocked_next_ x) (ready_ x) (ready_ptail_ x) (f_ x).

Definition set_unblocked_next v (x : abstract_rendezvous) : abstract_rendezvous :=
  mk_abstract_rendezvous (waiting_ x) (_blocked_closure x) (rtype_ x) (is_volatile_ x) v (ready_ x) (ready_ptail_ x) (f_ x).

Definition set_ready v (x : abstract_rendezvous) : abstract_rendezvous :=
  mk_abstract_rendezvous (waiting_ x) (_blocked_closure x) (rtype_ x) (is_volatile_ x) (unblocked_next_ x) v (ready_ptail_ x) (f_ x).

Definition set_ready_ptail v (x : abstract_rendezvous) : abstract_rendezvous :=
  mk_abstract_rendezvous (waiting_ x) (_blocked_closure x) (rtype_ x) (is_volatile_ x) (unblocked_next_ x) (ready_ x) v (f_ x).

Definition set_tamer_block_position v (x : tamer_closure) : tamer_closure :=
  mk_tamer_closure (tamer_activator_ x) v (tamer_blocked_file_ x) (tamer_blocked_line_ x).

Definition set_tamer_blocked_file v (x : tamer_closure) : tamer_closure :=
  mk_tamer_closure (tamer_activator_ x) (tamer_block_position_ x) v (tamer_blocked_line_ x).

Definition set_tamer_blocked_line v (x : tamer_closure) : tamer_closure :=
  mk_tamer_closure (tamer_activator_ x) (tamer_block_position_ x) (tamer_blocked_file_ x) v.

Definition set_u v (x : ttimer) : ttimer :=
  mk_ttimer v (expiry x) (trigger x).

Definition set_t v (x : driver) : driver :=
  mk_driver v (_nt x) (_tcap x) (_tfree x) (timers x) (_fd x) (_fdcap x) (_nfds x) (_readfds x) (_writefds x) (_asap x) (_nasap x) (_asapcap x) (now x).

Definition set_nt v (x : driver) : driver :=
  mk_driver (_t x) v (_tcap x) (_tfree x) (timers x) (_fd x) (_fdcap x) (_nfds x) (_readfds x) (_writefds x) (_asap x) (_nasap x) (_asapcap x) (now x).

Definition set_tcap v (x : driver) : driver :=
  mk_driver (_t x) (_nt x) v (_tfree x) (timers x) (_fd x) (_fdcap x) (_nfds x) (_readfds x) (_writefds x) (_asap x) (_nasap x) (_asapcap x) (now x).

Definition set_tfree v (x : driver) : driver :=
  mk_driver (_t x) (_nt x) (_tcap x) v (timers x) (_fd x) (_fdcap x) (_nfds x) (_readfds x) (_writefds x) (_asap x) (_nasap x) (_asapcap x) (now x).

Definition set_timers v (x : driver) : driver :=
  mk_driver (_t x) (_nt x) (_tcap x) (_tfree x) v (_fd x) (_fdcap x) (_nfds x) (_readfds x) (_writefds x) (_asap x) (_nasap x) (_asapcap x) (now x).

Definition set_fd v (x : driver) : driver :=
  mk_driver (_t x) (_nt x) (_tcap x) (_tfree x) (timers x) v (_fdcap x) (_nfds x) (_readfds x) (_writefds x) (_asap x) (_nasap x) (_asapcap x) (now x).

Definition set_fdcap v (x : driver) : driver :=
  mk_driver (_t x) (_nt x) (_tcap x) (_tfree x) (timers x) (_fd x) v (_nfds x) (_readfds x) (_writefds x) (_asap x) (_nasap x) (_asapcap x) (now x).

Definition set_nfds v (x : driver) : driver :=
  mk_driver (_t x) (_nt x) (_tcap x) (_tfree x) (timers x) (_fd x) (_fdcap x) v (_readfds x) (_writefds x) (_asap x) (_nasap x) (_asapcap x) (now x).

Definition set_readfds v (x : driver) : driver :=
  mk_driver (_t x) (_nt x) (_tcap x) (_tfree x) (timers x) (_fd x) (_fdcap x) (_nfds x) v (_writefds x) (_asap x) (_nasap x) (_asapcap x) (now x).

Definition set_writefds v (x : driver) : driver :=
  mk_driver (_t x) (_nt x) (_tcap x) (_tfree x) (timers x) (_fd x) (_fdcap x) (_nfds x) (_readfds x) v (_asap x) (_nasap x) (_asapcap x) (now x).

Definition set_asap v (x : driver) : driver :=
  mk_driver (_t x) (_nt x) (_tcap x) (_tfree x) (timers x) (_fd x) (_fdcap x) (_nfds x) (_readfds x) (_writefds x) v (_nasap x) (_asapcap x) (now x).

Definition set_nasap v (x : driver) : driver :=
  mk_driver (_t x) (_nt x) (_tcap x) (_tfree x) (timers x) (_fd x) (_fdcap x) (_nfds x) (_readfds x) (_writefds x) (_asap x) v (_asapcap x) (now x).

Definition set_asapcap v (x : driver) : driver :=
  mk_driver (_t x) (_nt x) (_tcap x) (_tfree x) (timers x) (_fd x) (_fdcap x) (_nfds x) (_readfds x) (_writefds x) (_asap x) (_nasap x) v (now x).

Definition set_now v (x : driver) : driver :=
  mk_driver (_t x) (_nt x) (_tcap x) (_tfree x) (timers x) (_fd x) (_fdcap x) (_nfds x) (_readfds x) (_writefds x) (_asap x) (_nasap x) (_asapcap x) v.

Definition set_sig_pipe v (x : signals) : signals :=
  mk_signals v (sig_any_active x) (sig_active x) (sig_handlers x) (sig_blocked x).

Definition set_sig_any_active v (x : signals) : signals :=
  mk_signals (sig_pipe x) v (sig_active x) (sig_handlers x) (sig_blocked x).

Definition set_sig_active v (x : signals) : signals :=
  mk_signals (sig_pipe x) (sig_any_active x) v (sig_handlers x) (sig_blocked x).

Definition set_sig_handlers v (x : signals) : signals :=
  mk_signals (sig_pipe x) (sig_any_active x) (sig_active x) v (sig_blocked x).

Definition set_sig_blocked v (x : signals) : signals :=
  mk_signals (sig_pipe x) (sig_any_active x) (sig_active x) (sig_handlers x) v.

Definition set_events v (x : world) : world :=
  mk_world v (rdvs x) (closures x) (unblocked x) (unblocked_ptail x) (observed x) (mem x) (drv x) (sigs x).

Definition set_rdvs v (x : world) : world :=
  mk_world (events x) v (closures x) (unblocked x) (unblocked_ptail x) (observed x) (mem x) (drv x) (sigs x).

Definition set_closures v (x : world) : world :=
  mk_world (events x) (rdvs x) v (unblocked x) (unblocked_ptail x) (observed x) (mem x) (drv x) (sigs x).

Definition set_unblocked v (x : world) : world :=
  mk_world (events x) (rdvs x) (closures x) v (unblocked_ptail x) (observed x) (mem x) (drv x) (sigs x).

Definition set_unblocked_ptail v (x : world) : world :=
  mk_world (events x) (rdvs x) (closures x) (unblocked x) v (observed x) (mem x) (drv x) (sigs x).

Definition set_observed v (x : world) : world :=
  mk_world (events x) (rdvs x) (closures x) (unblocked x) (unblocked_ptail x) v (mem x) (drv x) (sigs x).

Definition set_mem v (x : world) : world :=
  mk_world (events x) (rdvs x) (closures x) (unblocked x) (unblocked_ptail x) (observed x) v (drv x) (sigs x).

Definition set_drv v (x : world) : world :=
  mk_world (events x) (rdvs x) (closures x) (unblocked x) (unblocked_ptail x) (observed x) (mem x) v (sigs x).

Definition set_sigs v (x : world) : world :=
  mk_world (events x) (rdvs x) (closures x) (unblocked x) (unblocked_ptail x) (observed x) (mem x) (drv x) v.

(** [unsigned] arithmetic wraps at 2^32. *)
Definition u32 (z : Z) : Z := z mod 2 ^ 32.

(** The value an [int] takes for the mathematical result [z]: [z] itself
    from [-2^31] to [2^31 - 1], and the two's-complement wrap-around of the
    compiled code beyond (where C++ leaves the result undefined). *)
Definition wrap_int (z : Z) : Z := (z + 2 ^ 31) mod 2 ^ 32 - 2 ^ 31.

(** ** Events and rendezvous (tamer/xbase.hh) *)

Module XBase.

Definition upd_event (e : addr) (f : simple_event -> simple_event) (w : world) : world :=
  set_events (alter f e (events w)) w.

Definition upd_rdv (r : addr) (f : abstract_rendezvous -> abstract_rendezvous) (w : world) : world :=
  set_rdvs (alter f r (rdvs w)) w.

Definition upd_closure (c : addr) (f : tamer_closure -> tamer_closure) (w : world) : world :=
  set_closures (alter f c (closures w)) w.

(** [*l = p] for a [simple_event **l] *)
Definition store_event_loc (l : event_loc) (p : option addr) (w : world) : world :=
  match l with
  | loc_waiting r => upd_rdv r (set_waiting p) w
  | loc_ready r => upd_rdv r (set_ready p) w
  | loc_r_next e => upd_event e (set_r_next p) w
  end.

(** [*l = p] for an [abstract_rendezvous **l] *)
Definition store_rdv_loc (l : rdv_loc) (p : rdv_ptr) (w : world) : world :=
  match l with
  | loc_unblocked => set_unblocked p w
  | loc_unblocked_next r => upd_rdv r (set_unblocked_next p) w
  end.

Definition observe (o : observation) (w : world) : world :=
  set_observed (observed w ++ [o]) w.

(** [abstract_rendezvous::abstract_rendezvous(flags, rtype)] constructs the
    object at address [r].  The constructor does not initialise
    [unblocked_next_]; [junk] is whatever the storage held.  The members of
    the subclasses get the values their constructors give them:
    [ready_(), ready_ptail_(&ready_)] and [f_(f)]. *)
Definition new_rendezvous (r : addr) (flags : rendezvous_flags)
    (rtype : rendezvous_type) (f : nat) (junk : rdv_ptr) (w : world) : world :=
  set_rdvs (<[r := mk_abstract_rendezvous None None rtype
                     (match flags with rvolatile => true | rnormal => false end)
                     junk None (loc_ready r) f]> (rdvs w)) w.

(** [explicit_rendezvous::explicit_rendezvous(flags)] *)
Definition new_explicit_rendezvous (r : addr) (flags : rendezvous_flags)
    (junk : rdv_ptr) (w : world) : world :=
  new_rendezvous r flags rexplicit 0%nat junk w.

(** [functional_rendezvous::functional_rendezvous(f)] *)
Definition new_functional_rendezvous (r : addr) (f : nat) (junk : rdv_ptr)
    (w : world) : world :=
  new_rendezvous r rnormal rfunctional f junk w.

(** [tamer_closure::tamer_closure(activator)] *)
Definition new_closure (c : addr) (activator : nat) (w : world) : world :=
  set_closures (<[c := mk_tamer_closure activator 0 0 0]> (closures w)) w.

(** [simple_event::simple_event()] : [_r(0), _refcount(1)] *)
Definition new_empty_event (e : addr) (w : world) : world :=
  set_events (<[e := mk_simple_event None 0 None None None None 0 1]> (events w)) w.

(** [simple_event::initialize(r, rid)] *)
Definition initialize (this r : addr) (rid : Z) (w : world) : world :=
  match rdvs w !! r with
  | None => w
  | Some R =>
    let w := upd_event this (fun ev => set_r_pprev (Some (loc_waiting r))
                                        (mk_simple_event (Some r) rid (_r_next ev) (_r_pprev ev)
                                           (at_trigger_ ev) (at_trigger_f_ ev)
                                           (at_trigger_arg2_ ev) (_refcount ev))) w in
    let w := match waiting_ R with
             | Some first => upd_event first (set_r_pprev (Some (loc_r_next this))) w
             | None => w
             end in
    let w := upd_event this (fun ev => set_at_trigger_f None
                                        (set_at_trigger None
                                           (set_r_next (waiting_ R) ev))) w in
    upd_rdv r (set_waiting (Some this)) w
  end.

(** [simple_event::use(e)] *)
Definition use (e : option addr) (w : world) : world :=
  match e with
  | Some a => upd_event a (fun ev => set_refcount (u32 (_refcount ev + 1)) ev) w
  | None => w
  end.

(** [simple_event::unuse_clean(e)] *)
Definition unuse_clean (e : option addr) (w : world) : world :=
  match e with
  | Some a =>
    match events w !! a with
    | Some ev =>
      let rc := u32 (_refcount ev - 1) in
      let w := upd_event a (set_refcount rc) w in
      if Z.eqb rc 0 then set_events (delete a (events w)) w else w
    | None => w
    end
  | None => w
  end.

(** [simple_event::empty()] *)
Definition empty (e : addr) (w : world) : bool :=
  match events w !! e with
  | Some ev => match _r ev with None => true | Some _ => false end
  | None => true
  end.

(** [simple_event::operator unspecified_bool_type()] *)
Definition to_bool (e : addr) (w : world) : bool := negb (empty e w).

(** [simple_event::rid()] *)
Definition rid (e : addr) (w : world) : option Z := _rid <$> events w !! e.

(** [abstract_rendezvous::block(tamer_closure &c, position, file, line)].
    [None] when the assertion fails. *)
Definition block (r c : addr) (position : Z) (w : world) : option world :=
  match rdvs w !! r, closures w !! c with
  | Some R, Some _ =>
    match _blocked_closure R with
    | Some _ => None
    | None =>
      let w := upd_rdv r (fun R => set_unblocked_next rsentinel
                                     (set_blocked_closure (Some c) R)) w in
      Some (upd_closure c (set_tamer_block_position position) w)
    end
  | _, _ => None
  end.

(** [abstract_rendezvous::block(tamer_debug_closure &c, position, file, line)] *)
Definition block_debug (r c : addr) (position : Z) (file line : Z) (w : world)
    : option world :=
  match block r c (u32 (- position)) w with
  | Some w =>
    Some (upd_closure c (fun C => set_tamer_blocked_line line
                                    (set_tamer_blocked_file file C)) w)
  | None => None
  end.

(** [abstract_rendezvous::unblock()] *)
Definition unblock (r : addr) (w : world) : world :=
  match rdvs w !! r with
  | Some R =>
    match _blocked_closure R, unblocked_next_ R with
    | Some _, rsentinel =>
      let w := store_rdv_loc (unblocked_ptail w) (rptr r) w in
      let w := upd_rdv r (set_unblocked_next rnull) w in
      set_unblocked_ptail (loc_unblocked_next r) w
    | _, _ => w
    end
  | None => w
  end.

(** [abstract_rendezvous::has_unblocked()] *)
Definition has_unblocked (w : world) : bool :=
  match unblocked w with rnull => false | _ => true end.

(** [abstract_rendezvous::pop_unblocked()] *)
Definition pop_unblocked (w : world) : rdv_ptr * world :=
  match unblocked w with
  | rptr a =>
    match rdvs w !! a with
    | Some R =>
      let w := set_unblocked (unblocked_next_ R) w in
      (rptr a, match unblocked_next_ R with
               | rnull => set_unblocked_ptail loc_unblocked w
               | _ => w
               end)
    | None => (rptr a, w)
    end
  | r => (r, w)
  end.

(** [explicit_rendezvous::pop_ready()].  [None] when [ready_] is null or
    dangling: the function dereferences it unconditionally. *)
Definition pop_ready (r : addr) (w : world) : option (Z * world) :=
  match rdvs w !! r with
  | Some R =>
    match ready_ R with
    | Some e =>
      match events w !! e with
      | Some ev =>
        let w := upd_rdv r (set_ready (_r_next ev)) w in
        let w := match _r_next ev with
                 | None => upd_rdv r (set_ready_ptail (loc_ready r)) w
                 | Some _ => w
                 end in
        Some (_rid ev, unuse_clean (Some e) w)
      | None => None
      end
    | None => None
    end
  | None => None
  end.

(** The loop of [explicit_rendezvous::remove_ready()]:
    [while (simple_event *e = ready_) { ready_ = e->_r_next; unuse_clean(e); }]
    [None] when [ready_] dangles or the rendezvous does not exist; [fuel]
    bounds the number of iterations. *)
Fixpoint remove_ready_loop (fuel : nat) (r : addr) (w : world) : option world :=
  match fuel with
  | O => None
  | S fuel =>
    match rdvs w !! r with
    | Some R =>
      match ready_ R with
      | Some e =>
        match events w !! e with
        | Some ev =>
          remove_ready_loop fuel r
            (unuse_clean (Some e) (upd_rdv r (set_ready (_r_next ev)) w))
        | None => None
        end
      | None => Some w
      end
    | None => None
    end
  end.

(** [explicit_rendezvous::remove_ready()] *)
Definition remove_ready (fuel : nat) (r : addr) (w : world) : option world :=
  match remove_ready_loop fuel r w with
  | Some w => Some (upd_rdv r (set_ready_ptail (loc_ready r)) w)
  | None => None
  end.

(** Unlinking from the waiting list, as [_r_pprev] and [_r_next] were set
    up by [initialize]:
    [*x->_r_pprev = x->_r_next;
     if (x->_r_next) x->_r_next->_r_pprev = x->_r_pprev;] *)
Definition unlink (ev : simple_event) (w : world) : world :=
  let w := match _r_pprev ev with
           | Some l => store_event_loc l (_r_next ev) w
           | None => w
           end in
  match _r_next ev with
  | Some n => upd_event n (set_r_pprev (_r_pprev ev)) w
  | None => w
  end.

(** Modelled from the spec: the body of [simple_event::simple_trigger] is
    in xbase.cc, which is missing.  Marking the owner rendezvous [r] ready
    with event [x] (section 4.1): an explicit rendezvous appends the event
    to its ready queue and schedules itself as unblocked; a gather
    rendezvous schedules itself as unblocked if no events remain armed; a
    functional rendezvous has its callback invoked with the event and the
    values flag.  The ready queue keeps a reference of its own, the one
    [pop_ready] gives back with [unuse_clean]. *)
Definition mark_ready (r x : addr) (values : bool) (w : world) : world :=
  match rdvs w !! r with
  | Some R =>
    match rtype_ R with
    | rexplicit =>
      let w := use (Some x) w in
      let w := store_event_loc (ready_ptail_ R) (Some x) w in
      let w := upd_rdv r (set_ready_ptail (loc_r_next x)) w in
      let w := upd_event x (set_r_next None) w in
      unblock r w
    | rgather =>
      match waiting_ R with
      | None => unblock r w
      | Some _ => w
      end
    | rfunctional | rdistribute =>
      observe (hook_called (f_ R) r x values) w
    end
  | None => w
  end.

(** Modelled from the spec: [simple_event::simple_trigger(x, values)],
    whose body is in the missing xbase.cc (section 4.1): if already empty,
    no-op; else unlink from the owner's waiting list, clear the owner
    pointer, mark the owner rendezvous ready with this event, then fire the
    at-trigger hook, then drop the arming reference.  A hook that is another
    event is triggered in turn (not as a cancellation, so with [values]
    true); [fuel] bounds the length of such a chain. *)
Fixpoint simple_trigger_fuel (fuel : nat) (x : addr) (values : bool) (w : world)
    : world :=
  match fuel with
  | O => w
  | S fuel =>
    match events w !! x with
    | Some ev =>
      match _r ev with
      | Some r =>
        let w := unlink ev w in
        let w := upd_event x (set_r None) w in
        let w := observe (completed x values) w in
        let w := mark_ready r x values w in
        let w := match at_trigger_ ev, at_trigger_f_ ev with
                 | Some a, Some f =>
                   observe (at_trigger_called f a (at_trigger_arg2_ ev)) w
                 | Some a, None => simple_trigger_fuel fuel a true w
                 | None, _ => w
                 end in
        unuse_clean (Some x) w
      | None => w
      end
    | None => w
    end
  end.

(** Every link of a chain of hooks empties one more armed event, so the
    number of events in the heap bounds the chain. *)
Definition simple_trigger (x : addr) (values : bool) (w : world) : world :=
  simple_trigger_fuel (S (size (events w))) x values w.

(** [simple_event::unuse(e)].  Modelled from the spec:
    [trigger_for_unuse] (xbase.cc, missing) is the trigger-with-cancel of
    section 4.1, "on drop to zero, if still armed then trigger-with-cancel,
    then free". *)
Definition unuse (e : option addr) (w : world) : world :=
  match e with
  | Some a =>
    match events w !! a with
    | Some ev =>
      let rc := u32 (_refcount ev - 1) in
      let w := upd_event a (set_refcount rc) w in
      if Z.eqb rc 0 then
        let w := match _r ev with
                 | Some _ => simple_trigger a false w
                 | None => w
                 end in
        set_events (delete a (events w)) w
      else w
    | None => w
    end
  | None => w
  end.

(** Modelled from the spec: the constructor [simple_event(R &r, i0)] calls
    [r.add(this, i0)] of the missing rendezvous.hh; "construct-armed(r,
    id): links self into r's waiting list at the head, stores (r, id), sets
    refcount=1, clears at-trigger", which is [initialize] on a fresh
    object. *)
Definition new_event (e r : addr) (rid : Z) (w : world) : world :=
  initialize e r rid (new_empty_event e w).

(** Modelled from the spec: [join] is in the missing rendezvous.hh;
    "pops one identifier (returning true) or reports no ready event
    (returning false)". *)
Definition join (r : addr) (w : world) : option Z * world :=
  match rdvs w !! r with
  | Some R =>
    match ready_ R with
    | Some _ =>
      match pop_ready r w with
      | Some (x, w) => (Some x, w)
      | None => (None, w)
      end
    | None => (None, w)
    end
  | None => (None, w)
  end.

Section Activation.

(** The code of the task behind an activator function pointer: user
    code, which may call back into the runtime. *)
Variable activate : nat -> addr -> world -> world.

(** [abstract_rendezvous::run()] *)
Definition run (r : addr) (w : world) : world :=
  match rdvs w !! r with
  | Some R =>
    match _blocked_closure R with
    | Some c =>
      let w := upd_rdv r (set_blocked_closure None) w in
      match closures w !! c with
      | Some C => activate (tamer_activator_ C) c w
      | None => w
      end
    | None => w
    end
  | None => w
  end.

End Activation.

End XBase.

(** ** Typed events (tame_event.hh) *)

Module TameEvent.

(** [_event_superbase::dead], the process-wide sentinel every
    default-constructed event points to ([event<>::event()] is
    [_e(&_event_superbase::dead)]).  tame_driver.cc defines it as
    [_event_superbase::dead(&rendezvous<>::dead, 0)], and the constructor of
    tame_event.hh gives it the reference count 1, the owner
    [&rendezvous<>::dead], the name 0 and no links: at start-up the sentinel
    has an owner, and it reads as empty only once it has been completed.
    This is the address of the object; what the object holds is part of the
    state, as for every other event. *)
Definition dead : addr := 0%nat.

(** Modelled from the spec: [_event_superbase::complete(bool)] is declared
    in the missing tame_rendezvous.hh.  It is the trigger of section 4.1,
    and its result tells whether the transition to empty succeeded, that
    is whether the event was still armed (section 4.2). *)
Definition complete (e : addr) (values : bool) (w : world) : bool * world :=
  (XBase.to_bool e w, XBase.simple_trigger e values w).

(** [class _event_base<T1, T2, T3, T4>]: the base event and the slot
    pointers.  The partial specialisations with fewer slots have the
    leading members only. *)
Record _event_base := mk_event_base {
  base : addr;
  _t1 : option addr;
  _t2 : option addr;
  _t3 : option addr;
  _t4 : option addr
}.

(** [if (_ti) *_ti = ti;] *)
Definition store_slot (p : option addr) (v : Z) (w : world) : world :=
  match p with
  | Some a => set_mem (<[a := v]> (mem w)) w
  | None => w
  end.

(** [_event_base<T1, T2, T3, T4>::trigger(t1, t2, t3, t4)] *)
Definition trigger4 (ev : _event_base) (t1 t2 t3 t4 : Z) (w : world) : world :=
  let '(ok, w) := complete (base ev) true w in
  if ok then
    let w := store_slot (_t1 ev) t1 w in
    let w := store_slot (_t2 ev) t2 w in
    let w := store_slot (_t3 ev) t3 w in
    store_slot (_t4 ev) t4 w
  else w.

(** [_event_base<T1, T2, T3, void>::trigger(t1, t2, t3)] *)
Definition trigger3 (ev : _event_base) (t1 t2 t3 : Z) (w : world) : world :=
  let '(ok, w) := complete (base ev) true w in
  if ok then
    let w := store_slot (_t1 ev) t1 w in
    let w := store_slot (_t2 ev) t2 w in
    store_slot (_t3 ev) t3 w
  else w.

(** [_event_base<T1, T2, void, void>::trigger(t1, t2)] *)
Definition trigger2 (ev : _event_base) (t1 t2 : Z) (w : world) : world :=
  let '(ok, w) := complete (base ev) true w in
  if ok then
    let w := store_slot (_t1 ev) t1 w in
    store_slot (_t2 ev) t2 w
  else w.

(** [_event_base<T1, void, void, void>::trigger(t1)] *)
Definition trigger1 (ev : _event_base) (t1 : Z) (w : world) : world :=
  let '(ok, w) := complete (base ev) true w in
  if ok then store_slot (_t1 ev) t1 w else w.

(** [event<>::trigger()] and [event<>::cancel()] *)
Definition trigger0 (e : addr) (w : world) : world := snd (complete e true w).
Definition cancel (e : addr) (w : world) : world := snd (complete e false w).

(** [event<>::operator bool()] *)
Definition event_bool (e : addr) (w : world) : bool := XBase.to_bool e w.

(** [event<>::event()] : [_e(&dead)], [_e->use()] *)
Definition event_default (w : world) : addr * world := (dead, XBase.use (Some dead) w).

(** [event<>::event(const event<> &e)] *)
Definition event_copy (e : addr) (w : world) : world := XBase.use (Some e) w.

(** [event<>::~event()] *)
Definition event_destroy (e : addr) (w : world) : world := XBase.unuse (Some e) w.

(** [event<>::operator=(const event<> &e)], for the handle holding [old]:
    [e._e->use(); _e->unuse(); _e = e._e;] *)
Definition event_assign (old e : addr) (w : world) : world :=
  XBase.unuse (Some old) (XBase.use (Some e) w).

End TameEvent.

(** ** The driver (tame_driver.cc) *)

Module TameDriver.

Import TameEvent.

Definition NSIGNALS : Z := 32.

Definition upd_drv (f : driver -> driver) (w : world) : world := set_drv (f (drv w)) w.
Definition upd_sigs (f : signals -> signals) (w : world) : world := set_sigs (f (sigs w)) w.

(** Array access [a[i]]; an index out of the array is undefined. *)
Definition idx {A} (a : list A) (i : Z) : option A :=
  if Z.ltb i 0 then None else a !! Z.to_nat i.

(** Array store [a[i] = x]. *)
Definition upd {A} (a : list A) (i : Z) (x : A) : list A :=
  if Z.ltb i 0 then a else <[Z.to_nat i := x]> a.

(** The macros of <sys/time.h> and <sys/select.h>. *)

(** [timercmp(a, b, >)] *)
Definition timercmp_gt (a b : timeval) : bool :=
  if Z.eqb (tv_sec a) (tv_sec b) then Z.ltb (tv_usec b) (tv_usec a)
  else Z.ltb (tv_sec b) (tv_sec a).

(** [timersub(a, b, &result)] *)
Definition timersub (a b : timeval) : timeval :=
  let sec := tv_sec a - tv_sec b in
  let usec := tv_usec a - tv_usec b in
  if Z.ltb usec 0 then mk_timeval (sec - 1) (usec + 1000000)
  else mk_timeval sec usec.

(** [timerclear(&tv)] *)
Definition timerclear : timeval := mk_timeval 0 0.

(** [FD_SETSIZE]: the number of descriptors an [fd_set] has a bit for
    (1024 in <sys/select.h> on Linux). *)
Definition FD_SETSIZE : Z := 1024.

(** [FD_SET], [FD_CLR] and [FD_ISSET] are defined for
    [0 <= fd < FD_SETSIZE].  For a descriptor beyond, the macros address
    memory outside the set, which is undefined; the bit vector here has a
    bit for such a descriptor as well, and nothing is claimed of it. *)
Definition FD_SET (fd : Z) (s : fd_set) : fd_set := Z.setbit s fd.
Definition FD_CLR (fd : Z) (s : fd_set) : fd_set := Z.clearbit s fd.
Definition FD_ISSET (fd : Z) (s : fd_set) : bool := Z.testbit s fd.

(** The timer [_t[i]] points to. *)
Definition timer_at (d : driver) (i : Z) : option (addr * ttimer) :=
  match idx (_t d) i with
  | Some a => match timers d !! a with Some T => Some (a, T) | None => None end
  | None => None
  end.

Definition expiry_of (d : driver) (t : addr) : timeval :=
  match timers d !! t with Some T => expiry T | None => timerclear end.

(** [_t[pos] = t; t->u.schedpos = pos;] *)
Definition place (pos : Z) (t : addr) (d : driver) : driver :=
  set_timers (alter (set_u (u_schedpos pos)) t (timers d)) (set_t (upd (_t d) pos t) d).

(** The first loop of [driver::timer_reheapify_from]: move [t] up from
    [pos]; returns the position reached. *)
Fixpoint sift_up (fuel : nat) (pos : Z) (t : addr) (d : driver) : Z * driver :=
  match fuel with
  | O => (pos, d)
  | S fuel =>
    if Z.ltb 0 pos then
      let npos := Z.shiftr (pos - 1) 1 in
      match timer_at d npos with
      | Some (a, T) =>
        if timercmp_gt (expiry T) (expiry_of d t)
        then sift_up fuel npos t (place pos a d)
        else (pos, d)
      | None => (pos, d)
      end
    else (pos, d)
  end.

(** The second loop of [driver::timer_reheapify_from]: move [t] down from
    [pos] until neither child expires before it. *)
Fixpoint sift_down (fuel : nat) (pos : Z) (t : addr) (d : driver) : driver :=
  match fuel with
  | O => d
  | S fuel =>
    let tp := 2 * pos + 1 in
    let smallest :=
      match (if Z.ltb tp (_nt d) then timer_at d tp else None) with
      | Some (a, T) =>
        if negb (timercmp_gt (expiry T) (expiry_of d t)) then a else t
      | None => t
      end in
    let '(smallest, tp) :=
      match (if Z.ltb (tp + 1) (_nt d) then timer_at d (tp + 1) else None) with
      | Some (a, T) =>
        if negb (timercmp_gt (expiry T) (expiry_of d smallest))
        then (a, tp + 1) else (smallest, tp)
      | None => (smallest, tp)
      end in
    let d := place pos smallest d in
    if Nat.eqb smallest t then d else sift_down fuel tp t d
  end.

(** [driver::timer_reheapify_from(pos, t, will_delete)].  The position
    halves on the way up and at least doubles on the way down, so [_nt]
    steps are enough for either loop. *)
Definition timer_reheapify_from (pos : Z) (t : addr) (d : driver) : driver :=
  let '(pos, d) := sift_up (Z.to_nat pos) pos t d in
  sift_down (S (Z.to_nat (_nt d))) pos t d.

(** The body shared by the two timer loops of [driver::once] up to the
    trigger: [timer_reheapify_from(0, _t[_nt - 1], true); _nt--;] *)
Definition pop_timer (d : driver) : driver :=
  let d := match idx (_t d) (_nt d - 1) with
           | Some last => timer_reheapify_from 0 last d
           | None => d
           end in
  set_nt (_nt d - 1) d.

(** [t->~ttimer(); t->u.next = _tfree; _tfree = t;] *)
Definition free_timer (t : addr) (T : ttimer) (w : world) : world :=
  let w := event_destroy (trigger T) w in
  upd_drv (fun d => set_tfree (Some t)
                      (set_timers (alter (set_u (u_next (_tfree d))) t (timers d)) d)) w.

(** The capacity loop of [driver::expand_fds]:
    [while (fd*2 >= ncap) ncap *= 2; // XXX integer overflow]
    in [int] arithmetic. *)
Fixpoint grow_cap (fuel : nat) (fd ncap : Z) : Z :=
  match fuel with
  | O => ncap
  | S fuel =>
    if Z.leb ncap (wrap_int (fd * 2)) then grow_cap fuel fd (wrap_int (ncap * 2)) else ncap
  end.

(** [driver::expand_fds(fd)].  The new cells are default-constructed
    events: handles to the sentinel, each counted in its reference count.
    After 32 doublings the capacity has wrapped to 0: by then the loop has
    ended, or ends at once (for a negative [fd*2]), or never ends, which
    the 32 rounds here cut short. *)
Definition expand_fds (fd : Z) (w : world) : world :=
  let d := drv w in
  let ncap := grow_cap 32 fd (if Z.eqb (_fdcap d) 0 then 16 else wrap_int (_fdcap d * 2)) in
  let fresh := Z.to_nat (ncap - _fdcap d) in
  let nfd := take (Z.to_nat (_fdcap d)) (_fd d) ++ replicate fresh dead in
  let w := Nat.iter fresh (fun w => snd (event_default w)) w in
  upd_drv (fun d => set_fdcap ncap (set_fd nfd d)) w.

(** [driver::expand_asap()].  The new cells are raw storage; they read as
    the dead sentinel here. *)
Definition expand_asap (w : world) : world :=
  let d := drv w in
  let ncap := if Z.eqb (_asapcap d) 0 then 16 else _asapcap d * 2 in
  let nasap := take (Z.to_nat (_asapcap d)) (_asap d)
               ++ replicate (Z.to_nat (ncap - _asapcap d)) dead in
  upd_drv (fun d => set_asapcap ncap (set_asap nasap d)) w.

(** The first two statements of [driver::at_fd]:
    [if (fd*2 >= _fdcap) expand_fds(fd); _fd[fd*2+write] = trigger;]
    in [int] arithmetic. *)
Definition at_fd_store (fd : Z) (write : bool) (trigger : addr) (w : world) : world :=
  let w := if Z.leb (_fdcap (drv w)) (wrap_int (fd * 2)) then expand_fds fd w else w in
  let i := wrap_int (wrap_int (fd * 2) + (if write then 1 else 0)) in
  match idx (_fd (drv w)) i with
  | Some old =>
    upd_drv (fun d => set_fd (upd (_fd d) i trigger) d) (event_assign old trigger w)
  | None => w
  end.

(** [fd_set *fset = (write ? &_writefds : &_readfds);] read and written
    through. *)
Definition fset (write : bool) (d : driver) : fd_set :=
  if write then _writefds d else _readfds d.

Definition set_fset (write : bool) (s : fd_set) (d : driver) : driver :=
  if write then set_writefds s d else set_readfds s d.

(** [driver::at_fd(fd, write, trigger)] *)
Definition at_fd (fd : Z) (write : bool) (trigger : addr) (w : world) : world :=
  let w := at_fd_store fd write trigger w in
  if event_bool trigger w then
    let w := upd_drv (fun d => set_fset write (FD_SET fd (fset write d)) d) w in
    if Z.leb (_nfds (drv w)) fd then upd_drv (set_nfds (fd + 1)) w else w
  else
    upd_drv (fun d => set_fset write (FD_CLR fd (fset write d)) d) w.

(** Modelled from the spec: [driver::at_asap] is defined in the missing
    tame_driver.hh; "at_asap(event<>): fire the event at the next turn's
    asap phase", the asap queue being "a bounded-capacity grow-by-doubling
    array of Event<>".  The event is copy-constructed into the next free
    cell. *)
Definition at_asap (e : addr) (w : world) : world :=
  let w := if Z.leb (_asapcap (drv w)) (_nasap (drv w)) then expand_asap w else w in
  let w := event_copy e w in
  upd_drv (fun d => set_nasap (_nasap d + 1) (set_asap (upd (_asap d) (_nasap d) e) d)) w.

(** [tame_signal_handler(signal)]: the flags, and the signal blocked with
    [sigprocmask(SIG_BLOCK)].  The byte written to the pipe only wakes
    [select]. *)
Definition tame_signal_handler (signal : Z) (w : world) : world :=
  upd_sigs (fun s => set_sig_blocked (signal :: sig_blocked s)
                       (set_sig_any_active true
                          (set_sig_active (upd (sig_active s) signal true) s))) w.

(** What one turn does, in program order: the system calls it makes, the
    events it triggers (tagged with the loop that triggers them) and the
    rendezvous it runs (tagged with the loop that runs them). *)
Inductive phase := ph_signal | ph_asap | ph_fd | ph_timer.

Inductive drain := drain_signal | drain_final.

Inductive action :=
| act_select (nfds : Z) (rfds wfds : fd_set) (timeout : option timeval)
| act_trigger (ph : phase) (e : addr)
| act_run (d : drain) (r : addr)
| act_sigprocmask_unblock (sigs : list Z)
| act_read_pipe
| act_gettimeofday.

(** What [select] hands back: its return value, [errno], the two sets it
    overwrote, and the signals delivered to the process while it waited. *)
Record select_result := mk_select_result {
  sel_ret : Z;
  sel_errno : Z;
  sel_rfds : fd_set;
  sel_wfds : fd_set;
  sel_signals : list Z
}.

(** // get rid of initial cancelled timers *)
Fixpoint drop_cancelled_timers (fuel : nat) (w : world) : world :=
  match fuel with
  | O => w
  | S fuel =>
    if Z.ltb 0 (_nt (drv w)) then
      match timer_at (drv w) 0 with
      | Some (t, T) =>
        if negb (event_bool (trigger T) w) then
          drop_cancelled_timers fuel (free_timer t T (upd_drv pop_timer w))
        else w
      | None => w
      end
    else w
  end.

(** [_nt > 0 && !timercmp(&_t[0]->expiry, &now, >)] *)
Definition root_due (d : driver) : bool :=
  Z.ltb 0 (_nt d) &&
  match timer_at d 0 with
  | Some (_, T) => negb (timercmp_gt (expiry T) (now d))
  | None => false
  end.

(** // determine timeout
    [None] is the null [toptr]: wait without bound. *)
Definition determine_timeout (w : world) : option timeval :=
  let d := drv w in
  if Z.ltb 0 (_nasap d) || root_due d || sig_any_active (sigs w) then
    Some timerclear
  else if Z.eqb (_nt d) 0 then None
  else
    match timer_at d 0 with
    | Some (_, T) => Some (timersub (expiry T) (now d))
    | None => Some timerclear
    end.

Definition fd_armed (w : world) (i : Z) : bool :=
  match idx (_fd (drv w)) i with
  | Some e => event_bool e w
  | None => false
  end.

(** // get rid of dead descriptors *)
Fixpoint drop_dead_descriptors (fuel : nat) (w : world) : world :=
  match fuel with
  | O => w
  | S fuel =>
    let n := _nfds (drv w) in
    if negb (Z.eqb n 0) && negb (fd_armed w (n * 2 - 2)) && negb (fd_armed w (n * 2 - 1))
    then drop_dead_descriptors fuel (upd_drv (set_nfds (n - 1)) w)
    else w
  end.

(** The arguments of the call to [select]. *)
Definition select_args (w : world) : Z * fd_set * fd_set :=
  let d := drv w in
  let p0 := fst (sig_pipe (sigs w)) in
  if Z.leb 0 p0 then
    (if Z.ltb (_nfds d) p0 then p0 + 1 else _nfds d, FD_SET p0 (_readfds d), _writefds d)
  else (_nfds d, _readfds d, _writefds d).

(** One iteration of the loop over the signal numbers. *)
Definition check_signal (acc : world * list Z * list action) (sig : Z)
    : world * list Z * list action :=
  let '(w, sigs_unblock, tr) := acc in
  match idx (sig_active (sigs w)) sig with
  | Some true =>
    let w := upd_sigs (fun s => set_sig_active (upd (sig_active s) sig false) s) w in
    match idx (sig_handlers (sigs w)) sig with
    | Some h => (trigger0 h w, sigs_unblock ++ [sig], tr ++ [act_trigger ph_signal h])
    | None => (w, sigs_unblock ++ [sig], tr)
    end
  | _ => acc
  end.

(** // run asaps *)
Fixpoint run_asaps (fuel : nat) (w : world) : world * list action :=
  match fuel with
  | O => (w, [])
  | S fuel =>
    if Z.ltb 0 (_nasap (drv w)) then
      let w := upd_drv (fun d => set_nasap (_nasap d - 1) d) w in
      match idx (_asap (drv w)) (_nasap (drv w)) with
      | Some e =>
        let w := event_destroy e (trigger0 e w) in
        let '(w, tr) := run_asaps fuel w in
        (w, act_trigger ph_asap e :: tr)
      | None => run_asaps fuel w
      end
    else (w, [])
  end.

(** [FD_CLR(fd, &set); _fd[i].trigger();] *)
Definition fire_fd (write : bool) (fd : Z) (w : world) : world * list action :=
  let w := upd_drv (fun d => set_fset write (FD_CLR fd (fset write d)) d) w in
  match idx (_fd (drv w)) (fd * 2 + (if write then 1 else 0)) with
  | Some e => (trigger0 e w, [act_trigger ph_fd e])
  | None => (w, [])
  end.

(** // run the file descriptors *)
Fixpoint run_fds (fuel : nat) (fd : Z) (rfds wfds : fd_set) (w : world)
    : world * list action :=
  match fuel with
  | O => (w, [])
  | S fuel =>
    if Z.ltb fd (_nfds (drv w)) then
      let '(w, tr1) := if FD_ISSET fd rfds then fire_fd false fd w else (w, []) in
      let '(w, tr2) := if FD_ISSET fd wfds then fire_fd true fd w else (w, []) in
      let '(w, tr) := run_fds fuel (fd + 1) rfds wfds w in
      (w, tr1 ++ tr2 ++ tr)
    else (w, [])
  end.

(** // run the timers that worked *)
Fixpoint run_timers (fuel : nat) (w : world) : world * list action :=
  match fuel with
  | O => (w, [])
  | S fuel =>
    if Z.ltb 0 (_nt (drv w)) then
      match timer_at (drv w) 0 with
      | Some (t, T) =>
        if negb (timercmp_gt (expiry T) (now (drv w))) then
          let w := upd_drv pop_timer w in
          let w := trigger0 (trigger T) w in
          let w := free_timer t T w in
          let '(w, tr) := run_timers fuel w in
          (w, act_trigger ph_timer (trigger T) :: tr)
        else (w, [])
      | None => (w, [])
      end
    else (w, [])
  end.

Section Turn.

(** The tasks' code. *)
Variable activate : nat -> addr -> world -> world.

(** The environment: the readiness poll and the clock read in this
    turn. *)
Variable select : Z -> fd_set -> fd_set -> option timeval -> select_result.
Variable gettimeofday : timeval.

(** [while (r = unblocked) r->_run();]
    Modelled from the spec: [_rendezvous_base::_run] is in the missing
    tame_rendezvous.hh; "the driver pops r off the unblocked FIFO and
    calls r.run(), which clears r's parked-task pointer and invokes the
    task's activator" (section 4.4).  A task may enqueue further
    rendezvous, so the loop need not end: [None] when [fuel] iterations
    do not empty the queue, or when the queue is broken. *)
Fixpoint run_unblocked (fuel : nat) (d : drain) (w : world)
    : option (world * list action) :=
  match fuel with
  | O => None
  | S fuel =>
    match XBase.pop_unblocked w with
    | (rnull, _) => Some (w, [])
    | (rptr r, w) =>
      match run_unblocked fuel d (XBase.run activate r w) with
      | Some (w, tr) => Some (w, act_run d r :: tr)
      | None => None
      end
    | (rsentinel, _) => None
    end
  end.

(** // run signals
    The pipe is read until it is empty.  [pipe(sig_pipe)] leaves the read
    end blocking, so the last [read] of the loop waits for the next signal
    handler to write; the turn is followed here as it continues once that
    [read] has returned. *)
Definition run_signals (fuel : nat) (w : world) : option (world * list action) :=
  if sig_any_active (sigs w) then
    let w := upd_sigs (set_sig_any_active false) w in
    let '(w, sigs_unblock, tr) :=
      fold_left check_signal (map Z.of_nat (seq 0 (Z.to_nat NSIGNALS))) (w, [], []) in
    match run_unblocked fuel drain_signal w with
    | Some (w, tr_run) =>
      let w := upd_sigs (fun s => set_sig_blocked
                                    (filter (fun x => x ∉ sigs_unblock) (sig_blocked s)) s) w in
      Some (w, tr ++ tr_run ++ [act_sigprocmask_unblock sigs_unblock; act_read_pipe])
    | None => None
    end
  else Some (w, []).

(** [driver::once()] from the return of [select] on. *)
Definition once_from_poll (fuel : nat) (res : select_result) (w : world)
    : option (world * list action) :=
  let w := fold_left (fun w s => tame_signal_handler s w) (sel_signals res) w in
  let nfds := sel_ret res in
  match run_signals fuel w with
  | Some (w, tr_signal) =>
    let '(w, tr_asap) := run_asaps (Z.to_nat (_nasap (drv w))) w in
    let '(w, tr_fd) :=
      if Z.leb 0 nfds
      then run_fds (Z.to_nat (_nfds (drv w))) 0 (sel_rfds res) (sel_wfds res) w
      else (w, []) in
    let w := upd_drv (set_now gettimeofday) w in
    let '(w, tr_timer) := run_timers (Z.to_nat (_nt (drv w))) w in
    match run_unblocked fuel drain_final w with
    | Some (w, tr_run) =>
      Some (w, tr_signal ++ tr_asap ++ tr_fd ++ act_gettimeofday :: tr_timer ++ tr_run)
    | None => None
    end
  | None => None
  end.

(** [driver::once()] up to the call of [select]: the state at the call
    and the arguments passed. *)
Definition before_poll (w : world) : world * (Z * fd_set * fd_set * option timeval) :=
  let w := drop_cancelled_timers (Z.to_nat (_nt (drv w))) w in
  let toptr := determine_timeout w in
  let w := drop_dead_descriptors (Z.to_nat (Z.abs (_nfds (drv w)))) w in
  let '(nfds, rfds, wfds) := select_args w in
  (w, (nfds, rfds, wfds, toptr)).

(** [driver::once()] *)
Definition once (fuel : nat) (w : world) : option (world * list action) :=
  let '(w, (nfds, rfds, wfds, toptr)) := before_poll w in
  match once_from_poll fuel (select nfds rfds wfds toptr) w with
  | Some (w, tr) => Some (w, act_select nfds rfds wfds toptr :: tr)
  | None => None
  end.

(** *** The turn, as far as it gets

    The drain loops need not end, and [once] has no result then.  The
    definitions below follow the same code for the rounds allowed to each
    drain loop and give the state and the actions reached, whether or not
    the loop has ended by then. *)

(** How far the turn got. *)
Inductive progress := in_signal_drain | in_final_drain | returned.

(** [while (r = unblocked) r->_run();] for at most [fuel] rounds; the flag
    tells whether the loop has ended. *)
Fixpoint run_unblocked_upto (fuel : nat) (d : drain) (w : world)
    : world * list action * bool :=
  match fuel with
  | O => (w, [], false)
  | S fuel =>
    match XBase.pop_unblocked w with
    | (rnull, _) => (w, [], true)
    | (rptr r, w) =>
      let '(w, tr, ended) := run_unblocked_upto fuel d (XBase.run activate r w) in
      (w, act_run d r :: tr, ended)
    | (rsentinel, _) => (w, [], false)
    end
  end.

(** // run signals *)
Definition run_signals_upto (fuel : nat) (w : world) : world * list action * bool :=
  if sig_any_active (sigs w) then
    let w := upd_sigs (set_sig_any_active false) w in
    let '(w, sigs_unblock, tr) :=
      fold_left check_signal (map Z.of_nat (seq 0 (Z.to_nat NSIGNALS))) (w, [], []) in
    let '(w, tr_run, ended) := run_unblocked_upto fuel drain_signal w in
    if ended then
      let w := upd_sigs (fun s => set_sig_blocked
                                    (filter (fun x => x ∉ sigs_unblock) (sig_blocked s)) s) w in
      (w, tr ++ tr_run ++ [act_sigprocmask_unblock sigs_unblock; act_read_pipe], true)
    else (w, tr ++ tr_run, false)
  else (w, [], true).

(** [driver::once()] from the return of [select] on. *)
Definition once_from_poll_upto (fuel : nat) (res : select_result) (w : world)
    : world * list action * progress :=
  let w := fold_left (fun w s => tame_signal_handler s w) (sel_signals res) w in
  let nfds := sel_ret res in
  let '(w, tr_signal, ended) := run_signals_upto fuel w in
  if ended then
    let '(w, tr_asap) := run_asaps (Z.to_nat (_nasap (drv w))) w in
    let '(w, tr_fd) :=
      if Z.leb 0 nfds
      then run_fds (Z.to_nat (_nfds (drv w))) 0 (sel_rfds res) (sel_wfds res) w
      else (w, []) in
    let w := upd_drv (set_now gettimeofday) w in
    let '(w, tr_timer) := run_timers (Z.to_nat (_nt (drv w))) w in
    let '(w, tr_run, ended) := run_unblocked_upto fuel drain_final w in
    (w, tr_signal ++ tr_asap ++ tr_fd ++ act_gettimeofday :: tr_timer ++ tr_run,
     if ended then returned else in_final_drain)
  else (w, tr_signal, in_signal_drain).

(** [driver::once()] *)
Definition once_upto (fuel : nat) (w : world) : world * list action * progress :=
  let '(w, (nfds, rfds, wfds, toptr)) := before_poll w in
  let '(w, tr, p) := once_from_poll_upto fuel (select nfds rfds wfds toptr) w in
  (w, act_select nfds rfds wfds toptr :: tr, p).

End Turn.

End TameDriver.

(** ** Vocabulary of the properties *)

(** The part of the world outside the event and rendezvous heap. *)
Definition outside (w : world) : gmap addr Z * driver * signals := (mem w, drv w, sigs w).

Definition is_completion (e : addr) (o : observation) : bool :=
  match o with
  | completed e' _ => Nat.eqb e e'
  | _ => false
  end.

(** How often event [e] has completed (fired or been cancelled) so far. *)
Definition completions (e : addr) (w : world) : nat :=
  length (List.filter (is_completion e) (observed w)).

(** How often event [e] has been cancelled so far: completed without its
    values, [complete(false)]. *)
Definition is_cancellation (e : addr) (o : observation) : bool :=
  match o with
  | completed e' false => Nat.eqb e e'
  | _ => false
  end.

Definition cancellations (e : addr) (w : world) : nat :=
  length (List.filter (is_cancellation e) (observed w)).

(** The life of one event between two states: nothing happened to it, or it
    went from armed to empty and completed exactly once. *)
Definition evolves (e : addr) (w w' : world) : Prop :=
  (XBase.empty e w' = XBase.empty e w /\ completions e w' = completions e w) \/
  (XBase.empty e w = false /\ XBase.empty e w' = true /\
   completions e w' = S (completions e w)).

(** No event has been cancelled between two states. *)
Definition none_cancelled (w w' : world) : Prop :=
  forall e, cancellations e w' = cancellations e w.

(** What [e.trigger()] has done to the event [e] between two states: [e]
    is empty now; if it was armed it has completed exactly once since, and
    not by a cancellation; if it was empty already nothing happened to
    it. *)
Definition triggered (e : addr) (w w' : world) : Prop :=
  XBase.empty e w' = true /\ evolves e w w' /\ cancellations e w' = cancellations e w.

(** A [timeval] as a number of microseconds, and the range of [tv_usec] in
    a normalised one. *)
Definition usec (tv : timeval) : Z := tv_sec tv * 1000000 + tv_usec tv.

Definition normalized (tv : timeval) : Prop := 0 <= tv_usec tv < 1000000.

(** ** The unblocked FIFO as a data structure *)

(** The rendezvous that successive calls of [pop_unblocked] return. *)
Fixpoint unblocked_fifo (fuel : nat) (w : world) : list addr :=
  match fuel with
  | O => []
  | S fuel =>
    match XBase.pop_unblocked w with
    | (rptr r, w') => r :: unblocked_fifo fuel w'
    | _ => []
    end
  end.

(** [l] is the chain of rendezvous linked through [unblocked_next_] from
    the pointer [p] to a null pointer; every member has a task parked. *)
Fixpoint unblocked_chain (w : world) (p : rdv_ptr) (l : list addr) : Prop :=
  match l with
  | [] => p = rnull
  | r :: l =>
    p = rptr r /\
    exists R, rdvs w !! r = Some R /\ _blocked_closure R <> None /\
              unblocked_chain w (unblocked_next_ R) l
  end.

(** The FIFO holds exactly [l], each member once, and [unblocked_ptail]
    addresses the cell that ends the chain. *)
Definition unblocked_queue (w : world) (l : list addr) : Prop :=
  unblocked_chain w (unblocked w) l /\
  NoDup l /\
  unblocked_ptail w = match last l with
                      | Some r => loc_unblocked_next r
                      | None => loc_unblocked
                      end.

(** The operations that touch the FIFO or the rendezvous on it.  [op_resume]
    is one iteration of the driver's loop over the FIFO: [pop_unblocked],
    then [run] on the rendezvous popped, up to the point where [run] hands
    control to the task; what the task does is further operations. *)
Inductive op :=
| op_new_rendezvous (r : addr) (flags : rendezvous_flags) (rtype : rendezvous_type)
    (f : nat) (junk : rdv_ptr)
| op_new_closure (c : addr) (activator : nat)
| op_new_event (e r : addr) (rid : Z)
| op_trigger (e : addr) (values : bool)
| op_join (r : addr)
| op_block (r c : addr) (position : Z)
| op_block_debug (r c : addr) (position file line : Z)
| op_unblock (r : addr)
| op_pop_unblocked
| op_resume.

(** [None] when the operation cannot be carried out: an object constructed
    over a live one, a failed assertion. *)
Definition step (o : op) (w : world) : option world :=
  match o with
  | op_new_rendezvous r flags rtype f junk =>
    match rdvs w !! r with
    | None => Some (XBase.new_rendezvous r flags rtype f junk w)
    | Some _ => None
    end
  | op_new_closure c activator =>
    match closures w !! c with
    | None => Some (XBase.new_closure c activator w)
    | Some _ => None
    end
  | op_new_event e r rid =>
    match events w !! e with
    | None => Some (XBase.new_event e r rid w)
    | Some _ => None
    end
  | op_trigger e values => Some (XBase.simple_trigger e values w)
  | op_join r => Some (snd (XBase.join r w))
  | op_block r c position => XBase.block r c position w
  | op_block_debug r c position file line => XBase.block_debug r c position file line w
  | op_unblock r => Some (XBase.unblock r w)
  | op_pop_unblocked => Some (snd (XBase.pop_unblocked w))
  | op_resume =>
    match XBase.pop_unblocked w with
    | (rptr r, w) => Some (XBase.run (fun _ _ w => w) r w)
    | (_, w) => Some w
    end
  end.

(** At start the FIFO is empty and no rendezvous has a task parked. *)
Definition initial (w : world) : Prop :=
  unblocked w = rnull /\ unblocked_ptail w = loc_unblocked /\
  forall r R, rdvs w !! r = Some R -> _blocked_closure R = None.

Inductive reachable : world -> Prop :=
| reachable_initial w : initial w -> reachable w
| reachable_step w o w' : reachable w -> step o w = Some w' -> reachable w'.

(** What the FIFO depends on in a rendezvous. *)
Definition link_view (w : world) (r : addr) : option (option addr * rdv_ptr) :=
  (fun R => (_blocked_closure R, unblocked_next_ R)) <$> rdvs w !! r.

(** Two states with the same FIFO cells. *)
Definition same_links (w w' : world) : Prop :=
  (forall r, link_view w' r = link_view w r) /\
  unblocked w' = unblocked w /\ unblocked_ptail w' = unblocked_ptail w.

(** ** Output slots *)

(** The memory after the assignments [if (_ti) *_ti = ti], in order. *)
Definition written (slots : list (option addr * Z)) (m : gmap addr Z) : gmap addr Z :=
  fold_left (fun m s => match fst s with Some a => <[a := snd s]> m | None => m end) slots m.

(** Every non-null slot holds the value given for it, unless a later slot
    points to the same storage. *)
Definition slots_hold (slots : list (option addr * Z)) (m : gmap addr Z) : Prop :=
  forall i a v, slots !! i = Some (Some a, v) ->
    (forall j v', (i < j)%nat -> slots !! j <> Some (Some a, v')) ->
    m !! a = Some v.

(** A first trigger [first] of the event [e] with output slots [slots],
    followed by a second trigger [second]: the first writes the slots and
    completes the event, the second changes nothing at all. *)
Definition fires_once (first second : world -> world) (e : addr)
    (slots : list (option addr * Z)) (w : world) : Prop :=
  let w1 := first w in
  mem w1 = written slots (mem w) /\
  slots_hold slots (mem w1) /\
  XBase.empty e w1 = true /\
  completions e w1 = S (completions e w) /\
  second w1 = w1.

(** The FIFO is well formed. *)
Definition has_queue (w : world) : Prop := exists l, unblocked_queue w l.

(** Two states with the same events and the same observations. *)
Definition same_events (w w' : world) : Prop :=
  events w' = events w /\ observed w' = observed w.

(** ** One turn, observed *)

(** The place of an action in the order of the phases of a turn. *)
Definition rank (a : TameDriver.action) : nat :=
  match a with
  | TameDriver.act_select _ _ _ _ => 0
  | TameDriver.act_trigger TameDriver.ph_signal _ => 1
  | TameDriver.act_run TameDriver.drain_signal _ => 2
  | TameDriver.act_sigprocmask_unblock _ => 3
  | TameDriver.act_read_pipe => 3
  | TameDriver.act_trigger TameDriver.ph_asap _ => 4
  | TameDriver.act_trigger TameDriver.ph_fd _ => 5
  | TameDriver.act_gettimeofday => 6
  | TameDriver.act_trigger TameDriver.ph_timer _ => 7
  | TameDriver.act_run TameDriver.drain_final _ => 8
  end%nat.

(** The actions come in the order of their ranks. *)
Definition in_phase_order (tr : list TameDriver.action) : Prop :=
  forall i j a b, (i < j)%nat -> tr !! i = Some a -> tr !! j = Some b ->
    (rank a <= rank b)%nat.

(** No rendezvous is run before the last event is triggered. *)
Definition tasks_resume_last (tr : list TameDriver.action) : Prop :=
  forall i j d r ph e,
    tr !! i = Some (TameDriver.act_run d r) ->
    tr !! j = Some (TameDriver.act_trigger ph e) -> (j < i)%nat.

(** The descriptor table has [_fdcap] cells, two for each descriptor. *)
Definition fd_table_ok (d : driver) : Prop :=
  _fdcap d = Z.of_nat (length (_fd d)) /\ Z.even (_fdcap d) = true.

(** The asap array has [_asapcap] cells, the first [_nasap] of them in
    use. *)
Definition asap_ok (d : driver) : Prop :=
  0 <= _nasap d /\ _nasap d <= _asapcap d /\ _asapcap d = Z.of_nat (length (_asap d)).

(** The asap array only grew between two states. *)
Definition asap_kept (w w' : world) : Prop :=
  asap_ok (drv w) ->
  asap_ok (drv w') /\ _nasap (drv w) <= _nasap (drv w') /\
  forall i, 0 <= i < _nasap (drv w) ->
    TameDriver.idx (_asap (drv w')) i = TameDriver.idx (_asap (drv w)) i.

(** What is asked of the tasks' code about the event [e]: it completes [e]
    at most by triggering it (an empty event stays empty, each completion
    is observed, and [e] is not cancelled), and it takes nothing off the
    asap array. *)
Definition polite (activate : nat -> addr -> world -> world) (e : addr) : Prop :=
  forall f c w,
    evolves e w (activate f c w) /\
    cancellations e (activate f c w) = cancellations e w /\
    asap_kept w (activate f c w).

(** What the phases that run no task preserve: every event evolves, the
    asap array is as before, and no event is cancelled. *)
Definition quiet (w w' : world) : Prop :=
  (forall e, evolves e w w') /\
  (_asap (drv w') = _asap (drv w) /\ _nasap (drv w') = _nasap (drv w) /\
   _asapcap (drv w') = _asapcap (drv w)) /\
  none_cancelled w w'.

(** [EINTR] of <errno.h>, with its value on Linux. *)
Definition EINTR : Z := 4.

(** The reading of the spec for a failed readiness poll: with an error other
    than [EINTR] the turn does not return normally, with [EINTR] the turn ends
    right after the poll. *)
Definition poll_error_ends_turn (activate : nat -> addr -> world -> world)
    (select : Z -> fd_set -> fd_set -> option timeval -> TameDriver.select_result)
    (clock : timeval) (fuel : nat) (w : world) : Prop :=
  let '(_, (nfds, rfds, wfds, toptr)) := TameDriver.before_poll w in
  let res := select nfds rfds wfds toptr in
  TameDriver.sel_ret res = -1 ->
  (TameDriver.sel_errno res <> EINTR ->
     TameDriver.once activate select clock fuel w = None) /\
  (TameDriver.sel_errno res = EINTR ->
     exists w', TameDriver.once activate select clock fuel w =
                Some (w', [TameDriver.act_select nfds rfds wfds toptr])).

(** ** The ready queue of an explicit rendezvous *)

(** The rendezvous an event is armed on, if any. *)
Definition owner (x : addr) (w : world) : option addr :=
  match events w !! x with
  | Some ev => _r ev
  | None => None
  end.

(** [*l] for a [simple_event **l] *)
Definition load_event_loc (l : event_loc) (w : world) : option addr :=
  match l with
  | loc_waiting r => match rdvs w !! r with Some R => waiting_ R | None => None end
  | loc_ready r => match rdvs w !! r with Some R => ready_ R | None => None end
  | loc_r_next e => match events w !! e with Some ev => _r_next ev | None => None end
  end.

(** The events [l] are linked through [_r_next] from the cell [here] on,
    each of them completed, and [tail] is the cell that holds the final
    null pointer. *)
Fixpoint ready_chain (w : world) (here : event_loc) (l : list addr) (tail : event_loc)
    : Prop :=
  match l with
  | [] => load_event_loc here w = None /\ tail = here
  | x :: l =>
    load_event_loc here w = Some x /\
    (exists ev, events w !! x = Some ev /\ _r ev = None) /\
    ready_chain w (loc_r_next x) l tail
  end.

Definition explicit (r : addr) (w : world) : Prop :=
  exists R, rdvs w !! r = Some R /\ rtype_ R = rexplicit.

(** The ready queue of the explicit rendezvous [r] holds the events [l],
    the oldest first: the list at [ready_], with [ready_ptail_] at its end. *)
Definition ready_queue (r : addr) (w : world) (l : list addr) : Prop :=
  exists R, rdvs w !! r = Some R /\ rtype_ R = rexplicit /\
            ready_chain w (loc_ready r) l (ready_ptail_ R).

(** [x->_r_pprev] *)
Definition pprev_of (x : addr) (w : world) : option event_loc :=
  match events w !! x with
  | Some ev => _r_pprev ev
  | None => None
  end.

(** The shape of the heap that [initialize], trigger and [pop_ready] keep:
    the armed events are doubly linked through [_r_next] and [_r_pprev]
    from the [waiting_] cell of a rendezvous, their reference count is not
    zero, and every explicit rendezvous has a ready queue that shares no
    event with another. *)
Record heap_ok (w : world) : Prop := mk_heap_ok {
  ok_pprev : forall x, owner x w <> None ->
    match pprev_of x w with
    | Some (loc_waiting r') => load_event_loc (loc_waiting r') w = Some x
    | Some (loc_r_next y) => owner y w <> None /\ load_event_loc (loc_r_next y) w = Some x
    | _ => False
    end;
  ok_next : forall x n, owner x w <> None -> load_event_loc (loc_r_next x) w = Some n ->
    owner n w <> None /\ pprev_of n w = Some (loc_r_next x);
  ok_refcount : forall x ev, events w !! x = Some ev -> _r ev <> None ->
    u32 (_refcount ev) <> 0;
  ok_ready : forall r, explicit r w -> exists l, ready_queue r w l;
  ok_disjoint : forall r1 r2 l1 l2 z,
    ready_queue r1 w l1 -> ready_queue r2 w l2 -> z ∈ l1 -> z ∈ l2 -> r1 = r2
}.

(** Between two states the event [z] was neither created nor freed and
    kept its identifier and its reference count. *)
Definition event_kept (z : addr) (w w' : world) : Prop :=
  match events w !! z with
  | Some e => exists e', events w' !! z = Some e' /\ _rid e' = _rid e /\
                         _refcount e' = _refcount e
  | None => events w' !! z = None
  end.

(** Between two states the rendezvous [r] was neither created nor freed and
    kept its type and the end of its ready queue. *)
Definition rdv_kept (r : addr) (w w' : world) : Prop :=
  match rdvs w !! r with
  | Some R => exists R', rdvs w' !! r = Some R' /\ rtype_ R' = rtype_ R /\
                         ready_ptail_ R' = ready_ptail_ R
  | None => rdvs w' !! r = None
  end.

(** What the waiting lists and the ready queues depend on in a rendezvous,
    and two states with the same events and the same such cells. *)
Definition queue_view (w : world) (r : addr)
    : option (option addr * option addr * rendezvous_type * event_loc) :=
  (fun R => (waiting_ R, ready_ R, rtype_ R, ready_ptail_ R)) <$> rdvs w !! r.

Definition same_heap (w w' : world) : Prop :=
  events w' = events w /\ forall r, queue_view w' r = queue_view w r.

(** [n] calls of [pop_ready] in a row: the identifiers returned and the
    state left; [None] as soon as one of them is undefined. *)
Fixpoint pop_ready_n (n : nat) (r : addr) (w : world) : option (list Z * world) :=
  match n with
  | O => Some ([], w)
  | S n =>
    match XBase.pop_ready r w with
    | Some (x, w) =>
      match pop_ready_n n r w with
      | Some (xs, w) => Some (x :: xs, w)
      | None => None
      end
    | None => None
    end
  end.

(** The waiting list of a rendezvous: the events [l] are linked through
    [_r_next] from the cell [here] on, each armed on [r], and the [_r_pprev]
    of each addresses the cell that points to it. *)
Fixpoint waiting_chain (w : world) (r : addr) (here : event_loc) (l : list addr) : Prop :=
  match l with
  | [] => load_event_loc here w = None
  | x :: l =>
    load_event_loc here w = Some x /\ owner x w = Some r /\
    pprev_of x w = Some here /\ waiting_chain w r (loc_r_next x) l
  end.

Definition waiting_list (r : addr) (w : world) (l : list addr) : Prop :=
  waiting_chain w r (loc_waiting r) l.

(** [n] calls of [join] in a row, up to the first that finds nothing
    ready: the identifiers returned and the state left. *)
Fixpoint joins (n : nat) (r : addr) (w : world) : list Z * world :=
  match n with
  | O => ([], w)
  | S n =>
    match XBase.join r w with
    | (Some x, w) => let '(xs, w) := joins n r w in (x :: xs, w)
    | (None, w) => ([], w)
    end
  end.

(** The identifier an event was armed with. *)
Definition rid_of (x : addr) (w : world) : Z := default 0 (XBase.rid x w).

(** What a trigger does to the heap: the events [done], all armed before,
    complete in this order and join the ready queues of their owners. *)
Record completes (done : list addr) (w w' : world) : Prop := mk_completes {
  cp_armed : forall z, z ∈ done -> owner z w <> None;
  cp_owner : forall z, owner z w' = if decide (z ∈ done) then None else owner z w;
  cp_queue : forall r l, ready_queue r w l ->
    ready_queue r w' (l ++ filter (fun z => owner z w = Some r) done);
  cp_explicit : forall r, explicit r w' -> explicit r w;
  cp_kept : forall z ev, events w !! z = Some ev -> _r ev = None ->
    exists ev', events w' !! z = Some ev' /\ _refcount ev' = _refcount ev;
  cp_rid : forall z ev', events w' !! z = Some ev' ->
    exists ev, events w !! z = Some ev /\ _rid ev' = _rid ev
}.

(** A sequence of operations, carried out in order. *)
Fixpoint run_ops (os : list op) (w : world) : option world :=
  match os with
  | [] => Some w
  | o :: os =>
    match step o w with
    | Some w => run_ops os w
    | None => None
    end
  end.

(** ** The timer heap

    The array [_t] holds a binary min-heap of timers ordered by expiry; the
    parent of cell [i] is cell [(i - 1) / 2]. *)
Section TimerHeap.
Import TameDriver.

(** [x] expires no later than [y]: [!timercmp(&x->expiry, &y->expiry, >)]. *)
Definition expires_by (d : driver) (x y : addr) : Prop :=
  timercmp_gt (expiry_of d x) (expiry_of d y) = false.

(** The first [_nt] cells of [_t] point to distinct timers, no timer expires
    before its parent, and every timer records its own cell in
    [u.schedpos]. *)
Record timer_heap (d : driver) : Prop := mk_timer_heap {
  th_cells : forall i, 0 <= i < _nt d ->
    exists x, idx (_t d) i = Some x /\ is_Some (timers d !! x);
  th_order : forall i p c, 0 < i < _nt d ->
    idx (_t d) ((i - 1) / 2) = Some p -> idx (_t d) i = Some c -> expires_by d p c;
  th_distinct : NoDup (take (Z.to_nat (_nt d)) (_t d));
  th_sched : forall i x T, 0 <= i < _nt d ->
    idx (_t d) i = Some x -> timers d !! x = Some T -> u T = u_schedpos i
}.

(** What a timer is scheduled for: its expiry and its event.  The third
    field, [u], is the heap's own. *)
Definition timer_data (d : driver) (x : addr) : option (timeval * addr) :=
  (fun T => (expiry T, trigger T)) <$> timers d !! x.

Definition trigger_of (d : driver) (x : addr) : addr :=
  match timers d !! x with Some T => trigger T | None => TameEvent.dead end.

(** The fields of the driver outside the heap. *)
Definition beside_heap (d : driver) :=
  (_nt d, _tcap d, _tfree d, _fd d, _fdcap d, _nfds d, _readfds d, _writefds d,
   _asap d, _nasap d, _asapcap d, now d).

(** The choice made by one round of the second loop of
    [timer_reheapify_from]: the timer to store at [pos], and the cell the
    loop goes on with. *)
Definition sift_pick (pos : Z) (t : addr) (d : driver) : addr * Z :=
  let tp := 2 * pos + 1 in
  let smallest :=
    match (if Z.ltb tp (_nt d) then timer_at d tp else None) with
    | Some (a, T) =>
      if negb (timercmp_gt (expiry T) (expiry_of d t)) then a else t
    | None => t
    end in
  match (if Z.ltb (tp + 1) (_nt d) then timer_at d (tp + 1) else None) with
  | Some (a, T) =>
    if negb (timercmp_gt (expiry T) (expiry_of d smallest))
    then (a, tp + 1) else (smallest, tp)
  | None => (smallest, tp)
  end.

(** The state of the loops of [timer_reheapify_from] on the timer [t] when
    the cell [pos] is free to be overwritten.  The heap is the cells below
    [m]; the cells from [m] on, below [n = _nt], hold [t] itself (the cell
    the root's successor is taken from, when the caller is about to drop
    it).  The cells below [m] other than [pos] are heap-ordered, distinct,
    different from [t] and among the timers [M], and the parent of [pos]
    expires no later than the children of [pos]. *)
Record heap_hole (n m : Z) (t : addr) (M : addr -> Prop) (pos : Z) (d : driver) : Prop :=
  mk_heap_hole {
  h_nt : _nt d = n;
  h_pos : 0 <= pos < m;
  h_m : m <= n;
  h_slot : is_Some (idx (_t d) pos);
  h_t : is_Some (timers d !! t);
  h_stale : forall i, m <= i < n -> idx (_t d) i = Some t;
  h_cells : forall i, 0 <= i < m -> i <> pos ->
    exists x, idx (_t d) i = Some x /\ is_Some (timers d !! x);
  h_order : forall i p c, 0 < i < m -> i <> pos -> (i - 1) / 2 <> pos ->
    idx (_t d) ((i - 1) / 2) = Some p -> idx (_t d) i = Some c -> expires_by d p c;
  h_bridge : forall p i c, 0 < pos -> idx (_t d) ((pos - 1) / 2) = Some p ->
    0 < i < m -> (i - 1) / 2 = pos -> idx (_t d) i = Some c -> expires_by d p c;
  h_mem_t : M t;
  h_mem : forall i x, 0 <= i < m -> i <> pos -> idx (_t d) i = Some x -> M x;
  h_distinct : forall i j x, 0 <= i < m -> 0 <= j < m -> i <> pos -> j <> pos ->
    idx (_t d) i = Some x -> idx (_t d) j = Some x -> i = j;
  h_fresh : forall i, 0 <= i < m -> i <> pos -> idx (_t d) i <> Some t;
  h_sched : forall i x T, 0 <= i < m -> i <> pos ->
    idx (_t d) i = Some x -> timers d !! x = Some T -> u T = u_schedpos i
}.

(** The state between the two loops and in the second: moreover the parent
    of [pos] expires no later than [t]. *)
Definition sift_inv (n m : Z) (t : addr) (M : addr -> Prop) (pos : Z) (d : driver) : Prop :=
  heap_hole n m t M pos d /\
  forall p, 0 < pos -> idx (_t d) ((pos - 1) / 2) = Some p -> expires_by d p t.

(** What the loops leave behind in the cells below [m]. *)
Record sift_done (m : Z) (M : addr -> Prop) (d d' : driver) : Prop := mk_sift_done {
  d_cells : forall i, 0 <= i < m ->
    exists x, idx (_t d') i = Some x /\ is_Some (timers d' !! x);
  d_order : forall i p c, 0 < i < m ->
    idx (_t d') ((i - 1) / 2) = Some p -> idx (_t d') i = Some c -> expires_by d' p c;
  d_mem : forall i x, 0 <= i < m -> idx (_t d') i = Some x -> M x;
  d_distinct : forall i j x, 0 <= i < m -> 0 <= j < m ->
    idx (_t d') i = Some x -> idx (_t d') j = Some x -> i = j;
  d_sched : forall i x T, 0 <= i < m ->
    idx (_t d') i = Some x -> timers d' !! x = Some T -> u T = u_schedpos i;
  d_data : forall x, timer_data d' x = timer_data d x;
  d_beside : beside_heap d' = beside_heap d
}.

(** What a caller of [timer_reheapify_from(pos, t)] has to provide: a heap
    but for the cell [pos], where [t] is to go. *)
Definition heap_except (pos : Z) (t : addr) (d : driver) : Prop :=
  heap_hole (_nt d) (_nt d) t (fun _ => True) pos d.

End TimerHeap.

(** ** The descriptor loop *)

(** The events the descriptor loop of [once()] triggers for descriptor
    [fd]: the read event if [select] reported [fd] readable, then the write
    event if it reported [fd] writable. *)
Definition ready_events (d : driver) (rfds wfds : fd_set) (fd : Z) : list addr :=
  (if TameDriver.FD_ISSET fd rfds
   then option_list (TameDriver.idx (_fd d) (fd * 2)) else []) ++
  (if TameDriver.FD_ISSET fd wfds
   then option_list (TameDriver.idx (_fd d) (fd * 2 + 1)) else []).

(** The fields of the driver other than the two select sets. *)
Definition beside_fd_sets (d : driver) :=
  (_t d, _nt d, _tcap d, _tfree d, timers d, _fd d, _fdcap d, _nfds d,
   _asap d, _nasap d, _asapcap d, now d).

(** ** States for the examples

    A process with nothing registered, in which the sentinel has been
    completed (its owner pointer is null and one handle refers to it), so
    that default-constructed events read as empty; and the same with one
    explicit rendezvous at address 10, three events armed on it (20, 21, 22
    with the identifiers 7, 8, 9, armed in the order 22, 21, 20) and a
    closure 30. *)
Module Example.
Import XBase TameEvent TameDriver.

Definition driver0 : driver :=
  mk_driver [] 0 0 None ∅ [] 0 0 0 0 [] 0 0 (mk_timeval 0 0).

Definition signals0 : signals :=
  mk_signals (-1, -1) false (replicate 32 false) (replicate 32 dead) [].

Definition world0 : world :=
  mk_world (<[dead := mk_simple_event None 0 None None None None 0 1]> ∅)
           ∅ ∅ rnull loc_unblocked [] ∅ driver0 signals0.

Definition world1 : world :=
  new_closure 30 5
    (new_event 20 10 7
       (new_event 21 10 8
          (new_event 22 10 9
             (new_explicit_rendezvous 10 rnormal rsentinel world0)))).

(** [world1] with one timer scheduled for 10.5 s, at the time 7.8 s; its
    event is event 20. *)
Definition world_timer : world :=
  set_drv (mk_driver [40%nat] 1 16 None
             (<[40%nat := mk_ttimer (u_schedpos 0) (mk_timeval 10 500000) 20%nat]> ∅)
             [] 0 0 0 0 [] 0 0 (mk_timeval 7 800000)) world1.

(** Two rendezvous, 10 and 11, each with a task parked and an event fired,
    10 before 11. *)
Definition two_unblocked : list op :=
  [op_new_rendezvous 10 rnormal rexplicit 0 rnull;
   op_new_rendezvous 11 rnormal rgather 0 (rptr 10);
   op_new_closure 30 5; op_new_closure 31 5;
   op_new_event 20 10 7; op_new_event 21 11 0;
   op_block 10 30 1; op_block_debug 11 31 2 0 0;
   op_trigger 20 true; op_unblock 10; op_trigger 21 false; op_trigger 20 true].

(** A task that returns at once. *)
Definition idle (f : nat) (c : addr) (w : world) : world := w.

(** [world1] with closure 30 parked on rendezvous 10, event 20 registered
    for signal 10 and event 22 on the asap array. *)
Definition world_turn : world :=
  at_asap 22
    (upd_sigs (set_sig_handlers (upd (replicate 32 dead) 10 20%nat))
       (default world1 (block 10 30 3 world1))).

(** A poll during which signal 10 is delivered and no descriptor is ready,
    and a poll that fails with the given [errno]. *)
Definition select_signal (nfds : Z) (rfds wfds : fd_set) (toptr : option timeval)
    : select_result :=
  mk_select_result 0 0 0 0 [10].

Definition select_fail (errno : Z) (nfds : Z) (rfds wfds : fd_set)
    (toptr : option timeval) : select_result :=
  mk_select_result (-1) errno rfds wfds [].

(** [world1] after the events 22 and 20 have been triggered, in this
    order: both wait on the ready queue of rendezvous 10. *)
Definition world_ready : world :=
  simple_trigger 20 true (simple_trigger 22 true world1).

(** A driver with four timers in its heap, due at 10 s, 20 s, 30 s and
    25 s, for the events 22, 21, 20 and 21; the time is 22 s. *)
Definition driver_heap : driver :=
  mk_driver [40; 41; 42; 43]%nat 4 16 None
            (<[40%nat := mk_ttimer (u_schedpos 0) (mk_timeval 10 0) 22%nat]>
               (<[41%nat := mk_ttimer (u_schedpos 1) (mk_timeval 20 0) 21%nat]>
                  (<[42%nat := mk_ttimer (u_schedpos 2) (mk_timeval 30 0) 20%nat]>
                     (<[43%nat := mk_ttimer (u_schedpos 3) (mk_timeval 25 0) 21%nat]> ∅))))
            [] 0 0 0 0 [] 0 0 (mk_timeval 22 0).

Definition world_heap : world := set_drv driver_heap world1.

(** [driver_heap] with a fifth timer, due at 5 s, stored in the next free
    cell of the array but not yet moved to its place in the heap. *)
Definition driver_insert : driver :=
  set_nt 5 (set_t [40; 41; 42; 43; 44]%nat
    (set_timers (<[44%nat := mk_ttimer (u_schedpos 4) (mk_timeval 5 0) 20%nat]>
                   (timers driver_heap)) driver_heap)).

(** [world1] with event 20 waiting for descriptor 3 to become readable and
    event 21 for descriptor 1 to become writable. *)
Definition world_fds : world := at_fd 1 true 21 (at_fd 3 false 20 world1).

End Example.

(** * Verification *)

(** ** The file-descriptor observers *)

Module FdFacts.
Import Fd.

Lemma valid_to_bool f : valid f = to_bool f.
Proof. reflexivity. Qed.

Lemma not_valid f : not_ f = negb (valid f).
Proof.
  unfold not_, valid. destruct (_p f) as [p|]; [|reflexivity].
  destruct (Z.leb_spec 0 (fd_ p)), (Z.ltb_spec (fd_ p) 0); simpl; auto; lia.
Qed.

Lemma error_zero_iff EBADF f : EBADF <> 0 -> error EBADF f = 0 <-> valid f = true.
Proof.
  intros HE. unfold error, valid. destruct (_p f) as [p|].
  - destruct (Z.leb_spec 0 (fd_ p)); split; intros; try reflexivity; try discriminate; lia.
  - split; intros; [lia | discriminate].
Qed.

(** C9.  The three validity observers of an fd wrapper agree: [valid()]
    holds iff the boolean conversion holds iff [error()] is 0 (and
    [operator!] is their negation).  A default-constructed fd and
    [fd(-EBADF)] are invalid with [error() = -EBADF]; [fd(f)] for any other
    negative [f] is invalid with [error() = f]. *)
Theorem fd_observers_agree (EBADF : Z) (f : fd) (v : Z) :
  EBADF <> 0 -> v < 0 -> v <> - EBADF ->
  (valid f = true <-> to_bool f = true) /\
  (to_bool f = true <-> error EBADF f = 0) /\
  not_ f = negb (valid f) /\
  (valid fd_default = false /\ error EBADF fd_default = - EBADF) /\
  (valid (fd_of_int EBADF (- EBADF)) = false /\
   error EBADF (fd_of_int EBADF (- EBADF)) = - EBADF) /\
  (valid (fd_of_int EBADF v) = false /\ error EBADF (fd_of_int EBADF v) = v).
Proof.
  intros HE Hv Hne.
  assert (Hbad : forall x, x < 0 -> x <> - EBADF ->
             fd_of_int EBADF x = mk_fd (Some (mk_fdimp x 1 0))).
  { intros x _ Hx. unfold fd_of_int. destruct (Z.eqb_spec x (- EBADF)); [contradiction | reflexivity]. }
  split; [now rewrite valid_to_bool |].
  split; [rewrite <- valid_to_bool; symmetry; apply error_zero_iff, HE |].
  split; [apply not_valid |].
  split; [split; reflexivity |].
  split; [unfold fd_of_int; rewrite Z.eqb_refl; split; reflexivity |].
  rewrite (Hbad v Hv Hne). unfold valid, error. simpl.
  destruct (Z.leb_spec 0 v); [lia | split; reflexivity].
Qed.

Lemma fd_observers_agree_witness :
  let f := fd_of_int 9 3 in
  (valid f = true <-> to_bool f = true) /\
  (to_bool f = true <-> error 9 f = 0) /\
  not_ f = negb (valid f) /\
  (valid fd_default = false /\ error 9 fd_default = - 9) /\
  (valid (fd_of_int 9 (- 9)) = false /\ error 9 (fd_of_int 9 (- 9)) = - 9) /\
  (valid (fd_of_int 9 (- 2)) = false /\ error 9 (fd_of_int 9 (- 2)) = - 2).
Proof. apply (fd_observers_agree 9 (fd_of_int 9 3) (- 2)); lia. Defined.

End FdFacts.

(** ** What the heap operations leave alone *)

Module Frame.
Import XBase.

Lemma outside_upd_event e f w : outside (upd_event e f w) = outside w.
Proof. reflexivity. Qed.
Lemma outside_upd_rdv r f w : outside (upd_rdv r f w) = outside w.
Proof. reflexivity. Qed.
Lemma outside_upd_closure c f w : outside (upd_closure c f w) = outside w.
Proof. reflexivity. Qed.
Lemma outside_observe o w : outside (observe o w) = outside w.
Proof. reflexivity. Qed.
Lemma outside_store_event_loc l p w : outside (store_event_loc l p w) = outside w.
Proof. destruct l; reflexivity. Qed.
Lemma outside_store_rdv_loc l p w : outside (store_rdv_loc l p w) = outside w.
Proof. destruct l; reflexivity. Qed.
Lemma outside_use e w : outside (use e w) = outside w.
Proof. destruct e; reflexivity. Qed.
Lemma outside_unuse_clean e w : outside (unuse_clean e w) = outside w.
Proof. unfold unuse_clean. repeat case_match; reflexivity. Qed.
Lemma outside_unlink ev w : outside (unlink ev w) = outside w.
Proof.
  unfold unlink. repeat case_match; rewrite ?outside_upd_event, ?outside_store_event_loc;
    reflexivity.
Qed.
Lemma outside_unblock r w : outside (unblock r w) = outside w.
Proof.
  unfold unblock. repeat case_match; try reflexivity.
  change (outside (upd_rdv r (set_unblocked_next rnull)
                     (store_rdv_loc (unblocked_ptail w) (rptr r) w)) = outside w).
  now rewrite outside_upd_rdv, outside_store_rdv_loc.
Qed.
Lemma outside_mark_ready r x v w : outside (mark_ready r x v w) = outside w.
Proof.
  unfold mark_ready. repeat case_match;
    rewrite ?outside_unblock, ?outside_upd_event, ?outside_upd_rdv,
      ?outside_store_event_loc, ?outside_use, ?outside_observe; reflexivity.
Qed.
Lemma outside_simple_trigger_fuel n : forall x v w,
  outside (simple_trigger_fuel n x v w) = outside w.
Proof.
  induction n as [|n IH]; intros x v w; cbn [simple_trigger_fuel]; [reflexivity|].
  repeat case_match; rewrite ?outside_unuse_clean, ?IH, ?outside_observe,
    ?outside_mark_ready, ?outside_observe, ?outside_upd_event, ?outside_unlink;
    reflexivity.
Qed.
Lemma outside_simple_trigger x v w : outside (simple_trigger x v w) = outside w.
Proof. apply outside_simple_trigger_fuel. Qed.
Lemma outside_unuse e w : outside (unuse e w) = outside w.
Proof.
  unfold unuse. repeat case_match; try reflexivity.
  - change (outside (simple_trigger n false (upd_event n (set_refcount (u32 (_refcount s - 1))) w))
            = outside w).
    now rewrite outside_simple_trigger.
Qed.

Lemma outside_drv w w' : outside w' = outside w -> drv w' = drv w.
Proof. unfold outside. congruence. Qed.
Lemma outside_sigs w w' : outside w' = outside w -> sigs w' = sigs w.
Proof. unfold outside. congruence. Qed.
Lemma outside_mem w w' : outside w' = outside w -> mem w' = mem w.
Proof. unfold outside. congruence. Qed.


(** *** The life of an event under the heap operations *)

Lemma evolves_refl e w : evolves e w w.
Proof. left. split; reflexivity. Qed.

Lemma evolves_trans e w1 w2 w3 : evolves e w1 w2 -> evolves e w2 w3 -> evolves e w1 w3.
Proof.
  unfold evolves. intros [[H1 H2]|[H1 [H2 H3]]] [[H4 H5]|[H4 [H5 H6]]].
  - left. split; congruence.
  - right. repeat split; congruence.
  - right. repeat split; congruence.
  - congruence.
Qed.

Lemma evolves_same e w w' :
  events w' !! e = events w !! e -> observed w' = observed w -> evolves e w w'.
Proof.
  intros He Ho. left. unfold empty, completions. rewrite He, Ho. split; reflexivity.
Qed.

(** A change that keeps every owner pointer and adds no completion. *)
Lemma evolves_keep e w w' :
  (_r <$> events w' !! e) = (_r <$> events w !! e) ->
  completions e w' = completions e w -> evolves e w w'.
Proof.
  intros He Ho. left. split; [|exact Ho]. unfold empty.
  destruct (events w' !! e), (events w !! e); simpl in He; try congruence.
  injection He as ->. reflexivity.
Qed.

Lemma evolves_empty_stays e w w' : evolves e w w' -> empty e w = true -> empty e w' = true.
Proof. intros [[H _]|[H _]] He; congruence. Qed.

Lemma evolves_completions_le e w w' : evolves e w w' -> (completions e w <= completions e w')%nat.
Proof. intros [[_ H]|[_ [_ H]]]; lia. Qed.

Lemma owner_alter_keep (f : simple_event -> simple_event) a e (m : gmap addr simple_event) :
  (forall ev, _r (f ev) = _r ev) -> (_r <$> alter f a m !! e) = (_r <$> m !! e).
Proof.
  intros Hf. rewrite lookup_alter. case_decide; [subst|reflexivity].
  destruct (m !! e); simpl; [now rewrite Hf | reflexivity].
Qed.

Lemma evolves_upd_event_keep e a f w :
  (forall ev, _r (f ev) = _r ev) -> evolves e w (upd_event a f w).
Proof. intros Hf. apply evolves_keep; [now apply owner_alter_keep | reflexivity]. Qed.

Lemma evolves_upd_rdv e r f w : evolves e w (upd_rdv r f w).
Proof. now apply evolves_same. Qed.

Lemma evolves_upd_closure e c f w : evolves e w (upd_closure c f w).
Proof. now apply evolves_same. Qed.

Lemma completions_observe e o w :
  completions e (observe o w) = (completions e w + (if is_completion e o then 1 else 0))%nat.
Proof.
  unfold completions, observe. cbn. rewrite List.filter_app, length_app. cbn.
  destruct (is_completion e o); reflexivity.
Qed.

Lemma evolves_observe e o w : is_completion e o = false -> evolves e w (observe o w).
Proof.
  intros Ho. apply evolves_keep; [reflexivity|]. rewrite completions_observe, Ho. lia.
Qed.

Lemma evolves_store_event_loc e l p w : evolves e w (store_event_loc l p w).
Proof.
  destruct l; cbn [store_event_loc];
    [apply evolves_upd_rdv | apply evolves_upd_rdv | now apply evolves_upd_event_keep].
Qed.

Lemma evolves_store_rdv_loc e l p w : evolves e w (store_rdv_loc l p w).
Proof. destruct l; now apply evolves_same. Qed.

Lemma evolves_use e x w : evolves e w (use x w).
Proof. destruct x; [now apply evolves_upd_event_keep | apply evolves_refl]. Qed.

Lemma evolves_delete e a w :
  empty a w = true -> evolves e w (set_events (delete a (events w)) w).
Proof.
  intros Ha. left. split; [|reflexivity]. unfold empty in *. cbn.
  rewrite lookup_delete. case_decide; [subst|reflexivity].
  destruct (events w !! e) as [ev|]; [|reflexivity]. destruct (_r ev); [discriminate|reflexivity].
Qed.

Lemma evolves_unuse_clean e a w : empty a w = true -> evolves e w (unuse_clean (Some a) w).
Proof.
  intros Ha. unfold unuse_clean. destruct (events w !! a) as [ev|] eqn:Hev; [|apply evolves_refl].
  assert (Hstep : evolves e w (upd_event a (set_refcount (u32 (_refcount ev - 1))) w))
    by now apply evolves_upd_event_keep.
  destruct (Z.eqb _ 0); [|exact Hstep].
  eapply evolves_trans; [exact Hstep|]. apply evolves_delete.
  eapply evolves_empty_stays; [|exact Ha]. now apply evolves_upd_event_keep.
Qed.

(** Peels the outermost heap update off the state reached. *)
Ltac evolves_chain :=
  lazymatch goal with
  | |- evolves _ ?w ?w => apply evolves_refl
  | |- evolves ?e ?w (upd_event ?a ?f ?w') =>
    apply (evolves_trans e w w');
    [evolves_chain | apply evolves_upd_event_keep; intros; reflexivity]
  | |- evolves ?e ?w (upd_rdv ?a ?f ?w') =>
    apply (evolves_trans e w w'); [evolves_chain | apply evolves_upd_rdv]
  | |- evolves ?e ?w (upd_closure ?a ?f ?w') =>
    apply (evolves_trans e w w'); [evolves_chain | apply evolves_upd_closure]
  | |- evolves ?e ?w (store_event_loc ?l ?p ?w') =>
    apply (evolves_trans e w w'); [evolves_chain | apply evolves_store_event_loc]
  | |- evolves ?e ?w (store_rdv_loc ?l ?p ?w') =>
    apply (evolves_trans e w w'); [evolves_chain | apply evolves_store_rdv_loc]
  | |- evolves ?e ?w (use ?x ?w') =>
    apply (evolves_trans e w w'); [evolves_chain | apply evolves_use]
  | |- evolves ?e ?w (observe ?o ?w') =>
    apply (evolves_trans e w w'); [evolves_chain | apply evolves_observe; reflexivity]
  | |- evolves ?e ?w (set_unblocked_ptail ?l ?w') =>
    apply (evolves_trans e w w'); [evolves_chain | now apply evolves_same]
  | |- evolves ?e ?w (set_unblocked ?l ?w') =>
    apply (evolves_trans e w w'); [evolves_chain | now apply evolves_same]
  end.

Lemma evolves_unlink e ev w : evolves e w (unlink ev w).
Proof. unfold unlink. cbv zeta. repeat case_match; evolves_chain. Qed.

Lemma evolves_unblock e r w : evolves e w (unblock r w).
Proof. unfold unblock. cbv zeta. repeat case_match; evolves_chain. Qed.

Lemma evolves_mark_ready e r x v w : evolves e w (mark_ready r x v w).
Proof.
  unfold mark_ready. cbv zeta. repeat case_match; try evolves_chain;
    lazymatch goal with
    | |- evolves ?e ?w (unblock ?r ?w') =>
      apply (evolves_trans e w w'); [evolves_chain | apply evolves_unblock]
    end.
Qed.

(** Clearing the owner pointer and recording the completion is the one
    step that empties an event. *)
Lemma evolves_clear e x v w r :
  (_r <$> events w !! x) = Some (Some r) ->
  evolves e w (observe (completed x v) (upd_event x (set_r None) w)).
Proof.
  intros Hx. destruct (events w !! x) as [ev|] eqn:Hev; [|discriminate].
  cbn in Hx. injection Hx as Hr.
  destruct (decide (e = x)) as [->|Hne].
  - right. unfold empty. rewrite completions_observe. cbn.
    rewrite Hev, Hr, lookup_alter_eq, Hev, Nat.eqb_refl. cbn.
    repeat split. unfold completions. cbn. lia.
  - apply evolves_keep.
    + cbn. now rewrite lookup_alter_ne.
    + rewrite completions_observe. cbn. destruct (Nat.eqb_spec e x); [contradiction|].
      unfold completions. cbn. lia.
Qed.

Lemma empty_clear x v w : empty x (observe (completed x v) (upd_event x (set_r None) w)) = true.
Proof.
  unfold empty. cbn. rewrite lookup_alter_eq. destruct (events w !! x); reflexivity.
Qed.

Lemma owner_unlink ev w x : (_r <$> events (unlink ev w) !! x) = (_r <$> events w !! x).
Proof.
  unfold unlink. destruct (_r_pprev ev) as [[?|?|?]|], (_r_next ev); cbn;
    rewrite ?owner_alter_keep; auto.
Qed.

Lemma simple_trigger_fuel_evolves n : forall e x v w, evolves e w (simple_trigger_fuel n x v w).
Proof.
  induction n as [|n IH]; intros e x v w; cbn [simple_trigger_fuel]; [apply evolves_refl|].
  destruct (events w !! x) as [ev|] eqn:Hx; [|apply evolves_refl].
  destruct (_r ev) as [r|] eqn:Hr; [|apply evolves_refl].
  cbv zeta.
  set (w1 := unlink ev w).
  set (w2 := observe (completed x v) (upd_event x (set_r None) w1)).
  set (w3 := mark_ready r x v w2).
  assert (H1 : forall e, evolves e w w1) by (intros; apply evolves_unlink).
  assert (H2 : forall e, evolves e w1 w2).
  { intros e'. apply evolves_clear with (r := r). unfold w1.
    now rewrite owner_unlink, Hx; cbn; rewrite Hr. }
  assert (H3 : forall e, evolves e w2 w3) by (intros; apply evolves_mark_ready).
  set (w4 := match at_trigger_ ev, at_trigger_f_ ev with
             | Some a, Some f => observe (at_trigger_called f a (at_trigger_arg2_ ev)) w3
             | Some a, None => simple_trigger_fuel n a true w3
             | None, _ => w3
             end).
  assert (H4 : forall e, evolves e w3 w4).
  { intros e'. unfold w4. destruct (at_trigger_ ev), (at_trigger_f_ ev);
      [now apply evolves_observe | apply IH | apply evolves_refl | apply evolves_refl]. }
  eapply evolves_trans; [apply H1|]. eapply evolves_trans; [apply H2|].
  eapply evolves_trans; [apply H3|]. eapply evolves_trans; [apply H4|].
  apply evolves_unuse_clean.
  eapply evolves_empty_stays; [apply H4|]. eapply evolves_empty_stays; [apply H3|].
  apply empty_clear.
Qed.

Lemma simple_trigger_evolves e x v w : evolves e w (simple_trigger x v w).
Proof. apply simple_trigger_fuel_evolves. Qed.

(** A trigger leaves its event empty. *)
Lemma simple_trigger_empties x v w : empty x (simple_trigger x v w) = true.
Proof.
  unfold simple_trigger. cbn [simple_trigger_fuel].
  destruct (events w !! x) as [ev|] eqn:Hx; [|unfold empty; now rewrite Hx].
  destruct (_r ev) as [r|] eqn:Hr; [|unfold empty; now rewrite Hx, Hr].
  cbv zeta.
  set (w2 := observe (completed x v) (upd_event x (set_r None) (unlink ev w))).
  set (w3 := mark_ready r x v w2).
  set (w4 := match at_trigger_ ev, at_trigger_f_ ev with
             | Some a, Some f => observe (at_trigger_called f a (at_trigger_arg2_ ev)) w3
             | Some a, None => simple_trigger_fuel (size (events w)) a true w3
             | None, _ => w3
             end).
  assert (H4 : evolves x w3 w4).
  { unfold w4. destruct (at_trigger_ ev), (at_trigger_f_ ev);
      [now apply evolves_observe | apply simple_trigger_fuel_evolves
       | apply evolves_refl | apply evolves_refl]. }
  assert (He : empty x w4 = true).
  { eapply evolves_empty_stays; [apply H4|].
    eapply evolves_empty_stays; [apply evolves_mark_ready|]. apply empty_clear. }
  eapply evolves_empty_stays; [apply evolves_unuse_clean, He | exact He].
Qed.

Lemma evolves_unuse e a w : evolves e w (unuse a w).
Proof.
  unfold unuse. destruct a as [a|]; [|apply evolves_refl].
  destruct (events w !! a) as [ev|] eqn:Hev; [|apply evolves_refl]. cbv zeta.
  set (w1 := upd_event a (set_refcount (u32 (_refcount ev - 1))) w).
  assert (H1 : forall e, evolves e w w1) by (intros; now apply evolves_upd_event_keep).
  destruct (Z.eqb _ 0); [|apply H1].
  eapply evolves_trans; [apply H1|].
  destruct (_r ev) eqn:Hr.
  - eapply evolves_trans; [apply simple_trigger_evolves|].
    apply evolves_delete, simple_trigger_empties.
  - apply evolves_delete. eapply evolves_empty_stays; [apply H1|].
    unfold empty. now rewrite Hev, Hr.
Qed.

(** The typed facade. *)
Lemma evolves_trigger0 e x w : evolves e w (TameEvent.trigger0 x w).
Proof. apply simple_trigger_evolves. Qed.

Lemma evolves_cancel e x w : evolves e w (TameEvent.cancel x w).
Proof. apply simple_trigger_evolves. Qed.

Lemma evolves_event_destroy e x w : evolves e w (TameEvent.event_destroy x w).
Proof. apply evolves_unuse. Qed.

Lemma evolves_event_assign e old x w : evolves e w (TameEvent.event_assign old x w).
Proof. eapply evolves_trans; [apply evolves_use | apply evolves_unuse]. Qed.

(** *** Cancellations under the heap operations

    The log of observations grows by a cancellation only where an event is
    completed without its values: in [cancel()], and in the [unuse()] that
    drops the last reference to an armed event. *)

Lemma cancellations_same e w w' :
  observed w' = observed w -> cancellations e w' = cancellations e w.
Proof. unfold cancellations. now intros ->. Qed.

Lemma cancellations_observe e o w :
  is_cancellation e o = false -> cancellations e (observe o w) = cancellations e w.
Proof.
  intros Ho. unfold cancellations, observe. cbn. rewrite List.filter_app, length_app. cbn.
  rewrite Ho. cbn. lia.
Qed.

Lemma observed_store_event_loc l p w : observed (store_event_loc l p w) = observed w.
Proof. destruct l; reflexivity. Qed.

Lemma observed_store_rdv_loc l p w : observed (store_rdv_loc l p w) = observed w.
Proof. destruct l; reflexivity. Qed.

Lemma observed_use e w : observed (use e w) = observed w.
Proof. destruct e; reflexivity. Qed.

Lemma observed_unuse_clean e w : observed (unuse_clean e w) = observed w.
Proof. unfold unuse_clean. repeat case_match; reflexivity. Qed.

Lemma observed_unlink ev w : observed (unlink ev w) = observed w.
Proof.
  unfold unlink. repeat case_match; cbn [observed upd_event set_events];
    rewrite ?observed_store_event_loc; reflexivity.
Qed.

Lemma observed_unblock r w : observed (unblock r w) = observed w.
Proof.
  unfold unblock. repeat case_match; try reflexivity.
  change (observed (upd_rdv r (set_unblocked_next rnull)
                      (store_rdv_loc (unblocked_ptail w) (rptr r) w)) = observed w).
  cbn [observed upd_rdv set_rdvs]. apply observed_store_rdv_loc.
Qed.

Lemma cancellations_mark_ready e r x v w :
  cancellations e (mark_ready r x v w) = cancellations e w.
Proof.
  unfold mark_ready. repeat case_match; try reflexivity;
    try (now apply cancellations_observe).
  all: apply cancellations_same; rewrite ?observed_unblock; cbn [observed upd_event upd_rdv
    set_events set_rdvs]; rewrite ?observed_store_event_loc, ?observed_use; reflexivity.
Qed.

(** A trigger with its values cancels nothing, whatever hooks it
    reaches. *)
Lemma cancellations_trigger_fuel n : forall e x w,
  cancellations e (simple_trigger_fuel n x true w) = cancellations e w.
Proof.
  induction n as [|n IH]; intros e x w; cbn [simple_trigger_fuel]; [reflexivity|].
  destruct (events w !! x) as [ev|]; [|reflexivity].
  destruct (_r ev) as [r|]; [|reflexivity]. cbv zeta.
  set (w2 := observe (completed x true) (upd_event x (set_r None) (unlink ev w))).
  set (w3 := mark_ready r x true w2).
  assert (H2 : cancellations e w2 = cancellations e w).
  { unfold w2. rewrite cancellations_observe by reflexivity.
    apply cancellations_same. cbn [observed upd_event set_events]. apply observed_unlink. }
  assert (H3 : cancellations e w3 = cancellations e w)
    by (unfold w3; now rewrite cancellations_mark_ready).
  rewrite (cancellations_same e _ _ (observed_unuse_clean _ _)).
  destruct (at_trigger_ ev), (at_trigger_f_ ev); rewrite ?IH; try exact H3.
  now rewrite cancellations_observe.
Qed.

Lemma cancellations_trigger0 e x w :
  cancellations e (TameEvent.trigger0 x w) = cancellations e w.
Proof. apply cancellations_trigger_fuel. Qed.

(** Dropping a reference to an empty event cancels nothing. *)
Lemma cancellations_unuse e a w :
  empty a w = true -> cancellations e (unuse (Some a) w) = cancellations e w.
Proof.
  unfold unuse, empty. destruct (events w !! a) as [ev|]; [|reflexivity].
  destruct (_r ev); [discriminate|]. intros _. cbv zeta.
  destruct (Z.eqb _ 0); reflexivity.
Qed.

Lemma cancellations_event_destroy e x w :
  empty x w = true -> cancellations e (TameEvent.event_destroy x w) = cancellations e w.
Proof. apply cancellations_unuse. Qed.

Lemma cancellations_event_copy e x w :
  cancellations e (TameEvent.event_copy x w) = cancellations e w.
Proof. reflexivity. Qed.

End Frame.

(** ** Registering a descriptor *)

Module AtFd.
Import XBase TameEvent TameDriver Frame.

Lemma outside_iter_default n w :
  outside (Nat.iter n (fun w => snd (event_default w)) w) = outside w.
Proof. induction n as [|n IH]; [reflexivity|]. cbn [Nat.iter]. exact IH. Qed.

Lemma evolves_iter_default e n w :
  evolves e w (Nat.iter n (fun w => snd (event_default w)) w).
Proof.
  induction n as [|n IH]; [apply evolves_refl|]. cbn [Nat.iter].
  eapply evolves_trans; [exact IH | apply evolves_use].
Qed.

Lemma evolves_upd_drv e f w : evolves e w (upd_drv f w).
Proof. now apply evolves_same. Qed.

Lemma evolves_upd_sigs e f w : evolves e w (upd_sigs f w).
Proof. now apply evolves_same. Qed.

Lemma evolves_expand_fds e fd w : evolves e w (expand_fds fd w).
Proof.
  unfold expand_fds. cbv zeta.
  eapply evolves_trans; [apply evolves_iter_default | apply evolves_upd_drv].
Qed.

Lemma evolves_at_fd_store e fd write x w : evolves e w (at_fd_store fd write x w).
Proof.
  unfold at_fd_store. cbv zeta.
  set (w1 := if Z.leb _ _ then expand_fds fd w else w).
  assert (H1 : evolves e w w1)
    by (unfold w1; destruct (Z.leb _ _); [apply evolves_expand_fds | apply evolves_refl]).
  eapply evolves_trans; [exact H1|].
  destruct (idx _ _); [|apply evolves_refl].
  eapply evolves_trans; [apply evolves_event_assign | apply evolves_upd_drv].
Qed.

(** Storing the event touches the table and its capacity only. *)
Lemma at_fd_store_sets fd write x w :
  _nfds (drv (at_fd_store fd write x w)) = _nfds (drv w) /\
  _readfds (drv (at_fd_store fd write x w)) = _readfds (drv w) /\
  _writefds (drv (at_fd_store fd write x w)) = _writefds (drv w).
Proof.
  unfold at_fd_store. cbv zeta.
  set (w1 := if Z.leb _ _ then expand_fds fd w else w).
  assert (H1 : _nfds (drv w1) = _nfds (drv w) /\ _readfds (drv w1) = _readfds (drv w) /\
               _writefds (drv w1) = _writefds (drv w)).
  { unfold w1. destruct (Z.leb _ _); [|auto]. unfold expand_fds, upd_drv. cbv zeta.
    cbn [drv set_drv _nfds _readfds _writefds set_fdcap set_fd].
    rewrite (outside_drv _ _ (outside_iter_default _ _)). auto. }
  destruct (idx _ _) as [old|]; [|exact H1].
  unfold event_assign, upd_drv. cbn [drv set_drv _nfds _readfds _writefds set_fd].
  rewrite (outside_drv _ _ (outside_unuse (Some old) (use (Some x) w1))).
  exact H1.
Qed.

Lemma fset_set_fset write s d : fset write (set_fset write s d) = s.
Proof. destruct write; reflexivity. Qed.

Lemma fset_set_fset_other write s d :
  fset (negb write) (set_fset write s d) = fset (negb write) d.
Proof. destruct write; reflexivity. Qed.

Lemma nfds_set_fset write s d : _nfds (set_fset write s d) = _nfds d.
Proof. destruct write; reflexivity. Qed.

Lemma fset_store fd write x w wr :
  fset wr (drv (at_fd_store fd write x w)) = fset wr (drv w).
Proof. destruct (at_fd_store_sets fd write x w) as (_ & Hr & Hw). destruct wr; assumption. Qed.

(** C10.  [at_fd(fd, write, e)], for a descriptor the select sets have a
    bit for ([0 <= fd < FD_SETSIZE]), with an event that is already empty
    disarms the slot: it clears the bit of [fd] in the select set of that
    direction, so the descriptor is not watched, and leaves [_nfds] alone.
    Only when [e] is non-empty does it set the bit and raise [_nfds] to at
    least [fd + 1]: a bit that is set after the call, or a changed [_nfds],
    means [e] was non-empty at the call, and an event that is non-empty when
    the call tests it gets the bit set and [_nfds >= fd + 1].  The set of
    the other direction is never touched. *)
Theorem at_fd_arms_or_disarms (w : world) (fd : Z) (write : bool) (e : addr) :
  0 <= fd < FD_SETSIZE ->
  let w' := at_fd fd write e w in
  (empty e w = true ->
     FD_ISSET fd (fset write (drv w')) = false /\ _nfds (drv w') = _nfds (drv w)) /\
  (FD_ISSET fd (fset write (drv w')) = true -> empty e w = false) /\
  (_nfds (drv w') <> _nfds (drv w) -> empty e w = false /\ _nfds (drv w') = fd + 1) /\
  (event_bool e (at_fd_store fd write e w) = true ->
     FD_ISSET fd (fset write (drv w')) = true /\
     fd + 1 <= _nfds (drv w') /\ _nfds (drv w) <= _nfds (drv w')) /\
  fset (negb write) (drv w') = fset (negb write) (drv w).
Proof.
  intros Hfd w'.
  pose proof (evolves_at_fd_store e fd write e w) as Hev.
  destruct (at_fd_store_sets fd write e w) as (Hn & _ & _).
  assert (Hclr : event_bool e (at_fd_store fd write e w) = false ->
            FD_ISSET fd (fset write (drv w')) = false /\ _nfds (drv w') = _nfds (drv w) /\
            fset (negb write) (drv w') = fset (negb write) (drv w)).
  { intros Hb. unfold w', at_fd. cbv zeta. rewrite Hb. cbn.
    rewrite fset_set_fset, fset_set_fset_other, nfds_set_fset, fset_store.
    unfold FD_ISSET, FD_CLR. rewrite Z.clearbit_eq, ?fset_store. auto. }
  assert (Hset : event_bool e (at_fd_store fd write e w) = true ->
            FD_ISSET fd (fset write (drv w')) = true /\
            _nfds (drv w') = Z.max (_nfds (drv w)) (fd + 1) /\
            fset (negb write) (drv w') = fset (negb write) (drv w)).
  { intros Hb. unfold w', at_fd. cbv zeta. rewrite Hb.
    set (w1 := at_fd_store fd write e w) in *.
    set (w2 := upd_drv (fun d => set_fset write (FD_SET fd (fset write d)) d) w1).
    assert (H2 : FD_ISSET fd (fset write (drv w2)) = true /\ _nfds (drv w2) = _nfds (drv w) /\
                 fset (negb write) (drv w2) = fset (negb write) (drv w)).
    { unfold w2, upd_drv. cbn [drv set_drv].
      rewrite fset_set_fset, fset_set_fset_other, nfds_set_fset. unfold w1.
      rewrite !fset_store. unfold FD_ISSET, FD_SET. rewrite Z.setbit_eq by apply Hfd. auto. }
    destruct H2 as (Hb2 & Hn2 & Ho2). rewrite Hn2.
    destruct (Z.leb_spec (_nfds (drv w)) fd).
    - unfold upd_drv. cbn [drv set_drv]. 
      replace (fset write (set_nfds (fd + 1) (drv w2))) with (fset write (drv w2))
        by (destruct write; reflexivity).
      replace (fset (negb write) (set_nfds (fd + 1) (drv w2))) with (fset (negb write) (drv w2))
        by (destruct write; reflexivity).
      cbn. repeat split; try assumption. lia.
    - repeat split; try assumption. lia. }
  assert (Hmono : empty e w = true -> event_bool e (at_fd_store fd write e w) = false).
  { intros He. unfold event_bool, to_bool.
    now rewrite (evolves_empty_stays _ _ _ Hev He). }
  destruct (event_bool e (at_fd_store fd write e w)) eqn:Hb.
  - destruct (Hset eq_refl) as (H1 & H2 & H3).
    assert (Hne : empty e w = false)
      by (destruct (empty e w); [specialize (Hmono eq_refl); discriminate | reflexivity]).
    split; [intros He; congruence|].
    split; [intros _; exact Hne|].
    split; [intros Hd; split; [exact Hne | lia]|].
    split; [intros _; split; [exact H1 | lia]|].
    exact H3.
  - destruct (Hclr eq_refl) as (H1 & H2 & H3).
    split; [intros _; split; assumption|].
    split; [intros Hs; congruence|].
    split; [intros Hd; congruence|].
    split; [intros Hs; discriminate|].
    exact H3.
Qed.

Lemma at_fd_arms_or_disarms_witness :
  let armed := at_fd 3 false 20%nat Example.world1 in
  let w := trigger0 22%nat armed in
  0 <= 3 < FD_SETSIZE /\
  (FD_ISSET 3 (_readfds (drv armed)) = true /\ 4 <= _nfds (drv armed)) /\
  (empty 22%nat w = true /\
   FD_ISSET 3 (_readfds (drv (at_fd 3 false 22%nat w))) = false /\
   _nfds (drv (at_fd 3 false 22%nat w)) = _nfds (drv w)).
Proof.
  intros armed w.
  assert (H3 : 0 <= 3 < FD_SETSIZE) by (split; [discriminate | reflexivity]).
  split; [exact H3|]. split.
  - destruct (at_fd_arms_or_disarms Example.world1 3 false 20%nat H3)
      as (_ & _ & _ & H & _).
    destruct (H ltac:(vm_compute; reflexivity)) as (H1 & H2 & _).
    split; [exact H1 | exact H2].
  - assert (He : empty 22%nat w = true) by (vm_compute; reflexivity).
    split; [exact He|].
    destruct (at_fd_arms_or_disarms w 3 false 22%nat H3) as (H & _).
    exact (H He).
Defined.

End AtFd.

(** ** The wait budget *)

Module Budget.
Import XBase TameEvent TameDriver.

Lemma timercmp_gt_usec a b :
  normalized a -> normalized b -> timercmp_gt a b = true <-> usec b < usec a.
Proof.
  unfold normalized, usec, timercmp_gt. intros Ha Hb.
  destruct (Z.eqb_spec (tv_sec a) (tv_sec b)) as [He|Hne].
  - rewrite He, Z.ltb_lt. lia.
  - rewrite Z.ltb_lt. lia.
Qed.

Lemma timersub_usec a b : usec (timersub a b) = usec a - usec b.
Proof.
  unfold usec, timersub. destruct (Z.ltb_spec (tv_usec a - tv_usec b) 0); cbn; lia.
Qed.

Lemma timersub_normalized a b : normalized a -> normalized b -> normalized (timersub a b).
Proof.
  unfold normalized, timersub. intros Ha Hb.
  destruct (Z.ltb_spec (tv_usec a - tv_usec b) 0); cbn; lia.
Qed.

Lemma root_due_usec d t T :
  timer_at d 0 = Some (t, T) -> normalized (expiry T) -> normalized (now d) ->
  root_due d = true <-> 0 < _nt d /\ usec (expiry T) <= usec (now d).
Proof.
  intros Hroot HT Hnow. unfold root_due. rewrite Hroot, andb_true_iff, negb_true_iff, Z.ltb_lt.
  pose proof (timercmp_gt_usec (expiry T) (now d) HT Hnow) as Hc.
  destruct (timercmp_gt (expiry T) (now d)).
  - destruct Hc as [Hc _]. specialize (Hc eq_refl). split; intros [? ?]; [discriminate | lia].
  - split; intros [? ?]; split; try assumption; try reflexivity.
    destruct (Z.le_gt_cases (usec (expiry T)) (usec (now d))); [assumption|].
    destruct Hc as [_ Hc]. discriminate Hc. lia.
Qed.



End Budget.

(** ** Parking a task *)

Module Block.
Import XBase.

Lemma alter_lookup_insert {A} (f : A -> A) (m : gmap addr A) i x :
  m !! i = Some x -> alter f i m = <[i := f x]> m.
Proof.
  intros Hi. apply map_eq. intros j. rewrite lookup_alter, lookup_insert.
  case_decide; [subst; now rewrite Hi | reflexivity].
Qed.

(** The state [block] leaves, spelled out. *)
Lemma block_result r c position w R C :
  rdvs w !! r = Some R -> closures w !! c = Some C -> _blocked_closure R = None ->
  block r c position w =
    Some (mk_world (events w)
            (<[r := set_unblocked_next rsentinel (set_blocked_closure (Some c) R)]> (rdvs w))
            (<[c := set_tamer_block_position position C]> (closures w))
            (unblocked w) (unblocked_ptail w) (observed w) (mem w) (drv w) (sigs w)).
Proof.
  intros HR HC Hnone. unfold block. rewrite HR, HC, Hnone.
  unfold upd_closure, upd_rdv, set_closures, set_rdvs. cbn.
  now rewrite (alter_lookup_insert _ _ _ _ HR), (alter_lookup_insert _ _ _ _ HC).
Qed.

(** C4, as the code has it.  For a rendezvous [r] with no task parked,
    [r.block(c, P)] records [c] as the parked task of [r], stores [P] as the
    resumption position of [c] (the overload for debug closures stores [-P]
    modulo 2^32 and the file and line), and sets the next-pointer of [r] to
    the not-in-queue sentinel.  It never links [r] onto the unblocked FIFO,
    whether or not [r] has ready events: the head and the tail pointer of
    the FIFO and every other rendezvous are left as they were.  Calling
    [block] while a task is already parked fails the assertion. *)
Theorem block_parks_without_enqueueing (w : world) (r c : addr) (P file line : Z)
    (R : abstract_rendezvous) (C : tamer_closure) :
  rdvs w !! r = Some R ->
  closures w !! c = Some C ->
  (_blocked_closure R = None ->
     exists w', block r c P w = Some w' /\
       rdvs w' !! r = Some (set_unblocked_next rsentinel (set_blocked_closure (Some c) R)) /\
       closures w' !! c = Some (set_tamer_block_position P C) /\
       unblocked w' = unblocked w /\ unblocked_ptail w' = unblocked_ptail w /\
       (forall r', r' <> r -> rdvs w' !! r' = rdvs w !! r') /\
       (forall c', c' <> c -> closures w' !! c' = closures w !! c') /\
       events w' = events w /\ observed w' = observed w /\ outside w' = outside w) /\
  (_blocked_closure R = None ->
     exists w', block_debug r c P file line w = Some w' /\
       rdvs w' !! r = Some (set_unblocked_next rsentinel (set_blocked_closure (Some c) R)) /\
       closures w' !! c =
         Some (mk_tamer_closure (tamer_activator_ C) (u32 (- P)) file line) /\
       unblocked w' = unblocked w /\ unblocked_ptail w' = unblocked_ptail w /\
       (forall r', r' <> r -> rdvs w' !! r' = rdvs w !! r')) /\
  (_blocked_closure R <> None ->
     block r c P w = None /\ block_debug r c P file line w = None).
Proof.
  intros HR HC. split; [|split].
  - intros Hnone. eexists. split; [apply (block_result _ _ _ _ _ _ HR HC Hnone)|]. cbn.
    rewrite !lookup_insert_eq. repeat split; try reflexivity.
    + intros r' Hne. now rewrite lookup_insert_ne.
    + intros c' Hne. now rewrite lookup_insert_ne.
  - intros Hnone. unfold block_debug.
    rewrite (block_result _ _ _ _ _ _ HR HC Hnone). eexists. split; [reflexivity|].
    unfold upd_closure. cbn. rewrite lookup_alter_eq, !lookup_insert_eq. cbn.
    repeat split; try reflexivity.
    intros r' Hne. now rewrite lookup_insert_ne.
  - intros Hsome. unfold block_debug, block. rewrite HR, HC.
    destruct (_blocked_closure R); [split; reflexivity | contradiction].
Qed.

(** [world1] after event 20 has fired: rendezvous 10 has one ready event
    and no task parked. *)
Lemma block_parks_without_enqueueing_witness :
  let w := simple_trigger 20%nat true Example.world1 in
  exists w', block 10%nat 30%nat 3 w = Some w' /\
             (unblocked_next_ <$> rdvs w' !! 10%nat) = Some rsentinel /\
             (tamer_block_position_ <$> closures w' !! 30%nat) = Some 3 /\
             unblocked w' = unblocked w.
Proof.
  intros w.
  destruct (rdvs w !! 10%nat) as [R|] eqn:HR; [|vm_compute in HR; discriminate].
  destruct (closures w !! 30%nat) as [C|] eqn:HC; [|vm_compute in HC; discriminate].
  destruct (block_parks_without_enqueueing w 10%nat 30%nat 3 0 0 R C HR HC) as (H & _ & _).
  destruct H as (w' & Hb & Hr & Hc & Hu & _).
  - vm_compute in HR. injection HR as <-. reflexivity.
  - exists w'. rewrite Hr, Hc. repeat split; assumption.
Defined.

(** C4 as stated fails: here rendezvous 10 has a ready event and no task
    parked, and [block] does not link it onto the unblocked FIFO, which stays
    empty. *)
Lemma block_ready_rendezvous_counterexample :
  let w := simple_trigger 20%nat true Example.world1 in
  ~ (forall R w',
       rdvs w !! 10%nat = Some R -> _blocked_closure R = None -> ready_ R <> None ->
       block 10%nat 30%nat 3 w = Some w' ->
       exists fuel, 10%nat ∈ unblocked_fifo fuel w').
Proof.
  intros w Hclaim.
  destruct (rdvs w !! 10%nat) as [R|] eqn:HR; [|vm_compute in HR; discriminate].
  destruct (block 10%nat 30%nat 3 w) as [w'|] eqn:Hb; [|vm_compute in Hb; discriminate].
  destruct (Hclaim R w' eq_refl) as [fuel Hin].
  - vm_compute in HR. injection HR as <-. reflexivity.
  - vm_compute in HR. injection HR as <-. discriminate.
  - reflexivity.
  - assert (Hu : unblocked w' = rnull) by (vm_compute in Hb; injection Hb as <-; reflexivity).
    destruct fuel as [|fuel]; cbn [unblocked_fifo] in Hin; [inversion Hin|].
    unfold pop_unblocked in Hin. rewrite Hu in Hin. inversion Hin.
Qed.

End Block.

(** ** The unblocked FIFO *)

Module Unblocked.
Import XBase.

(** *** Operations that leave the FIFO cells alone *)

Lemma same_links_refl w : same_links w w.
Proof. repeat split. Qed.

Lemma same_links_trans w1 w2 w3 : same_links w1 w2 -> same_links w2 w3 -> same_links w1 w3.
Proof.
  intros (H1 & H2 & H3) (H4 & H5 & H6). split; [|split; congruence].
  intros r. now rewrite H4, H1.
Qed.

Lemma same_links_rdvs w w' :
  rdvs w' = rdvs w -> unblocked w' = unblocked w -> unblocked_ptail w' = unblocked_ptail w ->
  same_links w w'.
Proof. intros Hr Hu Hp. repeat split; try assumption. intros r. unfold link_view. now rewrite Hr. Qed.

Lemma same_links_upd_event e f w : same_links w (upd_event e f w).
Proof. now apply same_links_rdvs. Qed.

Lemma same_links_upd_closure c f w : same_links w (upd_closure c f w).
Proof. now apply same_links_rdvs. Qed.

Lemma same_links_observe o w : same_links w (observe o w).
Proof. now apply same_links_rdvs. Qed.

Lemma same_links_upd_rdv r f w :
  (forall R, _blocked_closure (f R) = _blocked_closure R /\
             unblocked_next_ (f R) = unblocked_next_ R) ->
  same_links w (upd_rdv r f w).
Proof.
  intros Hf. repeat split. intros r'. unfold link_view, upd_rdv. cbn.
  rewrite lookup_alter. case_decide; [subst|reflexivity].
  destruct (rdvs w !! r') as [R|]; [|reflexivity]. cbn.
  destruct (Hf R) as [-> ->]. reflexivity.
Qed.

Lemma same_links_store_event_loc l p w : same_links w (store_event_loc l p w).
Proof.
  destruct l; cbn [store_event_loc];
    [apply same_links_upd_rdv | apply same_links_upd_rdv | apply same_links_upd_event];
    intros R; split; reflexivity.
Qed.

Lemma same_links_use e w : same_links w (use e w).
Proof. destruct e; [apply same_links_upd_event | apply same_links_refl]. Qed.

Lemma same_links_unuse_clean e w : same_links w (unuse_clean e w).
Proof. unfold unuse_clean. repeat case_match; now apply same_links_rdvs. Qed.

Lemma same_links_unlink ev w : same_links w (unlink ev w).
Proof.
  unfold unlink. cbv zeta.
  apply same_links_trans with
    (w2 := match _r_pprev ev with
           | Some l => store_event_loc l (_r_next ev) w
           | None => w
           end).
  - destruct (_r_pprev ev); [apply same_links_store_event_loc | apply same_links_refl].
  - destruct (_r_next ev); [apply same_links_upd_event | apply same_links_refl].
Qed.

Lemma same_links_new_closure c a w : same_links w (new_closure c a w).
Proof. now apply same_links_rdvs. Qed.

Lemma same_links_initialize e r rid w : same_links w (initialize e r rid w).
Proof.
  unfold initialize. destruct (rdvs w !! r) as [R|]; [|apply same_links_refl]. cbv zeta.
  eapply same_links_trans; [apply same_links_upd_event|].
  eapply same_links_trans.
  { instantiate (1 := match waiting_ R with Some _ => _ | None => _ end).
    destruct (waiting_ R); [apply same_links_upd_event | apply same_links_refl]. }
  eapply same_links_trans; [apply same_links_upd_event|].
  apply same_links_upd_rdv. intros R'. split; reflexivity.
Qed.

Lemma same_links_new_event e r rid w : same_links w (new_event e r rid w).
Proof.
  unfold new_event. eapply same_links_trans; [|apply same_links_initialize].
  now apply same_links_rdvs.
Qed.

Lemma some_inv {A} (a b : A) : Some a = Some b -> a = b.
Proof. congruence. Qed.

Lemma some_pair_inv {A B} (a c : A) (b d : B) : Some (a, b) = Some (c, d) -> a = c /\ b = d.
Proof. intros H. split; congruence. Qed.

Lemma same_links_pop_ready r w x w' : pop_ready r w = Some (x, w') -> same_links w w'.
Proof.
  unfold pop_ready. destruct (rdvs w !! r) as [R|]; [|discriminate].
  destruct (ready_ R) as [e|]; [|discriminate].
  destruct (events w !! e) as [ev|]; [|discriminate]. cbv zeta.
  intros H. apply some_pair_inv in H as [_ <-].
  eapply same_links_trans; [|apply same_links_unuse_clean].
  eapply same_links_trans with (w2 := upd_rdv r (set_ready (_r_next ev)) w);
    [apply same_links_upd_rdv; intros; split; reflexivity|].
  destruct (_r_next ev); [apply same_links_refl|].
  apply same_links_upd_rdv. intros; split; reflexivity.
Qed.

Lemma same_links_join r w : same_links w (snd (join r w)).
Proof.
  unfold join. destruct (rdvs w !! r) as [R|]; [|apply same_links_refl].
  destruct (ready_ R); [|apply same_links_refl].
  destruct (pop_ready r w) as [[x w']|] eqn:Hp; [|apply same_links_refl].
  cbn. eapply same_links_pop_ready, Hp.
Qed.

(** *** The chain *)

Lemma chain_ext w w' : forall l p,
  (forall m, m ∈ l -> link_view w' m = link_view w m) ->
  unblocked_chain w p l -> unblocked_chain w' p l.
Proof.
  induction l as [|r l IH]; intros p Hsame; cbn; [trivial|].
  intros (-> & R & HR & Hc & Hchain). split; [reflexivity|].
  assert (Hv : link_view w' r = link_view w r) by (apply Hsame; left).
  unfold link_view in Hv. rewrite HR in Hv. cbn in Hv.
  destruct (rdvs w' !! r) as [R'|]; [|discriminate]. cbn in Hv. injection Hv as Hc' Hn'.
  exists R'. split; [reflexivity|]. split; [congruence|]. rewrite Hn'.
  apply IH; [|exact Hchain]. intros m Hm. apply Hsame. now right.
Qed.

Lemma chain_member w : forall l p m,
  unblocked_chain w p l -> m ∈ l ->
  exists R, rdvs w !! m = Some R /\ _blocked_closure R <> None /\ unblocked_next_ R <> rsentinel.
Proof.
  induction l as [|r l IH]; intros p m Hc Hm; [inversion Hm|].
  cbn in Hc. destruct Hc as (-> & R & HR & Hcl & Hchain).
  apply elem_of_cons in Hm as [->|Hm].
  - exists R. repeat split; try assumption. destruct l; cbn in Hchain.
    + rewrite Hchain. discriminate.
    + destruct Hchain as [-> _]. discriminate.
  - eapply IH; eassumption.
Qed.

Lemma queue_same_links w w' l : same_links w w' -> unblocked_queue w l -> unblocked_queue w' l.
Proof.
  intros (Hv & Hu & Hp) (Hc & Hnd & Ht). repeat split; [|assumption|congruence].
  rewrite Hu. eapply chain_ext; [|exact Hc]. intros; apply Hv.
Qed.

(** Changing one rendezvous that is not on the FIFO. *)
Lemma queue_upd_off w r f l :
  r ∉ l -> unblocked_queue w l -> unblocked_queue (upd_rdv r f w) l.
Proof.
  intros Hr (Hc & Hnd & Ht). repeat split; try assumption.
  eapply chain_ext; [|exact Hc]. intros m Hm. unfold link_view, upd_rdv. cbn.
  rewrite lookup_alter_ne; [reflexivity|]. intros ->. contradiction.
Qed.

(** Linking [r] behind the last member. *)
Lemma chain_push w w' r : forall l p,
  r ∉ l -> NoDup l ->
  unblocked_chain w p l ->
  (forall m, m ∈ l -> Some m <> last l -> link_view w' m = link_view w m) ->
  (forall m R, last l = Some m -> rdvs w !! m = Some R ->
     link_view w' m = Some (_blocked_closure R, rptr r)) ->
  (exists c, link_view w' r = Some (Some c, rnull)) ->
  unblocked_chain w' (match l with [] => rptr r | _ => p end) (l ++ [r]).
Proof.
  induction l as [|m l IH]; intros p Hr Hnd Hc Hoff Hlast (c & Hnew).
  - cbn. split; [reflexivity|]. unfold link_view in Hnew.
    destruct (rdvs w' !! r) as [R'|]; [|discriminate]. cbn in Hnew. injection Hnew as H1 H2.
    exists R'. repeat split; congruence.
  - cbn in Hc. destruct Hc as (-> & R & HR & Hcl & Hchain).
    apply not_elem_of_cons in Hr as [Hrm Hrl]. apply NoDup_cons in Hnd as [Hml Hnd].
    cbn. split; [reflexivity|]. destruct l as [|m' l].
    + cbn in Hchain. specialize (Hlast m R eq_refl HR). unfold link_view in Hlast.
      destruct (rdvs w' !! m) as [R'|]; [|discriminate]. cbn in Hlast.
      apply some_pair_inv in Hlast as [H1 H2].
      exists R'. split; [reflexivity|]. split; [congruence|]. rewrite H2.
      cbn. split; [reflexivity|]. unfold link_view in Hnew.
      destruct (rdvs w' !! r) as [R''|]; [|discriminate]. cbn in Hnew.
      apply some_pair_inv in Hnew as [H3 H4].
      exists R''. repeat split; congruence.
    + assert (Hm : link_view w' m = link_view w m).
      { apply Hoff; [left|]. cbn. intros Heq.
        assert (m ∈ m' :: l); [|contradiction].
        apply (last_Some_elem_of (m' :: l)). cbn. congruence. }
      unfold link_view in Hm. rewrite HR in Hm. cbn in Hm.
      destruct (rdvs w' !! m) as [R'|]; [|discriminate]. cbn in Hm. injection Hm as H1 H2.
      exists R'. split; [reflexivity|]. split; [congruence|]. rewrite H2.
      specialize (IH (unblocked_next_ R) Hrl Hnd Hchain). cbn in IH. apply IH.
      * intros x Hx Hxl. apply Hoff; [now right | exact Hxl].
      * intros x Rx Hx. apply Hlast. exact Hx.
      * eauto.
Qed.


(** *** The operations on the FIFO *)

Lemma queue_not_sentinel w l r R :
  unblocked_queue w l -> rdvs w !! r = Some R -> unblocked_next_ R = rsentinel -> r ∉ l.
Proof.
  intros (Hc & _ & _) HR Hs Hin.
  destruct (chain_member _ _ _ _ Hc Hin) as (R' & HR' & _ & Hn). congruence.
Qed.

Lemma queue_not_parked w l r R :
  unblocked_queue w l -> rdvs w !! r = Some R -> _blocked_closure R = None -> r ∉ l.
Proof.
  intros (Hc & _ & _) HR Hs Hin.
  destruct (chain_member _ _ _ _ Hc Hin) as (R' & HR' & Hn & _). congruence.
Qed.

Lemma queue_absent w l r : unblocked_queue w l -> rdvs w !! r = None -> r ∉ l.
Proof.
  intros (Hc & _ & _) HR Hin.
  destruct (chain_member _ _ _ _ Hc Hin) as (R' & HR' & _ & _). congruence.
Qed.

Lemma queue_unblock w l r :
  unblocked_queue w l ->
  unblocked_queue (unblock r w) l \/
  ((r ∉ l) /\ unblocked_queue (unblock r w) (l ++ [r])).
Proof.
  intros Hq. unfold unblock.
  destruct (rdvs w !! r) as [R|] eqn:HR; [|now left].
  destruct (_blocked_closure R) as [c|] eqn:Hcl; [|now left].
  destruct (unblocked_next_ R) eqn:Hn; try (now left). right.
  pose proof (queue_not_sentinel _ _ _ _ Hq HR Hn) as Hr.
  split; [exact Hr|]. destruct Hq as (Hc & Hnd & Ht). cbv zeta.
  set (w1 := store_rdv_loc (unblocked_ptail w) (rptr r) w).
  set (w2 := upd_rdv r (set_unblocked_next rnull) w1).
  assert (Hother : forall m, m <> r -> Some m <> last l -> rdvs w2 !! m = rdvs w !! m).
  { intros m Hm Hl. unfold w2, upd_rdv. cbn. rewrite lookup_alter_ne by congruence.
    unfold w1. rewrite Ht. destruct (last l) as [x|]; cbn; [|reflexivity].
    rewrite lookup_alter_ne; [reflexivity|]. congruence. }
  assert (Hnew : link_view w2 r = Some (Some c, rnull)).
  { unfold link_view, w2, upd_rdv. cbn. rewrite lookup_alter_eq.
    assert (Hr1 : rdvs w1 !! r = Some R).
    { unfold w1. rewrite Ht. destruct (last l) as [x|] eqn:Hl; cbn; [|exact HR].
      rewrite lookup_alter_ne; [exact HR|]. intros ->. apply Hr.
      now apply last_Some_elem_of. }
    rewrite Hr1. cbn. now rewrite Hcl. }
  assert (Hlast : forall m Rm, last l = Some m -> rdvs w !! m = Some Rm ->
            link_view w2 m = Some (_blocked_closure Rm, rptr r)).
  { intros m Rm Hl HRm. assert (m <> r) by (intros ->; apply Hr; now apply last_Some_elem_of).
    unfold link_view, w2, upd_rdv. cbn. rewrite lookup_alter_ne by congruence.
    unfold w1. rewrite Ht, Hl. cbn. rewrite lookup_alter_eq, HRm. reflexivity. }
  assert (Hhead : unblocked w2 = match l with [] => rptr r | _ => unblocked w end).
  { unfold w2, w1. rewrite Ht. destruct l as [|x l]; [reflexivity|].
    destruct (last (x :: l)) eqn:Hl; [reflexivity|].
    apply last_None in Hl. discriminate. }
  split; [|split].
  - apply (chain_ext w2); [reflexivity|].
    change (unblocked_chain w2 (unblocked w2) (l ++ [r])). rewrite Hhead.
    apply (chain_push w w2 r l (unblocked w)); try assumption.
    + intros m Hm Hl. unfold link_view. rewrite Hother; [reflexivity| |exact Hl].
      intros ->. contradiction.
    + eauto.
  - apply NoDup_app. split; [exact Hnd|]. split; [|apply NoDup_singleton].
    intros x Hx Hx'. apply list_elem_of_singleton in Hx'. subst. contradiction.
  - cbn. now rewrite last_snoc.
Qed.

Lemma queue_pop w l :
  unblocked_queue w l ->
  fst (pop_unblocked w) = match l with [] => rnull | r :: _ => rptr r end /\
  unblocked_queue (snd (pop_unblocked w)) (tail l) /\
  rdvs (snd (pop_unblocked w)) = rdvs w.
Proof.
  intros (Hc & Hnd & Ht). unfold pop_unblocked. destruct l as [|r l]; cbn in Hc.
  - rewrite Hc. cbn. repeat split; try assumption.
  - destruct Hc as (Hu & R & HR & Hcl & Hchain). rewrite Hu, HR. cbv zeta.
    apply NoDup_cons in Hnd as [Hr Hnd]. cbn [fst snd tail].
    split; [reflexivity|]. destruct l as [|m l]; cbn in Hchain.
    + rewrite Hchain. cbn. split; [|reflexivity].
      split; [reflexivity|]. split; [constructor | reflexivity].
    + destruct Hchain as (Hn & Hrest). rewrite Hn. cbn. split; [|reflexivity].
      split; [|split; [exact Hnd|]].
      * split; [reflexivity|]. destruct Hrest as (Rm & HRm & Hcm & Hch).
        exists Rm. repeat split; try assumption.
        eapply chain_ext; [|exact Hch]. intros; reflexivity.
      * cbn. cbn in Ht. exact Ht.
Qed.

Lemma queue_block w l r c position w' :
  unblocked_queue w l -> block r c position w = Some w' -> unblocked_queue w' l.
Proof.
  intros Hq. unfold block.
  destruct (rdvs w !! r) as [R|] eqn:HR; [|discriminate].
  destruct (closures w !! c); [|discriminate].
  destruct (_blocked_closure R) eqn:Hcl; [discriminate|]. cbv zeta.
  intros H. apply some_inv in H. subst w'.
  eapply queue_same_links; [apply same_links_upd_closure|].
  apply queue_upd_off; [|exact Hq]. eapply queue_not_parked; eassumption.
Qed.

Lemma queue_block_debug w l r c position file line w' :
  unblocked_queue w l -> block_debug r c position file line w = Some w' ->
  unblocked_queue w' l.
Proof.
  intros Hq. unfold block_debug.
  destruct (block r c (u32 (- position)) w) as [w1|] eqn:Hb; [|discriminate].
  intros H. apply some_inv in H. subst w'.
  eapply queue_same_links; [apply same_links_upd_closure|].
  eapply queue_block; eassumption.
Qed.

Lemma queue_new_rendezvous w l r flags rtype f junk :
  unblocked_queue w l -> rdvs w !! r = None ->
  unblocked_queue (new_rendezvous r flags rtype f junk w) l.
Proof.
  intros Hq Hfresh. pose proof (queue_absent _ _ _ Hq Hfresh) as Hr.
  destruct Hq as (Hc & Hnd & Ht). repeat split; try assumption.
  eapply chain_ext; [|exact Hc]. intros m Hm. unfold link_view, new_rendezvous. cbn.
  rewrite lookup_insert_ne; [reflexivity|]. intros ->. contradiction.
Qed.

Lemma queue_resume w l :
  unblocked_queue w l ->
  unblocked_queue match pop_unblocked w with
                  | (rptr r, w) => run (fun _ _ w => w) r w
                  | (_, w) => w
                  end (tail l).
Proof.
  intros Hq. destruct (queue_pop w l Hq) as (Hfst & Hq' & Hrdvs).
  pose proof Hq as (_ & Hnd & _).
  destruct (pop_unblocked w) as [p w1]. cbn in Hfst, Hq', Hrdvs. subst p.
  destruct l as [|r l]; [exact Hq'|]. cbn [tail] in *.
  apply NoDup_cons in Hnd as [Hr _]. unfold run.
  destruct (rdvs w1 !! r) as [R|]; [|exact Hq'].
  destruct (_blocked_closure R); [|exact Hq']. cbv zeta.
  assert (Hq'' : unblocked_queue (upd_rdv r (set_blocked_closure None) w1) l)
    by (apply queue_upd_off; assumption).
  destruct (closures _ !! _); exact Hq''.
Qed.

(** A trigger reaches the FIFO through [unblock] only. *)

Lemma has_queue_same_links w w' : same_links w w' -> has_queue w -> has_queue w'.
Proof. intros Hs [l Hq]. exists l. eapply queue_same_links; eassumption. Qed.

Lemma has_queue_unblock r w : has_queue w -> has_queue (unblock r w).
Proof. intros [l Hq]. destruct (queue_unblock w l r Hq) as [H|[_ H]]; eexists; exact H. Qed.

Lemma has_queue_mark_ready r x v w : has_queue w -> has_queue (mark_ready r x v w).
Proof.
  intros Hq. unfold mark_ready. destruct (rdvs w !! r) as [R|]; [|exact Hq].
  destruct (rtype_ R); cbv zeta.
  - destruct (waiting_ R); [exact Hq | now apply has_queue_unblock].
  - apply has_queue_unblock.
    eapply has_queue_same_links; [apply same_links_upd_event|].
    eapply has_queue_same_links; [apply same_links_upd_rdv; intros; split; reflexivity|].
    eapply has_queue_same_links; [apply same_links_store_event_loc|].
    eapply has_queue_same_links; [apply same_links_use | exact Hq].
  - eapply has_queue_same_links; [apply same_links_observe | exact Hq].
  - eapply has_queue_same_links; [apply same_links_observe | exact Hq].
Qed.

Lemma has_queue_simple_trigger_fuel n : forall x v w,
  has_queue w -> has_queue (simple_trigger_fuel n x v w).
Proof.
  induction n as [|n IH]; intros x v w Hq; cbn [simple_trigger_fuel]; [exact Hq|].
  destruct (events w !! x) as [ev|]; [|exact Hq].
  destruct (_r ev) as [r|]; [|exact Hq]. cbv zeta.
  eapply has_queue_same_links; [apply same_links_unuse_clean|].
  assert (H3 : has_queue (mark_ready r x v
                 (observe (completed x v) (upd_event x (set_r None) (unlink ev w))))).
  { apply has_queue_mark_ready.
    eapply has_queue_same_links; [apply same_links_observe|].
    eapply has_queue_same_links; [apply same_links_upd_event|].
    eapply has_queue_same_links; [apply same_links_unlink | exact Hq]. }
  destruct (at_trigger_ ev), (at_trigger_f_ ev); try exact H3.
  - eapply has_queue_same_links; [apply same_links_observe | exact H3].
  - apply IH, H3.
Qed.

Lemma has_queue_step o w w' : has_queue w -> step o w = Some w' -> has_queue w'.
Proof.
  intros [l Hq] Hstep. destruct o; cbn [step] in Hstep.
  - destruct (rdvs w !! r) eqn:Hf; [discriminate|].
    apply some_inv in Hstep. subst w'.
    exists l. now apply queue_new_rendezvous.
  - destruct (closures w !! c); [discriminate|].
    apply some_inv in Hstep. subst w'.
    exists l. eapply queue_same_links; [apply same_links_new_closure | exact Hq].
  - destruct (events w !! e); [discriminate|].
    apply some_inv in Hstep. subst w'.
    exists l. eapply queue_same_links; [apply same_links_new_event | exact Hq].
  - apply some_inv in Hstep. subst w'.
    apply has_queue_simple_trigger_fuel. now exists l.
  - apply some_inv in Hstep. subst w'.
    exists l. eapply queue_same_links; [apply same_links_join | exact Hq].
  - exists l. eapply queue_block; eassumption.
  - exists l. eapply queue_block_debug; eassumption.
  - apply some_inv in Hstep. subst w'.
    apply has_queue_unblock. now exists l.
  - apply some_inv in Hstep. subst w'.
    exists (tail l). apply queue_pop, Hq.
  - exists (tail l). pose proof (queue_resume w l Hq) as Hr.
    destruct (pop_unblocked w) as [[| |r] w1];
      apply some_inv in Hstep; subst w'; exact Hr.
Qed.

Lemma has_queue_initial w : initial w -> has_queue w.
Proof.
  intros (Hu & Hp & _). exists []. repeat split; [exact Hu | constructor | exact Hp].
Qed.

Lemma has_queue_reachable w : reachable w -> has_queue w.
Proof.
  induction 1 as [w Hi|w o w' _ IH Hstep];
    [now apply has_queue_initial | eapply has_queue_step; eassumption].
Qed.

(** Popping until the FIFO is empty returns the chain in order. *)
Lemma fifo_of_queue : forall l w fuel,
  unblocked_queue w l -> unblocked_fifo fuel w = take fuel l.
Proof.
  induction l as [|r l IH]; intros w fuel Hq.
  - destruct fuel; [reflexivity|]. cbn [unblocked_fifo].
    destruct (queue_pop w [] Hq) as (Hf & _ & _).
    destruct (pop_unblocked w) as [p w1]. cbn in Hf. now subst p.
  - destruct fuel; [reflexivity|]. cbn [unblocked_fifo take].
    destruct (queue_pop w (r :: l) Hq) as (Hf & Hq' & _).
    destruct (pop_unblocked w) as [p w1]. cbn in Hf, Hq'. subst p.
    f_equal. now apply IH.
Qed.

(** C8.  In every state the driver can reach by constructing rendezvous,
    closures and events, triggering events, joining, [block], [unblock],
    [pop_unblocked] and resuming the rendezvous it pops, the unblocked FIFO is
    a well-formed chain that contains each rendezvous at most once, and
    popping it returns that chain: no sequence of pops returns a rendezvous
    twice.  [unblock] enqueues a rendezvous only when a task is parked on it
    and its next-pointer holds the not-in-queue sentinel; otherwise it does
    nothing. *)
Theorem unblocked_fifo_has_no_duplicates (w : world) :
  reachable w ->
  (exists l, unblocked_queue w l /\ NoDup l /\
             forall fuel, unblocked_fifo fuel w = take fuel l) /\
  (forall fuel, NoDup (unblocked_fifo fuel w)) /\
  (forall r R, rdvs w !! r = Some R ->
     unblocked_next_ R <> rsentinel \/ _blocked_closure R = None -> unblock r w = w) /\
  (forall r fuel, unblock r w <> w -> r ∉ unblocked_fifo fuel w).
Proof.
  intros Hreach. destruct (has_queue_reachable w Hreach) as [l Hq].
  assert (Hfifo : forall fuel, unblocked_fifo fuel w = take fuel l)
    by (intros; now apply fifo_of_queue).
  split; [|split; [|split]].
  - exists l. split; [exact Hq|]. split; [apply Hq | exact Hfifo].
  - intros fuel. rewrite Hfifo. destruct Hq as (_ & Hnd & _).
    rewrite <- (take_drop fuel l) in Hnd. now apply NoDup_app in Hnd as (Hnd & _).
  - intros r R HR Hguard. unfold unblock. rewrite HR.
    destruct Hguard as [Hn|Hc].
    + destruct (_blocked_closure R); [|reflexivity].
      destruct (unblocked_next_ R); try reflexivity. contradiction.
    + now rewrite Hc.
  - intros r fuel Hch Hin. rewrite Hfifo in Hin. apply Hch.
    assert (Hr : r ∈ l).
    { apply elem_of_take in Hin as (i & Hi & _). apply list_elem_of_lookup. eauto. }
    destruct Hq as (Hc & _ & _).
    destruct (chain_member _ _ _ _ Hc Hr) as (R & HR & _ & Hn).
    unfold unblock. rewrite HR. destruct (_blocked_closure R); [|reflexivity].
    destruct (unblocked_next_ R); try reflexivity. contradiction.
Qed.

Lemma reachable_ops : forall os w w',
  reachable w -> run_ops os w = Some w' -> reachable w'.
Proof.
  induction os as [|o os IH]; intros w w' Hr Hrun; cbn [run_ops] in Hrun.
  - apply some_inv in Hrun. now subst.
  - destruct (step o w) as [w1|] eqn:Hs; [|discriminate].
    eapply IH; [|exact Hrun]. eapply reachable_step; eassumption.
Qed.

Lemma unblocked_fifo_has_no_duplicates_witness :
  let w := default Example.world0 (run_ops Example.two_unblocked Example.world0) in
  reachable w /\ NoDup (unblocked_fifo 4 w) /\ unblocked_fifo 4 w = [10; 11]%nat.
Proof.
  intros w.
  assert (Hr : reachable w).
  { apply (reachable_ops Example.two_unblocked Example.world0).
    - apply reachable_initial. split; [reflexivity|]. split; [reflexivity|].
      intros r R H. cbn in H. rewrite lookup_empty in H. discriminate.
    - vm_compute. reflexivity. }
  split; [exact Hr|]. split; [|vm_compute; reflexivity].
  apply (unblocked_fifo_has_no_duplicates w Hr).
Defined.

End Unblocked.

(** ** Triggering a typed event twice *)

Module TriggerTwice.
Import XBase TameEvent Frame.

Lemma written_snoc slots p v m :
  written (slots ++ [(p, v)]) m =
  match p with Some a => <[a := v]> (written slots m) | None => written slots m end.
Proof. unfold written. rewrite fold_left_app. reflexivity. Qed.

Lemma written_holds : forall slots m, slots_hold slots (written slots m).
Proof.
  induction slots as [|[p v] slots IH] using rev_ind; intros m i a x Hi Hlater.
  - rewrite lookup_nil in Hi. discriminate.
  - rewrite written_snoc.
    destruct (decide (i = length slots)) as [->|Hne].
    + rewrite list_lookup_middle in Hi by reflexivity.
      apply Unblocked.some_pair_inv in Hi. destruct Hi as [-> ->]. apply lookup_insert_eq.
    + assert (Hlt : (i < length slots)%nat).
      { apply lookup_lt_Some in Hi. rewrite length_app in Hi. cbn in Hi. lia. }
      rewrite lookup_app_l in Hi by exact Hlt.
      assert (Hprev : written slots m !! a = Some x).
      { apply (IH m i a x Hi). intros j v' Hj Hs.
        apply (Hlater j v' Hj). rewrite lookup_app_l; [exact Hs|].
        now apply lookup_lt_Some in Hs. }
      destruct p as [b|]; [|exact Hprev].
      destruct (decide (b = a)) as [->|Hba]; [|now rewrite lookup_insert_ne].
      exfalso. apply (Hlater (length slots) v Hlt).
      now rewrite list_lookup_middle.
Qed.

Lemma store_slot_mem p v w :
  mem (store_slot p v w) = match p with Some a => <[a := v]> (mem w) | None => mem w end.
Proof. destruct p; reflexivity. Qed.

Lemma store_slot_events p v w : events (store_slot p v w) = events w.
Proof. destruct p; reflexivity. Qed.

Lemma store_slot_observed p v w : observed (store_slot p v w) = observed w.
Proof. destruct p; reflexivity. Qed.

(** Storing through slots does not touch the events. *)

Lemma same_events_store p v w w' : same_events w w' -> same_events w (store_slot p v w').
Proof. intros [H1 H2]. split; [now rewrite store_slot_events | now rewrite store_slot_observed]. Qed.

Lemma same_events_refl w : same_events w w.
Proof. split; reflexivity. Qed.

(** A trigger of an empty event returns the state it was given. *)
Lemma simple_trigger_empty_noop x v w : empty x w = true -> simple_trigger x v w = w.
Proof.
  unfold empty, simple_trigger. cbn [simple_trigger_fuel]. intros He.
  destruct (events w !! x) as [ev|]; [|reflexivity].
  destruct (_r ev); [discriminate | reflexivity].
Qed.

(** The common shape of the five [trigger] members. *)
Lemma trigger_twice (stores stores' : world -> world) e slots w :
  (forall w0, mem (stores w0) = written slots (mem w0)) ->
  (forall w0, same_events w0 (stores w0)) ->
  to_bool e w = true ->
  fires_once
    (fun w => let '(ok, w) := complete e true w in if ok then stores w else w)
    (fun w => let '(ok, w) := complete e true w in if ok then stores' w else w)
    e slots w.
Proof.
  intros Hmem Hsame Harmed. unfold fires_once, complete. rewrite Harmed. cbv zeta.
  set (w' := simple_trigger e true w).
  destruct (Hsame w') as [Hev Hobs].
  assert (Hempty : empty e (stores w') = true).
  { unfold empty. rewrite Hev. apply simple_trigger_empties. }
  split; [|split; [|split; [|split]]].
  - rewrite Hmem. unfold w'.
    now rewrite (outside_mem _ _ (outside_simple_trigger e true w)).
  - rewrite Hmem. apply written_holds.
  - exact Hempty.
  - unfold completions. rewrite Hobs. fold (completions e w') (completions e w).
    destruct (simple_trigger_evolves e e true w) as [[He _]|[_ [_ Hc]]]; [|exact Hc].
    pose proof (simple_trigger_empties e true w) as Hnow.
    unfold to_bool in Harmed. rewrite He in Hnow. rewrite Hnow in Harmed. discriminate.
  - unfold to_bool. rewrite Hempty. cbn.
    now apply simple_trigger_empty_noop.
Qed.

(** C1.  For a typed event that is still armed, the first [trigger(v)]
    writes [v] into each non-null slot and completes the event, and a second
    [trigger(v')] is a silent no-op: it returns the very same state, so the
    slots still hold [v], the event stays empty and nothing is observed
    again (no completion, no hook, no callback).  This holds for the classes
    with four, three, two, one and no slots. *)
Theorem second_trigger_is_a_noop (w : world) (ev : _event_base)
    (t1 t2 t3 t4 t1' t2' t3' t4' : Z) :
  to_bool (base ev) w = true ->
  fires_once (trigger4 ev t1 t2 t3 t4) (trigger4 ev t1' t2' t3' t4') (base ev)
    [(_t1 ev, t1); (_t2 ev, t2); (_t3 ev, t3); (_t4 ev, t4)] w /\
  fires_once (trigger3 ev t1 t2 t3) (trigger3 ev t1' t2' t3') (base ev)
    [(_t1 ev, t1); (_t2 ev, t2); (_t3 ev, t3)] w /\
  fires_once (trigger2 ev t1 t2) (trigger2 ev t1' t2') (base ev)
    [(_t1 ev, t1); (_t2 ev, t2)] w /\
  fires_once (trigger1 ev t1) (trigger1 ev t1') (base ev) [(_t1 ev, t1)] w /\
  fires_once (trigger0 (base ev)) (trigger0 (base ev)) (base ev) [] w.
Proof.
  intros Harmed.
  split; [|split; [|split; [|split]]].
  - apply (trigger_twice
             (fun w => store_slot (_t4 ev) t4 (store_slot (_t3 ev) t3
                         (store_slot (_t2 ev) t2 (store_slot (_t1 ev) t1 w))))
             (fun w => store_slot (_t4 ev) t4' (store_slot (_t3 ev) t3'
                         (store_slot (_t2 ev) t2' (store_slot (_t1 ev) t1' w)))));
      [| |exact Harmed].
    + intros w0. now rewrite !store_slot_mem.
    + intros w0. repeat apply same_events_store. apply same_events_refl.
  - apply (trigger_twice
             (fun w => store_slot (_t3 ev) t3
                         (store_slot (_t2 ev) t2 (store_slot (_t1 ev) t1 w)))
             (fun w => store_slot (_t3 ev) t3'
                         (store_slot (_t2 ev) t2' (store_slot (_t1 ev) t1' w))));
      [| |exact Harmed].
    + intros w0. now rewrite !store_slot_mem.
    + intros w0. repeat apply same_events_store. apply same_events_refl.
  - apply (trigger_twice
             (fun w => store_slot (_t2 ev) t2 (store_slot (_t1 ev) t1 w))
             (fun w => store_slot (_t2 ev) t2' (store_slot (_t1 ev) t1' w)));
      [| |exact Harmed].
    + intros w0. now rewrite !store_slot_mem.
    + intros w0. repeat apply same_events_store. apply same_events_refl.
  - apply (trigger_twice (fun w => store_slot (_t1 ev) t1 w)
             (fun w => store_slot (_t1 ev) t1' w)); [| |exact Harmed].
    + intros w0. now rewrite !store_slot_mem.
    + intros w0. repeat apply same_events_store. apply same_events_refl.
  - pose proof (trigger_twice (fun w => w) (fun w => w) (base ev) [] w
                  (fun _ => eq_refl) same_events_refl Harmed) as H.
    unfold fires_once in *. unfold trigger0.
    destruct (complete (base ev) true w) as [ok w1] eqn:Hc.
    assert (Hw1 : (if ok then w1 else w1) = w1) by (destruct ok; reflexivity).
    rewrite Hw1 in H. cbn [snd]. destruct H as (H1 & H2 & H3 & H4 & H5).
    repeat split; try assumption.
    destruct (complete (base ev) true w1) as [ok' w2]. cbn [snd].
    destruct ok'; exact H5.
Qed.

Lemma second_trigger_is_a_noop_witness :
  let ev := mk_event_base 20%nat (Some 100%nat) None (Some 101%nat) (Some 102%nat) in
  let w1 := trigger4 ev 1 2 3 4 Example.world1 in
  to_bool 20%nat Example.world1 = true /\
  mem w1 !! 100%nat = Some 1 /\ mem w1 !! 101%nat = Some 3 /\ mem w1 !! 102%nat = Some 4 /\
  empty 20%nat w1 = true /\
  trigger4 ev 5 6 7 8 w1 = w1.
Proof.
  intros ev w1.
  assert (Harmed : to_bool 20%nat Example.world1 = true) by (vm_compute; reflexivity).
  destruct (second_trigger_is_a_noop Example.world1 ev 1 2 3 4 5 6 7 8 Harmed)
    as ((_ & Hhold & Hempty & _ & Hnoop) & _).
  split; [exact Harmed|].
  split; [apply (Hhold 0%nat); [reflexivity | intros [|[|[|[|j]]]] v' Hj; (lia || discriminate)]|].
  split; [apply (Hhold 2%nat); [reflexivity | intros [|[|[|[|j]]]] v' Hj; (lia || discriminate)]|].
  split; [apply (Hhold 3%nat); [reflexivity | intros [|[|[|[|j]]]] v' Hj; (lia || discriminate)]|].
  split; [exact Hempty | exact Hnoop].
Defined.

End TriggerTwice.

(** ** The phases of a turn *)

Module Phases.
Import XBase TameEvent TameDriver Frame.

Lemma idx_lookup {A} (a : list A) (n : nat) : idx a (Z.of_nat n) = a !! n.
Proof.
  unfold idx. destruct (Z.ltb_spec (Z.of_nat n) 0); [lia|]. now rewrite Nat2Z.id.
Qed.

Lemma pair_inv {A B} (a c : A) (b d : B) : (a, b) = (c, d) -> a = c /\ b = d.
Proof. intros H. split; congruence. Qed.

Lemma drv_trigger0 e w : drv (trigger0 e w) = drv w.
Proof. apply outside_drv, outside_simple_trigger. Qed.

Lemma drv_event_destroy e w : drv (event_destroy e w) = drv w.
Proof. apply outside_drv, outside_unuse. Qed.

Lemma drv_event_copy e w : drv (event_copy e w) = drv w.
Proof. reflexivity. Qed.

Lemma sigs_trigger0 e w : sigs (trigger0 e w) = sigs w.
Proof. apply outside_sigs, outside_simple_trigger. Qed.

Lemma sigs_event_destroy e w : sigs (event_destroy e w) = sigs w.
Proof. apply outside_sigs, outside_unuse. Qed.

(** *** The asap phase *)

Lemma run_asaps_spec : forall n w w' tr,
  _nasap (drv w) = Z.of_nat n -> (n <= length (_asap (drv w)))%nat ->
  run_asaps n w = (w', tr) ->
  tr = map (act_trigger ph_asap) (rev (take n (_asap (drv w)))) /\
  _nasap (drv w') = 0 /\
  _asap (drv w') = _asap (drv w) /\
  (forall x, x ∈ take n (_asap (drv w)) -> empty x w' = true) /\
  (forall e, evolves e w w') /\
  none_cancelled w w'.
Proof.
  induction n as [|n IH]; intros w w' tr Hn Hlen Hrun; cbn [run_asaps] in Hrun.
  - apply pair_inv in Hrun as [<- <-].
    repeat split; try assumption; try reflexivity.
    + intros x Hx. rewrite take_0 in Hx. inversion Hx.
    + intros e. apply evolves_refl.
  - rewrite Hn in Hrun. destruct (Z.ltb_spec 0 (Z.of_nat (S n))); [|lia].
    set (w1 := upd_drv (fun d => set_nasap (_nasap d - 1) d) w) in *.
    assert (Hn1 : _nasap (drv w1) = Z.of_nat n) by (unfold w1; cbn; lia).
    assert (Ha1 : _asap (drv w1) = _asap (drv w)) by reflexivity.
    rewrite Hn1, idx_lookup, Ha1 in Hrun.
    destruct (lookup_lt_is_Some_2 (_asap (drv w)) n ltac:(lia)) as [e He].
    rewrite He in Hrun.
    set (w2 := event_destroy e (trigger0 e w1)) in *.
    assert (Hd2 : drv w2 = drv w1)
      by (unfold w2; now rewrite drv_event_destroy, drv_trigger0).
    destruct (run_asaps n w2) as [w3 tr3] eqn:Hrec.
    apply pair_inv in Hrun as [<- <-].
    destruct (IH w2 w3 tr3) as (Htr & Hz & Ha & Hemp & Hev & Hnc); try assumption.
    + now rewrite Hd2.
    + rewrite Hd2, Ha1. lia.
    + rewrite Hd2, Ha1 in Htr, Ha, Hemp.
      assert (H12 : forall x, evolves x w w2).
      { intros x. eapply evolves_trans; [apply AtFd.evolves_upd_drv|].
        eapply evolves_trans; [apply evolves_trigger0 | apply evolves_event_destroy]. }
      assert (Hc12 : none_cancelled w w2).
      { intros x. unfold w2.
        rewrite cancellations_event_destroy by apply simple_trigger_empties.
        now rewrite cancellations_trigger0. }
      split; [|split; [exact Hz|split; [exact Ha|split; [|split]]]].
      * rewrite (take_S_r _ _ _ He), rev_app_distr. cbn. now rewrite Htr.
      * intros x Hx. rewrite (take_S_r _ _ _ He) in Hx.
        apply elem_of_app in Hx as [Hx|Hx]; [now apply Hemp|].
        apply list_elem_of_singleton in Hx. subst x.
        eapply evolves_empty_stays; [apply Hev|].
        eapply evolves_empty_stays; [apply evolves_event_destroy|].
        apply simple_trigger_empties.
      * intros x. eapply evolves_trans; [apply H12 | apply Hev].
      * intros x. now rewrite Hnc, Hc12.
Qed.


(** *** Steps that leave the asap array alone *)

Lemma asap_kept_refl w : asap_kept w w.
Proof. intros H. repeat split; try apply H; try lia. Qed.

Lemma asap_kept_trans w1 w2 w3 : asap_kept w1 w2 -> asap_kept w2 w3 -> asap_kept w1 w3.
Proof.
  intros H12 H23 Hok. destruct (H12 Hok) as (Hok2 & Hn2 & Hi2).
  destruct (H23 Hok2) as (Hok3 & Hn3 & Hi3).
  split; [exact Hok3|]. split; [lia|]. intros i Hi. rewrite Hi3 by lia. now apply Hi2.
Qed.

Lemma asap_kept_drv w w' : drv w' = drv w -> asap_kept w w'.
Proof. intros Hd. unfold asap_kept. rewrite Hd. intros H. repeat split; try apply H; lia. Qed.

Lemma asap_kept_fields w w' :
  _asap (drv w') = _asap (drv w) -> _nasap (drv w') = _nasap (drv w) ->
  _asapcap (drv w') = _asapcap (drv w) -> asap_kept w w'.
Proof.
  intros Ha Hn Hc. unfold asap_kept, asap_ok. rewrite Ha, Hn, Hc.
  intros H. repeat split; try apply H; lia.
Qed.

(** *** The timer loops *)

Lemma evolves_free_timer e t T w : evolves e w (free_timer t T w).
Proof.
  unfold free_timer. cbv zeta.
  eapply evolves_trans; [apply evolves_event_destroy | apply AtFd.evolves_upd_drv].
Qed.

Lemma asap_place pos t d :
  _asap (place pos t d) = _asap d /\ _nasap (place pos t d) = _nasap d /\
  _asapcap (place pos t d) = _asapcap d /\ _nt (place pos t d) = _nt d.
Proof. repeat split. Qed.

Lemma asap_sift_up n : forall pos t d,
  _asap (snd (sift_up n pos t d)) = _asap d /\ _nasap (snd (sift_up n pos t d)) = _nasap d /\
  _asapcap (snd (sift_up n pos t d)) = _asapcap d /\ _nt (snd (sift_up n pos t d)) = _nt d.
Proof.
  induction n as [|n IH]; intros pos t d; cbn [sift_up]; [repeat split|].
  repeat case_match; try (repeat split; fail).
  match goal with
  | |- context [sift_up n ?p t ?d'] =>
    destruct (IH p t d') as (Ha & Hb & Hc & Hd); rewrite Ha, Hb, Hc, Hd; repeat split
  end.
Qed.

Lemma asap_sift_down n : forall pos t d,
  _asap (sift_down n pos t d) = _asap d /\ _nasap (sift_down n pos t d) = _nasap d /\
  _asapcap (sift_down n pos t d) = _asapcap d /\ _nt (sift_down n pos t d) = _nt d.
Proof.
  induction n as [|n IH]; intros pos t d; cbn [sift_down]; [repeat split|]. cbv zeta.
  repeat case_match; try (repeat split; fail);
    match goal with
    | |- context [sift_down n ?p t ?d'] =>
      destruct (IH p t d') as (Ha & Hb & Hc & Hd); rewrite Ha, Hb, Hc, Hd; repeat split
    end.
Qed.

Lemma asap_pop_timer d :
  _asap (pop_timer d) = _asap d /\ _nasap (pop_timer d) = _nasap d /\
  _asapcap (pop_timer d) = _asapcap d /\ _nt (pop_timer d) = _nt d - 1.
Proof.
  unfold pop_timer. cbv zeta. destruct (idx (_t d) (_nt d - 1)) as [last|]; [|repeat split].
  unfold timer_reheapify_from.
  destruct (sift_up (Z.to_nat 0) 0 last d) as [pos d1] eqn:Hup.
  pose proof (asap_sift_up (Z.to_nat 0) 0 last d) as Hu. rewrite Hup in Hu. cbn [snd] in Hu.
  destruct Hu as (H1 & H2 & H3 & H4).
  destruct (asap_sift_down (S (Z.to_nat (_nt d1))) pos last d1) as (H5 & H6 & H7 & H8).
  cbv beta iota.
  set (d2 := sift_down (S (Z.to_nat (_nt d1))) pos last d1) in *. clearbody d2.
  cbn. rewrite H5, H6, H7, H8, H1, H2, H3, H4. repeat split.
Qed.

Lemma free_timer_fields t T w :
  _asap (drv (free_timer t T w)) = _asap (drv w) /\
  _nasap (drv (free_timer t T w)) = _nasap (drv w) /\
  _asapcap (drv (free_timer t T w)) = _asapcap (drv w) /\
  _nt (drv (free_timer t T w)) = _nt (drv w) /\
  sigs (free_timer t T w) = sigs w.
Proof.
  unfold free_timer, upd_drv. cbv zeta.
  cbn [drv sigs set_drv _asap _nasap _asapcap _nt set_tfree set_timers].
  rewrite drv_event_destroy, sigs_event_destroy. repeat split.
Qed.

Lemma none_cancelled_refl w : none_cancelled w w.
Proof. intros e. reflexivity. Qed.

Lemma none_cancelled_trans w1 w2 w3 :
  none_cancelled w1 w2 -> none_cancelled w2 w3 -> none_cancelled w1 w3.
Proof. intros H1 H2 e. now rewrite H2, H1. Qed.

Lemma quiet_refl w : quiet w w.
Proof. split; [intros; apply evolves_refl | split; [repeat split | apply none_cancelled_refl]]. Qed.

Lemma quiet_trans w1 w2 w3 : quiet w1 w2 -> quiet w2 w3 -> quiet w1 w3.
Proof.
  intros (He1 & (H1 & H2 & H3) & Hc1) (He2 & (H4 & H5 & H6) & Hc2). split; [|split].
  - intros e. eapply evolves_trans; [apply He1 | apply He2].
  - repeat split; congruence.
  - eapply none_cancelled_trans; eassumption.
Qed.

Lemma quiet_asap_kept w w' : quiet w w' -> asap_kept w w'.
Proof. intros (_ & (H1 & H2 & H3) & _). now apply asap_kept_fields. Qed.

Lemma quiet_evolves w w' e : quiet w w' -> evolves e w w'.
Proof. intros (H & _). apply H. Qed.

Lemma quiet_none_cancelled w w' : quiet w w' -> none_cancelled w w'.
Proof. intros (_ & _ & H). exact H. Qed.

Lemma quiet_trigger0 e w : quiet w (trigger0 e w).
Proof.
  split; [intros; apply evolves_trigger0 | split; [rewrite drv_trigger0; repeat split|]].
  intros x. apply cancellations_trigger0.
Qed.

(** The driver destroys its handle to an event only when the event is
    empty, so its destructor cancels nothing. *)
Lemma quiet_event_destroy e w : empty e w = true -> quiet w (event_destroy e w).
Proof.
  intros He.
  split; [intros; apply evolves_event_destroy | split; [rewrite drv_event_destroy; repeat split|]].
  intros x. now apply cancellations_event_destroy.
Qed.

Lemma quiet_upd_sigs f w : quiet w (upd_sigs f w).
Proof.
  split; [intros; apply AtFd.evolves_upd_sigs | split; [repeat split | intros x; reflexivity]].
Qed.

Lemma quiet_upd_drv f w :
  (_asap (f (drv w)) = _asap (drv w) /\ _nasap (f (drv w)) = _nasap (drv w) /\
   _asapcap (f (drv w)) = _asapcap (drv w)) ->
  quiet w (upd_drv f w).
Proof.
  intros H. split; [intros; apply AtFd.evolves_upd_drv | split; [exact H | intros x; reflexivity]].
Qed.

Lemma quiet_pop_timer w : quiet w (upd_drv pop_timer w).
Proof. apply quiet_upd_drv. destruct (asap_pop_timer (drv w)) as (H1 & H2 & H3 & _). auto. Qed.

Lemma quiet_free_timer t T w : empty (trigger T) w = true -> quiet w (free_timer t T w).
Proof.
  intros He. split; [intros; apply evolves_free_timer | split].
  - destruct (free_timer_fields t T w) as (H1 & H2 & H3 & _). auto.
  - intros x. unfold free_timer. cbv zeta.
    change (cancellations x (event_destroy (trigger T) w) = cancellations x w).
    now apply cancellations_event_destroy.
Qed.

Lemma quiet_drop_cancelled_timers n : forall w, quiet w (drop_cancelled_timers n w).
Proof.
  induction n as [|n IH]; intros w; cbn [drop_cancelled_timers]; [apply quiet_refl|].
  destruct (Z.ltb 0 (_nt (drv w))); [|apply quiet_refl].
  destruct (timer_at (drv w) 0) as [[t T]|]; [|apply quiet_refl].
  destruct (event_bool (trigger T) w) eqn:Hb; cbn [negb]; [apply quiet_refl|].
  eapply quiet_trans; [|apply IH].
  eapply quiet_trans; [apply quiet_pop_timer | apply quiet_free_timer].
  unfold event_bool, to_bool in Hb. apply negb_false_iff in Hb. exact Hb.
Qed.

Lemma quiet_drop_dead_descriptors n : forall w, quiet w (drop_dead_descriptors n w).
Proof.
  induction n as [|n IH]; intros w; cbn [drop_dead_descriptors]; [apply quiet_refl|].
  cbv zeta. case_match; [|apply quiet_refl].
  eapply quiet_trans; [|apply IH]. apply quiet_upd_drv. repeat split.
Qed.

Lemma quiet_before_poll w : quiet w (fst (before_poll w)).
Proof.
  unfold before_poll. cbv zeta. destruct (select_args _) as [[nfds rfds] wfds]. cbn [fst].
  eapply quiet_trans; [apply quiet_drop_cancelled_timers | apply quiet_drop_dead_descriptors].
Qed.

Lemma quiet_signal_handlers l : forall w,
  quiet w (fold_left (fun w s => tame_signal_handler s w) l w).
Proof.
  induction l as [|s l IH]; intros w; cbn [fold_left]; [apply quiet_refl|].
  eapply quiet_trans; [|apply IH]. apply quiet_upd_sigs.
Qed.

Lemma check_signal_spec l : forall w unb tr w' unb' tr',
  fold_left check_signal l (w, unb, tr) = (w', unb', tr') ->
  quiet w w' /\ exists new, tr' = tr ++ new /\ Forall (fun a => rank a = 1%nat) new.
Proof.
  induction l as [|s l IH]; intros w unb tr w' unb' tr' H; cbn [fold_left] in H.
  - apply pair_inv in H as [H <-]. apply pair_inv in H as [<- <-].
    split; [apply quiet_refl|]. exists []. now rewrite app_nil_r.
  - unfold check_signal at 2 in H.
    destruct (idx (sig_active (sigs w)) s) as [[|]|];
      try (now apply IH in H).
    cbv zeta in H.
    set (w1 := upd_sigs (fun s0 => set_sig_active (upd (sig_active s0) s false) s0) w) in *.
    destruct (idx (sig_handlers (sigs w1)) s) as [h|].
    + apply IH in H as (Hq & new & -> & Hnew). split.
      * eapply quiet_trans; [|exact Hq].
        eapply quiet_trans; [apply quiet_upd_sigs | apply quiet_trigger0].
      * exists (act_trigger ph_signal h :: new). rewrite <- app_assoc. split; [reflexivity|].
        constructor; [reflexivity | exact Hnew].
    + apply IH in H as (Hq & new & -> & Hnew). split.
      * eapply quiet_trans; [apply quiet_upd_sigs | exact Hq].
      * exists new. split; [reflexivity | exact Hnew].
Qed.

(** *** The descriptor and timer phases *)

Lemma fire_fd_spec write fd w w' tr :
  fire_fd write fd w = (w', tr) ->
  quiet w w' /\ Forall (fun a => rank a = 5%nat) tr /\ _nfds (drv w') = _nfds (drv w).
Proof.
  unfold fire_fd. cbv zeta.
  set (w1 := upd_drv (fun d => set_fset write (FD_CLR fd (fset write d)) d) w).
  assert (H1 : quiet w w1) by (apply quiet_upd_drv; destruct write; repeat split).
  assert (Hn : _nfds (drv w1) = _nfds (drv w)) by (unfold w1; destruct write; reflexivity).
  destruct (idx _ _) as [e|]; intros H; apply pair_inv in H as [<- <-].
  - split; [eapply quiet_trans; [exact H1 | apply quiet_trigger0]|].
    split; [repeat constructor | now rewrite drv_trigger0].
  - split; [exact H1|]. split; [constructor | exact Hn].
Qed.

Lemma run_fds_spec n : forall fd rfds wfds w w' tr,
  run_fds n fd rfds wfds w = (w', tr) ->
  quiet w w' /\ Forall (fun a => rank a = 5%nat) tr.
Proof.
  induction n as [|n IH]; intros fd rfds wfds w w' tr H; cbn [run_fds] in H.
  - apply pair_inv in H as [<- <-]. split; [apply quiet_refl | constructor].
  - destruct (Z.ltb fd (_nfds (drv w))).
    2:{ apply pair_inv in H as [<- <-]. split; [apply quiet_refl | constructor]. }
    destruct (if FD_ISSET fd rfds then fire_fd false fd w else (w, [])) as [w1 tr1] eqn:H1.
    destruct (if FD_ISSET fd wfds then fire_fd true fd w1 else (w1, [])) as [w2 tr2] eqn:H2.
    destruct (run_fds n (fd + 1) rfds wfds w2) as [w3 tr3] eqn:H3.
    apply pair_inv in H as [<- <-].
    assert (Hq1 : quiet w w1 /\ Forall (fun a => rank a = 5%nat) tr1).
    { destruct (FD_ISSET fd rfds).
      - apply fire_fd_spec in H1 as (? & ? & _). auto.
      - apply pair_inv in H1 as [<- <-]. split; [apply quiet_refl | constructor]. }
    assert (Hq2 : quiet w1 w2 /\ Forall (fun a => rank a = 5%nat) tr2).
    { destruct (FD_ISSET fd wfds).
      - apply fire_fd_spec in H2 as (? & ? & _). auto.
      - apply pair_inv in H2 as [<- <-]. split; [apply quiet_refl | constructor]. }
    apply IH in H3 as [Hq3 Hr3]. destruct Hq1 as [Hq1 Hr1]. destruct Hq2 as [Hq2 Hr2].
    split; [eapply quiet_trans; [exact Hq1 | eapply quiet_trans; [exact Hq2 | exact Hq3]]|].
    repeat (apply Forall_app; split); assumption.
Qed.

(** With no bit set in the result sets the descriptor loop does nothing. *)
Lemma run_fds_none n : forall fd w, run_fds n fd 0 0 w = (w, []).
Proof.
  induction n as [|n IH]; intros fd w; cbn [run_fds]; [reflexivity|].
  destruct (Z.ltb fd (_nfds (drv w))); [|reflexivity].
  unfold FD_ISSET. rewrite Z.testbit_0_l. now rewrite IH.
Qed.

Lemma run_timers_spec n : forall w w' tr,
  run_timers n w = (w', tr) ->
  quiet w w' /\ Forall (fun a => rank a = 7%nat) tr.
Proof.
  induction n as [|n IH]; intros w w' tr H; cbn [run_timers] in H.
  - apply pair_inv in H as [<- <-]. split; [apply quiet_refl | constructor].
  - destruct (Z.ltb 0 (_nt (drv w)));
      [|apply pair_inv in H as [<- <-]; split; [apply quiet_refl | constructor]].
    destruct (timer_at (drv w) 0) as [[t T]|];
      [|apply pair_inv in H as [<- <-]; split; [apply quiet_refl | constructor]].
    destruct (negb _);
      [|apply pair_inv in H as [<- <-]; split; [apply quiet_refl | constructor]].
    cbv zeta in H.
    destruct (run_timers n _) as [w3 tr3] eqn:H3.
    apply pair_inv in H as [<- <-]. apply IH in H3 as [Hq3 Hr3]. split.
    + eapply quiet_trans; [|exact Hq3].
      eapply quiet_trans; [apply quiet_pop_timer|].
      eapply quiet_trans; [apply quiet_trigger0 | apply quiet_free_timer].
      apply simple_trigger_empties.
    + constructor; [reflexivity | exact Hr3].
Qed.


Lemma run_asaps_rank n : forall w w' tr,
  run_asaps n w = (w', tr) -> Forall (fun a => rank a = 4%nat) tr.
Proof.
  induction n as [|n IH]; intros w w' tr H; cbn [run_asaps] in H.
  - apply pair_inv in H as [_ <-]. constructor.
  - destruct (Z.ltb 0 (_nasap (drv w))); [|apply pair_inv in H as [_ <-]; constructor].
    cbv zeta in H. destruct (idx _ _) as [e|]; [|eapply IH; exact H].
    destruct (run_asaps n _) as [w3 tr3] eqn:Hrec. apply pair_inv in H as [_ <-].
    constructor; [reflexivity | eapply IH; exact Hrec].
Qed.

(** *** Actions in phase order *)

Lemma in_phase_order_nil : in_phase_order [].
Proof. intros i j a b _ Hi. rewrite lookup_nil in Hi. discriminate. Qed.

Lemma in_phase_order_const k tr : Forall (fun a => rank a = k) tr -> in_phase_order tr.
Proof.
  intros Hall i j a b _ Hi Hj. rewrite Forall_lookup in Hall.
  rewrite (Hall i a Hi), (Hall j b Hj). lia.
Qed.

Lemma in_phase_order_app k t1 t2 :
  in_phase_order t1 -> in_phase_order t2 ->
  Forall (fun a => (rank a <= k)%nat) t1 -> Forall (fun a => (k <= rank a)%nat) t2 ->
  in_phase_order (t1 ++ t2).
Proof.
  intros H1 H2 Hlo Hhi i j a b Hij Hi Hj.
  rewrite Forall_lookup in Hlo. rewrite Forall_lookup in Hhi.
  destruct (decide (j < length t1)%nat) as [Hj1|Hj1].
  - rewrite lookup_app_l in Hi by lia. rewrite lookup_app_l in Hj by lia. exact (H1 i j a b Hij Hi Hj).
  - rewrite lookup_app_r in Hj by lia.
    destruct (decide (i < length t1)%nat) as [Hi1|Hi1].
    + rewrite lookup_app_l in Hi by lia.
      pose proof (Hlo i a Hi). pose proof (Hhi _ b Hj). lia.
    + rewrite lookup_app_r in Hi by lia.
      exact (H2 (i - length t1)%nat (j - length t1)%nat a b ltac:(lia) Hi Hj).
Qed.

Lemma Forall_rank_le k m tr :
  (k <= m)%nat -> Forall (fun a => rank a = k) tr -> Forall (fun a => (rank a <= m)%nat) tr.
Proof. intros Hk H. eapply Forall_impl; [exact H|]. intros a ->. exact Hk. Qed.

Lemma Forall_rank_ge k m tr :
  (m <= k)%nat -> Forall (fun a => rank a = k) tr -> Forall (fun a => (m <= rank a)%nat) tr.
Proof. intros Hk H. eapply Forall_impl; [exact H|]. intros a ->. exact Hk. Qed.

(** *** The drains and the whole turn *)

Lemma pop_unblocked_same w :
  events (snd (pop_unblocked w)) = events w /\ observed (snd (pop_unblocked w)) = observed w /\
  outside (snd (pop_unblocked w)) = outside w.
Proof. unfold pop_unblocked. repeat case_match; repeat split. Qed.

(** The actions from the asap phase on, in the order of the phases. *)
Lemma phases_tail_order tr2 tr3 tr4 tr5 :
  Forall (fun a => rank a = 4%nat) tr2 -> Forall (fun a => rank a = 5%nat) tr3 ->
  Forall (fun a => rank a = 7%nat) tr4 -> Forall (fun a => rank a = 8%nat) tr5 ->
  in_phase_order (tr2 ++ tr3 ++ act_gettimeofday :: tr4 ++ tr5) /\
  Forall (fun a => (4 <= rank a)%nat) (tr2 ++ tr3 ++ act_gettimeofday :: tr4 ++ tr5).
Proof.
  intros Hr2 Hr3 Hr4 Hrun.
  assert (H45 : in_phase_order (tr4 ++ tr5) /\ Forall (fun a => (7 <= rank a)%nat) (tr4 ++ tr5)).
  { split.
    - apply (in_phase_order_app 7);
        [now apply (in_phase_order_const 7) | now apply (in_phase_order_const 8)
         | (apply (Forall_rank_le 7); [lia | assumption])
         | (apply (Forall_rank_ge 8); [lia | assumption])].
    - apply Forall_app. split; [(apply (Forall_rank_ge 7); [lia | assumption])
                               | (apply (Forall_rank_ge 8); [lia | assumption])]. }
  destruct H45 as [Ho45 Hh45].
  assert (H6 : in_phase_order (act_gettimeofday :: tr4 ++ tr5) /\
               Forall (fun a => (6 <= rank a)%nat) (act_gettimeofday :: tr4 ++ tr5)).
  { split.
    - apply (in_phase_order_app 6 [act_gettimeofday]);
        [apply (in_phase_order_const 6); repeat constructor | exact Ho45
         | repeat constructor |].
      eapply Forall_impl; [exact Hh45|]. cbn. intros; lia.
    - constructor; [cbn; lia|]. eapply Forall_impl; [exact Hh45|]. cbn. intros; lia. }
  destruct H6 as [Ho6 Hh6].
  assert (H5 : in_phase_order (tr3 ++ act_gettimeofday :: tr4 ++ tr5) /\
               Forall (fun a => (5 <= rank a)%nat) (tr3 ++ act_gettimeofday :: tr4 ++ tr5)).
  { split.
    - apply (in_phase_order_app 5);
        [now apply (in_phase_order_const 5) | exact Ho6
         | (apply (Forall_rank_le 5); [lia | assumption]) |].
      eapply Forall_impl; [exact Hh6|]. cbn. intros; lia.
    - apply Forall_app. split; [(apply (Forall_rank_ge 5); [lia | assumption])|].
      eapply Forall_impl; [exact Hh6|]. cbn. intros; lia. }
  destruct H5 as [Ho5 Hh5]. split.
  - apply (in_phase_order_app 4);
      [now apply (in_phase_order_const 4) | exact Ho5
       | (apply (Forall_rank_le 4); [lia | assumption]) |].
    eapply Forall_impl; [exact Hh5|]. cbn. intros; lia.
  - apply Forall_app. split; [(apply (Forall_rank_ge 4); [lia | assumption])|].
    eapply Forall_impl; [exact Hh5|]. cbn. intros; lia.
Qed.

Lemma triple_inv {A B C} (a a' : A) (b b' : B) (c c' : C) :
  (a, b, c) = (a', b', c') -> a = a' /\ b = b' /\ c = c'.
Proof. intros H. repeat split; congruence. Qed.

Section Turn.

Variable activate : nat -> addr -> world -> world.
Variable select : Z -> fd_set -> fd_set -> option timeval -> select_result.
Variable clock : timeval.

(** *** A turn that returns is a turn followed to its end *)

Lemma run_unblocked_upto_ended fuel : forall d w w' tr,
  run_unblocked activate fuel d w = Some (w', tr) <->
  run_unblocked_upto activate fuel d w = (w', tr, true).
Proof.
  induction fuel as [|fuel IH]; intros d w w' tr; cbn [run_unblocked run_unblocked_upto].
  - split; intros H; [discriminate | apply triple_inv in H as (_ & _ & H); discriminate].
  - destruct (pop_unblocked w) as [[| |r] w1].
    + split; intros H; [apply Unblocked.some_pair_inv in H as [<- <-]; reflexivity|].
      apply triple_inv in H as (<- & <- & _). reflexivity.
    + split; intros H; [discriminate | apply triple_inv in H as (_ & _ & H); discriminate].
    + destruct (run_unblocked_upto activate fuel d (run activate r w1)) as [[w2 tr2] b] eqn:Hu.
      destruct b.
      * apply IH in Hu. rewrite Hu.
        split; intros H; [apply Unblocked.some_pair_inv in H as [<- <-]; reflexivity|].
        apply triple_inv in H as (<- & <- & _). reflexivity.
      * destruct (run_unblocked activate fuel d (run activate r w1)) as [[w3 tr3]|] eqn:Hr.
        { apply IH in Hr. rewrite Hr in Hu. apply triple_inv in Hu as (_ & _ & Hu).
          discriminate. }
        split; intros H; [discriminate | apply triple_inv in H as (_ & _ & H); discriminate].
Qed.

Lemma run_signals_upto_ended fuel w w' tr :
  run_signals activate fuel w = Some (w', tr) <->
  run_signals_upto activate fuel w = (w', tr, true).
Proof.
  unfold run_signals, run_signals_upto. destruct (sig_any_active (sigs w)).
  2:{ split; intros H; [apply Unblocked.some_pair_inv in H as [<- <-]; reflexivity|].
      apply triple_inv in H as (<- & <- & _). reflexivity. }
  cbv zeta. destruct (fold_left check_signal _ _) as [[w1 unb] tr1].
  destruct (run_unblocked_upto activate fuel drain_signal w1) as [[w2 tr2] b] eqn:Hu.
  destruct b.
  - apply run_unblocked_upto_ended in Hu. rewrite Hu.
    split; intros H; [apply Unblocked.some_pair_inv in H as [<- <-]; reflexivity|].
    apply triple_inv in H as (<- & <- & _). reflexivity.
  - destruct (run_unblocked activate fuel drain_signal w1) as [[w3 tr3]|] eqn:Hr.
    { apply run_unblocked_upto_ended in Hr. rewrite Hr in Hu.
      apply triple_inv in Hu as (_ & _ & Hu). discriminate. }
    split; intros H; [discriminate | apply triple_inv in H as (_ & _ & H); discriminate].
Qed.

Lemma once_from_poll_upto_returned fuel res w w' tr :
  once_from_poll activate clock fuel res w = Some (w', tr) <->
  once_from_poll_upto activate clock fuel res w = (w', tr, returned).
Proof.
  unfold once_from_poll, once_from_poll_upto. cbv zeta.
  set (w0 := fold_left (fun w s => tame_signal_handler s w) (sel_signals res) w).
  destruct (run_signals_upto activate fuel w0) as [[w1 tr1] b] eqn:Hu.
  destruct b.
  - apply run_signals_upto_ended in Hu. rewrite Hu.
    destruct (run_asaps _ w1) as [w2 tr2].
    destruct (if Z.leb 0 (sel_ret res) then _ else _) as [w3 tr3].
    destruct (run_timers _ _) as [w4 tr4].
    destruct (run_unblocked_upto activate fuel drain_final w4) as [[w5 tr5] b] eqn:Hf.
    destruct b.
    + apply run_unblocked_upto_ended in Hf. rewrite Hf.
      split; intros H; [apply Unblocked.some_pair_inv in H as [<- <-]; reflexivity|].
      apply triple_inv in H as (<- & <- & _). reflexivity.
    + destruct (run_unblocked activate fuel drain_final w4) as [[w6 tr6]|] eqn:Hr.
      { apply run_unblocked_upto_ended in Hr. rewrite Hr in Hf.
        apply triple_inv in Hf as (_ & _ & Hf). discriminate. }
      split; intros H; [discriminate | apply triple_inv in H as (_ & _ & H); discriminate].
  - destruct (run_signals activate fuel w0) as [[w3 tr3]|] eqn:Hr.
    { apply run_signals_upto_ended in Hr. rewrite Hr in Hu.
      apply triple_inv in Hu as (_ & _ & Hu). discriminate. }
    split; intros H; [discriminate | apply triple_inv in H as (_ & _ & H); discriminate].
Qed.

Lemma once_upto_returned fuel w w' tr :
  once activate select clock fuel w = Some (w', tr) <->
  once_upto activate select clock fuel w = (w', tr, returned).
Proof.
  unfold once, once_upto. destruct (before_poll w) as [w0 [[[nfds rfds] wfds] toptr]].
  destruct (once_from_poll_upto activate clock fuel (select nfds rfds wfds toptr) w0)
    as [[w1 tr1] p] eqn:Hu.
  destruct (once_from_poll activate clock fuel (select nfds rfds wfds toptr) w0)
    as [[w2 tr2]|] eqn:Hr.
  - apply once_from_poll_upto_returned in Hr. rewrite Hr in Hu.
    apply triple_inv in Hu as (<- & <- & <-).
    split; intros H; [apply Unblocked.some_pair_inv in H as [<- <-]; reflexivity|].
    apply triple_inv in H as (<- & <- & _). reflexivity.
  - split; intros H; [discriminate|]. apply triple_inv in H as (<- & <- & ->).
    apply once_from_poll_upto_returned in Hu. congruence.
Qed.

(** *** The order of the actions, as far as the turn gets *)

Lemma run_unblocked_upto_rank fuel : forall d w w' tr b,
  run_unblocked_upto activate fuel d w = (w', tr, b) ->
  Forall (fun a => rank a = match d with drain_signal => 2 | drain_final => 8 end%nat) tr.
Proof.
  induction fuel as [|fuel IH]; intros d w w' tr b H; cbn [run_unblocked_upto] in H.
  - apply triple_inv in H as (_ & <- & _). constructor.
  - destruct (pop_unblocked w) as [[| |r] w1];
      try (apply triple_inv in H as (_ & <- & _); constructor).
    destruct (run_unblocked_upto activate fuel d (run activate r w1)) as [[w2 tr2] b2] eqn:Hrec.
    apply triple_inv in H as (_ & <- & _). constructor; [now destruct d|].
    eapply IH, Hrec.
Qed.

Lemma run_signals_upto_order fuel w w' tr b :
  run_signals_upto activate fuel w = (w', tr, b) ->
  in_phase_order tr /\ Forall (fun a => (1 <= rank a <= 3)%nat) tr /\
  (sig_any_active (sigs w) = false -> tr = [] /\ b = true).
Proof.
  unfold run_signals_upto. destruct (sig_any_active (sigs w)).
  2:{ intros H. apply triple_inv in H as (_ & <- & <-).
      split; [apply in_phase_order_nil|]. split; [constructor | auto]. }
  cbv zeta.
  destruct (fold_left check_signal _ _) as [[w1 unb] tr1] eqn:Hfold.
  apply check_signal_spec in Hfold as (_ & new & -> & Hnew). cbn [app] in *.
  destruct (run_unblocked_upto activate fuel drain_signal w1) as [[w2 tr2] b2] eqn:Hrun.
  apply run_unblocked_upto_rank in Hrun.
  assert (Hfront : in_phase_order (new ++ tr2) /\
                   Forall (fun a => (1 <= rank a <= 2)%nat) (new ++ tr2)).
  { split.
    - apply (in_phase_order_app 1); [now apply (in_phase_order_const 1)
        | now apply (in_phase_order_const 2)
        | (apply (Forall_rank_le 1); [lia | assumption])
        | (apply (Forall_rank_ge 2); [lia | assumption])].
    - apply Forall_app. split.
      + eapply Forall_impl; [exact Hnew|]. intros a ->. lia.
      + eapply Forall_impl; [exact Hrun|]. intros a ->. lia. }
  destruct Hfront as [Hof Hrf].
  destruct b2; intros H; apply triple_inv in H as (_ & <- & _).
  - rewrite app_assoc. split; [|split; [|discriminate]].
    + apply (in_phase_order_app 3); [exact Hof | apply (in_phase_order_const 3); repeat constructor
        | | repeat constructor].
      eapply Forall_impl; [exact Hrf|]. cbn. intros; lia.
    + apply Forall_app. split; [|repeat constructor; cbn; lia].
      eapply Forall_impl; [exact Hrf|]. cbn. intros; lia.
  - split; [exact Hof|]. split; [|discriminate].
    eapply Forall_impl; [exact Hrf|]. cbn. intros; lia.
Qed.

Lemma once_from_poll_upto_order fuel res w w' tr p :
  once_from_poll_upto activate clock fuel res w = (w', tr, p) ->
  in_phase_order tr /\ Forall (fun a => (1 <= rank a)%nat) tr /\
  (sig_any_active (sigs w) = false -> sel_signals res = [] ->
   tasks_resume_last tr /\ p <> in_signal_drain).
Proof.
  unfold once_from_poll_upto. cbv zeta.
  set (w0 := fold_left (fun w s => tame_signal_handler s w) (sel_signals res) w).
  destruct (run_signals_upto activate fuel w0) as [[w1 tr1] b] eqn:Hsig.
  apply run_signals_upto_order in Hsig as (Ho1 & Hr1 & Hnil).
  assert (Hw0 : sel_signals res = [] -> w0 = w) by (intros Hn; unfold w0; now rewrite Hn).
  destruct b.
  2:{ intros H. apply triple_inv in H as (_ & <- & <-).
      split; [exact Ho1|]. split; [eapply Forall_impl; [exact Hr1|]; cbn; intros; lia|].
      intros Hquiet Hnosig. rewrite (Hw0 Hnosig) in Hnil.
      destruct (Hnil Hquiet) as [_ Hb]. discriminate. }
  destruct (run_asaps _ w1) as [w2 tr2] eqn:Hasap.
  destruct (if Z.leb 0 (sel_ret res) then _ else _) as [w3 tr3] eqn:Hfd.
  destruct (run_timers _ _) as [w4 tr4] eqn:Htimer.
  destruct (run_unblocked_upto activate fuel drain_final w4) as [[w5 tr5] b5] eqn:Hrun.
  intros H. apply triple_inv in H as (_ & <- & Hp).
  pose proof (run_asaps_rank _ _ _ _ Hasap) as Hr2.
  assert (Hr3 : Forall (fun a => rank a = 5%nat) tr3).
  { destruct (Z.leb 0 (sel_ret res)).
    - now apply run_fds_spec in Hfd as [_ ?].
    - apply pair_inv in Hfd as [_ <-]. constructor. }
  apply run_timers_spec in Htimer as [_ Hr4].
  apply run_unblocked_upto_rank in Hrun.
  destruct (phases_tail_order tr2 tr3 tr4 tr5 Hr2 Hr3 Hr4 Hrun) as [Hot Hht].
  split; [|split].
  - apply (in_phase_order_app 3); [exact Ho1 | exact Hot | |].
    + eapply Forall_impl; [exact Hr1|]. cbn. intros; lia.
    + eapply Forall_impl; [exact Hht|]. cbn. intros; lia.
  - apply Forall_app. split.
    + eapply Forall_impl; [exact Hr1|]. cbn. intros; lia.
    + eapply Forall_impl; [exact Hht|]. cbn. intros; lia.
  - intros Hquiet Hnosig. split; [|destruct b5; subst p; discriminate].
    rewrite (Hw0 Hnosig) in Hnil. destruct (Hnil Hquiet) as [-> _]. cbn [app].
    (* with no signal phase, every run is of rank 8 and every trigger below *)
    intros i j d r ph e Hi Hj.
    destruct (Nat.lt_ge_cases j i) as [Hlt|Hge]; [exact Hlt|exfalso].
    assert (Hri : (rank (act_run d r) = 8)%nat).
    { destruct d; [|reflexivity]. exfalso.
      rewrite Forall_lookup in Hht. specialize (Hht i _ Hi). cbn in Hht. lia. }
    assert (Hrj : (rank (act_trigger ph e) <= 7)%nat) by (destruct ph; cbn; lia).
    destruct (decide (i = j)) as [->|Hne]; [congruence|].
    pose proof (Hot i j _ _ ltac:(lia) Hi Hj). lia.
Qed.

(** The same of the turns that return. *)
Lemma run_unblocked_rank fuel d w w' tr :
  run_unblocked activate fuel d w = Some (w', tr) ->
  Forall (fun a => rank a = match d with drain_signal => 2 | drain_final => 8 end%nat) tr.
Proof. intros H. apply run_unblocked_upto_ended in H. eapply run_unblocked_upto_rank, H. Qed.

(** More fuel does not change the outcome of a drain that ended. *)
Lemma run_unblocked_more_fuel fuel : forall d w r,
  run_unblocked activate fuel d w = Some r -> run_unblocked activate (S fuel) d w = Some r.
Proof.
  induction fuel as [|fuel IH]; intros d w r H; [discriminate|].
  cbn [run_unblocked] in H. cbn [run_unblocked].
  destruct (pop_unblocked w) as [[| |x] w1]; try discriminate; [exact H|].
  destruct (run_unblocked activate fuel d (run activate x w1)) as [[w2 tr2]|] eqn:Hrec;
    [|discriminate].
  apply IH in Hrec. cbn [run_unblocked] in Hrec. rewrite Hrec. exact H.
Qed.

Lemma run_signals_order fuel w w' tr :
  run_signals activate fuel w = Some (w', tr) ->
  in_phase_order tr /\ Forall (fun a => (1 <= rank a <= 3)%nat) tr /\
  (sig_any_active (sigs w) = false -> tr = []).
Proof.
  intros H. apply run_signals_upto_ended in H.
  apply run_signals_upto_order in H as (H1 & H2 & H3).
  split; [exact H1|]. split; [exact H2|]. intros Hq. now destruct (H3 Hq).
Qed.

Lemma once_from_poll_order fuel res w w' tr :
  once_from_poll activate clock fuel res w = Some (w', tr) ->
  in_phase_order tr /\ Forall (fun a => (1 <= rank a)%nat) tr /\
  (sig_any_active (sigs w) = false -> sel_signals res = [] -> tasks_resume_last tr).
Proof.
  intros H. apply once_from_poll_upto_returned in H.
  apply once_from_poll_upto_order in H as (H1 & H2 & H3).
  split; [exact H1|]. split; [exact H2|]. intros Hq Hn. now destruct (H3 Hq Hn).
Qed.

End Turn.

(** *** Scheduling an event for the asap phase *)

Lemma expand_asap_spec w :
  asap_ok (drv w) -> _asapcap (drv w) <= _nasap (drv w) ->
  asap_ok (drv (expand_asap w)) /\
  _nasap (drv (expand_asap w)) < _asapcap (drv (expand_asap w)) /\
  _nasap (drv (expand_asap w)) = _nasap (drv w) /\
  (forall i, 0 <= i < _nasap (drv w) ->
     idx (_asap (drv (expand_asap w))) i = idx (_asap (drv w)) i) /\
  (forall e, evolves e w (expand_asap w)).
Proof.
  intros (H0 & Hle & Hcap) Hfull. unfold expand_asap. cbv zeta.
  set (ncap := if Z.eqb (_asapcap (drv w)) 0 then 16 else _asapcap (drv w) * 2).
  assert (Hn : _nasap (drv w) < ncap /\ _asapcap (drv w) <= ncap).
  { unfold ncap. destruct (Z.eqb_spec (_asapcap (drv w)) 0); lia. }
  assert (Hlen : length (take (Z.to_nat (_asapcap (drv w))) (_asap (drv w))
                         ++ replicate (Z.to_nat (ncap - _asapcap (drv w))) TameEvent.dead)
                 = Z.to_nat ncap).
  { rewrite length_app, length_take, length_replicate. lia. }
  cbn. split; [|split; [|split; [|split]]].
  - unfold asap_ok. cbn. rewrite Hlen. lia.
  - lia.
  - reflexivity.
  - intros i Hi. unfold idx. destruct (Z.ltb_spec i 0); [lia|].
    rewrite lookup_app_l by (rewrite length_take; lia).
    apply lookup_take_lt. lia.
  - intros e. apply AtFd.evolves_upd_drv.
Qed.

Lemma at_asap_spec e w :
  asap_ok (drv w) ->
  asap_ok (drv (at_asap e w)) /\
  _nasap (drv (at_asap e w)) = _nasap (drv w) + 1 /\
  idx (_asap (drv (at_asap e w))) (_nasap (drv w)) = Some e /\
  (forall x, evolves x w (at_asap e w)).
Proof.
  intros Hok. unfold at_asap. cbv zeta.
  set (w1 := if Z.leb (_asapcap (drv w)) (_nasap (drv w)) then expand_asap w else w).
  assert (H1 : asap_ok (drv w1) /\ _nasap (drv w1) < _asapcap (drv w1) /\
               _nasap (drv w1) = _nasap (drv w) /\ forall x, evolves x w w1).
  { unfold w1. destruct (Z.leb_spec (_asapcap (drv w)) (_nasap (drv w))) as [Hfull|Hroom].
    - destruct (expand_asap_spec w Hok Hfull) as (Ha & Hb & Hc & _ & He). auto.
    - repeat split; try apply Hok; try lia. intros; apply evolves_refl. }
  destruct H1 as ((H0 & Hle & Hcap) & Hroom & Hn & Hev).
  assert (Hevx : forall x, evolves x w
            (upd_drv (fun d => set_nasap (_nasap d + 1) (set_asap (upd (_asap d) (_nasap d) e) d))
               (event_copy e w1))).
  { intros x. eapply evolves_trans; [apply Hev|].
    eapply evolves_trans; [apply (evolves_use x (Some e) w1) | apply AtFd.evolves_upd_drv]. }
  split; [|split; [|split; [|exact Hevx]]]; clear Hevx;
    unfold upd_drv; cbn [drv set_drv]; rewrite drv_event_copy; cbn.
  - unfold asap_ok. cbn. unfold upd. destruct (Z.ltb_spec (_nasap (drv w1)) 0); [lia|].
    rewrite length_insert. lia.
  - lia.
  - rewrite <- Hn. unfold idx, upd. destruct (Z.ltb_spec (_nasap (drv w1)) 0); [lia|].
    apply list_lookup_insert_eq. lia.
Qed.

Lemma at_asap_observed e w : observed (at_asap e w) = observed w.
Proof. unfold at_asap. cbv zeta. destruct (Z.leb _ _); reflexivity. Qed.

(** The asap loop on any array: every event evolves, none is cancelled. *)
Lemma run_asaps_calm n : forall w w' tr,
  run_asaps n w = (w', tr) -> (forall e, evolves e w w') /\ none_cancelled w w'.
Proof.
  induction n as [|n IH]; intros w w' tr H; cbn [run_asaps] in H.
  - apply pair_inv in H as [<- _]. split; [intros; apply evolves_refl | apply none_cancelled_refl].
  - destruct (Z.ltb 0 (_nasap (drv w)));
      [|apply pair_inv in H as [<- _]; split;
        [intros; apply evolves_refl | apply none_cancelled_refl]].
    cbv zeta in H.
    set (w1 := upd_drv (fun d => set_nasap (_nasap d - 1) d) w) in *.
    destruct (idx _ _) as [x|].
    + destruct (run_asaps n _) as [w3 tr3] eqn:Hrec. apply pair_inv in H as [<- _].
      apply IH in Hrec as [He Hc]. split.
      * intros e. apply (evolves_trans e w w1); [apply AtFd.evolves_upd_drv|].
        eapply evolves_trans; [apply evolves_trigger0|].
        eapply evolves_trans; [apply evolves_event_destroy | apply He].
      * intros e. rewrite Hc.
        rewrite cancellations_event_destroy by apply simple_trigger_empties.
        now rewrite cancellations_trigger0.
    + apply IH in H as [He Hc]. split.
      * intros e. apply (evolves_trans e w w1); [apply AtFd.evolves_upd_drv | apply He].
      * intros e. now rewrite Hc.
Qed.

(** *** Tasks that leave the event and the asap array alone *)

Section Polite.

Variable activate : nat -> addr -> world -> world.
Variable clock : timeval.
Variable e : addr.
Hypothesis activate_polite : polite activate e.

(** What a step that may run tasks keeps of the event [e]. *)
Let kept (w w' : world) : Prop :=
  evolves e w w' /\ cancellations e w' = cancellations e w /\ asap_kept w w'.

Lemma kept_refl w : kept w w.
Proof. split; [apply evolves_refl | split; [reflexivity | apply asap_kept_refl]]. Qed.

Lemma kept_trans w1 w2 w3 : kept w1 w2 -> kept w2 w3 -> kept w1 w3.
Proof.
  intros (He1 & Hc1 & Hk1) (He2 & Hc2 & Hk2).
  split; [eapply evolves_trans; eassumption|].
  split; [congruence | eapply asap_kept_trans; eassumption].
Qed.

Lemma kept_quiet w w' : quiet w w' -> kept w w'.
Proof.
  intros Hq. split; [apply (quiet_evolves _ _ _ Hq)|].
  split; [apply (quiet_none_cancelled _ _ Hq) | now apply quiet_asap_kept].
Qed.

Lemma run_polite r w : kept w (run activate r w).
Proof.
  unfold run. destruct (rdvs w !! r) as [R|]; [|apply kept_refl].
  destruct (_blocked_closure R) as [c|]; [|apply kept_refl]. cbv zeta.
  set (w1 := upd_rdv r (set_blocked_closure None) w).
  assert (H1 : kept w w1)
    by (split; [apply evolves_upd_rdv | split; [reflexivity | now apply asap_kept_drv]]).
  destruct (closures w1 !! c) as [C|]; [|exact H1].
  eapply kept_trans; [exact H1 | apply activate_polite].
Qed.

Lemma run_unblocked_upto_polite fuel : forall d w w' tr b,
  run_unblocked_upto activate fuel d w = (w', tr, b) -> kept w w'.
Proof.
  induction fuel as [|fuel IH]; intros d w w' tr b H; cbn [run_unblocked_upto] in H.
  - apply triple_inv in H as (<- & _ & _). apply kept_refl.
  - destruct (pop_unblocked_same w) as (Hev & Hobs & Hout).
    destruct (pop_unblocked w) as [[| |r] w1]; cbn [snd] in *;
      try (apply triple_inv in H as (<- & _ & _); apply kept_refl).
    destruct (run_unblocked_upto activate fuel d (run activate r w1)) as [[w2 tr2] b2] eqn:Hrec.
    apply triple_inv in H as (<- & _ & _). apply IH in Hrec.
    apply (kept_trans w w1); [|eapply kept_trans; [apply run_polite | exact Hrec]].
    split; [apply evolves_same; [now rewrite Hev | exact Hobs]|].
    split; [now apply cancellations_same | apply asap_kept_drv, (outside_drv _ _ Hout)].
Qed.

Lemma run_signals_upto_polite fuel w w' tr b :
  run_signals_upto activate fuel w = (w', tr, b) -> kept w w'.
Proof.
  unfold run_signals_upto. destruct (sig_any_active (sigs w)).
  2:{ intros H. apply triple_inv in H as (<- & _ & _). apply kept_refl. }
  cbv zeta.
  destruct (fold_left check_signal _ _) as [[w1 unb] tr1] eqn:Hfold.
  apply check_signal_spec in Hfold as (Hq & _).
  destruct (run_unblocked_upto activate fuel drain_signal w1) as [[w2 tr2] b2] eqn:Hrun.
  apply run_unblocked_upto_polite in Hrun.
  assert (Hq0 : kept w w1).
  { apply kept_quiet.
    eapply quiet_trans; [apply (quiet_upd_sigs (set_sig_any_active false) w) | exact Hq]. }
  destruct b2; intros H; apply triple_inv in H as (<- & _ & _).
  - eapply kept_trans; [exact Hq0|]. eapply kept_trans; [exact Hrun|].
    apply kept_quiet, quiet_upd_sigs.
  - eapply kept_trans; [exact Hq0 | exact Hrun].
Qed.

(** An event on the asap array when [select] returns is triggered in the
    asap phase of that turn, once the turn is past the drain of the signal
    phase, and is empty from then on. *)
Lemma once_from_poll_upto_polite fuel res w w' tr p i :
  once_from_poll_upto activate clock fuel res w = (w', tr, p) ->
  evolves e w w' /\ cancellations e w' = cancellations e w /\
  (asap_ok (drv w) -> 0 <= i < _nasap (drv w) -> idx (_asap (drv w)) i = Some e ->
   p <> in_signal_drain ->
   empty e w' = true /\ act_trigger ph_asap e ∈ tr).
Proof.
  unfold once_from_poll_upto. cbv zeta.
  set (w0 := fold_left (fun w s => tame_signal_handler s w) (sel_signals res) w).
  pose proof (kept_quiet _ _ (quiet_signal_handlers (sel_signals res) w)) as Hq0.
  fold w0 in Hq0.
  destruct (run_signals_upto activate fuel w0) as [[w1 tr1] b] eqn:Hsig.
  apply run_signals_upto_polite in Hsig.
  pose proof (kept_trans _ _ _ Hq0 Hsig) as H01.
  destruct b.
  2:{ intros H. apply triple_inv in H as (<- & _ & <-).
      destruct H01 as (He & Hc & _). split; [exact He|]. split; [exact Hc|].
      intros _ _ _ Hp. now contradiction Hp. }
  destruct (run_asaps _ w1) as [w2 tr2] eqn:Hasap.
  destruct (if Z.leb 0 (sel_ret res) then _ else _) as [w3 tr3] eqn:Hfd.
  destruct (run_timers _ _) as [w4 tr4] eqn:Htimer.
  destruct (run_unblocked_upto activate fuel drain_final w4) as [[w5 tr5] b5] eqn:Hrun.
  intros H. apply triple_inv in H as (<- & <- & _).
  assert (Hq3 : quiet w2 w3).
  { destruct (Z.leb 0 (sel_ret res)).
    - now apply run_fds_spec in Hfd as [? _].
    - apply pair_inv in Hfd as [<- _]. apply quiet_refl. }
  apply run_timers_spec in Htimer as [Hq4 _].
  apply run_unblocked_upto_polite in Hrun.
  assert (H25 : kept w2 w5).
  { eapply kept_trans; [apply kept_quiet, Hq3|].
    eapply kept_trans; [apply kept_quiet, (quiet_upd_drv (set_now clock) w3); repeat split|].
    eapply kept_trans; [apply kept_quiet, Hq4 | exact Hrun]. }
  destruct (run_asaps_calm _ _ _ _ Hasap) as [He12 Hc12].
  destruct H01 as (He01 & Hc01 & Hk01). destruct H25 as (He25 & Hc25 & _).
  split; [|split].
  - eapply evolves_trans; [exact He01|]. eapply evolves_trans; [apply He12 | exact He25].
  - now rewrite Hc25, Hc12, Hc01.
  - intros Hok Hi Hidx _.
    destruct (Hk01 Hok) as ((H0 & Hle & Hcap) & Hgrow & Hsame).
    assert (Hidx1 : idx (_asap (drv w1)) i = Some e) by (rewrite Hsame; assumption).
    destruct (run_asaps_spec (Z.to_nat (_nasap (drv w1))) w1 w2 tr2) as (Htr & _ & _ & Hemp & _);
      [lia | lia | exact Hasap |].
    assert (Hin : e ∈ take (Z.to_nat (_nasap (drv w1))) (_asap (drv w1))).
    { unfold idx in Hidx1. destruct (Z.ltb_spec i 0); [lia|].
      apply list_elem_of_lookup. exists (Z.to_nat i).
      rewrite lookup_take_lt by lia. exact Hidx1. }
    split.
    + eapply evolves_empty_stays; [exact He25 | now apply Hemp].
    + rewrite Htr. apply elem_of_app. right. apply elem_of_app. left.
      apply list_elem_of_In, in_map, in_rev. rewrite rev_involutive.
      now apply list_elem_of_In.
Qed.

End Polite.

End Phases.

(** ** When a turn returns *)

Module Ends.
Import XBase TameEvent TameDriver Frame Unblocked Phases.

Lemma link_view_blocked w r R :
  rdvs w !! r = Some R -> link_view w r = Some (_blocked_closure R, unblocked_next_ R).
Proof. unfold link_view. now intros ->. Qed.

Lemma run_unblocked_S activate fuel d w :
  run_unblocked activate (S fuel) d w =
  match pop_unblocked w with
  | (rnull, _) => Some (w, [])
  | (rptr r, w) =>
    match run_unblocked activate fuel d (run activate r w) with
    | Some (w, tr) => Some (w, act_run d r :: tr)
    | None => None
    end
  | (rsentinel, _) => None
  end.
Proof. reflexivity. Qed.

(** *** The steps of the driver keep the unblocked list well formed *)

Lemma same_links_outside w w' :
  rdvs w' = rdvs w -> unblocked w' = unblocked w -> unblocked_ptail w' = unblocked_ptail w ->
  same_links w w'.
Proof. intros Hr Hu Hp. split; [|auto]. intros r. unfold link_view. now rewrite Hr. Qed.

Lemma has_queue_upd_drv f w : has_queue w -> has_queue (upd_drv f w).
Proof. apply has_queue_same_links. now apply same_links_outside. Qed.

Lemma has_queue_upd_sigs f w : has_queue w -> has_queue (upd_sigs f w).
Proof. apply has_queue_same_links. now apply same_links_outside. Qed.

Lemma has_queue_trigger0 e w : has_queue w -> has_queue (trigger0 e w).
Proof. apply has_queue_simple_trigger_fuel. Qed.

Lemma has_queue_delete a w : has_queue w -> has_queue (set_events (delete a (events w)) w).
Proof. apply has_queue_same_links. now apply same_links_outside. Qed.

Lemma has_queue_event_destroy e w : has_queue w -> has_queue (event_destroy e w).
Proof.
  intros Hq. unfold event_destroy, unuse. destruct (events w !! e) as [ev|]; [|exact Hq].
  cbv zeta.
  set (w1 := upd_event e (set_refcount (u32 (_refcount ev - 1))) w).
  assert (H1 : has_queue w1)
    by (eapply has_queue_same_links; [apply same_links_upd_event | exact Hq]).
  destruct (Z.eqb _ 0); [|exact H1].
  apply has_queue_delete. destruct (_r ev); [|exact H1].
  now apply has_queue_simple_trigger_fuel.
Qed.

Lemma has_queue_event_copy e w : has_queue w -> has_queue (event_copy e w).
Proof. apply has_queue_same_links, same_links_use. Qed.

Lemma has_queue_free_timer t T w : has_queue w -> has_queue (free_timer t T w).
Proof. intros Hq. unfold free_timer. cbv zeta. now apply has_queue_upd_drv, has_queue_event_destroy. Qed.

Lemma has_queue_drop_cancelled_timers n : forall w,
  has_queue w -> has_queue (drop_cancelled_timers n w).
Proof.
  induction n as [|n IH]; intros w Hq; cbn [drop_cancelled_timers]; [exact Hq|].
  repeat case_match; try exact Hq.
  now apply IH, has_queue_free_timer, has_queue_upd_drv.
Qed.

Lemma has_queue_drop_dead_descriptors n : forall w,
  has_queue w -> has_queue (drop_dead_descriptors n w).
Proof.
  induction n as [|n IH]; intros w Hq; cbn [drop_dead_descriptors]; [exact Hq|].
  cbv zeta. case_match; [|exact Hq]. now apply IH, has_queue_upd_drv.
Qed.

Lemma has_queue_before_poll w : has_queue w -> has_queue (fst (before_poll w)).
Proof.
  intros Hq. unfold before_poll. cbv zeta. destruct (select_args _) as [[nfds rfds] wfds].
  cbn [fst]. now apply has_queue_drop_dead_descriptors, has_queue_drop_cancelled_timers.
Qed.

Lemma has_queue_signal_handlers l : forall w,
  has_queue w -> has_queue (fold_left (fun w s => tame_signal_handler s w) l w).
Proof.
  induction l as [|s l IH]; intros w Hq; cbn [fold_left]; [exact Hq|].
  apply IH. unfold tame_signal_handler. now apply has_queue_upd_sigs.
Qed.

Lemma has_queue_check_signal l : forall w unb tr,
  has_queue w -> has_queue (fst (fst (fold_left check_signal l (w, unb, tr)))).
Proof.
  induction l as [|s l IH]; intros w unb tr Hq; cbn [fold_left]; [exact Hq|].
  unfold check_signal at 2.
  destruct (idx (sig_active (sigs w)) s) as [[|]|]; try (now apply IH).
  cbv zeta.
  set (w1 := upd_sigs (fun s0 => set_sig_active (upd (sig_active s0) s false) s0) w).
  assert (H1 : has_queue w1) by now apply has_queue_upd_sigs.
  destruct (idx (sig_handlers (sigs w1)) s) as [h|]; apply IH; [|exact H1].
  now apply has_queue_trigger0.
Qed.

Lemma has_queue_run_asaps n : forall w, has_queue w -> has_queue (fst (run_asaps n w)).
Proof.
  induction n as [|n IH]; intros w Hq; cbn [run_asaps]; [exact Hq|].
  destruct (Z.ltb 0 (_nasap (drv w))); [|exact Hq]. cbv zeta.
  set (w1 := upd_drv (fun d => set_nasap (_nasap d - 1) d) w).
  assert (H1 : has_queue w1) by now apply has_queue_upd_drv.
  destruct (idx _ _) as [x|]; [|now apply IH].
  specialize (IH (event_destroy x (trigger0 x w1))
                (has_queue_event_destroy _ _ (has_queue_trigger0 _ _ H1))).
  destruct (run_asaps n _) as [w3 tr3]. exact IH.
Qed.

Lemma has_queue_fire_fd write fd w : has_queue w -> has_queue (fst (fire_fd write fd w)).
Proof.
  intros Hq. unfold fire_fd. cbv zeta.
  set (w1 := upd_drv (fun d => set_fset write (FD_CLR fd (fset write d)) d) w).
  assert (H1 : has_queue w1) by now apply has_queue_upd_drv.
  destruct (idx _ _); cbn [fst]; [now apply has_queue_trigger0 | exact H1].
Qed.

Lemma has_queue_run_fds n : forall fd rfds wfds w,
  has_queue w -> has_queue (fst (run_fds n fd rfds wfds w)).
Proof.
  induction n as [|n IH]; intros fd rfds wfds w Hq; cbn [run_fds]; [exact Hq|].
  destruct (Z.ltb fd (_nfds (drv w))); [|exact Hq].
  assert (H1 : has_queue (fst (if FD_ISSET fd rfds then fire_fd false fd w else (w, []))))
    by (destruct (FD_ISSET fd rfds); [now apply has_queue_fire_fd | exact Hq]).
  destruct (if FD_ISSET fd rfds then fire_fd false fd w else (w, [])) as [w1 tr1].
  cbn [fst] in H1.
  assert (H2 : has_queue (fst (if FD_ISSET fd wfds then fire_fd true fd w1 else (w1, []))))
    by (destruct (FD_ISSET fd wfds); [now apply has_queue_fire_fd | exact H1]).
  destruct (if FD_ISSET fd wfds then fire_fd true fd w1 else (w1, [])) as [w2 tr2].
  cbn [fst] in H2. specialize (IH (fd + 1) rfds wfds w2 H2).
  destruct (run_fds n (fd + 1) rfds wfds w2) as [w3 tr3]. exact IH.
Qed.

Lemma has_queue_run_timers n : forall w, has_queue w -> has_queue (fst (run_timers n w)).
Proof.
  induction n as [|n IH]; intros w Hq; cbn [run_timers]; [exact Hq|].
  destruct (Z.ltb 0 (_nt (drv w))); [|exact Hq].
  destruct (timer_at (drv w) 0) as [[t T]|]; [|exact Hq].
  destruct (negb _); [|exact Hq]. cbv zeta.
  specialize (IH (free_timer t T (trigger0 (trigger T) (upd_drv pop_timer w)))
                (has_queue_free_timer _ _ _
                   (has_queue_trigger0 _ _ (has_queue_upd_drv pop_timer w Hq)))).
  destruct (run_timers n _) as [w3 tr3]. exact IH.
Qed.

Lemma has_queue_at_asap e w : has_queue w -> has_queue (at_asap e w).
Proof.
  intros Hq. unfold at_asap. cbv zeta. apply has_queue_upd_drv, has_queue_event_copy.
  destruct (Z.leb _ _); [|exact Hq]. unfold expand_asap. cbv zeta. now apply has_queue_upd_drv.
Qed.

(** *** Tasks that leave the unblocked list alone *)

Section Tidy.

Variable activate : nat -> addr -> world -> world.
Variable select : Z -> fd_set -> fd_set -> option timeval -> select_result.
Variable clock : timeval.
Hypothesis tidy : forall f c w, same_links w (activate f c w).

(** The drain of a list that holds [l] ends after [length l] rounds: it
    runs the rendezvous of [l], each once and in list order, and leaves the
    list empty. *)
Lemma drain_ends (d : drain) : forall (l : list addr) (w : world),
  unblocked_queue w l ->
  exists w', run_unblocked activate (S (length l)) d w = Some (w', map (act_run d) l) /\
             unblocked_queue w' [].
Proof.
  induction l as [|r l IH]; intros w Hq.
  - destruct (queue_pop w [] Hq) as (Hfst & _ & _).
    exists w. cbn [length map]. rewrite run_unblocked_S. destruct (pop_unblocked w) as [p w1].
    cbn in Hfst. subst p. split; [reflexivity | exact Hq].
  - destruct (queue_pop w (r :: l) Hq) as (Hfst & Hq1 & Hrdvs).
    pose proof Hq as (Hc & Hnd & _). apply NoDup_cons in Hnd as [Hr Hnd].
    destruct Hc as (_ & R & HR & Hcl & _).
    cbn [length map]. rewrite run_unblocked_S. destruct (pop_unblocked w) as [p w1].
    cbn [fst snd tail] in Hfst, Hq1, Hrdvs. subst p.
    set (w2 := run activate r w1).
    assert (Hw2 : unblocked_queue w2 l).
    { unfold w2, run. rewrite Hrdvs, HR. destruct (_blocked_closure R) as [c|]; [|congruence].
      set (w1' := upd_rdv r (set_blocked_closure None) w1).
      assert (Hq1' : unblocked_queue w1' l) by (apply queue_upd_off; assumption).
      destruct (closures w1' !! c); [|exact Hq1'].
      eapply queue_same_links; [apply tidy | exact Hq1']. }
    destruct (IH w2 Hw2) as (w' & Hrun & Hq').
    exists w'. rewrite Hrun. split; [reflexivity | exact Hq'].
Qed.

Lemma run_unblocked_fuel_le d w r : forall fuel fuel',
  (fuel <= fuel')%nat ->
  run_unblocked activate fuel d w = Some r -> run_unblocked activate fuel' d w = Some r.
Proof.
  intros fuel fuel' Hle. induction Hle as [|fuel' _ IH]; [auto|].
  intros H. now apply run_unblocked_more_fuel, IH.
Qed.

Lemma drain_returns d w :
  has_queue w ->
  exists fuel w' tr, has_queue w' /\
    forall fuel', (fuel <= fuel')%nat -> run_unblocked activate fuel' d w = Some (w', tr).
Proof.
  intros [l Hq]. destruct (drain_ends d l w Hq) as (w' & Hrun & Hq').
  exists (S (length l)), w', (map (act_run d) l). split; [now exists []|].
  intros fuel' Hle. eapply run_unblocked_fuel_le; eassumption.
Qed.

Lemma run_signals_returns w :
  has_queue w ->
  exists fuel w' tr, has_queue w' /\
    forall fuel', (fuel <= fuel')%nat -> run_signals activate fuel' w = Some (w', tr).
Proof.
  intros Hq. unfold run_signals. destruct (sig_any_active (sigs w)).
  2:{ exists 0%nat, w, []. split; [exact Hq | reflexivity]. }
  cbv zeta.
  pose proof (has_queue_check_signal (map Z.of_nat (seq 0 (Z.to_nat NSIGNALS)))
                (upd_sigs (set_sig_any_active false) w) [] []
                (has_queue_upd_sigs _ _ Hq)) as H1.
  destruct (fold_left check_signal _ _) as [[w1 unb] tr1]. cbn [fst] in H1.
  destruct (drain_returns drain_signal w1 H1) as (fuel & w2 & tr2 & H2 & Hrun).
  eexists fuel, _, _. split; [|intros fuel' Hle; rewrite (Hrun fuel' Hle); reflexivity].
  now apply has_queue_upd_sigs.
Qed.

Lemma once_from_poll_returns res w :
  has_queue w ->
  exists fuel w' tr,
    forall fuel', (fuel <= fuel')%nat ->
      once_from_poll activate clock fuel' res w = Some (w', tr).
Proof.
  intros Hq. unfold once_from_poll. cbv zeta.
  set (w0 := fold_left (fun w s => tame_signal_handler s w) (sel_signals res) w).
  assert (H0 : has_queue w0) by now apply has_queue_signal_handlers.
  destruct (run_signals_returns w0 H0) as (f1 & w1 & tr1 & H1 & Hsig).
  pose proof (has_queue_run_asaps (Z.to_nat (_nasap (drv w1))) w1 H1) as H2.
  destruct (run_asaps (Z.to_nat (_nasap (drv w1))) w1) as [w2 tr2] eqn:Hasap. cbn [fst] in H2.
  assert (H3 : has_queue (fst (if Z.leb 0 (sel_ret res)
                               then run_fds (Z.to_nat (_nfds (drv w2))) 0 (sel_rfds res)
                                      (sel_wfds res) w2
                               else (w2, []))))
    by (destruct (Z.leb 0 (sel_ret res)); [now apply has_queue_run_fds | exact H2]).
  destruct (if Z.leb 0 (sel_ret res)
            then run_fds (Z.to_nat (_nfds (drv w2))) 0 (sel_rfds res) (sel_wfds res) w2
            else (w2, [])) as [w3 tr3] eqn:Hfd. cbn [fst] in H3.
  pose proof (has_queue_run_timers (Z.to_nat (_nt (drv (upd_drv (set_now clock) w3))))
                (upd_drv (set_now clock) w3) (has_queue_upd_drv _ _ H3)) as H4.
  destruct (run_timers (Z.to_nat (_nt (drv (upd_drv (set_now clock) w3))))
              (upd_drv (set_now clock) w3)) as [w4 tr4] eqn:Htimer. cbn [fst] in H4.
  destruct (drain_returns drain_final w4 H4) as (f2 & w5 & tr5 & _ & Hfin).
  eexists (Nat.max f1 f2), _, _. intros fuel' Hle.
  rewrite (Hsig fuel') by lia. cbv beta iota. rewrite Hasap. cbv beta iota.
  rewrite Hfd. cbv beta iota. rewrite Htimer. cbv beta iota.
  rewrite (Hfin fuel') by lia. reflexivity.
Qed.

(** A turn returns when the unblocked list is well formed at its start. *)
Lemma once_returns w :
  has_queue w ->
  exists fuel w' tr,
    forall fuel', (fuel <= fuel')%nat -> once activate select clock fuel' w = Some (w', tr).
Proof.
  intros Hq. unfold once. pose proof (has_queue_before_poll w Hq) as H0.
  destruct (before_poll w) as [w0 [[[nfds rfds] wfds] toptr]]. cbn [fst] in H0.
  destruct (once_from_poll_returns (select nfds rfds wfds toptr) w0 H0) as (fuel & w' & tr & H).
  eexists fuel, _, _. intros fuel' Hle. rewrite (H fuel' Hle). reflexivity.
Qed.

End Tidy.

End Ends.

(** ** One turn of the driver *)
Module Turn.
Import XBase TameEvent TameDriver Frame Phases.

Lemma sigs_drop_cancelled_timers n : forall w, sigs (drop_cancelled_timers n w) = sigs w.
Proof.
  induction n as [|n IH]; intros w; cbn [drop_cancelled_timers]; [reflexivity|].
  repeat case_match; try reflexivity.
  rewrite IH. now destruct (free_timer_fields n0 t (upd_drv pop_timer w)) as (_ & _ & _ & _ & ->).
Qed.

Lemma sigs_drop_dead_descriptors n : forall w, sigs (drop_dead_descriptors n w) = sigs w.
Proof.
  induction n as [|n IH]; intros w; cbn [drop_dead_descriptors]; [reflexivity|].
  cbv zeta. case_match; [|reflexivity]. now rewrite IH.
Qed.

Lemma sigs_before_poll w : sigs (fst (before_poll w)) = sigs w.
Proof.
  unfold before_poll. cbv zeta. destruct (select_args _) as [[nfds rfds] wfds]. cbn [fst].
  now rewrite sigs_drop_dead_descriptors, sigs_drop_cancelled_timers.
Qed.

Lemma tasks_resume_last_cons a tr :
  (forall d r, a <> act_run d r) -> tasks_resume_last tr -> tasks_resume_last (a :: tr).
Proof.
  intros Ha Htr i j d r ph e Hi Hj. destruct i as [|i].
  - cbn in Hi. apply Unblocked.some_inv in Hi. now apply Ha in Hi.
  - destruct j as [|j]; [lia|]. cbn in Hi, Hj. specialize (Htr i j d r ph e Hi Hj). lia.
Qed.

Lemma in_phase_order_cons_select nfds rfds wfds toptr tr :
  in_phase_order tr -> in_phase_order (act_select nfds rfds wfds toptr :: tr).
Proof.
  intros Htr. apply (in_phase_order_app 0 [act_select nfds rfds wfds toptr] tr).
  - apply (in_phase_order_const 0). repeat constructor.
  - exact Htr.
  - repeat constructor.
  - apply Forall_forall. intros; lia.
Qed.

(** C2, as the code has it.  In every call of [once()], followed for as
    long as one likes (its two drain loops need not end), the actions come
    in this order: the call of [select]; the events of the pending signals;
    then, still inside the signal phase, the rendezvous that are unblocked
    by then are run (so tasks resume here, before any asap event) and the
    signals are unblocked; the asap events; the events of the ready
    descriptors; the clock is read; the events of the due timers; and last
    the rendezvous unblocked by then.  When no signal is pending at the poll
    and none is delivered during it, there is no signal phase and tasks
    resume only after all the events of the turn have been triggered.  The
    actions of a call that returns are those of the call followed to its
    end. *)
Theorem once_phase_order (activate : nat -> addr -> world -> world)
    (select : Z -> fd_set -> fd_set -> option timeval -> select_result)
    (clock : timeval) (fuel : nat) (w : world) :
  let tr := snd (fst (once_upto activate select clock fuel w)) in
  in_phase_order tr /\
  (sig_any_active (sigs w) = false ->
   (forall nfds rfds wfds toptr, sel_signals (select nfds rfds wfds toptr) = []) ->
   tasks_resume_last tr) /\
  (forall w' tr', once activate select clock fuel w = Some (w', tr') -> tr' = tr).
Proof.
  cbv zeta. split; [|split].
  - unfold once_upto. destruct (before_poll w) as [w1 [[[nfds rfds] wfds] toptr]].
    destruct (once_from_poll_upto _ _ _ _ _) as [[w2 tr2] p] eqn:Hrun. cbn [fst snd].
    apply once_from_poll_upto_order in Hrun as (Ho & _ & _).
    now apply in_phase_order_cons_select.
  - intros Hquiet Hnosig. unfold once_upto. pose proof (sigs_before_poll w) as Hs.
    destruct (before_poll w) as [w1 [[[nfds rfds] wfds] toptr]]. cbn [fst] in Hs.
    destruct (once_from_poll_upto _ _ _ _ _) as [[w2 tr2] p] eqn:Hrun. cbn [fst snd].
    apply once_from_poll_upto_order in Hrun as (_ & _ & Hlast).
    apply tasks_resume_last_cons; [discriminate|].
    apply Hlast; [congruence | apply Hnosig].
  - intros w' tr' H. apply once_upto_returned in H. now rewrite H.
Qed.

Lemma once_phase_order_witness :
  snd (fst (once_upto Example.idle Example.select_signal (mk_timeval 5 0) 5
              Example.world_turn)) =
    [act_select 0 0 0 (Some (mk_timeval 0 0));
     act_trigger ph_signal 20%nat; act_run drain_signal 10%nat;
     act_sigprocmask_unblock [10]; act_read_pipe;
     act_trigger ph_asap 22%nat; act_gettimeofday] /\
  snd (fst (once_upto Example.idle Example.select_signal (mk_timeval 5 0) 0
              Example.world_turn)) =
    [act_select 0 0 0 (Some (mk_timeval 0 0)); act_trigger ph_signal 20%nat] /\
  snd (once_upto Example.idle Example.select_signal (mk_timeval 5 0) 0 Example.world_turn) =
    in_signal_drain /\
  in_phase_order (snd (fst (once_upto Example.idle Example.select_signal (mk_timeval 5 0) 5
                              Example.world_turn))) /\
  in_phase_order (snd (fst (once_upto Example.idle Example.select_signal (mk_timeval 5 0) 0
                              Example.world_turn))).
Proof.
  split; [vm_compute; reflexivity|]. split; [vm_compute; reflexivity|].
  split; [vm_compute; reflexivity|]. split.
  - exact (proj1 (once_phase_order Example.idle Example.select_signal (mk_timeval 5 0) 5
                    Example.world_turn)).
  - exact (proj1 (once_phase_order Example.idle Example.select_signal (mk_timeval 5 0) 0
                    Example.world_turn)).
Defined.

(** C2 as stated fails: with a signal pending, the rendezvous whose event
    the signal fires is run before the asap event is triggered. *)
Lemma tasks_resume_before_asaps_counterexample :
  exists w',
    once Example.idle Example.select_signal (mk_timeval 5 0) 5 Example.world_turn
      = Some (w', [act_select 0 0 0 (Some (mk_timeval 0 0));
                   act_trigger ph_signal 20%nat; act_run drain_signal 10%nat;
                   act_sigprocmask_unblock [10]; act_read_pipe;
                   act_trigger ph_asap 22%nat; act_gettimeofday]) /\
    ~ tasks_resume_last [act_select 0 0 0 (Some (mk_timeval 0 0));
                         act_trigger ph_signal 20%nat; act_run drain_signal 10%nat;
                         act_sigprocmask_unblock [10]; act_read_pipe;
                         act_trigger ph_asap 22%nat; act_gettimeofday].
Proof.
  eexists. split; [vm_compute; reflexivity|].
  intros Hclaim.
  specialize (Hclaim 2%nat 5%nat drain_signal 10%nat ph_asap 22%nat eq_refl eq_refl). lia.
Qed.

(** *** A failed poll *)

Lemma once_from_poll_no_fd activate clock fuel res w w' tr :
  sel_ret res < 0 ->
  once_from_poll activate clock fuel res w = Some (w', tr) ->
  Forall (fun a => rank a <> 5%nat) tr.
Proof.
  intros Hneg. unfold once_from_poll. cbv zeta.
  destruct (run_signals activate fuel _) as [[w1 tr1]|] eqn:Hsig; [|discriminate].
  destruct (run_asaps _ w1) as [w2 tr2] eqn:Hasap.
  destruct (Z.leb_spec 0 (sel_ret res)) as [Hge|_]; [lia|].
  destruct (run_timers _ _) as [w4 tr4] eqn:Htimer.
  destruct (run_unblocked activate fuel drain_final w4) as [[w5 tr5]|] eqn:Hrun; [|discriminate].
  intros H. apply Unblocked.some_pair_inv in H as [_ <-].
  apply run_signals_order in Hsig as (_ & Hr1 & _).
  apply run_asaps_rank in Hasap. apply run_timers_spec in Htimer as [_ Hr4].
  apply run_unblocked_rank in Hrun.
  repeat (apply Forall_app; split); try constructor;
    try (eapply Forall_impl; [eassumption|]; cbn; intros; lia).
  - cbn. lia.
  - apply Forall_app; split; (eapply Forall_impl; [eassumption|]; cbn; intros; lia).
Qed.

Lemma once_from_poll_failed activate clock fuel res w :
  sel_ret res < 0 ->
  once_from_poll activate clock fuel res w =
  once_from_poll activate clock fuel (mk_select_result 0 0 0 0 (sel_signals res)) w.
Proof.
  intros Hneg. unfold once_from_poll. cbv zeta. cbn [sel_signals sel_ret sel_rfds sel_wfds].
  destruct (run_signals activate fuel _) as [[w1 tr1]|]; [|reflexivity].
  destruct (run_asaps _ w1) as [w2 tr2].
  destruct (Z.leb_spec 0 (sel_ret res)) as [Hge|_]; [lia|]. cbn [Z.leb Z.compare].
  now rewrite run_fds_none.
Qed.

(** C5, as the code has it.  [once()] never looks at [errno]: whatever the
    error, a poll that returns a negative value is treated exactly like a
    poll that found no descriptor ready.  The phase of the descriptors is the
    only one skipped; the events of the pending signals, the asap events and
    the due timers are still triggered and the unblocked rendezvous still
    run, and [once()] returns to its caller as after any other turn. *)
Theorem failed_poll_only_skips_descriptors
    (activate : nat -> addr -> world -> world) (clock : timeval) (fuel : nat)
    (res : select_result) (w : world) :
  sel_ret res < 0 ->
  (forall errno,
     once_from_poll activate clock fuel res w =
     once_from_poll activate clock fuel
       (mk_select_result (sel_ret res) errno (sel_rfds res) (sel_wfds res) (sel_signals res))
       w) /\
  once_from_poll activate clock fuel res w =
    once_from_poll activate clock fuel (mk_select_result 0 0 0 0 (sel_signals res)) w /\
  (forall w' tr e,
     once_from_poll activate clock fuel res w = Some (w', tr) -> act_trigger ph_fd e ∉ tr) /\
  (forall select,
     (forall nfds rfds wfds toptr, select nfds rfds wfds toptr = res) ->
     once activate select clock fuel w =
     once activate (fun _ _ _ _ => mk_select_result 0 0 0 0 (sel_signals res)) clock fuel w).
Proof.
  intros Hneg.
  split; [intros errno; reflexivity|].
  split; [now apply once_from_poll_failed|]. split.
  - intros w' tr e H Hin. pose proof (once_from_poll_no_fd _ _ _ _ _ _ _ Hneg H) as Hr.
    rewrite Forall_forall in Hr. now apply (Hr _ Hin).
  - intros select Hsel. unfold once.
    destruct (before_poll w) as [w1 [[[nfds rfds] wfds] toptr]].
    now rewrite Hsel, (once_from_poll_failed _ _ _ res w1 Hneg).
Qed.

Lemma failed_poll_only_skips_descriptors_witness :
  let res := mk_select_result (-1) EINTR 8 8 [] in
  sel_ret res < 0 /\
  once_from_poll Example.idle (mk_timeval 5 0) 5 res Example.world_turn =
  once_from_poll Example.idle (mk_timeval 5 0) 5 (mk_select_result 0 0 0 0 [])
    Example.world_turn.
Proof.
  intros res. assert (Hneg : sel_ret res < 0) by (cbn; lia). split; [exact Hneg|].
  exact (proj1 (proj2 (failed_poll_only_skips_descriptors Example.idle (mk_timeval 5 0) 5
                         res Example.world_turn Hneg))).
Defined.

Lemma poll_error_ends_turn_inv activate select clock fuel w errno :
  poll_error_ends_turn activate select clock fuel w ->
  (forall nfds rfds wfds toptr,
     sel_ret (select nfds rfds wfds toptr) = -1 /\
     sel_errno (select nfds rfds wfds toptr) = errno) ->
  (errno <> EINTR -> once activate select clock fuel w = None) /\
  (errno = EINTR -> exists w' a, once activate select clock fuel w = Some (w', [a])).
Proof.
  unfold poll_error_ends_turn. intros Hclaim Hsel.
  destruct (before_poll w) as [w1 [[[nfds rfds] wfds] toptr]].
  cbv zeta in Hclaim. destruct (Hsel nfds rfds wfds toptr) as [Hret Herr].
  rewrite Herr in Hclaim. destruct (Hclaim Hret) as [Hfatal Hend].
  split; [exact Hfatal|]. intros He. destruct (Hend He) as [w' Hw']. eauto.
Qed.

(** C5 as stated fails: whether the poll fails with [EINTR] or with
    [EBADF] (9), the turn goes on and returns normally; here the asap event
    22 is triggered and the rendezvous 10 run after the failed poll. *)
Lemma poll_error_counterexample :
  ~ poll_error_ends_turn Example.idle (Example.select_fail EINTR) (mk_timeval 5 0) 5
      Example.world_turn /\
  ~ poll_error_ends_turn Example.idle (Example.select_fail 9) (mk_timeval 5 0) 5
      Example.world_turn.
Proof.
  split; intros Hclaim.
  - assert (Hrun : option_map snd (once Example.idle (Example.select_fail EINTR)
                                     (mk_timeval 5 0) 5 Example.world_turn) =
                   Some [act_select 0 0 0 (Some (mk_timeval 0 0)); act_trigger ph_asap 22%nat;
                         act_gettimeofday; act_run drain_final 10%nat])
      by (vm_compute; reflexivity).
    destruct (poll_error_ends_turn_inv _ _ _ _ _ EINTR Hclaim) as [_ Hend];
      [intros; split; reflexivity|].
    destruct (Hend eq_refl) as (w' & a & Hw').
    rewrite Hw' in Hrun. discriminate Hrun.
  - assert (Hrun : option_map snd (once Example.idle (Example.select_fail 9)
                                     (mk_timeval 5 0) 5 Example.world_turn) =
                   Some [act_select 0 0 0 (Some (mk_timeval 0 0)); act_trigger ph_asap 22%nat;
                         act_gettimeofday; act_run drain_final 10%nat])
      by (vm_compute; reflexivity).
    destruct (poll_error_ends_turn_inv _ _ _ _ _ 9 Hclaim) as [Hfatal _];
      [intros; split; reflexivity|].
    rewrite Hfatal in Hrun; [discriminate Hrun | discriminate].
Qed.

(** *** The asap phase *)

Lemma polite_idle e : polite Example.idle e.
Proof.
  intros f c w. split; [apply evolves_refl | split; [reflexivity | apply asap_kept_refl]].
Qed.

Lemma sigs_at_asap e w : sigs (at_asap e w) = sigs w.
Proof. unfold at_asap. cbv zeta. destruct (Z.leb _ _); reflexivity. Qed.

(** An armed event put on the asap array, and the turn after it as far as
    it gets. *)
Lemma at_asap_then_once activate select clock w e fuel :
  asap_ok (drv w) -> polite activate e -> to_bool e w = true ->
  let r := once_upto activate select clock fuel (at_asap e w) in
  cancellations e (fst (fst r)) = cancellations e w /\
  evolves e w (fst (fst r)) /\
  (snd r <> in_signal_drain ->
   empty e (fst (fst r)) = true /\
   completions e (fst (fst r)) = S (completions e w) /\
   act_trigger ph_asap e ∈ snd (fst r)).
Proof.
  intros Hok Hpolite Harmed. cbv zeta.
  destruct (at_asap_spec e w Hok) as (Hok1 & Hn1 & Hidx1 & Hev1).
  pose proof (cancellations_same e _ _ (at_asap_observed e w)) as Hc1.
  set (w0 := at_asap e w) in *.
  unfold once_upto. pose proof (quiet_before_poll w0) as Hq.
  destruct (before_poll w0) as [w1 [[[nfds rfds] wfds] toptr]]. cbn [fst] in Hq.
  destruct (once_from_poll_upto _ _ _ _ _) as [[w2 tr2] p] eqn:Hrun. cbn [fst snd].
  destruct Hq as (Hev & (Ha & Hn & Hc) & Hnc).
  destruct (once_from_poll_upto_polite activate clock e Hpolite fuel _ w1 w2 tr2 p
              (_nasap (drv w)) Hrun) as (Hev2 & Hc2 & Hfire).
  assert (Hall : evolves e w w2).
  { eapply evolves_trans; [apply Hev1|]. eapply evolves_trans; [apply Hev | exact Hev2]. }
  split; [now rewrite Hc2, Hnc, Hc1|]. split; [exact Hall|].
  intros Hp. destruct Hfire as [Hempty Hin].
  - unfold asap_ok. rewrite Ha, Hn, Hc. exact Hok1.
  - rewrite Hn, Hn1. destruct Hok as (? & _). lia.
  - rewrite Ha. exact Hidx1.
  - exact Hp.
  - split; [exact Hempty|]. split; [|now right].
    destruct Hall as [[He _]|[_ [_ Hcount]]]; [|exact Hcount].
    unfold to_bool in Harmed. rewrite <- He, Hempty in Harmed. discriminate.
Qed.



End Turn.
(** ** The ready queue and the waiting list of a rendezvous (tamer/xbase.hh) *)

Module Ready.
Import XBase.

Ltac lookups :=
  repeat first
    [ rewrite lookup_alter_eq | rewrite lookup_alter_ne by congruence
    | rewrite lookup_delete_eq | rewrite lookup_delete_ne by congruence ].

Ltac alters :=
  repeat match goal with
         | |- context [alter ?f ?i ?m !! ?j] =>
           rewrite (lookup_alter f m i j); case_decide; subst
         end.

(** *** Chains *)

Lemma member_alt z w :
  (exists ev, events w !! z = Some ev /\ _r ev = None) <->
  is_Some (events w !! z) /\ owner z w = None.
Proof.
  unfold owner. split.
  - intros (ev & -> & Hr). split; [eauto | exact Hr].
  - intros [[ev Hev] Ho]. rewrite Hev in Ho. eauto.
Qed.

Lemma ready_chain_ext w w' : forall l here t,
  load_event_loc here w' = load_event_loc here w ->
  (forall z, z ∈ l ->
     (exists ev, events w' !! z = Some ev /\ _r ev = None) /\
     load_event_loc (loc_r_next z) w' = load_event_loc (loc_r_next z) w) ->
  ready_chain w here l t -> ready_chain w' here l t.
Proof.
  induction l as [|x l IH]; intros here t Hhere Hl; cbn [ready_chain].
  - now rewrite Hhere.
  - intros (Hload & _ & Hrest). destruct (Hl x) as [Hx Hnext]; [left|].
    split; [now rewrite Hhere|]. split; [exact Hx|].
    apply IH; [exact Hnext | | exact Hrest]. intros z Hz. apply Hl. now right.
Qed.

Lemma ready_chain_functional w : forall l l' here t t',
  ready_chain w here l t -> ready_chain w here l' t' -> l = l' /\ t = t'.
Proof.
  induction l as [|x l IH]; intros [|x' l'] here t t'; cbn [ready_chain].
  - intros [_ ->] [_ ->]. auto.
  - intros [H _] [H' _]. congruence.
  - intros [H _] [H' _]. congruence.
  - intros (H & _ & Hrest) (H' & _ & Hrest').
    assert (x' = x) as -> by congruence.
    destruct (IH _ _ _ _ Hrest Hrest') as [-> ->]. auto.
Qed.

Lemma ready_chain_suffix w : forall a b here t,
  ready_chain w here (a ++ b) t -> exists mid, ready_chain w mid b t.
Proof.
  induction a as [|x a IH]; intros b here t; cbn [app ready_chain]; [eauto|].
  intros (_ & _ & Hrest). eapply IH, Hrest.
Qed.

Lemma ready_chain_NoDup w : forall l here t, ready_chain w here l t -> NoDup l.
Proof.
  induction l as [|x l IH]; intros here t; cbn [ready_chain]; [constructor|].
  intros (_ & _ & Hrest). constructor; [|now apply IH in Hrest].
  intros Hin. apply list_elem_of_split in Hin as (a & b & ->).
  destruct (ready_chain_suffix w a (x :: b) _ _ Hrest) as (mid & _ & _ & Hb).
  destruct (ready_chain_functional w _ _ _ _ _ Hrest Hb) as [Hlen _].
  apply (f_equal length) in Hlen. rewrite length_app in Hlen. cbn in Hlen. lia.
Qed.

Lemma ready_chain_tail w : forall l here t,
  ready_chain w here l t ->
  (l = [] /\ t = here) \/ (exists y, last l = Some y /\ t = loc_r_next y).
Proof.
  induction l as [|x l IH]; intros here t; cbn [ready_chain].
  - intros [_ ->]. now left.
  - intros (_ & _ & Hrest). right. apply IH in Hrest as [[-> ->]|(y & Hy & ->)].
    + now exists x.
    + exists y. split; [|reflexivity]. destruct l; [discriminate | exact Hy].
Qed.

Lemma ready_chain_member w : forall l here t z,
  ready_chain w here l t -> z ∈ l -> exists ev, events w !! z = Some ev /\ _r ev = None.
Proof.
  induction l as [|x l IH]; intros here t z; cbn [ready_chain]; [now intros _ ?%elem_of_nil|].
  intros (_ & Hx & Hrest) [->|Hin]%elem_of_cons; [exact Hx | eapply IH; eassumption].
Qed.

(** *** Queues *)

Lemma ready_queue_functional r w l l' : ready_queue r w l -> ready_queue r w l' -> l = l'.
Proof.
  intros (R & HR & _ & Hc) (R' & HR' & _ & Hc').
  assert (R' = R) as -> by congruence.
  now destruct (ready_chain_functional w _ _ _ _ _ Hc Hc').
Qed.

Lemma ready_queue_member r w l z :
  ready_queue r w l -> z ∈ l -> is_Some (events w !! z) /\ owner z w = None.
Proof.
  intros (R & _ & _ & Hc) Hin. apply member_alt. eapply ready_chain_member; eassumption.
Qed.

Lemma owner_Some_lookup z w :
  owner z w <> None -> exists e, events w !! z = Some e /\ _r e <> None.
Proof. unfold owner. destruct (events w !! z) as [e|]; [eauto | congruence]. Qed.

Lemma owner_of_lookup z w e : events w !! z = Some e -> owner z w = _r e.
Proof. unfold owner. now intros ->. Qed.

Lemma pprev_of_lookup z w e : events w !! z = Some e -> pprev_of z w = _r_pprev e.
Proof. unfold pprev_of. now intros ->. Qed.

Lemma load_next_lookup z w e : events w !! z = Some e -> load_event_loc (loc_r_next z) w = _r_next e.
Proof. cbn. now intros ->. Qed.

Lemma unuse_clean_frame w x :
  owner x w = None ->
  rdvs (unuse_clean (Some x) w) = rdvs w /\
  (forall z, z <> x -> events (unuse_clean (Some x) w) !! z = events w !! z) /\
  owner x (unuse_clean (Some x) w) = None /\
  (forall e', events (unuse_clean (Some x) w) !! x = Some e' ->
     exists e, events w !! x = Some e /\ _rid e' = _rid e /\
               _r_next e' = _r_next e /\ u32 (_refcount e - 1) <> 0) /\
  (forall e, events w !! x = Some e -> u32 (_refcount e - 1) <> 0 ->
     is_Some (events (unuse_clean (Some x) w) !! x)).
Proof.
  intros Hox. unfold unuse_clean. destruct (events w !! x) as [e|] eqn:He.
  - cbv zeta. destruct (Z.eqb_spec (u32 (_refcount e - 1)) 0) as [H0|H0]; cbn.
    + split; [reflexivity|]. split; [intros z Hz; now lookups|].
      split; [unfold owner; cbn; now lookups|].
      split; [intros e'; lookups; discriminate|]. intros e0 He0. simplify_eq. congruence.
    + split; [reflexivity|]. split; [intros z Hz; now lookups|].
      split; [unfold owner, upd_event; cbn; lookups; rewrite He; cbn;
              now rewrite (owner_of_lookup _ _ _ He) in Hox|].
      split.
      * intros e'. unfold upd_event. cbn. lookups. rewrite He. cbn. intros He'.
        simplify_eq. exists e. auto.
      * intros e0 He0 _. unfold upd_event. cbn. lookups. rewrite He. cbn. eauto.
  - split; [reflexivity|]. split; [reflexivity|]. split; [exact Hox|].
    split; [intros e'; congruence|]. intros e; congruence.
Qed.


(** *** Popping *)

Lemma pop_ready_step r w x l :
  ready_queue r w (x :: l) ->
  exists w', pop_ready r w = Some (rid_of x w, w') /\
             ready_queue r w' l /\
             (forall z, z <> x -> events w' !! z = events w !! z) /\
             (forall r', r' <> r -> rdvs w' !! r' = rdvs w !! r').
Proof.
  intros (R & HR & Ht & Hc).
  pose proof (ready_chain_NoDup w _ _ _ Hc) as Hnd. apply NoDup_cons in Hnd as [Hx Hnd].
  destruct Hc as (Hload & (ev & Hev & Hr) & Hrest). cbn in Hload. rewrite HR in Hload.
  unfold pop_ready. rewrite HR, Hload, Hev. cbv zeta.
  set (w2 := match _r_next ev with
             | Some _ => upd_rdv r (set_ready (_r_next ev)) w
             | None => upd_rdv r (set_ready_ptail (loc_ready r))
                         (upd_rdv r (set_ready (_r_next ev)) w)
             end).
  assert (Hev2 : events w2 = events w) by (unfold w2; now destruct (_r_next ev)).
  assert (Hox : owner x w2 = None).
  { unfold owner. now rewrite Hev2, Hev. }
  destruct (unuse_clean_frame w2 x Hox) as (Hrd & Hevs & _ & _ & _).
  assert (HR2 : rdvs (unuse_clean (Some x) w2) !! r =
                Some (match _r_next ev with
                      | Some _ => set_ready (_r_next ev) R
                      | None => set_ready_ptail (loc_ready r) (set_ready None R)
                      end)).
  { rewrite Hrd. unfold w2. destruct (_r_next ev); cbn; lookups; now rewrite HR. }
  assert (Hoth : forall r', r' <> r -> rdvs (unuse_clean (Some x) w2) !! r' = rdvs w !! r').
  { intros r' Hr'. rewrite Hrd. unfold w2. destruct (_r_next ev); cbn; now lookups. }
  exists (unuse_clean (Some x) w2).
  split; [unfold rid_of, rid; rewrite Hev; cbn; unfold w2; now destruct (_r_next ev)|].
  remember (unuse_clean (Some x) w2) as w' eqn:Hw'. clear Hw' Hrd.
  split; [|split; [|exact Hoth]].
  - assert (Hmem : forall z, z ∈ l ->
              (exists e, events w' !! z = Some e /\ _r e = None) /\
              load_event_loc (loc_r_next z) w' = load_event_loc (loc_r_next z) w).
    { intros z Hz. assert (Hzx : z <> x) by (intros ->; contradiction).
      split.
      - rewrite (Hevs z Hzx), Hev2. eapply ready_chain_member; eassumption.
      - cbn [load_event_loc]. now rewrite (Hevs z Hzx), Hev2. }
    eexists. split; [exact HR2|]. destruct l as [|y l].
    + destruct Hrest as [Hnone Htail]. cbn in Hnone. rewrite Hev in Hnone.
      rewrite Hnone. cbn. split; [exact Ht|]. rewrite HR2, Hnone. auto.
    + pose proof Hrest as (Hnext & Hy & Hrest'). cbn in Hnext. rewrite Hev in Hnext.
      rewrite Hnext. split; [exact Ht|]. cbn [ready_chain load_event_loc].
      rewrite HR2, Hnext. cbn [ready_ set_ready ready_ptail_].
      split; [reflexivity|]. split; [apply Hmem; now left|].
      apply (ready_chain_ext w); [apply Hmem; now left| |exact Hrest'].
      intros z Hz. apply Hmem. now right.
  - intros z Hz. now rewrite (Hevs z Hz), Hev2.
Qed.

(** X1.  On an explicit rendezvous whose ready queue holds the events [l],
    the oldest first, [length l] calls of [pop_ready] are all defined and
    return the identifiers of these events in queue order; they leave the
    queue empty, with [ready_ptail_] back at [&ready_]. *)
Theorem pop_ready_is_fifo (r : addr) : forall (l : list addr) (w : world),
  ready_queue r w l ->
  exists w', pop_ready_n (length l) r w = Some (map (fun z => rid_of z w) l, w') /\
             ready_queue r w' [] /\
             load_event_loc (loc_ready r) w' = None.
Proof.
  induction l as [|x l IH]; intros w Hq.
  - exists w. split; [reflexivity|]. split; [exact Hq|].
    destruct Hq as (R & HR & _ & Hnone & _). exact Hnone.
  - destruct (pop_ready_step r w x l Hq) as (w1 & Hpop & Hq1 & Hevs & _).
    destruct (IH w1 Hq1) as (w' & Hpops & Hq' & Hnone).
    exists w'. cbn [length pop_ready_n map]. rewrite Hpop, Hpops.
    split; [|auto]. f_equal. f_equal. f_equal.
    apply map_ext_in. intros z Hz%list_elem_of_In.
    destruct Hq as (R & _ & _ & Hc). apply ready_chain_NoDup in Hc.
    apply NoDup_cons in Hc as [Hx _].
    unfold rid_of, rid. rewrite Hevs; [reflexivity|]. intros ->. contradiction.
Qed.

Ltac concrete_queue :=
  unfold ready_queue; eexists; split; [vm_compute; reflexivity|];
  split; [reflexivity|]; cbn [ready_chain];
  repeat first [ split | eexists ]; vm_compute; reflexivity.

Lemma pop_ready_is_fifo_witness :
  ready_queue 10%nat Example.world_ready [22; 20]%nat /\
  exists w', pop_ready_n 2 10%nat Example.world_ready = Some ([9; 7], w') /\
             ready_queue 10%nat w' [].
Proof.
  assert (Hq : ready_queue 10%nat Example.world_ready [22; 20]%nat) by concrete_queue.
  split; [exact Hq|].
  destruct (pop_ready_is_fifo 10%nat [22; 20]%nat Example.world_ready Hq)
    as (w' & Hpop & Hq' & _).
  exists w'. split; [exact Hpop | exact Hq'].
Defined.

(** *** Dropping the whole queue *)

Lemma unuse_clean_lookup w x ev z :
  events w !! x = Some ev ->
  events (unuse_clean (Some x) w) !! z =
    (if decide (z = x)
     then if Z.eqb (u32 (_refcount ev - 1)) 0 then None
          else Some (set_refcount (u32 (_refcount ev - 1)) ev)
     else events w !! z) /\
  rdvs (unuse_clean (Some x) w) = rdvs w.
Proof.
  intros Hev. unfold unuse_clean. rewrite Hev. cbv zeta.
  destruct (Z.eqb (u32 (_refcount ev - 1)) 0); unfold upd_event; cbn;
    (split; [|reflexivity]); case_decide; subst; lookups; rewrite ?Hev; reflexivity.
Qed.

Lemma ready_chain_rehead w w' here here' l t :
  ready_chain w here l t ->
  load_event_loc here' w' = load_event_loc here w ->
  (forall z, z ∈ l ->
     (exists ev, events w' !! z = Some ev /\ _r ev = None) /\
     load_event_loc (loc_r_next z) w' = load_event_loc (loc_r_next z) w) ->
  exists t', ready_chain w' here' l t'.
Proof.
  intros Hc Hload Hl. destruct l as [|x l].
  - exists here'. destruct Hc as [Hnone _]. split; [congruence | reflexivity].
  - exists t. destruct Hc as (Hx & _ & Hrest). destruct (Hl x) as [Hmx Hnx]; [now left|].
    split; [congruence|]. split; [exact Hmx|].
    apply (ready_chain_ext w); [exact Hnx| |exact Hrest]. intros z Hz. apply Hl. now right.
Qed.

Lemma remove_ready_loop_spec r : forall l w t,
  ready_chain w (loc_ready r) l t -> is_Some (rdvs w !! r) ->
  exists w', remove_ready_loop (S (length l)) r w = Some w' /\
    load_event_loc (loc_ready r) w' = None /\
    (forall r', r' <> r -> rdvs w' !! r' = rdvs w !! r') /\
    (exists R R', rdvs w !! r = Some R /\ rdvs w' !! r = Some R' /\ rtype_ R' = rtype_ R) /\
    (forall z, z ∉ l -> events w' !! z = events w !! z) /\
    (forall z ev, z ∈ l -> events w !! z = Some ev ->
       events w' !! z = if Z.eqb (u32 (_refcount ev - 1)) 0 then None
                        else Some (set_refcount (u32 (_refcount ev - 1)) ev)).
Proof.
  induction l as [|x l IH]; intros w t Hc [R HR].
  - destruct Hc as [Hnone _]. cbn in Hnone. rewrite HR in Hnone.
    exists w. cbn [length remove_ready_loop]. rewrite HR, Hnone. split; [reflexivity|].
    split; [cbn; now rewrite HR|]. split; [auto|]. split; [eauto|].
    split; [auto|]. now intros z ev ?%elem_of_nil.
  - pose proof (ready_chain_NoDup w _ _ _ Hc) as Hnd. apply NoDup_cons in Hnd as [Hx Hnd].
    destruct Hc as (Hload & (ev & Hev & Hr) & Hrest). cbn in Hload. rewrite HR in Hload.
    cbn [length remove_ready_loop]. rewrite HR, Hload, Hev.
    set (w0 := upd_rdv r (set_ready (_r_next ev)) w).
    assert (Hev0 : events w0 !! x = Some ev) by exact Hev.
    pose proof (fun z => unuse_clean_lookup w0 x ev z Hev0) as Hu.
    set (w1 := unuse_clean (Some x) w0) in *.
    assert (Hrd1 : rdvs w1 = rdvs w0) by apply (Hu x).
    assert (HR1 : rdvs w1 !! r = Some (set_ready (_r_next ev) R)).
    { rewrite Hrd1. unfold w0, upd_rdv. cbn. lookups. now rewrite HR. }
    assert (Hoth1 : forall z, z <> x -> events w1 !! z = events w !! z).
    { intros z Hz. destruct (Hu z) as [-> _]. now rewrite decide_False by exact Hz. }
    destruct (ready_chain_rehead w w1 (loc_r_next x) (loc_ready r) l t Hrest) as [t' Hc1].
    { cbn [load_event_loc]. now rewrite HR1, Hev. }
    { intros z Hz. assert (Hzx : z <> x) by (intros ->; contradiction). split.
      - rewrite (Hoth1 z Hzx). eapply ready_chain_member; eassumption.
      - cbn [load_event_loc]. now rewrite (Hoth1 z Hzx). }
    destruct (IH w1 t' Hc1) as (w' & Hloop & Hnone & Hrdvs & (R1 & R' & HR1' & HR' & Ht') & Hout & Hin);
      [eauto|].
    exists w'. split; [exact Hloop|]. split; [exact Hnone|]. split; [|split; [|split]].
    + intros r' Hr'. rewrite (Hrdvs r' Hr'), Hrd1. unfold w0, upd_rdv. cbn. now lookups.
    + exists R, R'. split; [reflexivity|]. split; [exact HR'|].
      rewrite Ht'. assert (R1 = set_ready (_r_next ev) R) as -> by congruence. reflexivity.
    + intros z Hz. rewrite Hout by (intros Hz'; apply Hz; now right).
      apply Hoth1. intros ->. apply Hz. now left.
    + intros z ez [->|Hz]%elem_of_cons Hez.
      * rewrite (Hout x Hx). destruct (Hu x) as [-> _]. rewrite decide_True by reflexivity.
        assert (ez = ev) as -> by congruence. reflexivity.
      * assert (Hzx : z <> x) by (intros ->; contradiction).
        apply Hin; [exact Hz|]. now rewrite (Hoth1 z Hzx).
Qed.

(** X2.  On an explicit rendezvous whose ready queue holds the events [l],
    [remove_ready()] terminates after [length l] iterations and leaves the
    queue empty ([ready_] null, [ready_ptail_] at [&ready_]).  It gives back
    the reference the queue held on each of these events, freeing those
    whose count drops to zero, and touches no other event and no other
    rendezvous. *)
Theorem remove_ready_empties (r : addr) (l : list addr) (w : world) :
  ready_queue r w l ->
  exists w', remove_ready (S (length l)) r w = Some w' /\
    ready_queue r w' [] /\
    (forall r', r' <> r -> rdvs w' !! r' = rdvs w !! r') /\
    (forall z, z ∉ l -> events w' !! z = events w !! z) /\
    (forall z ev, z ∈ l -> events w !! z = Some ev ->
       events w' !! z = if Z.eqb (u32 (_refcount ev - 1)) 0 then None
                        else Some (set_refcount (u32 (_refcount ev - 1)) ev)).
Proof.
  intros (R & HR & Ht & Hc).
  destruct (remove_ready_loop_spec r l w _ Hc) as
      (w1 & Hloop & Hnone & Hrdvs & (R0 & R1 & HR0 & HR1 & Ht1) & Hout & Hin); [eauto|].
  unfold remove_ready. rewrite Hloop. eexists. split; [reflexivity|].
  assert (R0 = R) as -> by congruence.
  split; [|split; [|split]].
  - assert (HR2 : rdvs (upd_rdv r (set_ready_ptail (loc_ready r)) w1) !! r =
                  Some (set_ready_ptail (loc_ready r) R1)).
    { unfold upd_rdv. cbn. lookups. now rewrite HR1. }
    exists (set_ready_ptail (loc_ready r) R1).
    split; [exact HR2|]. split; [cbn; congruence|]. cbn [ready_chain load_event_loc].
    rewrite HR2. cbn. cbn in Hnone. rewrite HR1 in Hnone. auto.
  - intros r' Hr'. unfold upd_rdv. cbn. lookups. now apply Hrdvs.
  - exact Hout.
  - exact Hin.
Qed.

Lemma remove_ready_empties_witness :
  ready_queue 10%nat Example.world_ready [22; 20]%nat /\
  exists w', remove_ready 3 10%nat Example.world_ready = Some w' /\
             ready_queue 10%nat w' [] /\
             events w' !! 21%nat = events Example.world_ready !! 21%nat.
Proof.
  assert (Hq : ready_queue 10%nat Example.world_ready [22; 20]%nat) by concrete_queue.
  split; [exact Hq|].
  destruct (remove_ready_empties 10%nat [22; 20]%nat Example.world_ready Hq)
    as (w' & Hrm & Hq' & _ & Hout & _).
  exists w'. split; [exact Hrm|]. split; [exact Hq'|]. apply Hout.
  intros Hin. apply list_elem_of_In in Hin. cbn in Hin.
  destruct Hin as [H|[H|[]]]; discriminate H.
Defined.

(** *** Arming: the waiting list *)

Section Arm.

Variables (w : world) (r this : addr) (rid0 : Z) (R : abstract_rendezvous)
          (ev0 : simple_event).
Hypothesis HR : rdvs w !! r = Some R.
Hypothesis Hthis : events w !! this = Some ev0.
Hypothesis Hfirst : forall f, waiting_ R = Some f -> f <> this /\ is_Some (events w !! f).

Lemma initialize_owner z :
  owner z (initialize this r rid0 w) = if decide (z = this) then Some r else owner z w.
Proof.
  unfold initialize. rewrite HR. cbv zeta. unfold owner, upd_event, upd_rdv.
  destruct (waiting_ R) as [f|] eqn:Hw.
  - destruct (Hfirst f eq_refl) as [Hf [ef Hef]].
    cbn. case_decide; subst; alters; rewrite ?Hthis, ?Hef; cbn; try congruence;
      destruct (events w !! z); reflexivity.
  - cbn. case_decide; subst; alters; rewrite ?Hthis; cbn; try congruence;
      destruct (events w !! z); reflexivity.
Qed.

Lemma initialize_pprev z :
  pprev_of z (initialize this r rid0 w) =
  if decide (z = this) then Some (loc_waiting r)
  else if decide (waiting_ R = Some z) then Some (loc_r_next this) else pprev_of z w.
Proof.
  unfold initialize. rewrite HR. cbv zeta. unfold pprev_of, upd_event, upd_rdv.
  destruct (waiting_ R) as [f|] eqn:Hw.
  - destruct (Hfirst f eq_refl) as [Hf [ef Hef]].
    cbn. repeat case_decide; simplify_eq; alters; rewrite ?Hthis, ?Hef; cbn; try congruence;
      destruct (events w !! z); reflexivity.
  - cbn. repeat case_decide; simplify_eq; alters; rewrite ?Hthis; cbn; try congruence;
      destruct (events w !! z); reflexivity.
Qed.

Lemma initialize_load L :
  load_event_loc L (initialize this r rid0 w) =
  if decide (L = loc_waiting r) then Some this
  else if decide (L = loc_r_next this) then waiting_ R else load_event_loc L w.
Proof.
  unfold initialize. rewrite HR. cbv zeta. unfold upd_event, upd_rdv.
  destruct (waiting_ R) as [f|] eqn:Hw.
  - destruct (Hfirst f eq_refl) as [Hf [ef Hef]].
    destruct L as [a|a|a]; cbn; repeat case_decide; simplify_eq; alters;
      rewrite ?Hthis, ?Hef, ?HR; cbn; try congruence;
      repeat match goal with
             | |- context [?m !! ?j] => destruct (m !! j) as [?|]; cbn
             end; congruence.
  - destruct L as [a|a|a]; cbn; repeat case_decide; simplify_eq; alters;
      rewrite ?Hthis, ?HR; cbn; try congruence;
      repeat match goal with
             | |- context [?m !! ?j] => destruct (m !! j) as [?|]; cbn
             end; congruence.
Qed.

Lemma initialize_this :
  exists ev, events (initialize this r rid0 w) !! this = Some ev /\
             _rid ev = rid0 /\ at_trigger_ ev = None /\ at_trigger_f_ ev = None /\
             _refcount ev = _refcount ev0.
Proof.
  unfold initialize. rewrite HR. cbv zeta. unfold upd_event, upd_rdv.
  destruct (waiting_ R) as [f|] eqn:Hw.
  - destruct (Hfirst f eq_refl) as [Hf [ef Hef]].
    cbn. alters; try congruence; rewrite Hthis; cbn; eexists; (split; [reflexivity|]);
      cbn; repeat split.
  - cbn. alters; try congruence; rewrite Hthis; cbn; eexists; (split; [reflexivity|]);
      cbn; repeat split.
Qed.

Lemma initialize_others z :
  z <> this -> waiting_ R <> Some z ->
  events (initialize this r rid0 w) !! z = events w !! z.
Proof.
  intros Hz Hzf. unfold initialize. rewrite HR. cbv zeta. unfold upd_event, upd_rdv.
  destruct (waiting_ R) as [f|] eqn:Hw; cbn; alters; congruence.
Qed.

Lemma initialize_rdvs r' : r' <> r -> rdvs (initialize this r rid0 w) !! r' = rdvs w !! r'.
Proof.
  intros Hr'. unfold initialize. rewrite HR. cbv zeta. unfold upd_event, upd_rdv.
  destruct (waiting_ R) as [f|] eqn:Hw; cbn; alters; congruence.
Qed.

End Arm.

Lemma waiting_chain_ext w w' r : forall l here,
  load_event_loc here w' = load_event_loc here w ->
  (forall z, z ∈ l -> owner z w' = owner z w /\ pprev_of z w' = pprev_of z w /\
                      load_event_loc (loc_r_next z) w' = load_event_loc (loc_r_next z) w) ->
  waiting_chain w r here l -> waiting_chain w' r here l.
Proof.
  induction l as [|x l IH]; intros here Hhere Hl; cbn [waiting_chain]; [congruence|].
  intros (Hload & Ho & Hp & Hrest). destruct (Hl x) as (Ho' & Hp' & Hn'); [now left|].
  split; [congruence|]. split; [congruence|]. split; [congruence|].
  apply IH; [exact Hn'| |exact Hrest]. intros z Hz. apply Hl. now right.
Qed.

Lemma waiting_chain_member w r : forall l here z,
  waiting_chain w r here l -> z ∈ l ->
  owner z w = Some r /\
  (pprev_of z w = Some here \/ exists y, y ∈ l /\ pprev_of z w = Some (loc_r_next y)).
Proof.
  induction l as [|x l IH]; intros here z; cbn [waiting_chain]; [now intros _ ?%elem_of_nil|].
  intros (_ & Ho & Hp & Hrest) [->|Hz]%elem_of_cons; [auto|].
  destruct (IH _ z Hrest Hz) as [Hoz [Hpz|(y & Hy & Hpz)]].
  - split; [exact Hoz|]. right. exists x. split; [now left | exact Hpz].
  - split; [exact Hoz|]. right. exists y. split; [now right | exact Hpz].
Qed.

(** X3.  [initialize(r, rid)] on an event that exists and is empty arms it on
    [r] with the identifier [rid] and pushes it at the head of the waiting
    list of [r]: the list [l] becomes [this :: l], with every back pointer
    [_r_pprev] in place.  The at-trigger hooks of the event are cleared, its
    reference count is kept, and the waiting lists of the other rendezvous
    and the ready queues that do not hold the event are as before. *)
Theorem initialize_pushes_front (w : world) (r this : addr) (rid0 : Z) (l : list addr) :
  waiting_list r w l -> is_Some (rdvs w !! r) ->
  is_Some (events w !! this) -> owner this w = None ->
  waiting_list r (initialize this r rid0 w) (this :: l) /\
  (exists ev, events (initialize this r rid0 w) !! this = Some ev /\
              _r ev = Some r /\ _rid ev = rid0 /\
              at_trigger_ ev = None /\ at_trigger_f_ ev = None /\
              Some (_refcount ev) = _refcount <$> events w !! this) /\
  (forall r' l', r' <> r -> waiting_list r' w l' ->
                 waiting_list r' (initialize this r rid0 w) l') /\
  (forall r' l', ready_queue r' w l' -> this ∉ l' ->
                 ready_queue r' (initialize this r rid0 w) l').
Proof.
  intros Hl [R HR] [ev0 Hthis] Hempty.
  assert (Hfirst : forall f, waiting_ R = Some f ->
                     f <> this /\ is_Some (events w !! f) /\ owner f w = Some r /\
                     exists l', l = f :: l').
  { intros f Hf. destruct l as [|x l'].
    - cbn in Hl. rewrite HR in Hl. congruence.
    - destruct Hl as (Hload & Ho & _). cbn in Hload. rewrite HR in Hload.
      assert (x = f) as -> by congruence.
      split; [intros ->; congruence|]. split; [|split; [exact Ho | eauto]].
      unfold owner in Ho. destruct (events w !! f); [eauto | discriminate]. }
  assert (Hfirst' : forall f, waiting_ R = Some f -> f <> this /\ is_Some (events w !! f)).
  { intros f Hf. destruct (Hfirst f Hf) as (? & ? & _). auto. }
  pose proof (initialize_owner w r this rid0 R ev0 HR Hthis Hfirst') as V1.
  pose proof (initialize_pprev w r this rid0 R ev0 HR Hthis Hfirst') as V3.
  pose proof (initialize_load w r this rid0 R ev0 HR Hthis Hfirst') as V2.
  set (w' := initialize this r rid0 w) in *.
  assert (Hrest : forall z, z <> this -> waiting_ R <> Some z ->
            owner z w' = owner z w /\ pprev_of z w' = pprev_of z w /\
            load_event_loc (loc_r_next z) w' = load_event_loc (loc_r_next z) w).
  { intros z Hz Hzf. rewrite V1, V3, V2. repeat case_decide; simplify_eq; auto; congruence. }
  split; [|split; [|split]].
  - unfold waiting_list. cbn [waiting_chain].
    rewrite V2, V1, V3. rewrite !decide_True by reflexivity.
    split; [reflexivity|]. split; [reflexivity|]. split; [reflexivity|].
    destruct l as [|f l'].
    + cbn in Hl. rewrite HR in Hl. cbn [waiting_chain]. rewrite V2.
      repeat case_decide; simplify_eq; congruence.
    + pose proof Hl as (Hload & Ho & Hp & Hchain). cbn in Hload. rewrite HR in Hload.
      destruct (Hfirst f Hload) as (Hf & _ & _ & _).
      cbn [waiting_chain]. rewrite V2, V1, V3.
      split; [repeat case_decide; simplify_eq; congruence|].
      split; [repeat case_decide; simplify_eq; congruence|].
      split; [repeat case_decide; simplify_eq; congruence|].
      apply (waiting_chain_ext w); [| |exact Hchain].
      * rewrite V2. repeat case_decide; simplify_eq; congruence.
      * intros z Hz. destruct (waiting_chain_member w r l' _ z Hchain Hz) as [Hoz Hpz].
        apply Hrest; [intros ->; congruence|]. rewrite Hload. intros Heq. simplify_eq.
        destruct Hpz as [Hpz|(y & _ & Hpz)]; congruence.
  - destruct (initialize_this w r this rid0 R ev0 HR Hthis Hfirst')
      as (ev & Hev & Hrid & Ha & Hf & Hrc).
    exists ev. split; [exact Hev|]. split.
    { pose proof (V1 this) as Ho. rewrite decide_True in Ho by reflexivity.
      unfold owner in Ho. fold w' in Hev. now rewrite Hev in Ho. }
    split; [exact Hrid|]. split; [exact Ha|]. split; [exact Hf|]. rewrite Hthis. cbn. congruence.
  - intros r' l' Hr' Hl'. unfold waiting_list. apply (waiting_chain_ext w); [| |exact Hl'].
    + rewrite V2. repeat case_decide; simplify_eq; congruence.
    + intros z Hz. destruct (waiting_chain_member w r' l' _ z Hl' Hz) as [Hoz _].
      apply Hrest; [intros ->; congruence|]. intros Hzf.
      destruct (Hfirst z Hzf) as (_ & _ & Hoz' & _). congruence.
  - intros r' l' (R' & HR' & Ht' & Hc) Hnot.
    assert (Hmem : forall z, z ∈ l' -> events w' !! z = events w !! z).
    { intros z Hz.
      destruct (ready_chain_member w _ _ _ z Hc Hz) as (ez & Hez & Hrz).
      apply (initialize_others w r this rid0 R ev0 HR Hthis Hfirst'); [intros ->; contradiction|].
      intros Hzf. destruct (Hfirst z Hzf) as (_ & _ & Hoz & _).
      rewrite (owner_of_lookup _ _ _ Hez) in Hoz. congruence. }
    assert (HR2 : exists R2, rdvs w' !! r' = Some R2 /\ rtype_ R2 = rtype_ R' /\
                             ready_ptail_ R2 = ready_ptail_ R').
    { destruct (decide (r' = r)) as [->|Hr'].
      - assert (R' = R) as -> by congruence.
        unfold w', initialize. rewrite HR. cbv zeta. unfold upd_event, upd_rdv.
        destruct (waiting_ R); cbn; lookups; rewrite HR; cbn; eauto.
      - exists R'. split; [|auto]. unfold w'.
        now rewrite (initialize_rdvs w r this rid0 R HR Hfirst' r' Hr'). }
    destruct HR2 as (R2 & HR2 & Ht2 & Hp2). exists R2.
    split; [exact HR2|]. split; [congruence|]. rewrite Hp2.
    apply (ready_chain_ext w); [| |exact Hc].
    + rewrite V2. repeat case_decide; simplify_eq; congruence.
    + intros z Hz. split.
      * rewrite (Hmem z Hz). eapply ready_chain_member; eassumption.
      * cbn [load_event_loc]. now rewrite (Hmem z Hz).
Qed.

Lemma initialize_pushes_front_witness :
  let w := new_empty_event 23%nat Example.world1 in
  waiting_list 10%nat w [20; 21; 22]%nat /\
  waiting_list 10%nat (initialize 23%nat 10%nat 4 w) [23; 20; 21; 22]%nat.
Proof.
  intros w.
  assert (Hl : waiting_list 10%nat w [20; 21; 22]%nat).
  { unfold waiting_list. cbn [waiting_chain]. repeat split; vm_compute; reflexivity. }
  split; [exact Hl|].
  assert (HR : is_Some (rdvs w !! 10%nat)) by (vm_compute; eauto).
  assert (He : is_Some (events w !! 23%nat)) by (vm_compute; eauto).
  assert (Ho : owner 23%nat w = None) by (vm_compute; reflexivity).
  exact (proj1 (initialize_pushes_front w 10%nat 23%nat 4 [20; 21; 22]%nat Hl HR He Ho)).
Defined.

(** *** Reference counts *)

Lemma set_events_same w : set_events (events w) w = w.
Proof. now destruct w. Qed.

Lemma events_set_events m w : events (set_events m w) = m.
Proof. reflexivity. Qed.

Lemma set_events_twice m m' w : set_events m (set_events m' w) = set_events m w.
Proof. now destruct w. Qed.

Lemma u32_succ_pred c : 0 <= c < 2 ^ 32 -> u32 (u32 (c + 1) - 1) = c.
Proof.
  intros Hc. unfold u32. rewrite Zminus_mod_idemp_l.
  replace (c + 1 - 1) with c by lia. now apply Z.mod_small.
Qed.

(** X4.  For an event whose reference count [c] is in the range of
    [unsigned] and not zero, [use] followed by [unuse_clean], or by [unuse],
    gives back the very same heap: the count returns to [c] and nothing is
    freed or triggered.  With [c = 1], [unuse_clean] alone frees the event. *)
Theorem use_then_unuse_restores (w : world) (e : addr) (ev : simple_event) :
  events w !! e = Some ev -> 0 < _refcount ev < 2 ^ 32 ->
  unuse_clean (Some e) (use (Some e) w) = w /\
  unuse (Some e) (use (Some e) w) = w /\
  (_refcount ev = 1 -> events (unuse_clean (Some e) w) !! e = None).
Proof.
  intros Hev Hc.
  assert (Hback : u32 (u32 (_refcount ev + 1) - 1) = _refcount ev)
    by (apply u32_succ_pred; lia).
  assert (Hmap : alter (set_refcount (_refcount ev)) e
                   (alter (fun ev0 => set_refcount (u32 (_refcount ev0 + 1)) ev0) e (events w))
                 = events w).
  { apply map_eq. intros z. destruct (decide (z = e)) as [->|Hz].
    - rewrite !lookup_alter_eq, Hev. cbn. now destruct ev.
    - now rewrite !lookup_alter_ne by congruence. }
  assert (Hlook : events (use (Some e) w) !! e =
                  Some (set_refcount (u32 (_refcount ev + 1)) ev)).
  { unfold use, upd_event. cbn. now rewrite lookup_alter_eq, Hev. }
  split; [|split].
  - unfold unuse_clean. rewrite Hlook. cbv zeta. cbn [_refcount set_refcount].
    rewrite Hback. destruct (Z.eqb_spec (_refcount ev) 0) as [H0|_]; [lia|].
    unfold use, upd_event. rewrite set_events_twice, events_set_events, Hmap.
    apply set_events_same.
  - unfold unuse. rewrite Hlook. cbv zeta. cbn [_refcount set_refcount].
    rewrite Hback. destruct (Z.eqb_spec (_refcount ev) 0) as [H0|_]; [lia|].
    unfold use, upd_event. rewrite set_events_twice, events_set_events, Hmap.
    apply set_events_same.
  - intros H1. unfold unuse_clean. rewrite Hev. cbv zeta. rewrite H1.
    change (Z.eqb (u32 (1 - 1)) 0) with true. cbv iota.
    rewrite events_set_events. apply lookup_delete_eq.
Qed.

Lemma use_then_unuse_restores_witness :
  unuse_clean (Some 20%nat) (use (Some 20%nat) Example.world1) = Example.world1 /\
  events (unuse_clean (Some 20%nat) Example.world1) !! 20%nat = None.
Proof.
  assert (Hev : exists ev, events Example.world1 !! 20%nat = Some ev /\ _refcount ev = 1).
  { eexists. split; [vm_compute; reflexivity | reflexivity]. }
  destruct Hev as (ev & Hev & Hc).
  destruct (use_then_unuse_restores Example.world1 20%nat ev Hev ltac:(rewrite Hc; lia))
    as (H1 & _ & H3).
  split; [exact H1 | exact (H3 Hc)].
Defined.

End Ready.
(** ** The unblocked FIFO in use (tamer/xbase.hh, driver::once) *)

Module Drain.
Import XBase TameDriver Unblocked.

(** X5.  The unblocked list is first in, first out.  When the list holds
    [l] and [unblock()] is called on a rendezvous that has a task parked and
    is not yet on the list (its next-pointer is the sentinel), the rendezvous
    is linked behind the last member: successive [pop_unblocked()] return the
    members of [l] in order and this rendezvous after them. *)
Theorem unblock_enqueues_at_tail (w : world) (l : list addr) (r : addr)
    (R : abstract_rendezvous) :
  unblocked_queue w l -> rdvs w !! r = Some R ->
  _blocked_closure R <> None -> unblocked_next_ R = rsentinel ->
  unblocked_queue (unblock r w) (l ++ [r]) /\
  forall fuel, unblocked_fifo fuel (unblock r w) = take fuel (l ++ [r]).
Proof.
  intros Hq HR Hcl Hn.
  assert (Hq' : unblocked_queue (unblock r w) (l ++ [r])).
  { destruct (queue_unblock w l r Hq) as [Hsame|[_ Hpush]]; [|exact Hpush].
    exfalso. pose proof (queue_not_sentinel w l r R Hq HR Hn) as Hr.
    destruct Hsame as (_ & _ & Ht). revert Ht. unfold unblock. rewrite HR, Hn.
    destruct (_blocked_closure R); [|congruence]. cbn.
    destruct (last l) as [m|] eqn:Hl; [|discriminate].
    intros Heq. apply Hr. assert (r = m) as -> by congruence.
    now apply last_Some_elem_of. }
  split; [exact Hq'|]. intros fuel. now apply fifo_of_queue.
Qed.

Lemma unblock_enqueues_at_tail_witness :
  let w := default Example.world0 (run_ops (take 10 Example.two_unblocked) Example.world0) in
  unblocked_queue w [10%nat] /\
  unblocked_fifo 3 (unblock 11%nat w) = [10; 11]%nat.
Proof.
  intros w.
  assert (Hq : unblocked_queue w [10%nat]).
  { split; [|split; [repeat constructor; now intros ?%elem_of_nil | reflexivity]].
    cbn [unblocked_chain]. split; [reflexivity|]. eexists.
    split; [vm_compute; reflexivity|]. split; [discriminate | reflexivity]. }
  split; [exact Hq|].
  assert (HR : exists R, rdvs w !! 11%nat = Some R /\ _blocked_closure R <> None /\
                         unblocked_next_ R = rsentinel).
  { eexists. split; [vm_compute; reflexivity|]. split; [discriminate | reflexivity]. }
  destruct HR as (R & HR & Hcl & Hn).
  exact (proj2 (unblock_enqueues_at_tail w [10%nat] 11%nat R Hq HR Hcl Hn) 3%nat).
Defined.

End Drain.
(** ** The descriptor table (driver::expand_fds, driver::at_fd) *)

Module Fds.
Import XBase TameEvent TameDriver Frame.

Lemma wrap_int_small z : - 2 ^ 31 <= z < 2 ^ 31 -> wrap_int z = z.
Proof. intros Hz. unfold wrap_int. rewrite Z.mod_small; lia. Qed.

(** The capacity loop without overflow: [fd * 4] is an [int]. *)
Lemma grow_cap_spec fd : forall fuel ncap,
  0 <= fd < 2 ^ 29 -> 0 < ncap < 2 ^ 31 -> fd * 2 < ncap * 2 ^ Z.of_nat fuel ->
  fd * 2 < grow_cap fuel fd ncap /\ ncap <= grow_cap fuel fd ncap /\
  grow_cap fuel fd ncap <= Z.max ncap (fd * 4) /\
  (Z.even ncap = true -> Z.even (grow_cap fuel fd ncap) = true).
Proof.
  intros fuel ncap Hfd. revert ncap.
  induction fuel as [|fuel IH]; intros ncap Hpos Hfuel; cbn [grow_cap].
  - cbn in Hfuel. repeat split; try lia. auto.
  - rewrite (wrap_int_small (fd * 2)) by lia.
    destruct (Z.leb_spec ncap (fd * 2)) as [Hle|Hgt].
    + rewrite (wrap_int_small (ncap * 2)) by lia.
      destruct (IH (ncap * 2)) as (H1 & H2 & H3 & H4); [lia| |].
      * rewrite Nat2Z.inj_succ, Z.pow_succ_r in Hfuel by lia. lia.
      * repeat split; try lia. intros _. apply H4. now rewrite Z.even_mul, orb_true_r.
    + repeat split; try lia. auto.
Qed.

Lemma iter_default_events n : forall w z,
  z <> dead ->
  events (Nat.iter n (fun w => snd (event_default w)) w) !! z = events w !! z.
Proof.
  induction n as [|n IH]; intros w z Hz; [reflexivity|]. cbn [Nat.iter].
  change (events (use (Some dead) (Nat.iter n (fun w => snd (event_default w)) w)) !! z
          = events w !! z).
  unfold use, upd_event. cbn [events set_events].
  rewrite lookup_alter_ne by congruence. now apply IH.
Qed.

Lemma set_refcount_twice a b ev : set_refcount a (set_refcount b ev) = set_refcount a ev.
Proof. now destruct ev. Qed.

Lemma iter_default_dead n : forall w ev,
  events w !! dead = Some ev ->
  events (Nat.iter (S n) (fun w => snd (event_default w)) w) !! dead =
    Some (set_refcount (u32 (_refcount ev + Z.of_nat (S n))) ev).
Proof.
  induction n as [|n IH]; intros w ev Hev.
  - change (Nat.iter 1 (fun w => snd (event_default w)) w) with (use (Some dead) w).
    unfold use, upd_event. cbn [events set_events].
    now rewrite lookup_alter_eq, Hev.
  - change (Nat.iter (S (S n)) (fun w => snd (event_default w)) w)
      with (use (Some dead) (Nat.iter (S n) (fun w => snd (event_default w)) w)).
    unfold use, upd_event. cbn [events set_events].
    rewrite lookup_alter_eq, (IH w ev Hev). cbn [fmap option_fmap option_map].
    rewrite set_refcount_twice. do 2 f_equal.
    assert (Hrc : _refcount (set_refcount (u32 (_refcount ev + Z.of_nat (S n))) ev)
                  = u32 (_refcount ev + Z.of_nat (S n))) by now destruct ev.
    rewrite Hrc. unfold u32. rewrite Zplus_mod_idemp_l. f_equal. lia.
Qed.

Lemma idx_app_l {A} (a b : list A) i :
  0 <= i < Z.of_nat (length a) -> idx (a ++ b) i = idx a i.
Proof.
  intros Hi. unfold idx. destruct (Z.ltb_spec i 0); [lia|].
  apply lookup_app_l. lia.
Qed.

Lemma idx_app_r {A} (a b : list A) i :
  Z.of_nat (length a) <= i -> idx (a ++ b) i = idx b (i - Z.of_nat (length a)).
Proof.
  intros Hi. unfold idx. destruct (Z.ltb_spec i 0); [lia|].
  destruct (Z.ltb_spec (i - Z.of_nat (length a)) 0); [lia|].
  rewrite lookup_app_r by lia. f_equal. lia.
Qed.

Lemma idx_replicate {A} (x : A) n i : 0 <= i < Z.of_nat n -> idx (replicate n x) i = Some x.
Proof.
  intros Hi. unfold idx. destruct (Z.ltb_spec i 0); [lia|].
  apply lookup_replicate_2. lia.
Qed.

(** What [expand_fds] leaves behind, cell by cell, when no [int]
    overflows. *)
Lemma expand_fds_spec (w : world) (fd : Z) :
  fd_table_ok (drv w) -> 0 <= fd < 2 ^ 29 -> _fdcap (drv w) < 2 ^ 30 ->
  let w' := expand_fds fd w in
  fd_table_ok (drv w') /\
  fd * 2 + 1 < _fdcap (drv w') /\
  _fdcap (drv w) < _fdcap (drv w') /\
  _fdcap (drv w') <= Z.max (Z.max 16 (2 * _fdcap (drv w))) (4 * fd) /\
  (forall i, 0 <= i < _fdcap (drv w) -> idx (_fd (drv w')) i = idx (_fd (drv w)) i) /\
  (forall i, _fdcap (drv w) <= i < _fdcap (drv w') -> idx (_fd (drv w')) i = Some dead) /\
  (forall z, z <> dead -> events w' !! z = events w !! z) /\
  (forall ev, events w !! dead = Some ev ->
     events w' !! dead =
       Some (set_refcount (u32 (_refcount ev + (_fdcap (drv w') - _fdcap (drv w)))) ev)).
Proof.
  intros [Hlen Heven] Hfd Hsmall w'.
  set (cap := _fdcap (drv w)) in *.
  set (init := if Z.eqb cap 0 then 16 else wrap_int (cap * 2)).
  set (ncap := grow_cap 32 fd init).
  assert (Hcap0 : 0 <= cap) by lia.
  assert (Hinit : 0 < init < 2 ^ 31 /\ cap < init /\ init <= Z.max 16 (2 * cap) /\
                  Z.even init = true).
  { unfold init. destruct (Z.eqb_spec cap 0); rewrite ?wrap_int_small by lia;
      repeat split; try lia; try reflexivity.
    now rewrite Z.even_mul, orb_true_r. }
  destruct Hinit as (Hi0 & Hi1 & Hi2 & Hi3).
  destruct (grow_cap_spec fd 32 init Hfd Hi0) as (Hg1 & Hg2 & Hg3 & Hg4).
  { change (2 ^ Z.of_nat 32) with 4294967296. lia. }
  fold ncap in Hg1, Hg2, Hg3, Hg4. specialize (Hg4 Hi3).
  assert (Hdrv : drv w' = set_fdcap ncap
                   (set_fd (take (Z.to_nat cap) (_fd (drv w)) ++
                            replicate (Z.to_nat (ncap - cap)) dead) (drv w))).
  { unfold w', expand_fds, upd_drv. cbv zeta. cbn [drv set_drv]. fold cap init ncap.
    now rewrite (outside_drv _ _ (AtFd.outside_iter_default _ _)). }
  assert (Htake : take (Z.to_nat cap) (_fd (drv w)) = _fd (drv w)).
  { apply take_ge. lia. }
  rewrite Hdrv. cbn [_fdcap _fd set_fdcap set_fd]. rewrite Htake.
  split; [|split; [|split; [|split; [|split; [|split; [|split]]]]]].
  - split; [|exact Hg4]. cbn [_fdcap _fd set_fdcap set_fd].
    rewrite length_app, length_replicate. lia.
  - assert (Z.even (fd * 2) = true) by (now rewrite Z.even_mul, orb_true_r).
    destruct (Z.eq_dec (fd * 2 + 1) ncap) as [Heq|Hne]; [|lia].
    rewrite <- Heq, Z.even_add, H in Hg4. discriminate.
  - lia.
  - lia.
  - intros i Hi. apply idx_app_l. lia.
  - intros i Hi. rewrite idx_app_r by lia. apply idx_replicate. lia.
  - intros z Hz. unfold w', expand_fds, upd_drv. cbv zeta. cbn [events set_drv].
    now apply iter_default_events.
  - intros ev Hev. unfold w', expand_fds, upd_drv. cbv zeta. cbn [events set_drv].
    fold cap init ncap.
    destruct (Z.to_nat (ncap - cap)) as [|n] eqn:Hn; [lia|].
    rewrite (iter_default_dead n w ev Hev). do 3 f_equal. lia.
Qed.

(** X7.  [expand_fds(fd)] on a table of [_fdcap] cells (an even number, 0 at
    first), for a descriptor and a table small enough that no [int]
    overflows ([fd < 2^29], [_fdcap < 2^30]): the new capacity is 16 or
    twice the old one, doubled until it exceeds [2 fd], so both cells of
    [fd] exist afterwards; it is even, larger than the old one and at most
    [max(16, 2 _fdcap, 4 fd)].  The cells of the old table keep their
    events; every new cell holds a default-constructed event, that is a
    handle to the sentinel [_event_superbase::dead], whose reference count
    has grown by the number of new cells; no other event is touched. *)
Theorem expand_fds_makes_room (w : world) (fd : Z) :
  fd_table_ok (drv w) -> 0 <= fd < 2 ^ 29 -> _fdcap (drv w) < 2 ^ 30 ->
  let w' := expand_fds fd w in
  fd_table_ok (drv w') /\
  fd * 2 + 1 < _fdcap (drv w') /\
  _fdcap (drv w) < _fdcap (drv w') /\
  _fdcap (drv w') <= Z.max (Z.max 16 (2 * _fdcap (drv w))) (4 * fd) /\
  (forall i, 0 <= i < _fdcap (drv w) -> idx (_fd (drv w')) i = idx (_fd (drv w)) i) /\
  (forall i, _fdcap (drv w) <= i < _fdcap (drv w') -> idx (_fd (drv w')) i = Some dead) /\
  (forall z, z <> dead -> events w' !! z = events w !! z) /\
  (forall ev, events w !! dead = Some ev ->
     events w' !! dead =
       Some (set_refcount (u32 (_refcount ev + (_fdcap (drv w') - _fdcap (drv w)))) ev)).
Proof. exact (expand_fds_spec w fd). Qed.

Lemma expand_fds_makes_room_witness :
  let w' := expand_fds 9 Example.world1 in
  fd_table_ok (drv Example.world1) /\ _fdcap (drv w') = 32 /\
  idx (_fd (drv w')) 19 = Some dead /\
  (_refcount <$> events w' !! dead) = Some 33.
Proof.
  intros w'.
  assert (Hok : fd_table_ok (drv Example.world1)) by (split; reflexivity).
  assert (Hfd : 0 <= 9 < 2 ^ 29) by (split; [discriminate | reflexivity]).
  assert (Hcap : _fdcap (drv Example.world1) < 2 ^ 30) by reflexivity.
  split; [exact Hok|]. split; [vm_compute; reflexivity|].
  destruct (expand_fds_makes_room Example.world1 9 Hok Hfd Hcap)
    as (_ & _ & _ & _ & _ & Hnew & _ & Hdead).
  split.
  - apply Hnew. vm_compute. split; [discriminate | reflexivity].
  - fold w' in Hdead. erewrite Hdead by (vm_compute; reflexivity). vm_compute. reflexivity.
Defined.

Lemma idx_upd_eq {A} (a : list A) i x :
  0 <= i < Z.of_nat (length a) -> idx (upd a i x) i = Some x.
Proof.
  intros Hi. unfold idx, upd. destruct (Z.ltb_spec i 0); [lia|].
  apply list_lookup_insert_eq. lia.
Qed.

Lemma idx_upd_ne {A} (a : list A) i j x : 0 <= j -> i <> j -> idx (upd a i x) j = idx a j.
Proof.
  intros Hj Hij. unfold idx, upd. destruct (Z.ltb_spec j 0); [lia|].
  destruct (Z.ltb_spec i 0); [reflexivity|].
  apply list_lookup_insert_ne. lia.
Qed.

Lemma length_upd {A} (a : list A) i x : length (upd a i x) = length a.
Proof. unfold upd. destruct (Z.ltb i 0); [reflexivity | apply length_insert]. Qed.

Lemma idx_Some_lt {A} (a : list A) i : 0 <= i < Z.of_nat (length a) -> is_Some (idx a i).
Proof.
  intros Hi. unfold idx. destruct (Z.ltb_spec i 0); [lia|]. apply lookup_lt_is_Some. lia.
Qed.

(** The table after the first two statements of [at_fd]. *)
Lemma at_fd_store_table (w : world) (fd : Z) (write : bool) (e : addr) :
  fd_table_ok (drv w) -> 0 <= fd < 2 ^ 29 -> _fdcap (drv w) < 2 ^ 30 ->
  let i := fd * 2 + (if write then 1 else 0) in
  let d' := drv (at_fd_store fd write e w) in
  fd_table_ok d' /\ idx (_fd d') i = Some e /\
  (forall j, j <> i -> 0 <= j < _fdcap (drv w) -> idx (_fd d') j = idx (_fd (drv w)) j).
Proof.
  intros Hok Hfd Hsmall i d'. unfold d', at_fd_store. cbv zeta.
  rewrite (wrap_int_small (fd * 2)) by lia.
  rewrite (wrap_int_small (fd * 2 + _)) by (destruct write; lia). fold i.
  set (w1 := if Z.leb (_fdcap (drv w)) (fd * 2) then expand_fds fd w else w).
  assert (H1 : fd_table_ok (drv w1) /\ fd * 2 + 1 < _fdcap (drv w1) /\
               forall j, 0 <= j < _fdcap (drv w) -> idx (_fd (drv w1)) j = idx (_fd (drv w)) j).
  { unfold w1. destruct (Z.leb_spec (_fdcap (drv w)) (fd * 2)) as [Hle|Hgt].
    - destruct (expand_fds_spec w fd Hok Hfd Hsmall) as (Ha & Hb & _ & _ & Hc & _). auto.
    - split; [exact Hok|]. split; [|auto]. destruct Hok as [_ Heven].
      assert (Z.even (fd * 2) = true) by (now rewrite Z.even_mul, orb_true_r).
      destruct (Z.eq_dec (fd * 2 + 1) (_fdcap (drv w))) as [Heq|Hne]; [|lia].
      rewrite <- Heq, Z.even_add, H in Heven. discriminate. }
  destruct H1 as ([Hlen Heven] & Hroom & Hold).
  assert (Hi : 0 <= i < Z.of_nat (length (_fd (drv w1)))) by (unfold i; destruct write; lia).
  destruct (idx_Some_lt _ i Hi) as [old Hold_i]. rewrite Hold_i.
  unfold upd_drv, event_assign. cbn [drv set_drv].
  rewrite (outside_drv _ _ (eq_trans (outside_unuse (Some old) (use (Some e) w1))
                                     (outside_use (Some e) w1))).
  cbn [_fd _fdcap set_fd].
  split; [|split].
  - split; [|exact Heven]. cbn [_fd _fdcap set_fd]. now rewrite length_upd.
  - now apply idx_upd_eq.
  - intros j Hj Hjr. rewrite idx_upd_ne by lia. now apply Hold.
Qed.

(** X8.  [at_fd(fd, write, e)] for a descriptor the select sets have a bit
    for ([0 <= fd < FD_SETSIZE]), on a table small enough that no [int]
    overflows ([_fdcap < 2^30]): [e] is stored in the cell
    [_fd[2 fd + write]], the table growing when it has to; every other cell
    of the old table keeps its event, and in both select sets the bits of
    all other descriptors are as before. *)
Theorem at_fd_stores_the_event (w : world) (fd : Z) (write : bool) (e : addr) :
  fd_table_ok (drv w) -> 0 <= fd < FD_SETSIZE -> _fdcap (drv w) < 2 ^ 30 ->
  let i := fd * 2 + (if write then 1 else 0) in
  let w' := at_fd fd write e w in
  fd_table_ok (drv w') /\
  idx (_fd (drv w')) i = Some e /\
  (forall j, j <> i -> 0 <= j < _fdcap (drv w) ->
             idx (_fd (drv w')) j = idx (_fd (drv w)) j) /\
  (forall fd' wr, fd' <> fd -> 0 <= fd' < FD_SETSIZE ->
     FD_ISSET fd' (fset wr (drv w')) = FD_ISSET fd' (fset wr (drv w))).
Proof.
  intros Hok Hfd Hsmall i w'.
  assert (Hfd' : 0 <= fd < 2 ^ 29) by (unfold FD_SETSIZE in Hfd; lia).
  destruct (at_fd_store_table w fd write e Hok Hfd' Hsmall) as (Hok1 & Hi & Hothers).
  fold i in Hi, Hothers.
  set (w1 := at_fd_store fd write e w) in *.
  assert (Hfd_eq : _fd (drv w') = _fd (drv w1) /\ _fdcap (drv w') = _fdcap (drv w1)).
  { unfold w', at_fd. cbv zeta. fold w1. unfold upd_drv.
    destruct (event_bool e w1); [|destruct write; auto].
    destruct (Z.leb _ _); cbn [drv set_drv]; destruct write; auto. }
  destruct Hfd_eq as [Hfd_eq Hcap_eq].
  assert (Hbits : forall fd' wr, fd' <> fd -> 0 <= fd' < FD_SETSIZE ->
            FD_ISSET fd' (fset wr (drv w')) = FD_ISSET fd' (fset wr (drv w))).
  { intros fd' wr Hne Hfd2. rewrite <- (AtFd.fset_store fd write e w wr). fold w1.
    unfold w', at_fd. cbv zeta. fold w1. unfold upd_drv, FD_ISSET, FD_SET, FD_CLR.
    destruct (event_bool e w1).
    - destruct (Z.leb _ _); cbn [drv set_drv]; destruct write, wr; cbn;
        rewrite ?Z.setbit_neq by lia; reflexivity.
    - cbn [drv set_drv]. destruct write, wr; cbn; rewrite ?Z.clearbit_neq by lia; reflexivity. }
  split; [|split; [|split; [|exact Hbits]]].
  - destruct Hok1 as [Hlen Heven]. split; now rewrite ?Hfd_eq, ?Hcap_eq.
  - now rewrite Hfd_eq.
  - intros j Hj Hjr. rewrite Hfd_eq. now apply Hothers.
Qed.

Lemma at_fd_stores_the_event_witness :
  let w' := at_fd 9 true 21%nat (at_fd 3 false 20%nat Example.world1) in
  idx (_fd (drv w')) 19 = Some 21%nat /\ idx (_fd (drv w')) 6 = Some 20%nat.
Proof.
  intros w'.
  assert (Hok0 : fd_table_ok (drv Example.world1)) by (split; reflexivity).
  assert (H3 : 0 <= 3 < FD_SETSIZE) by (split; [discriminate | reflexivity]).
  assert (H9 : 0 <= 9 < FD_SETSIZE) by (split; [discriminate | reflexivity]).
  assert (Hc0 : _fdcap (drv Example.world1) < 2 ^ 30) by reflexivity.
  destruct (at_fd_stores_the_event Example.world1 3 false 20%nat Hok0 H3 Hc0)
    as (Hok1 & H6 & _ & _).
  assert (Hc1 : _fdcap (drv (at_fd 3 false 20%nat Example.world1)) < 2 ^ 30)
    by (vm_compute; reflexivity).
  destruct (at_fd_stores_the_event (at_fd 3 false 20%nat Example.world1) 9 true 21%nat
              Hok1 H9 Hc1) as (_ & H19 & Hold & _).
  split; [exact H19|]. unfold w'. etransitivity; [apply (Hold 6)|exact H6].
  - discriminate.
  - vm_compute. split; [discriminate | reflexivity].
Defined.

End Fds.
(** ** Before and after the poll (driver::once) *)
Module Poll.
Import XBase TameEvent TameDriver Frame Phases.


Lemma upd_drv_set_nfds_same w : upd_drv (set_nfds (_nfds (drv w))) w = w.
Proof. destruct w as [? ? ? ? ? ? ? d ?]. destruct d. reflexivity. Qed.

Lemma upd_drv_set_nfds_twice n m w :
  upd_drv (set_nfds n) (upd_drv (set_nfds m) w) = upd_drv (set_nfds n) w.
Proof. destruct w as [? ? ? ? ? ? ? d ?]. destruct d. reflexivity. Qed.

Lemma fd_armed_set_nfds n w i : fd_armed (upd_drv (set_nfds n) w) i = fd_armed w i.
Proof. reflexivity. Qed.

Lemma drop_dead_descriptors_spec : forall fuel w,
  0 <= _nfds (drv w) <= Z.of_nat fuel ->
  exists n, drop_dead_descriptors fuel w = upd_drv (set_nfds n) w /\
    0 <= n <= _nfds (drv w) /\
    (forall fd, n <= fd < _nfds (drv w) ->
       fd_armed w (fd * 2) = false /\ fd_armed w (fd * 2 + 1) = false) /\
    (n = 0 \/ fd_armed w (n * 2 - 2) = true \/ fd_armed w (n * 2 - 1) = true).
Proof.
  induction fuel as [|fuel IH]; intros w Hn; cbn [drop_dead_descriptors].
  - exists (_nfds (drv w)). rewrite upd_drv_set_nfds_same.
    split; [reflexivity|]. split; [lia|]. split; [intros; lia | left; lia].
  - cbv zeta. destruct (Z.eqb_spec (_nfds (drv w)) 0) as [H0|H0]; cbn [negb andb].
    + exists (_nfds (drv w)). rewrite upd_drv_set_nfds_same.
      split; [reflexivity|]. split; [lia|]. split; [intros; lia | now left].
    + destruct (fd_armed w (_nfds (drv w) * 2 - 2)) eqn:Ha; cbn [negb andb].
      * exists (_nfds (drv w)). rewrite upd_drv_set_nfds_same.
        split; [reflexivity|]. split; [lia|]. split; [intros; lia | auto].
      * destruct (fd_armed w (_nfds (drv w) * 2 - 1)) eqn:Hb; cbn [negb].
        -- exists (_nfds (drv w)). rewrite upd_drv_set_nfds_same.
           split; [reflexivity|]. split; [lia|]. split; [intros; lia | auto].
        -- destruct (IH (upd_drv (set_nfds (_nfds (drv w) - 1)) w)) as (n & Hrun & Hr & Hdead & Hlast).
           { cbn. lia. }
           cbn [drv upd_drv set_drv _nfds set_nfds] in Hr, Hdead.
           exists n. rewrite Hrun, upd_drv_set_nfds_twice.
           split; [reflexivity|]. split; [cbn in Hr; lia|]. split; [|exact Hlast].
           intros fd Hfd. destruct (Z.eq_dec fd (_nfds (drv w) - 1)) as [->|Hne].
           ++ replace ((_nfds (drv w) - 1) * 2) with (_nfds (drv w) * 2 - 2) by lia.
              replace (_nfds (drv w) * 2 - 2 + 1) with (_nfds (drv w) * 2 - 1) by lia. auto.
           ++ apply Hdead. cbn. lia.
Qed.

(** X10.  The loop that gets rid of dead descriptors lowers [_nfds] and
    changes nothing else (the descriptors below [_nfds] all have their two
    cells in the table).  It stops at the first descriptor from the top
    that has an armed read or write event: every descriptor from the new
    [_nfds] up to the old one has both events empty, and the new [_nfds] is 0
    or one more than a descriptor with an armed event. *)
Theorem dead_descriptors_dropped (w : world) :
  0 <= _nfds (drv w) -> _nfds (drv w) * 2 <= Z.of_nat (length (_fd (drv w))) ->
  exists n, drop_dead_descriptors (Z.to_nat (Z.abs (_nfds (drv w)))) w
              = upd_drv (set_nfds n) w /\
    0 <= n <= _nfds (drv w) /\
    (forall fd, n <= fd < _nfds (drv w) ->
       fd_armed w (fd * 2) = false /\ fd_armed w (fd * 2 + 1) = false) /\
    (n = 0 \/ fd_armed w (n * 2 - 2) = true \/ fd_armed w (n * 2 - 1) = true).
Proof. intros Hn _. apply drop_dead_descriptors_spec. lia. Qed.

Lemma dead_descriptors_dropped_witness :
  let w := upd_drv (set_nfds 8) (at_fd 3 false 20%nat Example.world1) in
  _nfds (drv (drop_dead_descriptors (Z.to_nat (Z.abs (_nfds (drv w)))) w)) = 4.
Proof.
  intros w.
  destruct (dead_descriptors_dropped w ltac:(vm_compute; discriminate)
              ltac:(vm_compute; discriminate))
    as (n & Hrun & Hr & Hdead & Hlast).
  rewrite Hrun. cbn [drv upd_drv set_drv _nfds set_nfds].
  assert (Harmed : fd_armed w 6 = true) by (vm_compute; reflexivity).
  assert (Hdead' : forall i, 7 <= i < 16 -> fd_armed w i = false).
  { intros i Hi. assert (Hc : i ∈ map Z.of_nat (seq 7 9)).
    { apply list_elem_of_In, in_map_iff. exists (Z.to_nat i). split; [lia|].
      apply in_seq. lia. }
    revert Hc. generalize i. apply Forall_forall. vm_compute.
    repeat constructor. }
  assert (Hn12 : _nfds (drv w) = 8) by reflexivity. rewrite Hn12 in Hr, Hdead.
  destruct (Z.lt_trichotomy n 4) as [Hlt|[Heq|Hgt]]; [|exact Heq|].
  - destruct (Hdead 3 ltac:(lia)) as [H6 _]. change (3 * 2) with 6 in H6. congruence.
  - destruct Hlast as [H0|[H1|H1]]; [lia| |];
      rewrite Hdead' in H1 by lia; discriminate.
Defined.

(** *** The scan of the signal flags *)

Lemma sigs_upd_active_trigger h s w :
  sigs (trigger0 h (upd_sigs (fun s0 => set_sig_active (upd (sig_active s0) s false) s0) w)) =
  set_sig_active (upd (sig_active (sigs w)) s false) (sigs w).
Proof. now rewrite sigs_trigger0. Qed.

Lemma filter_ext_in {A} (P Q : A -> Prop) `{!forall x, Decision (P x)}
    `{!forall x, Decision (Q x)} (l : list A) :
  (forall x, x ∈ l -> P x <-> Q x) -> filter P l = filter Q l.
Proof.
  induction l as [|a l IH]; intros Hext; [reflexivity|].
  rewrite !filter_cons. rewrite IH by (intros x Hx; apply Hext; now right).
  assert (Ha : P a <-> Q a) by (apply Hext; now left).
  destruct (decide (P a)) as [Hp|Hp], (decide (Q a)) as [Hq|Hq]; try reflexivity;
    exfalso; tauto.
Qed.

Lemma scan_spec : forall l w unb tr,
  NoDup l -> (forall s, s ∈ l -> 0 <= s) ->
  exists w' unb' tr',
    fold_left check_signal l (w, unb, tr) = (w', unb', tr') /\
    sig_handlers (sigs w') = sig_handlers (sigs w) /\
    sig_blocked (sigs w') = sig_blocked (sigs w) /\
    sig_any_active (sigs w') = sig_any_active (sigs w) /\
    length (sig_active (sigs w')) = length (sig_active (sigs w)) /\
    (forall s, s ∈ l -> idx (sig_active (sigs w)) s = Some true ->
               idx (sig_active (sigs w')) s = Some false) /\
    (forall s, 0 <= s -> (s ∈ l -> idx (sig_active (sigs w)) s <> Some true) ->
               idx (sig_active (sigs w')) s = idx (sig_active (sigs w)) s) /\
    unb' = unb ++ filter (fun s => idx (sig_active (sigs w)) s = Some true) l /\
    tr' = tr ++ omap (fun s => act_trigger ph_signal <$> idx (sig_handlers (sigs w)) s)
                  (filter (fun s => idx (sig_active (sigs w)) s = Some true) l).
Proof.
  induction l as [|s l IH]; intros w unb tr Hnd Hpos.
  - exists w, unb, tr. cbn [fold_left]. rewrite filter_nil. cbn [omap]. rewrite !app_nil_r.
    repeat split; try reflexivity. now intros s ?%elem_of_nil.
  - apply NoDup_cons in Hnd as [Hs Hnd]. cbn [fold_left].
    assert (Hs0 : 0 <= s) by (apply Hpos; now left).
    assert (Hpos' : forall s', s' ∈ l -> 0 <= s') by (intros; apply Hpos; now right).
    assert (Hidle : idx (sig_active (sigs w)) s <> Some true ->
              exists w' unb' tr',
                fold_left check_signal l (w, unb, tr) = (w', unb', tr') /\
                sig_handlers (sigs w') = sig_handlers (sigs w) /\
                sig_blocked (sigs w') = sig_blocked (sigs w) /\
                sig_any_active (sigs w') = sig_any_active (sigs w) /\
                length (sig_active (sigs w')) = length (sig_active (sigs w)) /\
                (forall s', s' ∈ s :: l -> idx (sig_active (sigs w)) s' = Some true ->
                            idx (sig_active (sigs w')) s' = Some false) /\
                (forall s', 0 <= s' ->
                   (s' ∈ s :: l -> idx (sig_active (sigs w)) s' <> Some true) ->
                   idx (sig_active (sigs w')) s' = idx (sig_active (sigs w)) s') /\
                unb' = unb ++ filter (fun s => idx (sig_active (sigs w)) s = Some true) (s :: l) /\
                tr' = tr ++ omap (fun s => act_trigger ph_signal <$>
                                           idx (sig_handlers (sigs w)) s)
                              (filter (fun s => idx (sig_active (sigs w)) s = Some true) (s :: l))).
    { intros Hoff.
      destruct (IH w unb tr Hnd Hpos')
        as (w' & unb' & tr' & Hf & Hh & Hb & Ha & Hl & Hset & Hkeep & Hu & Ht).
      exists w', unb', tr'. split; [exact Hf|].
      rewrite filter_cons_False by exact Hoff.
      split; [exact Hh|]. split; [exact Hb|]. split; [exact Ha|]. split; [exact Hl|].
      split; [|split; [|split; assumption]].
      - intros s' [->|Hin]%elem_of_cons Hon; [contradiction | now apply Hset].
      - intros s' Hs' Hoff'. apply Hkeep; [exact Hs'|]. intros Hin. apply Hoff'. now right. }
    unfold check_signal at 2.
    destruct (idx (sig_active (sigs w)) s) as [[|]|] eqn:Hact;
      [|apply Hidle; discriminate | apply Hidle; discriminate].
    clear Hidle. cbv zeta.
    set (w1 := upd_sigs (fun s0 => set_sig_active (upd (sig_active s0) s false) s0) w).
    assert (Hin_range : 0 <= s < Z.of_nat (length (sig_active (sigs w)))).
    { split; [exact Hs0|]. unfold idx in Hact. destruct (Z.ltb_spec s 0); [discriminate|].
      apply lookup_lt_Some in Hact. lia. }
    assert (Hsame : forall s', 0 <= s' -> s' <> s ->
              idx (upd (sig_active (sigs w)) s false) s' = idx (sig_active (sigs w)) s').
    { intros s' Hs' Hne. apply Fds.idx_upd_ne; [exact Hs' | congruence]. }
    assert (Hcleared : idx (upd (sig_active (sigs w)) s false) s = Some false)
      by (now apply Fds.idx_upd_eq).
    assert (Hfilter : filter (fun s' => idx (upd (sig_active (sigs w)) s false) s' = Some true) l
                      = filter (fun s' => idx (sig_active (sigs w)) s' = Some true) l).
    { apply filter_ext_in. intros s' Hs'. rewrite Hsame; [reflexivity | now apply Hpos'|].
      intros ->. contradiction. }
    assert (Hstep : forall w2 unb2 tr2,
              sigs w2 = set_sig_active (upd (sig_active (sigs w)) s false) (sigs w) ->
              exists w' unb' tr',
                fold_left check_signal l (w2, unb2, tr2) = (w', unb', tr') /\
                sig_handlers (sigs w') = sig_handlers (sigs w) /\
                sig_blocked (sigs w') = sig_blocked (sigs w) /\
                sig_any_active (sigs w') = sig_any_active (sigs w) /\
                length (sig_active (sigs w')) = length (sig_active (sigs w)) /\
                (forall s', s' ∈ s :: l -> idx (sig_active (sigs w)) s' = Some true ->
                            idx (sig_active (sigs w')) s' = Some false) /\
                (forall s', 0 <= s' ->
                   (s' ∈ s :: l -> idx (sig_active (sigs w)) s' <> Some true) ->
                   idx (sig_active (sigs w')) s' = idx (sig_active (sigs w)) s') /\
                unb' = unb2 ++ filter (fun s => idx (sig_active (sigs w)) s = Some true) l /\
                tr' = tr2 ++ omap (fun s => act_trigger ph_signal <$>
                                            idx (sig_handlers (sigs w)) s)
                               (filter (fun s => idx (sig_active (sigs w)) s = Some true) l)).
    { intros w2 unb2 tr2 Hw2.
      destruct (IH w2 unb2 tr2 Hnd Hpos')
        as (w' & unb' & tr' & Hf & Hh & Hb & Ha & Hl & Hset & Hkeep & Hu & Ht).
      rewrite Hw2 in Hh, Hb, Ha, Hl, Hset, Hkeep, Hu, Ht.
      cbn [sig_handlers sig_blocked sig_any_active sig_active set_sig_active]
        in Hh, Hb, Ha, Hl, Hset, Hkeep, Hu, Ht.
      rewrite Hfilter in Hu, Ht. rewrite Fds.length_upd in Hl.
      exists w', unb', tr'. split; [exact Hf|].
      split; [exact Hh|]. split; [exact Hb|]. split; [exact Ha|]. split; [exact Hl|].
      split; [|split; [|split; assumption]].
      - intros s' [->|Hin]%elem_of_cons Hon.
        + rewrite Hkeep; [exact Hcleared | exact Hs0 | intros Hin; contradiction].
        + apply Hset; [exact Hin|]. rewrite Hsame; [exact Hon | now apply Hpos'|].
          intros ->. contradiction.
      - intros s' Hs' Hoff. assert (Hne : s' <> s).
        { intros ->. apply Hoff; [now left | exact Hact]. }
        rewrite Hkeep; [now apply Hsame | exact Hs'|].
        intros Hin. rewrite Hsame by assumption. apply Hoff. now right. }
    rewrite filter_cons_True by exact Hact. cbn [omap].
    assert (Hh1 : idx (sig_handlers (sigs w1)) s = idx (sig_handlers (sigs w)) s) by reflexivity.
    rewrite Hh1.
    destruct (idx (sig_handlers (sigs w)) s) as [h|] eqn:Hh; cbn [fmap option_fmap option_map].
    + destruct (Hstep (trigger0 h w1) (unb ++ [s]) (tr ++ [act_trigger ph_signal h]))
        as (w' & unb' & tr' & Hf & H1 & H2 & H3 & H4 & H5 & H6 & -> & ->);
        [now rewrite sigs_trigger0|].
      eexists w', _, _. split; [exact Hf|]. rewrite <- !app_assoc.
      split; [exact H1|]. split; [exact H2|]. split; [exact H3|]. split; [exact H4|].
      split; [exact H5|]. split; [exact H6|]. split; [reflexivity|].
      cbn [omap list_omap]. rewrite Hh. reflexivity.
    + destruct (Hstep w1 (unb ++ [s]) tr)
        as (w' & unb' & tr' & Hf & H1 & H2 & H3 & H4 & H5 & H6 & -> & ->); [reflexivity|].
      eexists w', _, _. split; [exact Hf|]. rewrite <- !app_assoc.
      split; [exact H1|]. split; [exact H2|]. split; [exact H3|]. split; [exact H4|].
      split; [exact H5|]. split; [exact H6|]. split; [reflexivity|].
      cbn [omap list_omap]. rewrite Hh. reflexivity.
Qed.

Lemma all_signals_spec s :
  s ∈ map Z.of_nat (seq 0 (Z.to_nat NSIGNALS)) <-> 0 <= s < NSIGNALS.
Proof.
  rewrite list_elem_of_In, in_map_iff. split.
  - intros (n & <- & Hn%in_seq). unfold NSIGNALS in *. lia.
  - intros Hs. exists (Z.to_nat s). split; [lia|]. apply in_seq. unfold NSIGNALS in *. lia.
Qed.

Lemma all_signals_NoDup : NoDup (map Z.of_nat (seq 0 (Z.to_nat NSIGNALS))).
Proof.
  apply NoDup_fmap_2; [intros a b; apply Nat2Z.inj|]. apply NoDup_ListNoDup, seq_NoDup.
Qed.

(** The handler of a pending signal is empty after the scan. *)
Lemma scan_empties l : forall w unb tr w' unb' tr',
  fold_left check_signal l (w, unb, tr) = (w', unb', tr') ->
  forall s h, s ∈ l -> idx (sig_active (sigs w)) s = Some true ->
              idx (sig_handlers (sigs w)) s = Some h -> empty h w' = true.
Proof.
  induction l as [|s0 l IH]; intros w unb tr w' unb' tr' Hf s h Hin Hact Hh;
    [now apply elem_of_nil in Hin|].
  cbn [fold_left] in Hf.
  assert (Hs0 : 0 <= s).
  { unfold idx in Hact. destruct (Z.ltb_spec s 0); [discriminate | assumption]. }
  destruct (decide (s = s0)) as [<-|Hne].
  - unfold check_signal at 2 in Hf. rewrite Hact in Hf. cbv zeta in Hf.
    set (w1 := upd_sigs (fun s0 => set_sig_active (upd (sig_active s0) s false) s0) w) in *.
    assert (Hh1 : idx (sig_handlers (sigs w1)) s = Some h) by exact Hh.
    rewrite Hh1 in Hf. apply check_signal_spec in Hf as (Hq & _).
    eapply evolves_empty_stays; [apply (quiet_evolves _ _ _ Hq)|].
    apply simple_trigger_empties.
  - apply elem_of_cons in Hin as [Heq|Hin]; [contradiction|].
    unfold check_signal at 2 in Hf.
    destruct (idx (sig_active (sigs w)) s0) as [[|]|] eqn:Hact0;
      try (eapply IH; eassumption).
    cbv zeta in Hf.
    set (w1 := upd_sigs (fun s1 => set_sig_active (upd (sig_active s1) s0 false) s1) w) in *.
    assert (Hact1 : idx (sig_active (sigs w1)) s = Some true).
    { unfold w1, upd_sigs. cbn [sigs set_sigs sig_active set_sig_active].
      rewrite Fds.idx_upd_ne by (try lia; congruence). exact Hact. }
    assert (Hh1 : idx (sig_handlers (sigs w1)) s = Some h) by exact Hh.
    destruct (idx (sig_handlers (sigs w1)) s0) as [h0|].
    + eapply (IH (trigger0 h0 w1)); try exact Hf; try exact Hin;
        rewrite sigs_trigger0; assumption.
    + eapply (IH w1); eassumption.
Qed.

(** X11.  The scan of the signal flags in [once()], with the 32 flags in
    place: every flag is clear afterwards; the signals collected for
    [sigprocmask(SIG_UNBLOCK)] are exactly those whose flag was set, in
    increasing order, and for each of them the event registered as its
    handler is triggered, in the same order: that event is empty after the
    scan, and if it was armed it has completed exactly once, with its
    values.  No event is cancelled by the scan and none completes twice.
    The handler table and the set of blocked signals are not touched by the
    scan.  A signal whose handler [tame_signal_handler] ran before the scan
    is among those collected. *)
Theorem signal_scan_clears_flags (w : world) :
  length (sig_active (sigs w)) = Z.to_nat NSIGNALS ->
  let all := map Z.of_nat (seq 0 (Z.to_nat NSIGNALS)) in
  let pending := filter (fun s => idx (sig_active (sigs w)) s = Some true) all in
  (exists w',
     fold_left check_signal all (w, [], []) =
       (w', pending,
        omap (fun s => act_trigger ph_signal <$> idx (sig_handlers (sigs w)) s) pending) /\
     (forall s, 0 <= s < NSIGNALS -> idx (sig_active (sigs w')) s = Some false) /\
     (forall s h, s ∈ pending -> idx (sig_handlers (sigs w)) s = Some h ->
                  triggered h w w') /\
     (forall e, evolves e w w') /\ none_cancelled w w' /\
     sig_handlers (sigs w') = sig_handlers (sigs w) /\
     sig_blocked (sigs w') = sig_blocked (sigs w)) /\
  (forall s, 0 <= s < NSIGNALS ->
     s ∈ filter (fun s' => idx (sig_active (sigs (tame_signal_handler s w))) s' = Some true) all /\
     sig_any_active (sigs (tame_signal_handler s w)) = true /\
     s ∈ sig_blocked (sigs (tame_signal_handler s w))).
Proof.
  intros Hlen all pending. split.
  - destruct (scan_spec all w [] [] all_signals_NoDup)
      as (w' & unb' & tr' & Hf & Hh & Hb & _ & _ & Hset & Hkeep & -> & ->).
    { intros s Hs%all_signals_spec. lia. }
    pose proof (check_signal_spec _ _ _ _ _ _ _ Hf) as [Hq _].
    exists w'. split; [exact Hf|].
    split; [|split; [|split; [apply Hq|split; [apply (quiet_none_cancelled _ _ Hq)|auto]]]].
    + intros s Hs. assert (Hin : s ∈ all) by (now apply all_signals_spec).
      assert (Hsome : exists b, idx (sig_active (sigs w)) s = Some b).
      { unfold idx. destruct (Z.ltb_spec s 0); [lia|].
        apply lookup_lt_is_Some. unfold NSIGNALS in *. lia. }
      destruct Hsome as [[|] Hb'].
      * now apply Hset.
      * rewrite Hkeep; [exact Hb' | lia | congruence].
    + intros s h [Hact Hin]%list_elem_of_filter Hhs.
      split; [exact (scan_empties _ _ _ _ _ _ _ Hf s h Hin Hact Hhs)|].
      split; [apply (quiet_evolves _ _ _ Hq) | apply (quiet_none_cancelled _ _ Hq)].
  - intros s Hs. split; [|split].
    + apply list_elem_of_filter. split; [|now apply all_signals_spec].
      unfold tame_signal_handler, upd_sigs. cbn [sigs set_sigs sig_active set_sig_active
        set_sig_any_active set_sig_blocked].
      apply Fds.idx_upd_eq. unfold NSIGNALS in *. lia.
    + reflexivity.
    + unfold tame_signal_handler, upd_sigs. cbn. now left.
Qed.

Lemma signal_scan_clears_flags_witness :
  let w := tame_signal_handler 10 Example.world_turn in
  exists w', fold_left check_signal (map Z.of_nat (seq 0 (Z.to_nat NSIGNALS))) (w, [], [])
               = (w', [10], [act_trigger ph_signal 20%nat]) /\
             idx (sig_active (sigs w')) 10 = Some false /\
             empty 20%nat w = false /\ empty 20%nat w' = true /\
             completions 20%nat w' = S (completions 20%nat w) /\
             cancellations 20%nat w' = cancellations 20%nat w.
Proof.
  intros w.
  destruct (signal_scan_clears_flags w eq_refl) as [(w' & Hf & Hflags & Hfire & _) _].
  exists w'. split; [exact Hf|]. split; [apply Hflags; unfold NSIGNALS; lia|].
  assert (Harmed : empty 20%nat w = false) by (vm_compute; reflexivity).
  destruct (Hfire 10 20%nat) as (He & Hev & Hc).
  { apply list_elem_of_filter. split; [vm_compute; reflexivity|].
    apply all_signals_spec. unfold NSIGNALS. lia. }
  { vm_compute. reflexivity. }
  split; [exact Harmed|]. split; [exact He|]. split; [|exact Hc].
  destruct Hev as [[Hsame _]|(_ & _ & Hcount)]; [congruence | exact Hcount].
Defined.

End Poll.
(** ** The timer heap (driver::timer_reheapify_from) *)

Module Heap.
Import XBase TameEvent TameDriver Frame Phases.

Ltac zlia := Z.div_mod_to_equations; lia.

(** [!timercmp(a, b, >)] is a total preorder. *)
Lemma timercmp_refl a : timercmp_gt a a = false.
Proof. unfold timercmp_gt. rewrite Z.eqb_refl. apply Z.ltb_irrefl. Qed.

Lemma timercmp_asym a b : timercmp_gt a b = true -> timercmp_gt b a = false.
Proof.
  unfold timercmp_gt.
  destruct (Z.eqb_spec (tv_sec a) (tv_sec b)), (Z.eqb_spec (tv_sec b) (tv_sec a));
    try congruence; intros H%Z.ltb_lt; apply Z.ltb_ge; lia.
Qed.

Lemma timercmp_trans a b c :
  timercmp_gt a b = false -> timercmp_gt b c = false -> timercmp_gt a c = false.
Proof.
  unfold timercmp_gt.
  destruct (Z.eqb_spec (tv_sec a) (tv_sec b)), (Z.eqb_spec (tv_sec b) (tv_sec c)),
    (Z.eqb_spec (tv_sec a) (tv_sec c)); try congruence;
    intros H1%Z.ltb_ge H2%Z.ltb_ge; apply Z.ltb_ge; lia.
Qed.

Lemma idx_lt {A} (a : list A) i x : idx a i = Some x -> 0 <= i < Z.of_nat (length a).
Proof.
  unfold idx. destruct (Z.ltb_spec i 0) as [|Hge]; [discriminate|].
  intros Hx%lookup_lt_Some. lia.
Qed.

Lemma idx_upd_same {A} (a : list A) i x y : idx a i = Some y -> idx (upd a i x) i = Some x.
Proof. intros H%idx_lt. now apply Fds.idx_upd_eq. Qed.

(** What [place] changes. *)
Lemma place_timers pos x d y :
  timers (place pos x d) !! y =
    if decide (y = x) then set_u (u_schedpos pos) <$> timers d !! y else timers d !! y.
Proof.
  unfold place. cbn [timers set_timers set_t].
  destruct (decide (y = x)) as [->|Hne]; [apply lookup_alter_eq | now apply lookup_alter_ne].
Qed.

Lemma place_expiry pos x d y : expiry_of (place pos x d) y = expiry_of d y.
Proof.
  unfold expiry_of. rewrite place_timers.
  destruct (decide (y = x)); [|reflexivity]. now destruct (timers d !! y).
Qed.

Lemma place_data pos x d y : timer_data (place pos x d) y = timer_data d y.
Proof.
  unfold timer_data. rewrite place_timers.
  destruct (decide (y = x)); [|reflexivity]. now destruct (timers d !! y).
Qed.

Lemma data_expiry d d' x : timer_data d' x = timer_data d x -> expiry_of d' x = expiry_of d x.
Proof.
  unfold timer_data, expiry_of.
  destruct (timers d' !! x), (timers d !! x); cbn; congruence.
Qed.

Lemma data_trigger d d' x : timer_data d' x = timer_data d x -> trigger_of d' x = trigger_of d x.
Proof.
  unfold timer_data, trigger_of.
  destruct (timers d' !! x), (timers d !! x); cbn; congruence.
Qed.

Lemma place_valid pos x d y : is_Some (timers (place pos x d) !! y) <-> is_Some (timers d !! y).
Proof.
  rewrite place_timers. destruct (decide (y = x)); [|reflexivity].
  now rewrite fmap_is_Some.
Qed.

Lemma timer_at_valid d i a :
  idx (_t d) i = Some a -> is_Some (timers d !! a) ->
  exists T, timer_at d i = Some (a, T) /\ expiry T = expiry_of d a.
Proof.
  intros Hi [T HT]. exists T. unfold timer_at, expiry_of. now rewrite Hi, HT.
Qed.

Lemma sift_down_S fuel pos t d :
  sift_down (S fuel) pos t d =
    let '(s, tp) := sift_pick pos t d in
    let d1 := place pos s d in
    if Nat.eqb s t then d1 else sift_down fuel tp t d1.
Proof. reflexivity. Qed.

Section Loop.
Variables (n m : Z) (t : addr) (M : addr -> Prop).

(** The cells a loop may read: those of the heap and the stale ones. *)
Lemma hole_cell pos d i :
  heap_hole n m t M pos d -> 0 <= i < n -> i <> pos ->
  exists x, idx (_t d) i = Some x /\ is_Some (timers d !! x) /\ (x <> t -> i < m).
Proof.
  intros I Hi Hne. destruct (Z.lt_ge_cases i m) as [Hlt|Hge].
  - destruct (h_cells _ _ _ _ _ _ I i ltac:(lia) Hne) as (x & Hx & Hv).
    exists x. auto.
  - exists t. split; [apply (h_stale _ _ _ _ _ _ I); lia|].
    split; [exact (h_t _ _ _ _ _ _ I)|]. congruence.
Qed.

Lemma pick_spec pos d s tp :
  heap_hole n m t M pos d -> sift_pick pos t d = (s, tp) ->
  (s = t /\
   forall i c, 0 < i < m -> (i - 1) / 2 = pos -> idx (_t d) i = Some c -> expires_by d t c) \/
  (s <> t /\ 0 < tp < m /\ (tp - 1) / 2 = pos /\ idx (_t d) tp = Some s /\ expires_by d s t /\
   forall i c, 0 < i < m -> (i - 1) / 2 = pos -> idx (_t d) i = Some c -> expires_by d s c).
Proof.
  intros I. pose proof (h_pos _ _ _ _ _ _ I) as Hpos. pose proof (h_m _ _ _ _ _ _ I) as Hm.
  unfold sift_pick. cbv zeta. rewrite (h_nt _ _ _ _ _ _ I).
  destruct (Z.ltb_spec (2 * pos + 1) n) as [H1|H1].
  2:{ destruct (Z.ltb_spec (2 * pos + 1 + 1) n) as [H2|H2]; [lia|].
      intros [= <- <-]. left. split; [reflexivity|]. intros i c Hi Hp. zlia. }
  destruct (hole_cell _ _ (2 * pos + 1) I ltac:(lia) ltac:(lia)) as (x1 & Hx1 & Hv1 & Hin1).
  destruct (timer_at_valid _ _ _ Hx1 Hv1) as (T1 & -> & ->).
  destruct (Z.ltb_spec (2 * pos + 1 + 1) n) as [H2|H2].
  - (* two children *)
    destruct (hole_cell _ _ (2 * pos + 1 + 1) I ltac:(lia) ltac:(lia))
      as (x2 & Hx2 & Hv2 & Hin2).
    destruct (timer_at_valid _ _ _ Hx2 Hv2) as (T2 & -> & ->).
    assert (Hdone : forall s0, expires_by d s0 x1 -> expires_by d s0 x2 ->
              forall i c, 0 < i < m -> (i - 1) / 2 = pos -> idx (_t d) i = Some c ->
                          expires_by d s0 c).
    { intros s0 Ha Hb i c Hi Hp Hc.
      assert (i = 2 * pos + 1 \/ i = 2 * pos + 1 + 1) as [->| ->] by zlia.
      - rewrite Hx1 in Hc. now injection Hc as <-.
      - rewrite Hx2 in Hc. now injection Hc as <-. }
    destruct (timercmp_gt (expiry_of d x1) (expiry_of d t)) eqn:G1; cbn [negb].
    + (* t expires before the first child *)
      pose proof (timercmp_asym _ _ G1) as L1.
      destruct (timercmp_gt (expiry_of d x2) (expiry_of d t)) eqn:G2; cbn [negb].
      * intros [= <- <-]. left. split; [reflexivity|].
        apply Hdone; [exact L1 | now apply timercmp_asym].
      * intros [= <- <-]. destruct (decide (x2 = t)) as [->|Hne].
        -- left. split; [reflexivity|]. apply Hdone; [exact L1 | apply timercmp_refl].
        -- right. split; [exact Hne|]. specialize (Hin2 Hne).
           split; [lia|]. split; [zlia|]. split; [exact Hx2|]. split; [exact G2|].
           apply Hdone; [exact (timercmp_trans _ _ _ G2 L1) | apply timercmp_refl].
    + (* the first child expires no later than t *)
      destruct (timercmp_gt (expiry_of d x2) (expiry_of d x1)) eqn:G2; cbn [negb].
      * pose proof (timercmp_asym _ _ G2) as L2.
        intros [= <- <-]. destruct (decide (x1 = t)) as [->|Hne].
        -- left. split; [reflexivity|]. apply Hdone; [apply timercmp_refl | exact L2].
        -- right. split; [exact Hne|]. specialize (Hin1 Hne).
           split; [lia|]. split; [zlia|]. split; [exact Hx1|].
           split; [exact G1|]. apply Hdone; [apply timercmp_refl | exact L2].
      * intros [= <- <-]. destruct (decide (x2 = t)) as [->|Hne].
        -- left. split; [reflexivity|]. apply Hdone; [exact G2 | apply timercmp_refl].
        -- right. split; [exact Hne|]. specialize (Hin2 Hne).
           split; [lia|]. split; [zlia|]. split; [exact Hx2|].
           split; [exact (timercmp_trans _ _ _ G2 G1)|].
           apply Hdone; [exact G2 | apply timercmp_refl].
  - (* one child *)
    assert (Hdone : forall s0, expires_by d s0 x1 ->
              forall i c, 0 < i < m -> (i - 1) / 2 = pos -> idx (_t d) i = Some c ->
                          expires_by d s0 c).
    { intros s0 Ha i c Hi Hp Hc. assert (i = 2 * pos + 1) as -> by zlia.
      rewrite Hx1 in Hc. now injection Hc as <-. }
    destruct (timercmp_gt (expiry_of d x1) (expiry_of d t)) eqn:G1; cbn [negb].
    + intros [= <- <-]. left. split; [reflexivity|].
      apply Hdone. now apply timercmp_asym.
    + intros [= <- <-]. destruct (decide (x1 = t)) as [->|Hne].
      * left. split; [reflexivity|]. apply Hdone, timercmp_refl.
      * right. split; [exact Hne|]. specialize (Hin1 Hne).
        split; [lia|]. split; [zlia|]. split; [exact Hx1|]. split; [exact G1|].
        apply Hdone, timercmp_refl.
Qed.

(** Reading a cell after [place]. *)
Lemma place_idx pos x d i :
  is_Some (idx (_t d) pos) -> 0 <= i ->
  idx (_t (place pos x d)) i = if decide (i = pos) then Some x else idx (_t d) i.
Proof.
  intros [y Hy] Hi. unfold place. cbn [_t set_timers set_t].
  destruct (decide (i = pos)) as [->|Hne].
  - now apply idx_upd_same with y.
  - apply Fds.idx_upd_ne; [exact Hi | congruence].
Qed.

Lemma exit_done pos d :
  sift_inv n m t M pos d ->
  (forall i c, 0 < i < m -> (i - 1) / 2 = pos -> idx (_t d) i = Some c -> expires_by d t c) ->
  sift_done m M d (place pos t d).
Proof.
  intros [I Hup] Hkids. pose proof (h_pos _ _ _ _ _ _ I) as Hpos.
  assert (Hidx : forall i, 0 <= i -> idx (_t (place pos t d)) i
                   = if decide (i = pos) then Some t else idx (_t d) i).
  { intros i Hi. apply place_idx; [exact (h_slot _ _ _ _ _ _ I) | exact Hi]. }
  split.
  - intros i Hi. rewrite Hidx by lia. destruct (decide (i = pos)) as [->|Hne].
    + exists t. split; [reflexivity|]. apply place_valid. exact (h_t _ _ _ _ _ _ I).
    + destruct (h_cells _ _ _ _ _ _ I i Hi Hne) as (x & Hx & Hv).
      exists x. split; [exact Hx | now apply place_valid].
  - intros i p c Hi. unfold expires_by. rewrite !Hidx, !place_expiry by zlia.
    destruct (decide ((i - 1) / 2 = pos)) as [Hp|Hp], (decide (i = pos)) as [Hc|Hc].
    + zlia.
    + intros [= <-] Hci. now apply Hkids with i.
    + subst i. intros Hpi [= <-]. apply Hup; [lia | exact Hpi].
    + now apply (h_order _ _ _ _ _ _ I).
  - intros i x Hi. rewrite Hidx by lia. destruct (decide (i = pos)).
    + intros [= <-]. exact (h_mem_t _ _ _ _ _ _ I).
    + now apply (h_mem _ _ _ _ _ _ I).
  - intros i j x Hi Hj. rewrite !Hidx by lia.
    destruct (decide (i = pos)) as [->|Hi'], (decide (j = pos)) as [->|Hj'].
    + reflexivity.
    + intros [= <-] Hx. now destruct (h_fresh _ _ _ _ _ _ I j Hj Hj').
    + intros Hx [= <-]. now destruct (h_fresh _ _ _ _ _ _ I i Hi Hi').
    + now apply (h_distinct _ _ _ _ _ _ I).
  - intros i x T Hi. rewrite Hidx, place_timers by lia.
    destruct (decide (i = pos)) as [->|Hi'].
    + intros [= <-]. rewrite decide_True by reflexivity.
      destruct (timers d !! t); [|discriminate]. now intros [= <-].
    + intros Hx. destruct (decide (x = t)) as [->|Hne].
      * now destruct (h_fresh _ _ _ _ _ _ I i Hi Hi').
      * now apply (h_sched _ _ _ _ _ _ I).
  - intros x. apply place_data.
  - reflexivity.
Qed.

(** Moving the timer of the cell [q], a child or the parent of the free
    cell [pos], into [pos] frees [q]: what does not depend on the
    direction. *)
Lemma move_hole pos q d s :
  heap_hole n m t M pos d -> 0 <= q < m -> q <> pos -> idx (_t d) q = Some s ->
  (forall i p c, 0 < i < m -> i <> q -> (i - 1) / 2 <> q ->
     idx (_t (place pos s d)) ((i - 1) / 2) = Some p -> idx (_t (place pos s d)) i = Some c ->
     expires_by d p c) ->
  (forall p i c, 0 < q -> idx (_t (place pos s d)) ((q - 1) / 2) = Some p ->
     0 < i < m -> (i - 1) / 2 = q -> idx (_t (place pos s d)) i = Some c ->
     expires_by d p c) ->
  heap_hole n m t M q (place pos s d).
Proof.
  intros I Hq Hqp Hs Horder Hbridge. pose proof (h_pos _ _ _ _ _ _ I) as Hpos.
  pose proof (h_m _ _ _ _ _ _ I) as Hm.
  assert (Hidx : forall i, 0 <= i -> idx (_t (place pos s d)) i
                   = if decide (i = pos) then Some s else idx (_t d) i).
  { intros i Hi. apply place_idx; [exact (h_slot _ _ _ _ _ _ I) | exact Hi]. }
  assert (Hst : s <> t) by (intros ->; now apply (h_fresh _ _ _ _ _ _ I q Hq Hqp)).
  split.
  - exact (h_nt _ _ _ _ _ _ I).
  - exact Hq.
  - exact Hm.
  - rewrite Hidx by lia. rewrite decide_False by exact Hqp. now rewrite Hs.
  - apply place_valid. exact (h_t _ _ _ _ _ _ I).
  - intros i Hi. rewrite Hidx by lia. rewrite decide_False by lia.
    now apply (h_stale _ _ _ _ _ _ I).
  - intros i Hi Hiq. rewrite Hidx by lia. destruct (decide (i = pos)) as [->|Hi'].
    + exists s. split; [reflexivity|]. apply place_valid.
      destruct (h_cells _ _ _ _ _ _ I q Hq Hqp) as (x & Hx & Hv). congruence.
    + destruct (h_cells _ _ _ _ _ _ I i Hi Hi') as (x & Hx & Hv).
      exists x. split; [exact Hx | now apply place_valid].
  - intros i p c Hi Hiq Hpq Hp Hc. unfold expires_by. rewrite !place_expiry.
    now apply (Horder i p c).
  - intros p i c Hq0 Hp Hi Hpar Hc. unfold expires_by. rewrite !place_expiry.
    now apply (Hbridge p i c).
  - exact (h_mem_t _ _ _ _ _ _ I).
  - intros i x Hi Hiq. rewrite Hidx by lia. destruct (decide (i = pos)).
    + intros [= <-]. now apply (h_mem _ _ _ _ _ _ I q).
    + now apply (h_mem _ _ _ _ _ _ I).
  - intros i j x Hi Hj Hiq Hjq. rewrite !Hidx by lia.
    destruct (decide (i = pos)) as [->|Hi'], (decide (j = pos)) as [->|Hj'].
    + reflexivity.
    + intros [= <-] Hx. destruct Hjq.
      now apply (h_distinct _ _ _ _ _ _ I j q s).
    + intros Hx [= <-]. destruct Hiq.
      now apply (h_distinct _ _ _ _ _ _ I i q s).
    + now apply (h_distinct _ _ _ _ _ _ I).
  - intros i Hi Hiq. rewrite Hidx by lia. destruct (decide (i = pos)).
    + congruence.
    + now apply (h_fresh _ _ _ _ _ _ I).
  - intros i x T Hi Hiq. rewrite Hidx, place_timers by lia.
    destruct (decide (i = pos)) as [->|Hi'].
    + intros [= <-]. rewrite decide_True by reflexivity.
      destruct (timers d !! s); [|discriminate]. now intros [= <-].
    + intros Hx. destruct (decide (x = s)) as [->|Hxs].
      * destruct Hiq. now apply (h_distinct _ _ _ _ _ _ I i q s).
      * now apply (h_sched _ _ _ _ _ _ I).
Qed.

Lemma step_inv pos d s tp :
  heap_hole n m t M pos d -> 0 < tp < m -> (tp - 1) / 2 = pos -> idx (_t d) tp = Some s ->
  expires_by d s t ->
  (forall i c, 0 < i < m -> (i - 1) / 2 = pos -> idx (_t d) i = Some c -> expires_by d s c) ->
  sift_inv n m t M tp (place pos s d).
Proof.
  intros I Htp Hpar Hs Hst Hkids. pose proof (h_pos _ _ _ _ _ _ I) as Hpos.
  assert (Htp_pos : tp <> pos) by zlia.
  assert (Hidx : forall i, 0 <= i -> idx (_t (place pos s d)) i
                   = if decide (i = pos) then Some s else idx (_t d) i).
  { intros i Hi. apply place_idx; [exact (h_slot _ _ _ _ _ _ I) | exact Hi]. }
  split.
  - apply move_hole; [exact I | lia | exact Htp_pos | exact Hs | |].
    + intros i p c Hi Hitp Hptp. rewrite !Hidx by zlia.
      destruct (decide ((i - 1) / 2 = pos)) as [Hp|Hp], (decide (i = pos)) as [Hc|Hc].
      * zlia.
      * intros [= <-] Hci. now apply Hkids with i.
      * subst i. intros Hpi [= <-].
        apply (h_bridge _ _ _ _ _ _ I p tp s); [lia | exact Hpi | lia | exact Hpar | exact Hs].
      * now apply (h_order _ _ _ _ _ _ I).
    + intros p i c _ Hpp Hi Hp Hc. rewrite Hpar, Hidx in Hpp by lia.
      rewrite decide_True in Hpp by reflexivity. injection Hpp as <-.
      rewrite Hidx in Hc by lia. rewrite decide_False in Hc by zlia.
      apply (h_order _ _ _ _ _ _ I i s c Hi); [zlia | zlia | now rewrite Hp | exact Hc].
  - intros p _. rewrite Hpar, Hidx by lia. rewrite decide_True by reflexivity.
    intros [= <-]. unfold expires_by. now rewrite !place_expiry.
Qed.

(** The second loop started on a cell [pos] with [n - pos] rounds to
    spend. *)
Lemma sift_down_spec : forall fuel pos d,
  sift_inv n m t M pos d -> (Z.to_nat (n - pos) <= fuel)%nat ->
  sift_done m M d (sift_down fuel pos t d).
Proof.
  induction fuel as [|fuel IH]; intros pos d I Hfuel.
  - pose proof (h_pos _ _ _ _ _ _ (proj1 I)). pose proof (h_m _ _ _ _ _ _ (proj1 I)). lia.
  - rewrite sift_down_S. destruct (sift_pick pos t d) as [s tp] eqn:Hp. cbv zeta.
    destruct (pick_spec _ _ _ _ (proj1 I) Hp)
      as [[-> Hkids]|(Hne & Htp & Hpar & Hs & Hst & Hkids)].
    + rewrite Nat.eqb_refl. now apply exit_done.
    + destruct (Nat.eqb_spec s t) as [|_]; [contradiction|].
      pose proof (step_inv _ _ _ _ (proj1 I) Htp Hpar Hs Hst Hkids) as I'.
      pose proof (h_m _ _ _ _ _ _ (proj1 I)) as Hm.
      assert (Hfuel' : (Z.to_nat (n - tp) <= fuel)%nat) by zlia.
      destruct (IH tp _ I' Hfuel') as [D1 D2 D3 D4 D5 D6 D7].
      split; try assumption.
      * intros x. now rewrite D6, place_data.
Qed.

(** One round of the first loop. *)
Lemma step_up pos d a :
  heap_hole n m t M pos d -> 0 < pos -> idx (_t d) ((pos - 1) / 2) = Some a ->
  heap_hole n m t M ((pos - 1) / 2) (place pos a d).
Proof.
  intros I Hpos0 Ha. pose proof (h_pos _ _ _ _ _ _ I) as Hpos.
  assert (Hq : 0 <= (pos - 1) / 2 < m) by zlia.
  assert (Hqp : (pos - 1) / 2 <> pos) by zlia.
  assert (Hidx : forall i, 0 <= i -> idx (_t (place pos a d)) i
                   = if decide (i = pos) then Some a else idx (_t d) i).
  { intros i Hi. apply place_idx; [exact (h_slot _ _ _ _ _ _ I) | exact Hi]. }
  apply move_hole; [exact I | exact Hq | exact Hqp | exact Ha | |].
  - intros i p c Hi Hiq Hpq. rewrite !Hidx by zlia.
    destruct (decide ((i - 1) / 2 = pos)) as [Hp|Hp], (decide (i = pos)) as [Hc|Hc].
    + zlia.
    + intros [= <-] Hci.
      apply (h_bridge _ _ _ _ _ _ I a i c); [lia | exact Ha | lia | exact Hp | exact Hci].
    + subst i. contradiction.
    + now apply (h_order _ _ _ _ _ _ I).
  - intros g i c Hq0 Hg Hi Hp Hc. rewrite Hidx in Hg by zlia.
    rewrite decide_False in Hg by zlia. rewrite Hidx in Hc by lia.
    assert (Hga : expires_by d g a).
    { apply (h_order _ _ _ _ _ _ I ((pos - 1) / 2) g a);
        [lia | exact Hqp | zlia | exact Hg | exact Ha]. }
    destruct (decide (i = pos)) as [->|Hi'].
    + now injection Hc as <-.
    + apply timercmp_trans with (expiry_of d a); [exact Hga|].
      apply (h_order _ _ _ _ _ _ I i a c Hi Hi'); [now rewrite Hp | now rewrite Hp | exact Hc].
Qed.

(** The first loop started on a cell [pos] with [pos] rounds to spend. *)
Lemma sift_up_spec : forall fuel pos d,
  heap_hole n m t M pos d -> (Z.to_nat pos <= fuel)%nat ->
  sift_inv n m t M (fst (sift_up fuel pos t d)) (snd (sift_up fuel pos t d)) /\
  (forall x, timer_data (snd (sift_up fuel pos t d)) x = timer_data d x) /\
  beside_heap (snd (sift_up fuel pos t d)) = beside_heap d.
Proof.
  induction fuel as [|fuel IH]; intros pos d I Hfuel; cbn [sift_up].
  - pose proof (h_pos _ _ _ _ _ _ I). cbn [fst snd].
    split; [|split; reflexivity]. split; [exact I|]. intros p Hp. lia.
  - destruct (Z.ltb_spec 0 pos) as [Hpos|Hpos]; cbn [fst snd].
    2:{ split; [|split; reflexivity]. split; [exact I|]. intros p Hp. lia. }
    pose proof (h_pos _ _ _ _ _ _ I) as Hp.
    rewrite Z.shiftr_div_pow2 by lia. change (2 ^ 1) with 2.
    destruct (h_cells _ _ _ _ _ _ I ((pos - 1) / 2) ltac:(zlia) ltac:(zlia)) as (a & Ha & Hv).
    destruct (timer_at_valid _ _ _ Ha Hv) as (T & -> & ->).
    destruct (timercmp_gt (expiry_of d a) (expiry_of d t)) eqn:G; cbn [fst snd].
    + destruct (IH ((pos - 1) / 2) (place pos a d) (step_up _ _ _ I Hpos Ha) ltac:(zlia))
        as (I' & Hdata & Hb).
      split; [exact I'|]. split.
      * intros x. now rewrite Hdata, place_data.
      * now rewrite Hb.
    + split; [|split; reflexivity]. split; [exact I|].
      intros p _ Hpa. rewrite Ha in Hpa. now injection Hpa as <-.
Qed.

(** [timer_reheapify_from(pos, t)] on a heap but for the cell [pos]. *)
Lemma reheapify_spec pos d :
  heap_hole n m t M pos d -> sift_done m M d (timer_reheapify_from pos t d).
Proof.
  intros I. unfold timer_reheapify_from.
  pose proof (h_pos _ _ _ _ _ _ I) as Hpos. pose proof (h_m _ _ _ _ _ _ I) as Hm.
  destruct (sift_up_spec (Z.to_nat pos) pos d I ltac:(lia)) as (I' & Hdata & Hb).
  destruct (sift_up (Z.to_nat pos) pos t d) as [pos' d'] eqn:Hup. cbn [fst snd] in *.
  pose proof (h_pos _ _ _ _ _ _ (proj1 I')) as Hpos'.
  rewrite (h_nt _ _ _ _ _ _ (proj1 I')).
  destruct (sift_down_spec (S (Z.to_nat n)) pos' d' I' ltac:(lia)) as [D1 D2 D3 D4 D5 D6 D7].
  split; try assumption.
  - intros x. now rewrite D6.
  - now rewrite D7.
Qed.

End Loop.

(** The root of a heap expires first. *)
Lemma root_min d :
  timer_heap d ->
  forall i r c, 0 <= i < _nt d -> idx (_t d) 0 = Some r -> idx (_t d) i = Some c ->
                expires_by d r c.
Proof.
  intros H.
  assert (Hk : forall k : nat, forall i r c, 0 <= i <= Z.of_nat k -> i < _nt d ->
                 idx (_t d) 0 = Some r -> idx (_t d) i = Some c -> expires_by d r c).
  { induction k as [|k IH]; intros i r c Hi Hn Hr Hc.
    - assert (i = 0) as -> by lia. rewrite Hr in Hc. injection Hc as <-. apply timercmp_refl.
    - destruct (Z.eq_dec i 0) as [->|Hi0].
      + rewrite Hr in Hc. injection Hc as <-. apply timercmp_refl.
      + assert (Hp0 : 0 <= (i - 1) / 2 < _nt d) by zlia.
        destruct (th_cells d H _ Hp0) as (p & Hp & _).
        apply timercmp_trans with (expiry_of d p).
        * apply (IH ((i - 1) / 2) r p); [zlia | zlia | exact Hr | exact Hp].
        * apply (th_order d H i p c); [lia | exact Hp | exact Hc]. }
  intros i r c Hi. apply (Hk (Z.to_nat i)); lia.
Qed.

(** The cells [1 .. n - 1] of an array, as a list. *)
Lemma tail_mem {A} (a : list A) n i x :
  1 <= i < n -> idx a i = Some x -> x ∈ drop 1 (take (Z.to_nat n) a).
Proof.
  intros Hi Hx. apply list_elem_of_lookup. exists (Z.to_nat (i - 1)).
  rewrite lookup_drop, lookup_take_lt by lia.
  unfold idx in Hx. destruct (Z.ltb_spec i 0); [lia|]. rewrite <- Hx. f_equal. lia.
Qed.

Lemma tail_mem_inv {A} (a : list A) n x :
  x ∈ drop 1 (take (Z.to_nat n) a) -> exists i, 1 <= i < n /\ idx a i = Some x.
Proof.
  intros [j Hj]%list_elem_of_lookup. rewrite lookup_drop in Hj.
  apply lookup_take_Some in Hj as [Hj Hlt]. exists (Z.of_nat (1 + j)).
  split; [lia|]. now rewrite idx_lookup.
Qed.

Lemma take_cell_inj {A} (a : list A) n :
  NoDup (take (Z.to_nat n) a) ->
  forall i j x, 0 <= i < n -> 0 <= j < n -> idx a i = Some x -> idx a j = Some x -> i = j.
Proof.
  intros Hnd i j x Hi Hj Hxi Hxj.
  assert (Z.to_nat i = Z.to_nat j); [|lia].
  apply (proj1 (NoDup_alt _) Hnd _ _ x); apply lookup_take_Some; (split; [|lia]).
  - unfold idx in Hxi. destruct (Z.ltb_spec i 0); [lia|]. exact Hxi.
  - unfold idx in Hxj. destruct (Z.ltb_spec j 0); [lia|]. exact Hxj.
Qed.

Lemma take_NoDup_of_inj {A} (a : list A) n :
  (forall i j x, 0 <= i < n -> 0 <= j < n -> idx a i = Some x -> idx a j = Some x -> i = j) ->
  NoDup (take (Z.to_nat n) a).
Proof.
  intros H. apply NoDup_alt.
  intros i j x [Hi Hil]%lookup_take_Some [Hj Hjl]%lookup_take_Some.
  apply Nat2Z.inj. apply (H _ _ x); [lia | lia | now rewrite idx_lookup | now rewrite idx_lookup].
Qed.

Lemma beside_nt d d' : beside_heap d' = beside_heap d -> _nt d' = _nt d.
Proof. unfold beside_heap. congruence. Qed.

(** The loop of [timer_reheapify_from(0, _t[_nt - 1], true)] on a heap. *)
Lemma reheapify_last d t :
  timer_heap d -> 0 < _nt d -> idx (_t d) (_nt d - 1) = Some t ->
  sift_done (_nt d - 1) (fun x => x ∈ drop 1 (take (Z.to_nat (_nt d)) (_t d)))
            d (timer_reheapify_from 0 t d).
Proof.
  intros H Hn Ht.
  destruct (Z.eq_dec (_nt d) 1) as [H1|H1].
  - change (timer_reheapify_from 0 t d) with (sift_down (S (Z.to_nat (_nt d))) 0 t d).
    rewrite sift_down_S. unfold sift_pick. cbv zeta. rewrite H1.
    change (2 * 0 + 1 <? 1) with false. change (2 * 0 + 1 + 1 <? 1) with false. cbv iota beta.
    rewrite Nat.eqb_refl.
    split; try (intros; lia).
    + intros x. apply place_data.
    + reflexivity.
  - apply (reheapify_spec (_nt d)). split.
    + reflexivity.
    + lia.
    + lia.
    + destruct (th_cells d H 0 ltac:(lia)) as (x & Hx & _). now rewrite Hx.
    + destruct (th_cells d H (_nt d - 1) ltac:(lia)) as (x & Hx & Hv).
      rewrite Ht in Hx. now injection Hx as <-.
    + intros i Hi. now replace i with (_nt d - 1) by lia.
    + intros i Hi _. apply (th_cells d H). lia.
    + intros i p c Hi _ _. apply (th_order d H). lia.
    + intros p i c Hp. lia.
    + apply tail_mem with (_nt d - 1); [lia | exact Ht].
    + intros i x Hi Hi0. apply tail_mem. lia.
    + intros i j x Hi Hj _ _. apply (take_cell_inj _ _ (th_distinct d H)); lia.
    + intros i Hi _ Hx.
      assert (i = _nt d - 1); [|lia].
      apply (take_cell_inj _ _ (th_distinct d H) _ _ t); [lia | lia | exact Hx | exact Ht].
    + intros i x T Hi _. apply (th_sched d H). lia.
Qed.

(** One [timer_reheapify_from(0, _t[_nt - 1], true); _nt--;] on a heap. *)
Lemma pop_timer_spec (d : driver) :
  timer_heap d -> 0 < _nt d ->
  timer_heap (pop_timer d) /\
  beside_heap (pop_timer d) = beside_heap (set_nt (_nt d - 1) d) /\
  take (Z.to_nat (_nt d - 1)) (_t (pop_timer d))
    ≡ₚ drop 1 (take (Z.to_nat (_nt d)) (_t d)) /\
  (forall x, timer_data (pop_timer d) x = timer_data d x).
Proof.
  intros H Hn.
  assert (Hlast : 0 <= _nt d - 1 < _nt d) by lia.
  destruct (th_cells d H _ Hlast) as (t & Ht & Hvt).
  pose proof (reheapify_last d t H Hn Ht) as D.
  unfold pop_timer. rewrite Ht.
  set (d1 := timer_reheapify_from 0 t d) in *.
  pose proof (beside_nt _ _ (d_beside _ _ _ _ D)) as Hnt. rewrite Hnt.
  assert (Hexp : forall x, timer_data (set_nt (_nt d - 1) d1) x = timer_data d x).
  { intros x. rewrite <- (d_data _ _ _ _ D). reflexivity. }
  assert (Hnd : NoDup (take (Z.to_nat (_nt d - 1)) (_t d1))).
  { apply take_NoDup_of_inj. exact (d_distinct _ _ _ _ D). }
  split; [|split; [|split]].
  - split; cbn [_nt _t timers set_nt].
    + exact (d_cells _ _ _ _ D).
    + intros i p c Hi Hp Hc. exact (d_order _ _ _ _ D i p c Hi Hp Hc).
    + exact Hnd.
    + exact (d_sched _ _ _ _ D).
  - pose proof (d_beside _ _ _ _ D) as Hb. unfold beside_heap in *.
    cbn [_nt _tcap _tfree _fd _fdcap _nfds _readfds _writefds _asap _nasap _asapcap now set_nt].
    congruence.
  - cbn [_t set_nt]. apply submseteq_length_Permutation.
    + apply NoDup_submseteq; [exact Hnd|].
      intros x [i Hi]%list_elem_of_lookup. apply lookup_take_Some in Hi as [Hi Hlt].
      apply (d_mem _ _ _ _ D (Z.of_nat i)); [lia | now rewrite idx_lookup].
    + rewrite length_drop, !length_take.
      destruct (Z.eq_dec (_nt d) 1) as [H1|H1]; [rewrite H1; cbn; lia|].
      assert (Hc : 0 <= _nt d - 2 < _nt d - 1) by lia.
      destruct (d_cells _ _ _ _ D _ Hc) as (x & Hx%idx_lt & _).
      apply idx_lt in Ht. lia.
  - exact Hexp.
Qed.

(** X12.  One [timer_reheapify_from(0, _t[_nt - 1], true); _nt--;] on a
    non-empty timer heap leaves a timer heap: the timers that were in the
    cells [1 .. _nt - 1] are all still there, each once, no timer expires
    before its parent, and each records the cell it is now in.  Only the
    array, the back indices and [_nt] change; no timer's expiry or event
    does.  The new root expires no earlier than the one removed. *)
Theorem pop_timer_keeps_heap (d : driver) :
  timer_heap d -> 0 < _nt d ->
  timer_heap (pop_timer d) /\
  beside_heap (pop_timer d) = beside_heap (set_nt (_nt d - 1) d) /\
  take (Z.to_nat (_nt d - 1)) (_t (pop_timer d))
    ≡ₚ drop 1 (take (Z.to_nat (_nt d)) (_t d)) /\
  (forall x, timer_data (pop_timer d) x = timer_data d x) /\
  (forall r r', idx (_t d) 0 = Some r -> idx (_t (pop_timer d)) 0 = Some r' ->
                1 < _nt d -> expires_by d r r').
Proof.
  intros H Hn. destruct (pop_timer_spec d H Hn) as (H1 & Hb & Hperm & Hdata).
  split; [exact H1|]. split; [exact Hb|]. split; [exact Hperm|]. split; [exact Hdata|].
  intros r r' Hr Hr' Hn1.
  assert (Hm : r' ∈ take (Z.to_nat (_nt d - 1)) (_t (pop_timer d))).
  { apply list_elem_of_lookup. exists 0%nat. apply lookup_take_Some.
    split; [exact Hr' | lia]. }
  rewrite Hperm in Hm. apply tail_mem_inv in Hm as (j & Hj & Hxj).
  apply (root_min d H j); [lia | exact Hr | exact Hxj].
Qed.

Lemma driver_heap_is_heap : timer_heap Example.driver_heap.
Proof.
  split.
  - intros i Hi. cbn in Hi.
    assert (i = 0 \/ i = 1 \/ i = 2 \/ i = 3) as [->|[->|[->| ->]]] by lia;
      eexists; (split; [reflexivity | eexists; reflexivity]).
  - intros i p c Hi. cbn in Hi.
    assert (i = 1 \/ i = 2 \/ i = 3) as [->|[->| ->]] by lia;
      intros [= <-] [= <-]; reflexivity.
  - apply NoDup_ListNoDup. vm_compute. repeat constructor; cbn; intuition discriminate.
  - intros i x T Hi. cbn in Hi.
    assert (i = 0 \/ i = 1 \/ i = 2 \/ i = 3) as [->|[->|[->| ->]]] by lia;
      intros [= <-] [= <-]; reflexivity.
Qed.

Lemma pop_timer_keeps_heap_witness :
  timer_heap Example.driver_heap /\
  _t (pop_timer Example.driver_heap) = [41; 43; 42; 43]%nat /\
  timer_heap (pop_timer Example.driver_heap).
Proof.
  split; [exact driver_heap_is_heap|]. split; [vm_compute; reflexivity|].
  exact (proj1 (pop_timer_keeps_heap _ driver_heap_is_heap ltac:(reflexivity))).
Defined.

Lemma heap_hole_among n m t (M M' : addr -> Prop) pos d :
  heap_hole n m t M pos d -> M' t ->
  (forall i x, 0 <= i < m -> i <> pos -> idx (_t d) i = Some x -> M' x) ->
  heap_hole n m t M' pos d.
Proof. intros [] Ht Hm. split; assumption. Qed.

Lemma delete_mem {A} (a : list A) n pos i x :
  0 <= i < n -> 0 <= pos -> i <> pos -> idx a i = Some x ->
  x ∈ delete (Z.to_nat pos) (take (Z.to_nat n) a).
Proof.
  intros Hi Hpos Hne Hx. apply list_elem_of_lookup.
  assert (Hl : take (Z.to_nat n) a !! Z.to_nat i = Some x).
  { apply lookup_take_Some. split; [|lia].
    unfold idx in Hx. destruct (Z.ltb_spec i 0); [lia | exact Hx]. }
  destruct (Z.lt_ge_cases i pos) as [Hlt|Hge].
  - exists (Z.to_nat i). rewrite list_lookup_delete_lt by lia. exact Hl.
  - exists (Z.to_nat (i - 1)). rewrite list_lookup_delete_ge by lia.
    now replace (S (Z.to_nat (i - 1))) with (Z.to_nat i) by lia.
Qed.

(** X17.  [timer_reheapify_from(pos, t, _)] puts [t] in its place: when the
    first [_nt] cells of [_t] are a timer heap but for the cell [pos] (the
    other cells hold distinct timers other than [t], each recording its
    cell; no timer expires before its parent, where neither is in cell
    [pos]; and the parent of [pos] expires no later than its children),
    then afterwards the [_nt] cells are a timer heap that holds [t] and the
    timers of the other cells.  The first loop ends within [pos] rounds and
    the second within [_nt + 1]; no timer's expiry or event changes, and
    nothing else in the driver. *)
Theorem reheapify_restores_heap (d : driver) (pos : Z) (t : addr) :
  heap_except pos t d ->
  let d' := timer_reheapify_from pos t d in
  timer_heap d' /\
  take (Z.to_nat (_nt d)) (_t d')
    ≡ₚ t :: delete (Z.to_nat pos) (take (Z.to_nat (_nt d)) (_t d)) /\
  (forall x, timer_data d' x = timer_data d x) /\
  beside_heap d' = beside_heap d.
Proof.
  intros I d'. unfold heap_except in I.
  pose proof (h_pos _ _ _ _ _ _ I) as Hpos.
  set (M := fun x => x ∈ t :: delete (Z.to_nat pos) (take (Z.to_nat (_nt d)) (_t d))).
  assert (I' : heap_hole (_nt d) (_nt d) t M pos d).
  { apply (heap_hole_among _ _ _ _ M _ _ I).
    - apply elem_of_cons. now left.
    - intros i x Hi Hne Hx. apply elem_of_cons. right.
      apply delete_mem with i; [exact Hi | lia | exact Hne | exact Hx]. }
  destruct (reheapify_spec _ _ _ _ _ _ I') as [D1 D2 D3 D4 D5 D6 D7].
  fold d' in D1, D2, D3, D4, D5, D6, D7.
  pose proof (beside_nt _ _ D7) as Hnt.
  assert (Hnd : NoDup (take (Z.to_nat (_nt d)) (_t d'))).
  { apply take_NoDup_of_inj. exact D4. }
  split; [|split; [|split]].
  - split; rewrite ?Hnt; assumption.
  - apply submseteq_length_Permutation.
    + apply NoDup_submseteq; [exact Hnd|].
      intros x [i Hi]%list_elem_of_lookup. apply lookup_take_Some in Hi as [Hi Hlt].
      apply (D3 (Z.of_nat i)); [lia | now rewrite idx_lookup].
    + destruct (h_slot _ _ _ _ _ _ I) as [y Hy%idx_lt].
      assert (Hc : 0 <= _nt d - 1 < _nt d) by lia.
      destruct (D1 _ Hc) as (x & Hx%idx_lt & _).
      cbn [length]. rewrite length_delete
        by (apply lookup_lt_is_Some; rewrite length_take; lia).
      rewrite !length_take. lia.
  - exact D6.
  - exact D7.
Qed.

Lemma driver_insert_hole : heap_except 4 44%nat Example.driver_insert.
Proof.
  unfold heap_except. change (_nt Example.driver_insert) with 5.
  split.
  - reflexivity.
  - lia.
  - lia.
  - eexists. reflexivity.
  - eexists. reflexivity.
  - intros i Hi. lia.
  - intros i Hi Hne.
    assert (i = 0 \/ i = 1 \/ i = 2 \/ i = 3) as [->|[->|[->| ->]]] by lia;
      eexists; (split; [reflexivity | eexists; reflexivity]).
  - intros i p c Hi Hne Hp.
    assert (i = 1 \/ i = 2 \/ i = 3) as [->|[->| ->]] by lia;
      intros [= <-] [= <-]; reflexivity.
  - intros p i c _ _ Hi Hp. zlia.
  - exact I.
  - intros. exact I.
  - intros i j x Hi Hj Hi4 Hj4. apply (take_cell_inj _ 4); [|lia|lia].
    apply NoDup_ListNoDup. vm_compute. repeat constructor; cbn; intuition discriminate.
  - intros i Hi Hne.
    assert (i = 0 \/ i = 1 \/ i = 2 \/ i = 3) as [->|[->|[->| ->]]] by lia; discriminate.
  - intros i x T Hi Hne.
    assert (i = 0 \/ i = 1 \/ i = 2 \/ i = 3) as [->|[->|[->| ->]]] by lia;
      intros [= <-] [= <-]; reflexivity.
Qed.

Lemma reheapify_restores_heap_witness :
  heap_except 4 44%nat Example.driver_insert /\
  _t (timer_reheapify_from 4 44%nat Example.driver_insert) = [44; 40; 42; 43; 41]%nat /\
  timer_heap (timer_reheapify_from 4 44%nat Example.driver_insert).
Proof.
  split; [exact driver_insert_hole|]. split; [vm_compute; reflexivity|].
  exact (proj1 (reheapify_restores_heap _ _ _ driver_insert_hole)).
Defined.

End Heap.
(** ** The two timer loops of driver::once *)

Module Timers.
Import XBase TameEvent TameDriver Frame Phases Heap.

Lemma timercmp_gt_le a b c :
  timercmp_gt a c = true -> timercmp_gt a b = false -> timercmp_gt b c = true.
Proof.
  unfold timercmp_gt.
  destruct (Z.eqb_spec (tv_sec a) (tv_sec c)), (Z.eqb_spec (tv_sec a) (tv_sec b)),
    (Z.eqb_spec (tv_sec b) (tv_sec c)); try congruence;
    intros H1%Z.ltb_lt H2%Z.ltb_ge; apply Z.ltb_lt; lia.
Qed.

Lemma beside_now d d' : beside_heap d' = beside_heap d -> now d' = now d.
Proof. unfold beside_heap. congruence. Qed.

Lemma free_timer_drv t T w :
  drv (free_timer t T w) =
    set_tfree (Some t)
      (set_timers (alter (set_u (u_next (_tfree (drv w)))) t (timers (drv w))) (drv w)).
Proof.
  unfold free_timer, upd_drv. cbv zeta. cbn [drv set_drv]. now rewrite drv_event_destroy.
Qed.

Lemma timer_at_cell d i t T :
  timer_at d i = Some (t, T) ->
  idx (_t d) i = Some t /\ timers d !! t = Some T.
Proof.
  unfold timer_at. destruct (idx (_t d) i) as [a|]; [|discriminate].
  destruct (timers d !! a) as [T'|] eqn:HT; [|discriminate]. now intros [= <- <-].
Qed.

Lemma take_head {A} (a : list A) n x :
  0 < n -> idx a 0 = Some x -> take (Z.to_nat n) a = x :: drop 1 (take (Z.to_nat n) a).
Proof.
  intros Hn Hx. destruct (Z.to_nat n) as [|k] eqn:Hk; [lia|].
  destruct a as [|y a]; [discriminate|]. cbn in Hx. injection Hx as ->.
  cbn. now rewrite drop_0.
Qed.

Lemma take_mem {A} (a : list A) n x :
  x ∈ take (Z.to_nat n) a -> exists i, 0 <= i < n /\ idx a i = Some x.
Proof.
  intros [j Hj]%list_elem_of_lookup. apply lookup_take_Some in Hj as [Hj Hlt].
  exists (Z.of_nat j). split; [lia|]. now rewrite idx_lookup.
Qed.

(** A timer is taken off the heap and put on the free list. *)
Lemma retire_spec d t T o v :
  timer_heap d -> 0 < _nt d -> timer_at d 0 = Some (t, T) ->
  let d2 := set_tfree o (set_timers (alter (set_u v) t (timers (pop_timer d))) (pop_timer d)) in
  timer_heap d2 /\ _nt d2 = _nt d - 1 /\ now d2 = now d /\
  t :: take (Z.to_nat (_nt d2)) (_t d2) ≡ₚ take (Z.to_nat (_nt d)) (_t d) /\
  (forall x, timer_data d2 x = timer_data d x) /\
  (forall x, x ∈ take (Z.to_nat (_nt d)) (_t d) -> expires_by d t x).
Proof.
  intros H Hn Hat d2. apply timer_at_cell in Hat as [Ht HT].
  destruct (pop_timer_spec d H Hn) as (H1 & Hb & Hperm & Hdata).
  set (d1 := pop_timer d) in *.
  assert (Hnt : _nt d1 = _nt d - 1) by (apply beside_nt in Hb; exact Hb).
  assert (Hnow : now d1 = now d) by exact (beside_now _ _ Hb).
  assert (Hhead := take_head (_t d) (_nt d) t Hn Ht).
  assert (Hnd := th_distinct d H). rewrite Hhead in Hnd. apply NoDup_cons in Hnd as [Hnotin _].
  assert (Hout : forall i, 0 <= i < _nt d1 -> idx (_t d1) i <> Some t).
  { intros i Hi Hx. apply Hnotin. rewrite <- Hperm.
    apply list_elem_of_lookup. exists (Z.to_nat i). apply lookup_take_Some.
    split; [|lia]. unfold idx in Hx. destruct (Z.ltb_spec i 0); [lia|]. exact Hx. }
  assert (Hd2 : forall x, timer_data d2 x = timer_data d1 x).
  { intros x. unfold timer_data, d2. cbn [timers set_tfree set_timers].
    destruct (decide (x = t)) as [->|Hne].
    - rewrite lookup_alter_eq. now destruct (timers d1 !! t).
    - now rewrite lookup_alter_ne. }
  assert (Hexp : forall x, expiry_of d2 x = expiry_of d1 x).
  { intros x. apply data_expiry, Hd2. }
  split; [|split; [|split; [|split; [|split]]]].
  - split; unfold d2; cbn [_t _nt timers set_tfree set_timers].
    + intros i Hi. destruct (th_cells d1 H1 i Hi) as (x & Hx & Hv).
      exists x. split; [exact Hx|].
      destruct (decide (x = t)) as [->|Hne].
      * rewrite lookup_alter_eq. now apply fmap_is_Some.
      * now rewrite lookup_alter_ne.
    + intros i p c Hi Hp Hc. fold d2. unfold expires_by. rewrite !Hexp.
      exact (th_order d1 H1 i p c Hi Hp Hc).
    + exact (th_distinct d1 H1).
    + intros i x Tx Hi Hx. rewrite lookup_alter_ne.
      * now apply (th_sched d1 H1).
      * intros <-. now apply (Hout i).
  - exact Hnt.
  - exact Hnow.
  - unfold d2. cbn [_t _nt set_tfree set_timers]. rewrite Hnt, Hperm. now rewrite <- Hhead.
  - intros x. now rewrite Hd2, Hdata.
  - intros x (i & Hi & Hx)%take_mem. now apply (root_min d H i).
Qed.

(** Dropping the last reference to an empty event changes no event's
    state. *)
Lemma event_bool_destroy_empty a w :
  event_bool a w = false -> forall e, event_bool e (event_destroy a w) = event_bool e w.
Proof.
  unfold event_bool, to_bool, event_destroy. intros Ha%negb_false_iff e. f_equal.
  revert Ha. unfold unuse, empty.
  destruct (events w !! a) as [ev|] eqn:Hev; [|reflexivity].
  destruct (_r ev) eqn:Hr; [discriminate|]. intros _. cbv zeta.
  destruct (Z.eqb _ 0).
  - unfold upd_event. cbn [events set_events].
    destruct (decide (e = a)) as [->|Hne].
    + now rewrite lookup_delete_eq, Hev, Hr.
    + now rewrite lookup_delete_ne, lookup_alter_ne by congruence.
  - unfold upd_event. cbn [events set_events].
    destruct (decide (e = a)) as [->|Hne].
    + now rewrite lookup_alter_eq, Hev; cbn; rewrite Hr.
    + now rewrite lookup_alter_ne by congruence.
Qed.

Lemma trigger_of_at d t T : timers d !! t = Some T -> trigger_of d t = trigger T.
Proof. unfold trigger_of. now intros ->. Qed.

Lemma expiry_of_at d t T : timers d !! t = Some T -> expiry_of d t = expiry T.
Proof. unfold expiry_of. now intros ->. Qed.

Lemma root_at d : timer_heap d -> 0 < _nt d -> exists t T, timer_at d 0 = Some (t, T).
Proof.
  intros H Hn. destruct (th_cells d H 0 ltac:(lia)) as (t & Ht & [T HT]).
  exists t, T. unfold timer_at. now rewrite Ht, HT.
Qed.

Lemma take_nonpos {A} (a : list A) n : n <= 0 -> take (Z.to_nat n) a = [].
Proof. intros Hn. now replace (Z.to_nat n) with 0%nat by lia. Qed.

Ltac loop_over H :=
  split; [exact H|]; split; [intros ?; reflexivity|]; split; [intros ?; reflexivity|];
  split; [reflexivity|]; split; [exists []; split; [reflexivity | constructor]|].

(** The loop that gets rid of the cancelled timers at the root. *)
Lemma drop_cancelled_spec : forall fuel w,
  timer_heap (drv w) -> _nt (drv w) <= Z.of_nat fuel ->
  let w' := drop_cancelled_timers fuel w in
  timer_heap (drv w') /\
  (forall e, event_bool e w' = event_bool e w) /\
  (forall x, timer_data (drv w') x = timer_data (drv w) x) /\
  now (drv w') = now (drv w) /\
  (exists l, l ++ take (Z.to_nat (_nt (drv w'))) (_t (drv w'))
               ≡ₚ take (Z.to_nat (_nt (drv w))) (_t (drv w)) /\
             Forall (fun t => event_bool (trigger_of (drv w) t) w = false) l) /\
  (0 < _nt (drv w') ->
   exists t, idx (_t (drv w')) 0 = Some t /\ event_bool (trigger_of (drv w) t) w = true).
Proof.
  induction fuel as [|fuel IH]; intros w H Hfuel; cbn [drop_cancelled_timers]; cbv zeta.
  - loop_over H. lia.
  - destruct (Z.ltb_spec 0 (_nt (drv w))) as [Hn|Hn].
    2:{ loop_over H. lia. }
    destruct (root_at _ H Hn) as (t & T & Hat). rewrite Hat.
    pose proof (timer_at_cell _ _ _ _ Hat) as [Ht HT].
    destruct (event_bool (trigger T) w) eqn:Hb; cbn [negb].
    { loop_over H. intros _. exists t. split; [exact Ht|].
      now rewrite (trigger_of_at _ _ _ HT). }
    set (w1 := upd_drv pop_timer w).
    set (w2 := free_timer t T w1).
    assert (Hdrv : drv w2 = set_tfree (Some t)
              (set_timers (alter (set_u (u_next (_tfree (pop_timer (drv w))))) t
                                 (timers (pop_timer (drv w)))) (pop_timer (drv w)))).
    { unfold w2. now rewrite free_timer_drv. }
    destruct (retire_spec (drv w) t T (Some t) (u_next (_tfree (pop_timer (drv w)))) H Hn Hat)
      as (H2 & Hnt & Hnow & Hperm & Hdata & _).
    rewrite <- Hdrv in H2, Hnt, Hnow, Hperm, Hdata.
    assert (Hev : forall e, event_bool e w2 = event_bool e w).
    { intros e. unfold w2, free_timer. cbv zeta.
      change (event_bool e (upd_drv ?f ?x)) with (event_bool e x).
      now rewrite event_bool_destroy_empty. }
    destruct (IH w2 H2 ltac:(lia)) as (H3 & Hev3 & Hdata3 & Hnow3 & (l & Hl & Hall) & Hroot).
    split; [exact H3|]. split; [|split; [|split; [|split]]].
    + intros e. now rewrite Hev3.
    + intros x. now rewrite Hdata3.
    + now rewrite Hnow3.
    + exists (t :: l). split.
      * cbn [app]. now rewrite Hl.
      * constructor.
        -- now rewrite (trigger_of_at _ _ _ HT).
        -- eapply Forall_impl; [exact Hall|]. cbn beta. intros x Hx.
           now rewrite <- (data_trigger _ _ _ (Hdata x)), <- Hev.
    + intros Hpos. destruct (Hroot Hpos) as (r & Hr & Hbr). exists r. split; [exact Hr|].
      now rewrite <- (data_trigger _ _ _ (Hdata r)), <- Hev.
Qed.

(** X13.  The first loop of [once()], on a timer heap: it removes timers
    from the root as long as the root's event is empty, and stops with the
    heap empty or with a root whose event is armed.  What is left is a timer
    heap; the timers removed and the timers left are together the timers
    there were, and every timer removed had an empty event.  No event
    changes between armed and empty, and no timer's expiry or event
    changes. *)
Theorem cancelled_timers_dropped (w : world) :
  timer_heap (drv w) ->
  let w' := drop_cancelled_timers (Z.to_nat (_nt (drv w))) w in
  timer_heap (drv w') /\
  (forall e, event_bool e w' = event_bool e w) /\
  (forall x, timer_data (drv w') x = timer_data (drv w) x) /\
  now (drv w') = now (drv w) /\
  (exists l, l ++ take (Z.to_nat (_nt (drv w'))) (_t (drv w'))
               ≡ₚ take (Z.to_nat (_nt (drv w))) (_t (drv w)) /\
             Forall (fun t => event_bool (trigger_of (drv w) t) w = false) l) /\
  (0 < _nt (drv w') ->
   exists t, idx (_t (drv w')) 0 = Some t /\ event_bool (trigger_of (drv w) t) w = true).
Proof. intros H. apply drop_cancelled_spec; [exact H | lia]. Qed.

Lemma cancelled_timers_dropped_witness :
  let w := simple_trigger 22 true Example.world_heap in
  let w' := drop_cancelled_timers (Z.to_nat (_nt (drv w))) w in
  timer_heap (drv w) /\ _nt (drv w') = 3 /\ idx (_t (drv w')) 0 = Some 41%nat /\
  timer_heap (drv w').
Proof.
  intros w w'.
  assert (H : timer_heap (drv w)).
  { assert (drv w = Example.driver_heap) as -> by (vm_compute; reflexivity).
    exact driver_heap_is_heap. }
  split; [exact H|]. split; [vm_compute; reflexivity|]. split; [vm_compute; reflexivity|].
  exact (proj1 (cancelled_timers_dropped w H)).
Defined.

Lemma sorted_impl {A} (R R' : A -> A -> Prop) l :
  (forall x y, R x y -> R' x y) -> StronglySorted R l -> StronglySorted R' l.
Proof.
  intros HR Hs. induction Hs as [|x l Hs IH Hall]; constructor; [exact IH|].
  eapply Forall_impl; [exact Hall|]. intros y. apply HR.
Qed.

(** The loop that runs the timers that are due. *)
Lemma run_timers_heap : forall fuel w w' tr,
  timer_heap (drv w) -> _nt (drv w) <= Z.of_nat fuel ->
  run_timers fuel w = (w', tr) ->
  timer_heap (drv w') /\
  (forall x, timer_data (drv w') x = timer_data (drv w) x) /\
  now (drv w') = now (drv w) /\
  exists l,
    l ++ take (Z.to_nat (_nt (drv w'))) (_t (drv w'))
      ≡ₚ take (Z.to_nat (_nt (drv w))) (_t (drv w)) /\
    tr = map (fun t => act_trigger ph_timer (trigger_of (drv w) t)) l /\
    StronglySorted (expires_by (drv w)) l /\
    Forall (fun t => timercmp_gt (expiry_of (drv w) t) (now (drv w)) = false) l /\
    Forall (fun t => timercmp_gt (expiry_of (drv w) t) (now (drv w)) = true)
           (take (Z.to_nat (_nt (drv w'))) (_t (drv w'))).
Proof.
  induction fuel as [|fuel IH]; intros w w' tr H Hfuel Hrun; cbn [run_timers] in Hrun.
  - injection Hrun as <- <-. split; [exact H|]. split; [reflexivity|]. split; [reflexivity|].
    exists []. rewrite take_nonpos by lia. repeat split; constructor.
  - destruct (Z.ltb_spec 0 (_nt (drv w))) as [Hn|Hn].
    2:{ injection Hrun as <- <-. split; [exact H|]. split; [reflexivity|].
        split; [reflexivity|].
        exists []. rewrite take_nonpos by lia. repeat split; constructor. }
    destruct (root_at _ H Hn) as (t & T & Hat). rewrite Hat in Hrun.
    pose proof (timer_at_cell _ _ _ _ Hat) as [Ht HT].
    destruct (timercmp_gt (expiry T) (now (drv w))) eqn:Hdue; cbn [negb] in Hrun.
    { injection Hrun as <- <-. split; [exact H|]. split; [reflexivity|].
      split; [reflexivity|].
      exists []. split; [reflexivity|]. split; [reflexivity|]. split; [constructor|].
      split; [constructor|]. apply Forall_forall.
      intros x (i & Hi & Hx)%take_mem.
      apply timercmp_gt_le with (expiry_of (drv w) t).
      - now rewrite (expiry_of_at _ _ _ HT).
      - now apply (root_min _ H i). }
    cbv zeta in Hrun.
    set (w1 := upd_drv pop_timer w) in *.
    set (w2 := trigger0 (trigger T) w1) in *.
    set (w3 := free_timer t T w2) in *.
    destruct (run_timers fuel w3) as [w4 tr4] eqn:Hrec. injection Hrun as <- <-.
    assert (Hdrv : drv w3 = set_tfree (Some t)
              (set_timers (alter (set_u (u_next (_tfree (pop_timer (drv w))))) t
                                 (timers (pop_timer (drv w)))) (pop_timer (drv w)))).
    { unfold w3. rewrite free_timer_drv. unfold w2. now rewrite drv_trigger0. }
    destruct (retire_spec (drv w) t T (Some t) (u_next (_tfree (pop_timer (drv w)))) H Hn Hat)
      as (H2 & Hnt & Hnow & Hperm & Hdata & Hmin).
    rewrite <- Hdrv in H2, Hnt, Hnow, Hperm, Hdata.
    destruct (IH w3 w4 tr4 H2 ltac:(lia) Hrec)
      as (H4 & Hdata4 & Hnow4 & l & Hl & Htr & Hsorted & Hfired & Hleft).
    assert (Hexp : forall x, expiry_of (drv w3) x = expiry_of (drv w) x).
    { intros x. apply data_expiry, Hdata. }
    split; [exact H4|]. split; [|split].
    + intros x. now rewrite Hdata4.
    + now rewrite Hnow4.
    + exists (t :: l). split; [|split; [|split; [|split]]].
      * cbn [app]. now rewrite Hl.
      * cbn [map]. rewrite (trigger_of_at _ _ _ HT). f_equal. rewrite Htr.
        apply map_ext. intros x. now rewrite (data_trigger _ _ _ (Hdata x)).
      * constructor.
        -- eapply sorted_impl; [|exact Hsorted].
           intros x y. unfold expires_by. now rewrite !Hexp.
        -- apply Forall_forall. intros x Hx. apply Hmin. rewrite <- Hperm.
           apply elem_of_cons. right. rewrite <- Hl. apply elem_of_app. now left.
      * constructor.
        -- now rewrite (expiry_of_at _ _ _ HT).
        -- eapply Forall_impl; [exact Hfired|]. cbn beta. intros x. now rewrite Hexp, Hnow.
      * eapply Forall_impl; [exact Hleft|]. cbn beta. intros x. now rewrite Hexp, Hnow.
Qed.

(** An event the loop triggered is empty when the loop ends. *)
Lemma run_timers_empties : forall fuel w w' tr e,
  run_timers fuel w = (w', tr) -> act_trigger ph_timer e ∈ tr -> empty e w' = true.
Proof.
  induction fuel as [|fuel IH]; intros w w' tr e Hrun Hin; cbn [run_timers] in Hrun.
  - injection Hrun as <- <-. now apply elem_of_nil in Hin.
  - destruct (Z.ltb 0 (_nt (drv w)));
      [|injection Hrun as <- <-; now apply elem_of_nil in Hin].
    destruct (timer_at (drv w) 0) as [[t T]|];
      [|injection Hrun as <- <-; now apply elem_of_nil in Hin].
    destruct (negb _); [|injection Hrun as <- <-; now apply elem_of_nil in Hin].
    cbv zeta in Hrun.
    set (w2 := trigger0 (trigger T) (upd_drv pop_timer w)) in *.
    destruct (run_timers fuel (free_timer t T w2)) as [w4 tr4] eqn:Hrec.
    injection Hrun as <- <-.
    apply elem_of_cons in Hin as [Heq|Hin]; [|eapply IH; eassumption].
    injection Heq as ->.
    assert (He2 : empty (trigger T) w2 = true) by apply simple_trigger_empties.
    apply run_timers_spec in Hrec as [Hq _].
    eapply evolves_empty_stays; [apply (quiet_evolves _ _ _ Hq)|].
    eapply evolves_empty_stays; [apply evolves_free_timer | exact He2].
Qed.

(** X14.  The loop of [once()] that runs the timers that worked, on a timer
    heap: it triggers the events of the timers that are due
    ([expiry <= now]) and of no others, one trigger per timer, in order of
    expiry, the earliest first.  Every event it triggers is empty when the
    loop ends, and if it was armed it has completed exactly once, with its
    values; no event is cancelled and none completes twice.  The timers
    fired and the timers left are together the timers there were; those
    left are a timer heap again and none of them is due.  [now] and the
    timers' expiries and events are unchanged. *)
Theorem due_timers_fire_in_order (w w' : world) (tr : list action) :
  timer_heap (drv w) ->
  run_timers (Z.to_nat (_nt (drv w))) w = (w', tr) ->
  timer_heap (drv w') /\
  (forall x, timer_data (drv w') x = timer_data (drv w) x) /\
  now (drv w') = now (drv w) /\
  (exists l,
    l ++ take (Z.to_nat (_nt (drv w'))) (_t (drv w'))
      ≡ₚ take (Z.to_nat (_nt (drv w))) (_t (drv w)) /\
    tr = map (fun t => act_trigger ph_timer (trigger_of (drv w) t)) l /\
    StronglySorted (expires_by (drv w)) l /\
    Forall (fun t => timercmp_gt (expiry_of (drv w) t) (now (drv w)) = false) l /\
    Forall (fun t => timercmp_gt (expiry_of (drv w) t) (now (drv w)) = true)
           (take (Z.to_nat (_nt (drv w'))) (_t (drv w'))) /\
    Forall (fun t => triggered (trigger_of (drv w) t) w w') l) /\
  (forall e, evolves e w w') /\
  none_cancelled w w'.
Proof.
  intros H Hrun.
  destruct (run_timers_heap (Z.to_nat (_nt (drv w))) w w' tr H ltac:(lia) Hrun)
    as (H1 & Hdata & Hnow & l & Hperm & Htr & Hsorted & Hdue & Hleft).
  pose proof (run_timers_spec _ _ _ _ Hrun) as [Hq _].
  split; [exact H1|]. split; [exact Hdata|]. split; [exact Hnow|].
  split; [|split; [apply Hq | apply (quiet_none_cancelled _ _ Hq)]].
  exists l. split; [exact Hperm|]. split; [exact Htr|]. split; [exact Hsorted|].
  split; [exact Hdue|]. split; [exact Hleft|].
  apply Forall_forall. intros t Ht. split; [|split].
  - eapply run_timers_empties; [exact Hrun|]. rewrite Htr.
    apply list_elem_of_In.
    apply (in_map (fun t => act_trigger ph_timer (trigger_of (drv w) t))).
    now apply list_elem_of_In.
  - apply (quiet_evolves _ _ _ Hq).
  - apply (quiet_none_cancelled _ _ Hq).
Qed.

Lemma due_timers_fire_in_order_witness :
  let w := Example.world_heap in
  let r := run_timers (Z.to_nat (_nt (drv w))) w in
  timer_heap (drv w) /\
  snd r = [act_trigger ph_timer 22%nat; act_trigger ph_timer 21%nat] /\
  _nt (drv (fst r)) = 2 /\
  timer_heap (drv (fst r)) /\
  none_cancelled w (fst r) /\
  completions 22%nat (fst r) = S (completions 22%nat w).
Proof.
  intros w r.
  assert (H : timer_heap (drv w)) by exact driver_heap_is_heap.
  split; [exact H|]. split; [vm_compute; reflexivity|]. split; [vm_compute; reflexivity|].
  destruct (due_timers_fire_in_order w (fst r) (snd r) H (surjective_pairing r))
    as (Hheap & _ & _ & _ & _ & Hnc).
  split; [exact Hheap|]. split; [exact Hnc|]. vm_compute. reflexivity.
Defined.

End Timers.
(** ** The descriptor loop of driver::once *)

Module ReadyFds.
Import XBase TameEvent TameDriver Frame Phases.

Lemma ready_events_table d d' rfds wfds fd :
  _fd d' = _fd d -> ready_events d' rfds wfds fd = ready_events d rfds wfds fd.
Proof. unfold ready_events. now intros ->. Qed.

Lemma fire_fd_drv write fd w w' tr :
  fire_fd write fd w = (w', tr) ->
  drv w' = set_fset write (FD_CLR fd (fset write (drv w))) (drv w) /\
  tr = map (act_trigger ph_fd)
           (option_list (idx (_fd (drv w)) (fd * 2 + (if write then 1 else 0)))).
Proof.
  unfold fire_fd. cbv zeta.
  assert (Hfd : _fd (drv (upd_drv (fun d => set_fset write (FD_CLR fd (fset write d)) d) w))
                = _fd (drv w)) by (destruct write; reflexivity).
  rewrite Hfd. destruct (idx _ _) as [e|]; intros [= <- <-].
  - rewrite drv_trigger0. split; reflexivity.
  - split; reflexivity.
Qed.

Lemma clear_bit s fd b :
  FD_ISSET b (FD_CLR fd s) = FD_ISSET b s && negb (Z.eqb fd b).
Proof.
  unfold FD_ISSET, FD_CLR. destruct (Z.eqb_spec fd b) as [->|Hne].
  - now rewrite Z.clearbit_eq, andb_false_r.
  - now rewrite Z.clearbit_neq, andb_true_r.
Qed.

Lemma beside_fd_sets_fd d d' : beside_fd_sets d' = beside_fd_sets d -> _fd d' = _fd d.
Proof. unfold beside_fd_sets. congruence. Qed.

Lemma beside_fd_sets_nfds d d' : beside_fd_sets d' = beside_fd_sets d -> _nfds d' = _nfds d.
Proof. unfold beside_fd_sets. congruence. Qed.

(** One descriptor of the loop, in one direction. *)
Lemma fire_if write fd (s : fd_set) w w' tr :
  (if FD_ISSET fd s then fire_fd write fd w else (w, [])) = (w', tr) ->
  beside_fd_sets (drv w') = beside_fd_sets (drv w) /\
  tr = map (act_trigger ph_fd)
           (if FD_ISSET fd s
            then option_list (idx (_fd (drv w)) (fd * 2 + (if write then 1 else 0)))
            else []) /\
  (forall b, FD_ISSET b (fset write (drv w')) =
             FD_ISSET b (fset write (drv w)) && negb (FD_ISSET fd s && Z.eqb fd b)) /\
  fset (negb write) (drv w') = fset (negb write) (drv w).
Proof.
  destruct (FD_ISSET fd s).
  - intros [-> ->]%fire_fd_drv. split; [now destruct write|]. split; [reflexivity|].
    split; [|now destruct write].
    intros b. cbn [andb]. rewrite <- clear_bit. now destruct write.
  - intros [= <- <-]. split; [reflexivity|]. split; [reflexivity|]. split; [|reflexivity].
    intros b. cbn [andb negb]. now rewrite andb_true_r.
Qed.

Lemma bit_step (x : bool) (s : fd_set) fd b n :
  fd < n ->
  x && negb (FD_ISSET fd s && Z.eqb fd b)
    && negb (FD_ISSET b s && Z.leb (fd + 1) b && Z.ltb b n)
  = x && negb (FD_ISSET b s && Z.leb fd b && Z.ltb b n).
Proof.
  intros Hn. destruct (Z.eqb_spec fd b) as [->|Hne].
  - destruct (FD_ISSET b s), (Z.leb_spec (b + 1) b), (Z.leb_spec b b), (Z.ltb_spec b n);
      try lia; now destruct x.
  - rewrite andb_false_r.
    destruct (FD_ISSET b s), (Z.leb_spec (fd + 1) b), (Z.leb_spec fd b), (Z.ltb_spec b n);
      try lia; now destruct x.
Qed.

(** The descriptor loop from descriptor [fd] on. *)
Lemma run_fds_from : forall fuel fd rfds wfds w w' tr,
  _nfds (drv w) - fd <= Z.of_nat fuel ->
  run_fds fuel fd rfds wfds w = (w', tr) ->
  tr = map (act_trigger ph_fd)
           (flat_map (ready_events (drv w) rfds wfds) (seqZ fd (_nfds (drv w) - fd))) /\
  (forall b, FD_ISSET b (_readfds (drv w')) =
             FD_ISSET b (_readfds (drv w)) &&
             negb (FD_ISSET b rfds && Z.leb fd b && Z.ltb b (_nfds (drv w)))) /\
  (forall b, FD_ISSET b (_writefds (drv w')) =
             FD_ISSET b (_writefds (drv w)) &&
             negb (FD_ISSET b wfds && Z.leb fd b && Z.ltb b (_nfds (drv w)))) /\
  beside_fd_sets (drv w') = beside_fd_sets (drv w).
Proof.
  assert (Hout : forall (x : bool) s fd b n, n <= fd ->
            x = x && negb (FD_ISSET b s && Z.leb fd b && Z.ltb b n)).
  { intros x s fd b n Hn.
    destruct (Z.leb_spec fd b), (Z.ltb_spec b n); try lia;
      now rewrite ?andb_false_r, ?andb_true_r. }
  induction fuel as [|fuel IH]; intros fd rfds wfds w w' tr Hfuel Hrun;
    cbn [run_fds] in Hrun.
  - injection Hrun as <- <-. rewrite seqZ_nil by lia.
    split; [reflexivity|]. split; [|split; [|reflexivity]]; intros b; apply Hout; lia.
  - destruct (Z.ltb_spec fd (_nfds (drv w))) as [Hlt|Hge].
    2:{ injection Hrun as <- <-. rewrite seqZ_nil by lia.
        split; [reflexivity|]. split; [|split; [|reflexivity]]; intros b; apply Hout; lia. }
    destruct (if FD_ISSET fd rfds then fire_fd false fd w else (w, [])) as [w1 tr1] eqn:H1.
    destruct (if FD_ISSET fd wfds then fire_fd true fd w1 else (w1, [])) as [w2 tr2] eqn:H2.
    destruct (run_fds fuel (fd + 1) rfds wfds w2) as [w3 tr3] eqn:H3.
    injection Hrun as <- <-.
    apply fire_if in H1 as (Hb1 & -> & Hr1 & Hw1).
    apply fire_if in H2 as (Hb2 & -> & Hw2 & Hr2).
    cbn [fset negb] in Hr1, Hw1, Hr2, Hw2.
    assert (Hb : beside_fd_sets (drv w2) = beside_fd_sets (drv w)) by congruence.
    pose proof (beside_fd_sets_fd _ _ Hb) as Hfd.
    pose proof (beside_fd_sets_nfds _ _ Hb) as Hnfds.
    pose proof (beside_fd_sets_fd _ _ Hb1) as Hfd1.
    apply IH in H3 as (-> & Hr3 & Hw3 & Hb3); [|lia].
    rewrite Hnfds in *.
    split; [|split; [|split]].
    + rewrite (seqZ_cons fd) by lia. cbn [flat_map]. rewrite map_app.
      assert (Hhead : ready_events (drv w) rfds wfds fd =
                (if FD_ISSET fd rfds then option_list (idx (_fd (drv w)) (fd * 2)) else []) ++
                (if FD_ISSET fd wfds then option_list (idx (_fd (drv w)) (fd * 2 + 1)) else []))
        by reflexivity.
      rewrite Hhead, map_app, <- !app_assoc, Hfd1.
      replace (Z.succ fd) with (fd + 1) by lia.
      replace (Z.pred (_nfds (drv w) - fd)) with (_nfds (drv w) - (fd + 1)) by lia.
      replace (fd * 2 + 0) with (fd * 2) by lia.
      do 3 f_equal. apply flat_map_ext. intros x. now apply ready_events_table.
    + intros b. rewrite Hr3, Hr2, Hr1. apply bit_step. lia.
    + intros b. rewrite Hw3, Hw2, Hw1. apply bit_step. lia.
    + congruence.
Qed.

Lemma fire_fd_empties write fd w w' tr e :
  fire_fd write fd w = (w', tr) -> act_trigger ph_fd e ∈ tr -> empty e w' = true.
Proof.
  unfold fire_fd. cbv zeta. destruct (idx _ _) as [x|]; intros [= <- <-] Hin.
  - apply list_elem_of_singleton in Hin. injection Hin as ->. apply simple_trigger_empties.
  - now apply elem_of_nil in Hin.
Qed.

Lemma fire_if_empties write fd (s : fd_set) w w' tr e :
  (if FD_ISSET fd s then fire_fd write fd w else (w, [])) = (w', tr) ->
  quiet w w' /\ (act_trigger ph_fd e ∈ tr -> empty e w' = true).
Proof.
  destruct (FD_ISSET fd s).
  - intros H. split; [now apply fire_fd_spec in H as (? & _)|].
    intros Hin. eapply fire_fd_empties; eassumption.
  - intros [= <- <-]. split; [apply quiet_refl|]. now intros ?%elem_of_nil.
Qed.

(** An event the loop triggered is empty when the loop ends. *)
Lemma run_fds_empties : forall fuel fd rfds wfds w w' tr e,
  run_fds fuel fd rfds wfds w = (w', tr) -> act_trigger ph_fd e ∈ tr -> empty e w' = true.
Proof.
  induction fuel as [|fuel IH]; intros fd rfds wfds w w' tr e Hrun Hin;
    cbn [run_fds] in Hrun.
  - injection Hrun as <- <-. now apply elem_of_nil in Hin.
  - destruct (Z.ltb fd (_nfds (drv w)));
      [|injection Hrun as <- <-; now apply elem_of_nil in Hin].
    destruct (if FD_ISSET fd rfds then fire_fd false fd w else (w, [])) as [w1 tr1] eqn:H1.
    destruct (if FD_ISSET fd wfds then fire_fd true fd w1 else (w1, [])) as [w2 tr2] eqn:H2.
    destruct (run_fds fuel (fd + 1) rfds wfds w2) as [w3 tr3] eqn:H3.
    injection Hrun as <- <-.
    apply (fire_if_empties _ _ _ _ _ _ e) in H1 as [_ He1].
    apply (fire_if_empties _ _ _ _ _ _ e) in H2 as [Hq2 He2].
    pose proof (run_fds_spec _ _ _ _ _ _ _ H3) as [Hq3 _].
    apply elem_of_app in Hin as [Hin|Hin]; [|apply elem_of_app in Hin as [Hin|Hin]].
    + eapply evolves_empty_stays; [apply (quiet_evolves _ _ _ Hq3)|].
      eapply evolves_empty_stays; [apply (quiet_evolves _ _ _ Hq2) | now apply He1].
    + eapply evolves_empty_stays; [apply (quiet_evolves _ _ _ Hq3) | now apply He2].
    + eapply IH; eassumption.
Qed.

(** X15.  The descriptor loop of [once()], for descriptors the select sets
    have a bit for ([_nfds <= FD_SETSIZE]): it goes through the descriptors
    below [_nfds] in increasing order and, for each, triggers the read event
    if [select] reported it readable and then the write event if [select]
    reported it writable.  Every event it triggers is empty when the loop
    ends, and if it was armed it has completed exactly once, with its
    values; no event is cancelled and none completes twice.  The bit of a
    descriptor that [select] reported is cleared in the driver's own set, so
    a descriptor that fired is not polled again until it is registered
    again; the bits that [select] did not report, and those of descriptors
    from [_nfds] on, stay as they were.  The table, [_nfds] and the rest of
    the driver are unchanged. *)
Theorem ready_descriptors_fire (w w' : world) (rfds wfds : fd_set) (tr : list action) :
  _nfds (drv w) <= FD_SETSIZE ->
  run_fds (Z.to_nat (_nfds (drv w))) 0 rfds wfds w = (w', tr) ->
  tr = map (act_trigger ph_fd)
           (flat_map (ready_events (drv w) rfds wfds) (seqZ 0 (_nfds (drv w)))) /\
  (forall e, act_trigger ph_fd e ∈ tr -> triggered e w w') /\
  (forall e, evolves e w w') /\
  none_cancelled w w' /\
  (forall fd, 0 <= fd < FD_SETSIZE ->
              FD_ISSET fd (_readfds (drv w')) =
              FD_ISSET fd (_readfds (drv w)) &&
              negb (FD_ISSET fd rfds && Z.ltb fd (_nfds (drv w)))) /\
  (forall fd, 0 <= fd < FD_SETSIZE ->
              FD_ISSET fd (_writefds (drv w')) =
              FD_ISSET fd (_writefds (drv w)) &&
              negb (FD_ISSET fd wfds && Z.ltb fd (_nfds (drv w)))) /\
  beside_fd_sets (drv w') = beside_fd_sets (drv w).
Proof.
  intros _ Hrun. pose proof (run_fds_spec _ _ _ _ _ _ _ Hrun) as [Hq _].
  pose proof (fun e => run_fds_empties _ _ _ _ _ _ _ e Hrun) as Hemp.
  apply run_fds_from in Hrun as (Htr & Hr & Hw & Hb); [|lia].
  rewrite Z.sub_0_r in Htr.
  assert (Hbit : forall (s : fd_set) b, FD_ISSET b s && Z.leb 0 b = FD_ISSET b s).
  { intros s b. destruct (Z.leb_spec 0 b); [apply andb_true_r|].
    unfold FD_ISSET. now rewrite Z.testbit_neg_r. }
  split; [exact Htr|]. split.
  { intros e He. split; [now apply Hemp|].
    split; [apply (quiet_evolves _ _ _ Hq) | apply (quiet_none_cancelled _ _ Hq)]. }
  split; [apply Hq|]. split; [apply (quiet_none_cancelled _ _ Hq)|].
  split; [|split; [|exact Hb]]; intros fd _.
  - now rewrite Hr, Hbit.
  - now rewrite Hw, Hbit.
Qed.

Lemma ready_descriptors_fire_witness :
  let w := Example.world_fds in
  let r := run_fds (Z.to_nat (_nfds (drv w))) 0 72 2 w in
  _nfds (drv w) <= FD_SETSIZE /\
  snd r = [act_trigger ph_fd 21%nat; act_trigger ph_fd 20%nat] /\
  _readfds (drv w) = 8 /\ _readfds (drv (fst r)) = 0 /\
  empty 20%nat w = false /\ triggered 20%nat w (fst r) /\
  beside_fd_sets (drv (fst r)) = beside_fd_sets (drv w).
Proof.
  intros w r.
  assert (Hn : _nfds (drv w) <= FD_SETSIZE) by (vm_compute; discriminate).
  split; [exact Hn|]. split; [vm_compute; reflexivity|]. split; [vm_compute; reflexivity|].
  split; [vm_compute; reflexivity|]. split; [vm_compute; reflexivity|].
  destruct (ready_descriptors_fire w (fst r) 72 2 (snd r) Hn (surjective_pairing r))
    as (Htr & Hfire & _ & _ & _ & _ & Hb).
  split; [|exact Hb]. apply Hfire. rewrite Htr. vm_compute.
  apply elem_of_cons. right. apply elem_of_cons. now left.
Defined.

End ReadyFds.
(** ** The value of an fd wrapper (tamer/fd.hh) *)

Module FdValue.
Import Fd.

Lemma observers_of_int (EBADF v : Z) :
  0 < EBADF ->
  value EBADF (fd_of_int EBADF v) = v /\
  error EBADF (fd_of_int EBADF v) = Z.min v 0 /\
  valid (fd_of_int EBADF v) = Z.leb 0 v.
Proof.
  intros HE. unfold value, error, valid, fd_of_int.
  destruct (Z.eqb_spec v (- EBADF)) as [->|Hne]; cbn [_p fd_].
  - repeat split; [lia|]. symmetry. apply Z.leb_gt. lia.
  - destruct (Z.leb_spec 0 v); repeat split; lia.
Qed.

(** X16.  [fd(int)] and [value()] are inverse to each other as far as the
    observers can tell, for a positive [EBADF]: [fd(v).value()] is [v] for
    every [v], including [-EBADF], for which no [fdimp] is allocated;
    [fd(v).error()] is [min(v, 0)] and [fd(v).valid()] is [v >= 0].
    Rebuilding a wrapper from its value, [fd(f.value())], gives one with
    the value, error and validity of [f], whether [f] is null or not. *)
Theorem fd_value_round_trip (EBADF v : Z) (f : fd) :
  0 < EBADF ->
  value EBADF (fd_of_int EBADF v) = v /\
  error EBADF (fd_of_int EBADF v) = Z.min v 0 /\
  valid (fd_of_int EBADF v) = Z.leb 0 v /\
  value EBADF (fd_of_int EBADF (value EBADF f)) = value EBADF f /\
  error EBADF (fd_of_int EBADF (value EBADF f)) = error EBADF f /\
  valid (fd_of_int EBADF (value EBADF f)) = valid f.
Proof.
  intros HE.
  destruct (observers_of_int EBADF v HE) as (Hv & He & Hb).
  destruct (observers_of_int EBADF (value EBADF f) HE) as (Hv' & He' & Hb').
  repeat split; try assumption.
  - rewrite He'. unfold value, error. destruct (_p f) as [p|]; [|lia].
    destruct (Z.leb_spec 0 (fd_ p)); lia.
  - rewrite Hb'. unfold value, valid. destruct (_p f) as [p|]; [reflexivity|].
    apply Z.leb_gt. lia.
Qed.

Lemma fd_value_round_trip_witness :
  value 9 (fd_of_int 9 (- 9)) = - 9 /\ error 9 (fd_of_int 9 (- 2)) = - 2 /\
  valid (fd_of_int 9 (value 9 (mk_fd (Some (mk_fdimp (- 9) 1 0))))) = false.
Proof.
  split; [exact (proj1 (fd_value_round_trip 9 (- 9) fd_default ltac:(lia)))|].
  split; [exact (proj1 (proj2 (fd_value_round_trip 9 (- 2) fd_default ltac:(lia))))|].
  exact (proj2 (proj2 (proj2 (proj2 (proj2
    (fd_value_round_trip 9 0 (mk_fd (Some (mk_fdimp (- 9) 1 0))) ltac:(lia))))))).
Defined.

End FdValue.
